(** * Stitch: planner, composer / executor, context builder and consolidator

    A shallow embedding of the stitching core of the repository together
    with the properties its specification states about it.

    - JavaScript objects used as string-keyed maps ([ObjMap]) are association
      lists in property-insertion order: that is the order [Object.entries]
      enumerates, response keys being GraphQL names (never integer-like).
    - A JavaScript [Map] or [Set] is an association list or a list in
      insertion order, which is the order the source iterates them in.
    - Exceptions are the [Throw] results of the [Result] monad.
    - The objects the Composer shares by reference live in an explicit heap. *)

From stdpp Require Import base list strings pretty.
From Stdlib Require Import Ascii ZArith Lia.
Set Warnings "-register-all".
Open Scope string_scope.
Open Scope list_scope.

(** ** Exceptions *)

Inductive Exn : Type :=
| JsError (message : string)              (* throw new Error(message) *)
| InvariantViolation (message : string)   (* invariant(false, message) *)
| TypeError (message : string)            (* property access on null / undefined *)
| FuelExhausted.                          (* the recursion bound of the model ran out *)

Inductive Result (A : Type) : Type :=
| Ok (a : A)
| Throw (e : Exn).
Arguments Ok {A} a.
Arguments Throw {A} e.

Notation "'do' x <- e ; k" :=
  (match e with Ok x => k | Throw err => Throw err end)
  (at level 10, x pattern, e at level 100, k at level 200).

Definition isOk {A} (r : Result A) : bool :=
  match r with Ok _ => true | Throw _ => false end.

(** A result that is not the model running out of fuel. *)
Definition Settles {A} (r : Result A) : Prop := r <> Throw FuelExhausted.

(** ** JavaScript values

    Arrays are objects: [VObj (Some elems) props] is an array with elements
    [elems] (and whatever named properties were attached to it), and
    [VObj None props] is a plain object.  Numbers are kept as integers. *)

Inductive Value : Type :=
| VNull
| VBool (b : bool)
| VNum (n : Z)
| VStr (s : string)
| VObj (elems : option (list Value)) (props : list (string * Value)).

Definition ObjMap : Type := list (string * Value).



(** How deep objects nest in a value. *)
Fixpoint vdepth (v : Value) : nat :=
  match v with
  | VObj elems props =>
      S (Nat.max
           (match elems with
            | Some es =>
                (fix each (es : list Value) : nat :=
                   match es with
                   | [] => 0
                   | e :: rest => Nat.max (vdepth e) (each rest)
                   end) es
            | None => 0
            end)
           ((fix each (ps : list (string * Value)) : nat :=
               match ps with
               | [] => 0
               | (_, x) :: rest => Nat.max (vdepth x) (each rest)
               end) props))
  | _ => 0
  end.

(** The deepest nesting among the elements of an array, and among the
    values of an object. *)
Definition listDepth (es : list Value) : nat :=
  foldr (fun e d => Nat.max (vdepth e) d) 0 es.

Definition propsDepth (ps : list (string * Value)) : nat :=
  foldr (fun kv d => Nat.max (vdepth (snd kv)) d) 0 ps.



Definition VMap (props : ObjMap) : Value := VObj None props.
Definition VArr (elems : list Value) : Value := VObj (Some elems) [].

(** [isObjectLike(v)]: [typeof v == 'object' && v !== null]. *)
Definition isObjectLike (v : option Value) : bool :=
  match v with Some (VObj _ _) => true | _ => false end.

Definition isArray (v : Value) : bool :=
  match v with VObj (Some _) _ => true | _ => false end.

(** [o[key]]: [None] is [undefined]. *)
Fixpoint getProp {A} (key : string) (o : list (string * A)) : option A :=
  match o with
  | [] => None
  | (k, v) :: rest => if String.eqb k key then Some v else getProp key rest
  end.

(** [o[key] = v]: an existing property keeps its place, a new one goes last. *)
Fixpoint setProp {A} (key : string) (v : A) (o : list (string * A)) : list (string * A) :=
  match o with
  | [] => [(key, v)]
  | (k, w) :: rest =>
      if String.eqb k key then (k, v) :: rest else (k, w) :: setProp key v rest
  end.

Definition keys {A} (o : list (string * A)) : list string := map fst o.

(** [Map.prototype.get] and [Map.prototype.set] on keys compared by identity. *)
Fixpoint mapGet {K V} `{EqDecision K} (key : K) (m : list (K * V)) : option V :=
  match m with
  | [] => None
  | (k, v) :: rest => if decide (k = key) then Some v else mapGet key rest
  end.

Fixpoint mapSet {K V} `{EqDecision K} (key : K) (v : V) (m : list (K * V)) : list (K * V) :=
  match m with
  | [] => [(key, v)]
  | (k, w) :: rest =>
      if decide (k = key) then (k, v) :: rest else (k, w) :: mapSet key v rest
  end.

Definition isEmpty {A} (l : list A) : bool :=
  match l with [] => true | _ => false end.

(** Modelled from the spec: [appendToArray] and [emptyArray] of
    utilities/appendToArray (not among the sources).  The specification
    reads its calls as "append" (a field is appended to the field nodes of a
    subschema plan), and its second scenario shows the field a selection
    split adds after the selections already there. *)
Definition appendToArray {A} (arr : list A) (item : A) : list A := arr ++ [item].
Definition emptyArray {A} : list A := [].

(** The double-quote character, for messages that quote a name. *)
Definition dquote : string := String "034"%char EmptyString.

(** ** Errors and execution results *)

Record GraphQLError : Type := mkGraphQLError {
  message : string;
  originalError : option string
}.

Definition newGraphQLError (msg : string) : GraphQLError := mkGraphQLError msg None.

(** [data = None] stands for [null] and for [undefined] alike: the source
    only ever tests [result.data == null]. [errors = None] is an absent or
    [null] [errors] entry. *)
Record ExecutionResult : Type := mkResult {
  data : option ObjMap;
  errors : option (list GraphQLError)
}.

Inductive Settlement (A : Type) : Type :=
| Fulfilled (a : A)
| Rejected (errMessage : string).
Arguments Fulfilled {A} a.
Arguments Rejected {A} errMessage.

Inductive PromiseOrValue (A : Type) : Type :=
| Now (a : A)
| Later (settles : Settlement A).
Arguments Now {A} a.
Arguments Later {A} settles.

(** A subschema is an opaque handle compared by identity. *)
Definition Subschema : Type := nat.

(** ** The parsed document and the type system, as consumed from graphql-js *)

Module GraphQL.

Inductive TypeKind : Type :=
| ScalarKind | ObjectKind | InterfaceKind | UnionKind | EnumKind | InputObjectKind.

Record GraphQLType : Type := mkType { type_name : string; type_kind : TypeKind }.

#[global] Instance TypeKind_eq_dec : EqDecision TypeKind.
Proof. solve_decision. Defined.
#[global] Instance GraphQLType_eq_dec : EqDecision GraphQLType.
Proof. solve_decision. Defined.

(** The predicates take [option]: the source applies them to lookups that
    may have produced [undefined]. *)
Definition isObjectType (t : option GraphQLType) : bool :=
  match t with Some (mkType _ ObjectKind) => true | _ => false end.

Definition isAbstractType (t : option GraphQLType) : bool :=
  match t with
  | Some (mkType _ InterfaceKind) | Some (mkType _ UnionKind) => true
  | _ => false
  end.

Definition isCompositeType (t : option GraphQLType) : bool :=
  match t with
  | Some (mkType _ ObjectKind) | Some (mkType _ InterfaceKind)
  | Some (mkType _ UnionKind) => true
  | _ => false
  end.

Inductive TypeRef : Type :=
| NamedRef (t : GraphQLType)
| ListRef (ofType : TypeRef)
| NonNullRef (ofType : TypeRef).

Fixpoint getNamedType (t : TypeRef) : GraphQLType :=
  match t with
  | NamedRef n => n
  | ListRef o | NonNullRef o => getNamedType o
  end.

Record GraphQLField : Type := mkFieldDef { fieldDef_name : string; fieldDef_type : TypeRef }.

(** Argument values and directive arguments are carried along untouched. *)
Definition Argument : Type := string * string.
Definition Directive : Type := string * list Argument.

Inductive SelectionNode : Type :=
| FieldSel (alias : option string) (name : string) (arguments : list Argument)
    (directives : list Directive) (selectionSet : option (list SelectionNode))
| InlineFragmentSel (typeCondition : option string) (directives : list Directive)
    (selections : list SelectionNode)
| FragmentSpreadSel (name : string) (directives : list Directive).

Record FieldNode : Type := mkFieldNode {
  alias : option string;
  name : string;
  arguments : list Argument;
  directives : list Directive;
  selectionSet : option (list SelectionNode)
}.

Definition fieldSelection (f : FieldNode) : SelectionNode :=
  FieldSel (alias f) (name f) (arguments f) (directives f) (selectionSet f).

(** [{ ...field, selectionSet: { kind, selections } }] *)
Definition withSelectionSet (f : FieldNode) (selections : list SelectionNode) : FieldNode :=
  {| alias := alias f; name := name f; arguments := arguments f;
     directives := directives f; selectionSet := Some selections |}.

(** How deep a selection nests selection sets: a fragment does not add a
    level, a field with a selection set adds one. *)
Fixpoint selectionDepth (selection : SelectionNode) : nat :=
  match selection with
  | FieldSel _ _ _ _ None => 0
  | FieldSel _ _ _ _ (Some selections) =>
      S ((fix deepest (sels : list SelectionNode) : nat :=
            match sels with
            | [] => 0
            | s :: rest => Nat.max (selectionDepth s) (deepest rest)
            end) selections)
  | InlineFragmentSel _ _ selections =>
      (fix deepest (sels : list SelectionNode) : nat :=
         match sels with
         | [] => 0
         | s :: rest => Nat.max (selectionDepth s) (deepest rest)
         end) selections
  | FragmentSpreadSel _ _ => 0
  end.

Definition selectionsDepth (selections : list SelectionNode) : nat :=
  foldr (fun s d => Nat.max (selectionDepth s) d) 0 selections.

Definition fieldDepth (field : FieldNode) : nat := selectionDepth (fieldSelection field).

Inductive OperationTypeNode : Type := QUERY | MUTATION | SUBSCRIPTION.

Definition VariableDefinitionNode : Type := string * string.

Record OperationDefinitionNode : Type := mkOperation {
  operation : OperationTypeNode;
  op_name : option string;
  variableDefinitions : option (list VariableDefinitionNode);
  op_directives : option (list Directive);
  op_selections : list SelectionNode
}.

Record FragmentDefinitionNode : Type := mkFragment {
  frag_name : string;
  frag_typeCondition : string;
  frag_directives : list Directive;
  frag_selections : list SelectionNode
}.

Inductive DefinitionNode : Type :=
| OperationDefinition (op : OperationDefinitionNode)
| FragmentDefinition (fragment : FragmentDefinitionNode)
| TypeSystemDefinition (printed : string).

Record DocumentNode : Type := mkDocument { definitions : list DefinitionNode }.

Definition TypeNameMetaFieldDef_name : string := "__typename".

End GraphQL.
Import GraphQL.

(** ** SuperSchema *)

(** A set in [subschemaSetsByTypeAndField] is created by
    [_addToSubschemaSets] together with its first member, so it is never
    empty; members are kept in insertion order. *)
Record SubschemaSet : Type := mkSet {
  firstSubschema : Subschema;
  otherSubschemas : list Subschema
}.

Definition members (s : SubschemaSet) : list Subschema :=
  firstSubschema s :: otherSubschemas s.

Definition setHas (s : SubschemaSet) (x : Subschema) : bool :=
  bool_decide (x ∈ members s).

(** Modelled from the spec: the lookups of the SuperSchema class that the
    Planner and the Composer call ([getFieldDef], [getPossibleTypes], the
    merged schema's type lookup and [isSubType]); the class of this revision
    is not among the sources.  [subschemaSetsByTypeAndField], [mergedTypes]
    and [mergedRootTypes] are the tables the constructor fills. *)
Record SuperSchema : Type := mkSuperSchema {
  subschemaSetsByTypeAndField : list (string * list (string * SubschemaSet));
  mergedTypes : list (string * GraphQLType);
  mergedRootTypes : OperationTypeNode -> option GraphQLType;
  getFieldDef : GraphQLType -> string -> option GraphQLField;
  getPossibleTypes : GraphQLType -> list GraphQLType;
  schemaGetType : string -> option GraphQLType;
  schemaIsSubType : GraphQLType -> GraphQLType -> bool
}.

Definition getType (ss : SuperSchema) (typeName : string) : option GraphQLType :=
  getProp typeName (mergedTypes ss).

Definition getRootType (ss : SuperSchema) (op : OperationTypeNode) : option GraphQLType :=
  mergedRootTypes ss op.

(** ** Executor (src/stitch/Executor.ts) *)

Module Executor.

(** [_deepMerge(fields, key, value)].  The recursion writes into the object
    held at [fields[key]], which stays where it is in [fields]. *)
Fixpoint _deepMerge (fields : ObjMap) (key : string) (value : Value)
    {struct value} : ObjMap :=
  match value with
  | VObj None entries =>
      match getProp key fields with
      | Some (VObj e subFields) =>
          setProp key
            (VObj e
               ((fix each (es : list (string * Value)) (sub : ObjMap) : ObjMap :=
                   match es with
                   | [] => sub
                   | (subKey, subValue) :: es' =>
                       each es' (_deepMerge sub subKey subValue)
                   end) entries subFields))
            fields
      | _ => setProp key value fields
      end
  | _ => setProp key value fields
  end.

(** The loop of [_handleInitialResult]:
    [for (const [key, value] of Object.entries(result.data))
       this._deepMerge(fields, key, value)]. *)
Fixpoint deepMergeAll (fields : ObjMap) (data : ObjMap) : ObjMap :=
  match data with
  | [] => fields
  | (key, value) :: rest => deepMergeAll (_deepMerge fields key value) rest
  end.



Record Executor : Type := mkExecutor {
  operation : OperationDefinitionNode;
  fragments : list FragmentDefinitionNode
}.

(** [_createDocument(selections)]: the operation is spread and only its
    selection set replaced; the fragments follow. *)
Definition _createDocument (this : Executor) (selections : list SelectionNode)
    : DocumentNode :=
  mkDocument
    (OperationDefinition
       (mkOperation (GraphQL.operation (operation this)) (op_name (operation this))
          (variableDefinitions (operation this)) (op_directives (operation this))
          selections)
     :: map FragmentDefinition (fragments this)).

End Executor.

(** ** Planner (src/stitch/Planner.ts) *)

Module Planner.

Inductive FieldPlan : Type :=
| mkFieldPlan (subschemaPlans : list SubschemaPlan)
    (stitchPlans : list (string * list (GraphQLType * FieldPlan)))
with SubschemaPlan : Type :=
| mkSubschemaPlan (toSubschema : Subschema) (fromSubschema : option Subschema)
    (fieldNodes : list FieldNode)
    (stitchPlans : list (string * list (GraphQLType * FieldPlan))).

Definition StitchPlan : Type := list (GraphQLType * FieldPlan).

Definition subschemaPlans (p : FieldPlan) : list SubschemaPlan :=
  match p with mkFieldPlan sps _ => sps end.
Definition stitchPlans (p : FieldPlan) : list (string * StitchPlan) :=
  match p with mkFieldPlan _ sts => sts end.
Definition toSubschema (p : SubschemaPlan) : Subschema :=
  match p with mkSubschemaPlan t _ _ _ => t end.
Definition fromSubschema (p : SubschemaPlan) : option Subschema :=
  match p with mkSubschemaPlan _ f _ _ => f end.
Definition fieldNodes (p : SubschemaPlan) : list FieldNode :=
  match p with mkSubschemaPlan _ _ fns _ => fns end.
Definition planStitchPlans (p : SubschemaPlan) : list (string * StitchPlan) :=
  match p with mkSubschemaPlan _ _ _ sts => sts end.

Record MutableFieldPlan : Type := mkMutableFieldPlan {
  m_subschemaPlans : list (Subschema * SubschemaPlan);
  m_stitchPlans : list (string * StitchPlan)
}.

Record SelectionSplit : Type := mkSplit {
  ownSelections : list SelectionNode;
  otherSelections : list SelectionNode
}.

Definition _doesFragmentConditionMatch (ss : SuperSchema)
    (typeCondition : option string) (type : GraphQLType) : bool :=
  match typeCondition with
  | None => true
  | Some typeConditionNode =>
      let conditionalType := schemaGetType ss typeConditionNode in
      if bool_decide (conditionalType = Some type) then true
      else if isAbstractType conditionalType then
        match conditionalType with
        | Some abstractType => schemaIsSubType ss abstractType type
        | None => false
        end
      else false
  end.

Fixpoint collectSelection (ss : SuperSchema) (runtimeType : GraphQLType)
    (selection : SelectionNode) (newFieldNodes : list FieldNode)
    {struct selection} : Result (list FieldNode) :=
  match selection with
  | FieldSel a n args dirs sel =>
      Ok (appendToArray newFieldNodes (mkFieldNode a n args dirs sel))
  | InlineFragmentSel typeCondition _ selections =>
      if negb (_doesFragmentConditionMatch ss typeCondition runtimeType)
      then Ok newFieldNodes
      else
        (fix each (sels : list SelectionNode) (acc : list FieldNode)
           : Result (list FieldNode) :=
           match sels with
           | [] => Ok acc
           | s :: rest =>
               do acc' <- collectSelection ss runtimeType s acc;
               each rest acc'
           end) selections newFieldNodes
  | FragmentSpreadSel _ _ =>
      Throw (JsError "Unexpected fragment spread in selection set.")
  end.

Fixpoint _collectSubFieldsImpl (ss : SuperSchema) (runtimeType : GraphQLType)
    (selections : list SelectionNode) (fieldNodes : list FieldNode)
    : Result (list FieldNode) :=
  match selections with
  | [] => Ok fieldNodes
  | selection :: rest =>
      do newFieldNodes <- collectSelection ss runtimeType selection fieldNodes;
      _collectSubFieldsImpl ss runtimeType rest newFieldNodes
  end.

Definition _collectSubFields (ss : SuperSchema) (runtimeType : GraphQLType)
    (selections : list SelectionNode) : Result (list FieldNode) :=
  _collectSubFieldsImpl ss runtimeType selections emptyArray.

Definition newSubschemaPlan (subschema : Subschema) (fromSubschema : option Subschema)
    : SubschemaPlan :=
  mkSubschemaPlan subschema fromSubschema emptyArray [].

Fixpoint firstWithPlan (candidates : list Subschema)
    (subschemaPlans : list (Subschema * SubschemaPlan))
    : option (Subschema * SubschemaPlan) :=
  match candidates with
  | [] => None
  | subschema :: rest =>
      match mapGet subschema subschemaPlans with
      | Some subschemaPlan => Some (subschema, subschemaPlan)
      | None => firstWithPlan rest subschemaPlans
      end
  end.

Definition _getSubschemaAndPlan (subschemas : SubschemaSet)
    (subschemaPlans : list (Subschema * SubschemaPlan))
    (fromSubschema : option Subschema)
    : Subschema * SubschemaPlan * list (Subschema * SubschemaPlan) :=
  match firstWithPlan (members subschemas) subschemaPlans with
  | Some (subschema, subschemaPlan) => (subschema, subschemaPlan, subschemaPlans)
  | None =>
      let subschema := firstSubschema subschemas in
      let subschemaPlan := newSubschemaPlan subschema fromSubschema in
      (subschema, subschemaPlan, mapSet subschema subschemaPlan subschemaPlans)
  end.

Definition _getSubschema (subschemas : SubschemaSet)
    (subschemaPlans : list (Subschema * SubschemaPlan)) : Subschema :=
  match firstWithPlan (members subschemas) subschemaPlans with
  | Some (subschema, _) => subschema
  | None => firstSubschema subschemas
  end.

Definition _getSubschemaPlan (subschema : Subschema)
    (subschemaPlans : list (Subschema * SubschemaPlan))
    (fromSubschema : option Subschema)
    : SubschemaPlan * list (Subschema * SubschemaPlan) :=
  match mapGet subschema subschemaPlans with
  | Some subschemaPlan => (subschemaPlan, subschemaPlans)
  | None =>
      let subschemaPlan := newSubschemaPlan subschema fromSubschema in
      (subschemaPlan, mapSet subschema subschemaPlan subschemaPlans)
  end.

Definition stitchingTypenameField : SelectionNode :=
  FieldSel (Some "__stitching__typename") TypeNameMetaFieldDef_name [] [] None.



Section SelectionSplitBody.
Context (ss : SuperSchema) (subschema : Subschema) (fromSubschema : option Subschema).
Context (_processSelectionsForSelectionSplit :
           SelectionSplit -> GraphQLType -> list SelectionNode -> Result SelectionSplit).

Definition createSelectionSplitWith (parentType : GraphQLType)
    (selections : list SelectionNode) : Result SelectionSplit :=
  do selectionSplit <-
     _processSelectionsForSelectionSplit (mkSplit emptyArray emptyArray)
       parentType selections;
  if bool_decide (fromSubschema = None)
     && negb (isEmpty (otherSelections selectionSplit))
  then Ok (mkSplit (appendToArray (ownSelections selectionSplit) stitchingTypenameField)
                   (otherSelections selectionSplit))
  else Ok selectionSplit.

Definition addFieldToSelectionSplitWith (selectionSplit : SelectionSplit)
    (parentType : GraphQLType) (field : FieldNode) : Result SelectionSplit :=
  match getProp (type_name parentType) (subschemaSetsByTypeAndField ss) with
  | None => Throw (TypeError "Cannot read properties of undefined")
  | Some subschemaSetsByField =>
      match getProp (name field) subschemaSetsByField with
      | None => Ok selectionSplit
      | Some subschemaSet =>
          match selectionSet field with
          | None =>
              if setHas subschemaSet subschema
              then Ok (mkSplit (appendToArray (ownSelections selectionSplit)
                                  (fieldSelection field))
                               (otherSelections selectionSplit))
              else Ok (mkSplit (ownSelections selectionSplit)
                               (appendToArray (otherSelections selectionSplit)
                                  (fieldSelection field)))
          | Some selections =>
              match getFieldDef ss parentType (name field) with
              | None => Ok selectionSplit
              | Some fieldDef =>
                  do subSelectionSplit <-
                     createSelectionSplitWith (getNamedType (fieldDef_type fieldDef))
                       selections;
                  let own :=
                    if negb (isEmpty (ownSelections subSelectionSplit))
                    then appendToArray (ownSelections selectionSplit)
                           (fieldSelection
                              (withSelectionSet field (ownSelections subSelectionSplit)))
                    else ownSelections selectionSplit in
                  let other :=
                    if negb (isEmpty (otherSelections subSelectionSplit))
                    then appendToArray (otherSelections selectionSplit)
                           (fieldSelection
                              (withSelectionSet field (otherSelections subSelectionSplit)))
                    else otherSelections selectionSplit in
                  Ok (mkSplit own other)
              end
          end
      end
  end.

Definition addFragmentToSelectionSplitWith (selectionSplit : SelectionSplit)
    (parentType : GraphQLType) (typeCondition : option string)
    (dirs : list Directive) (selections : list SelectionNode) : Result SelectionSplit :=
  do fragmentSelectionSplit <-
     _processSelectionsForSelectionSplit (mkSplit emptyArray emptyArray)
       parentType selections;
  let own :=
    if negb (isEmpty (ownSelections fragmentSelectionSplit))
    then appendToArray (ownSelections selectionSplit)
           (InlineFragmentSel typeCondition dirs (ownSelections fragmentSelectionSplit))
    else ownSelections selectionSplit in
  let other :=
    if negb (isEmpty (otherSelections fragmentSelectionSplit))
    then appendToArray (otherSelections selectionSplit)
           (InlineFragmentSel typeCondition dirs (otherSelections fragmentSelectionSplit))
    else otherSelections selectionSplit in
  Ok (mkSplit own other).
End SelectionSplitBody.

Fixpoint splitSelection (ss : SuperSchema) (subschema : Subschema)
    (fromSubschema : option Subschema) (selectionSplit : SelectionSplit)
    (parentType : GraphQLType) (selection : SelectionNode)
    {struct selection} : Result SelectionSplit :=
  let process :=
    fix process (acc : SelectionSplit) (parentType : GraphQLType)
        (sels : list SelectionNode) {struct sels} : Result SelectionSplit :=
      match sels with
      | [] => Ok acc
      | s :: rest =>
          do acc' <- splitSelection ss subschema fromSubschema acc parentType s;
          process acc' parentType rest
      end in
  match selection with
  | FieldSel a n args dirs sel =>
      addFieldToSelectionSplitWith ss subschema fromSubschema process
        selectionSplit parentType (mkFieldNode a n args dirs sel)
  | InlineFragmentSel typeCondition dirs selections =>
      let refinedType :=
        match typeCondition with
        | Some typeName => getType ss typeName
        | None => Some parentType
        end in
      match refinedType with
      | Some refined =>
          if isCompositeType refinedType
          then addFragmentToSelectionSplitWith process selectionSplit refined
                 typeCondition dirs selections
          else Throw (InvariantViolation "Invalid type condition")
      | None => Throw (InvariantViolation "Invalid type condition")
      end
  | FragmentSpreadSel _ _ =>
      Throw (JsError "Unexpected fragment spread in selection set.")
  end.

Fixpoint _processSelectionsForSelectionSplit (ss : SuperSchema) (subschema : Subschema)
    (fromSubschema : option Subschema) (selectionSplit : SelectionSplit)
    (parentType : GraphQLType) (selections : list SelectionNode)
    : Result SelectionSplit :=
  match selections with
  | [] => Ok selectionSplit
  | selection :: rest =>
      do selectionSplit' <-
         splitSelection ss subschema fromSubschema selectionSplit parentType selection;
      _processSelectionsForSelectionSplit ss subschema fromSubschema selectionSplit'
        parentType rest
  end.

Definition _createSelectionSplit (ss : SuperSchema) (parentType : GraphQLType)
    (selections : list SelectionNode) (subschema : Subschema)
    (fromSubschema : option Subschema) : Result SelectionSplit :=
  createSelectionSplitWith fromSubschema
    (_processSelectionsForSelectionSplit ss subschema fromSubschema)
    parentType selections.

Definition _addFieldToSelectionSplit (ss : SuperSchema) (selectionSplit : SelectionSplit)
    (subschema : Subschema) (fromSubschema : option Subschema)
    (parentType : GraphQLType) (field : FieldNode) : Result SelectionSplit :=
  addFieldToSelectionSplitWith ss subschema fromSubschema
    (_processSelectionsForSelectionSplit ss subschema fromSubschema)
    selectionSplit parentType field.

Definition _addFragmentToSelectionSplit (ss : SuperSchema) (selectionSplit : SelectionSplit)
    (subschema : Subschema) (fromSubschema : option Subschema)
    (parentType : GraphQLType) (typeCondition : option string)
    (dirs : list Directive) (selections : list SelectionNode) : Result SelectionSplit :=
  addFragmentToSelectionSplitWith
    (_processSelectionsForSelectionSplit ss subschema fromSubschema)
    selectionSplit parentType typeCondition dirs selections.

Definition snapshot (fieldPlan : MutableFieldPlan) : FieldPlan :=
  mkFieldPlan (map snd (m_subschemaPlans fieldPlan)) (m_stitchPlans fieldPlan).

Definition emptyMutableFieldPlan : MutableFieldPlan := mkMutableFieldPlan [] [].

Definition isNonEmptyPlan (fieldPlan : FieldPlan) : bool :=
  negb (isEmpty (subschemaPlans fieldPlan)) || negb (isEmpty (stitchPlans fieldPlan)).

Definition responseKey (field : FieldNode) : string :=
  match alias field with Some a => a | None => name field end.

Definition appendFieldNode (subschemaPlan : SubschemaPlan) (field : FieldNode) : SubschemaPlan :=
  mkSubschemaPlan (toSubschema subschemaPlan) (fromSubschema subschemaPlan)
    (appendToArray (fieldNodes subschemaPlan) field) (planStitchPlans subschemaPlan).

Definition setStitchPlan (subschemaPlan : SubschemaPlan) (key : string)
    (stitchPlan : StitchPlan) : SubschemaPlan :=
  mkSubschemaPlan (toSubschema subschemaPlan) (fromSubschema subschemaPlan)
    (fieldNodes subschemaPlan) (setProp key stitchPlan (planStitchPlans subschemaPlan)).

Section FieldPlanBody.
Context (ss : SuperSchema).
Context (_addFieldToFieldPlan :
           MutableFieldPlan -> option Subschema -> GraphQLType -> FieldNode ->
           Result MutableFieldPlan).

Fixpoint addFieldsWith (fieldPlan : MutableFieldPlan) (fromSubschema : option Subschema)
    (parentType : GraphQLType) (fieldNodes : list FieldNode) : Result MutableFieldPlan :=
  match fieldNodes with
  | [] => Ok fieldPlan
  | fieldNode :: rest =>
      do fieldPlan' <- _addFieldToFieldPlan fieldPlan fromSubschema parentType fieldNode;
      addFieldsWith fieldPlan' fromSubschema parentType rest
  end.

Definition createFieldPlanWith (parentType : GraphQLType)
    (fieldNodes : list FieldNode) : Result FieldPlan :=
  do fieldPlan <- addFieldsWith emptyMutableFieldPlan None parentType fieldNodes;
  Ok (snapshot fieldPlan).

Definition createSupplementalFieldPlanWith (parentType : GraphQLType)
    (fieldNodes : list FieldNode) (fromSubschema : Subschema) : Result FieldPlan :=
  do fieldPlan <-
     addFieldsWith emptyMutableFieldPlan (Some fromSubschema) parentType fieldNodes;
  Ok (snapshot fieldPlan).

Fixpoint stitchPlanLoop (possibleTypes : list GraphQLType)
    (otherSelections : list SelectionNode) (subschema : Subschema)
    (stitchPlan : StitchPlan) : Result StitchPlan :=
  match possibleTypes with
  | [] => Ok stitchPlan
  | type :: rest =>
      do fieldNodes <- _collectSubFields ss type otherSelections;
      do fieldPlan <- createSupplementalFieldPlanWith type fieldNodes subschema;
      stitchPlanLoop rest otherSelections subschema
        (if isNonEmptyPlan fieldPlan then mapSet type fieldPlan stitchPlan
         else stitchPlan)
  end.

Definition possibleTypesOf (parentType : GraphQLType) : list GraphQLType :=
  if isAbstractType (Some parentType) then getPossibleTypes ss parentType
  else [parentType].

Definition createStitchPlanWith (parentType : GraphQLType)
    (otherSelections : list SelectionNode) (subschema : Subschema) : Result StitchPlan :=
  stitchPlanLoop (possibleTypesOf parentType) otherSelections subschema [].

Definition addFieldToFieldPlanWith (fieldPlan : MutableFieldPlan)
    (fromSubschema : option Subschema) (parentType : GraphQLType)
    (field : FieldNode) : Result MutableFieldPlan :=
  match getProp (type_name parentType) (subschemaSetsByTypeAndField ss) with
  | None => Throw (TypeError "Cannot read properties of undefined")
  | Some subschemaSetsByField =>
      match getProp (name field) subschemaSetsByField with
      | None => Ok fieldPlan
      | Some subschemas =>
          let subschemaPlans := m_subschemaPlans fieldPlan in
          match selectionSet field with
          | None =>
              let '(subschema, subschemaPlan, subschemaPlans') :=
                _getSubschemaAndPlan subschemas subschemaPlans fromSubschema in
              Ok (mkMutableFieldPlan
                    (mapSet subschema (appendFieldNode subschemaPlan field) subschemaPlans')
                    (m_stitchPlans fieldPlan))
          | Some selections =>
              match getFieldDef ss parentType (name field) with
              | None => Ok fieldPlan
              | Some fieldDef =>
                  let namedFieldType := getNamedType (fieldDef_type fieldDef) in
                  let subschema := _getSubschema subschemas subschemaPlans in
                  do selectionSplit <-
                     _createSelectionSplit ss namedFieldType selections subschema
                       fromSubschema;
                  do stitchPlan <-
                     createStitchPlanWith namedFieldType
                       (otherSelections selectionSplit) subschema;
                  if negb (isEmpty (ownSelections selectionSplit)) then
                    let '(subschemaPlan, subschemaPlans') :=
                      _getSubschemaPlan subschema subschemaPlans fromSubschema in
                    let splitField :=
                      withSelectionSet field (ownSelections selectionSplit) in
                    let subschemaPlan' := appendFieldNode subschemaPlan splitField in
                    if negb (isEmpty stitchPlan) then
                      if bool_decide (Some subschema = fromSubschema) then
                        Ok (mkMutableFieldPlan
                              (mapSet subschema subschemaPlan' subschemaPlans')
                              (setProp (responseKey field) stitchPlan
                                 (m_stitchPlans fieldPlan)))
                      else
                        Ok (mkMutableFieldPlan
                              (mapSet subschema
                                 (setStitchPlan subschemaPlan' (responseKey field)
                                    stitchPlan)
                                 subschemaPlans')
                              (m_stitchPlans fieldPlan))
                    else
                      Ok (mkMutableFieldPlan
                            (mapSet subschema subschemaPlan' subschemaPlans')
                            (m_stitchPlans fieldPlan))
                  else if negb (isEmpty stitchPlan) then
                    if bool_decide (Some subschema = fromSubschema) then
                      Ok (mkMutableFieldPlan subschemaPlans
                            (setProp (responseKey field) stitchPlan
                               (m_stitchPlans fieldPlan)))
                    else
                      let '(subschema', subschemaPlan, subschemaPlans') :=
                        _getSubschemaAndPlan subschemas subschemaPlans fromSubschema in
                      Ok (mkMutableFieldPlan
                            (mapSet subschema'
                               (setStitchPlan subschemaPlan (responseKey field) stitchPlan)
                               subschemaPlans')
                            (m_stitchPlans fieldPlan))
                  else Ok fieldPlan
              end
          end
      end
  end.
End FieldPlanBody.

Fixpoint _addFieldToFieldPlan (fuel : nat) (ss : SuperSchema)
    (fieldPlan : MutableFieldPlan) (fromSubschema : option Subschema)
    (parentType : GraphQLType) (field : FieldNode) : Result MutableFieldPlan :=
  match fuel with
  | O => Throw FuelExhausted
  | S fuel' =>
      addFieldToFieldPlanWith ss (_addFieldToFieldPlan fuel' ss)
        fieldPlan fromSubschema parentType field
  end.

Definition _createFieldPlanImpl (fuel : nat) (ss : SuperSchema) :=
  createFieldPlanWith (_addFieldToFieldPlan fuel ss).
Definition _createSupplementalFieldPlanImpl (fuel : nat) (ss : SuperSchema) :=
  createSupplementalFieldPlanWith (_addFieldToFieldPlan fuel ss).
Definition _createStitchPlan (fuel : nat) (ss : SuperSchema) :=
  createStitchPlanWith ss (_addFieldToFieldPlan fuel ss).

(** *** What the statements about depth and fuel are phrased with *)

Definition Shallow (d : nat) (fieldNodes : list FieldNode) : Prop :=
  Forall (fun f => fieldDepth f <= d) fieldNodes.

Definition ShallowSplit (d : nat) (selectionSplit : SelectionSplit) : Prop :=
  selectionsDepth (ownSelections selectionSplit) <= d /\
  selectionsDepth (otherSelections selectionSplit) <= d.

(** Processing nested selections adds nothing deeper than they are. *)
Definition KeepsShallow
    (process : SelectionSplit -> GraphQLType -> list SelectionNode -> Result SelectionSplit)
    (sels : list SelectionNode) : Prop :=
  forall d acc parentType acc',
    selectionsDepth sels <= d -> ShallowSplit d acc ->
    process acc parentType sels = Ok acc' -> ShallowSplit d acc'.

(** The recursive call has fuel enough for fields of depth [d] at most. *)
Definition SettlesUpTo
    (rec : MutableFieldPlan -> option Subschema -> GraphQLType -> FieldNode ->
           Result MutableFieldPlan)
    (d : nat) : Prop :=
  forall fieldPlan fromSubschema parentType field,
    fieldDepth field <= d -> Settles (rec fieldPlan fromSubschema parentType field).

(** Two recursive calls do the same on fields of depth [d] at most. *)
Definition AgreeUpTo
    (rec rec' : MutableFieldPlan -> option Subschema -> GraphQLType -> FieldNode ->
                Result MutableFieldPlan)
    (d : nat) : Prop :=
  forall fieldPlan fromSubschema parentType field,
    fieldDepth field <= d ->
    rec fieldPlan fromSubschema parentType field
    = rec' fieldPlan fromSubschema parentType field.

(** The stitch plans a mutable field plan holds for one subschema. *)
Definition stitchPlansFor (subschema : Subschema) (fieldPlan : MutableFieldPlan)
    : list (string * StitchPlan) :=
  match mapGet subschema (m_subschemaPlans fieldPlan) with
  | Some subschemaPlan => planStitchPlans subschemaPlan
  | None => []
  end.

End Planner.

(** ** Composer (the Composer class of src/unnamed/part_001) *)

Module Composer.

(** *** Plans, as the Composer reads them

    Modelled from the spec: the [StitchTree] / [FieldPlan] declarations this
    revision of the Composer imports from its Planner, which is not among the
    sources.  The shapes are those the Composer destructures: a stitch tree
    maps an object type to a field plan, a field plan is iterated as
    [[subschema, subschemaPlan]] pairs and carries nested stitch trees. *)
Inductive StitchTree : Type :=
| mkStitchTree (fieldPlans : list (GraphQLType * FieldPlan))
with FieldPlan : Type :=
| mkFieldPlan (subschemaPlans : list (Subschema * SubschemaPlan))
    (stitchTrees : list (string * StitchTree))
with SubschemaPlan : Type :=
| mkSubschemaPlan (fieldNodes : list FieldNode)
    (stitchTrees : option (list (string * StitchTree))).

Definition fieldPlans (t : StitchTree) : list (GraphQLType * FieldPlan) :=
  match t with mkStitchTree fps => fps end.
Definition subschemaPlans (p : FieldPlan) : list (Subschema * SubschemaPlan) :=
  match p with mkFieldPlan sps _ => sps end.
Definition stitchTrees (p : FieldPlan) : list (string * StitchTree) :=
  match p with mkFieldPlan _ sts => sts end.
Definition fieldNodes (p : SubschemaPlan) : list FieldNode :=
  match p with mkSubschemaPlan fns _ => fns end.
Definition planStitchTrees (p : SubschemaPlan) : option (list (string * StitchTree)) :=
  match p with mkSubschemaPlan _ sts => sts end.

(** A subschema plan somewhere in a stitch tree: in one of its field plans,
    or in a stitch tree nested in one of them. *)
Inductive PlanIn (plan : Subschema * SubschemaPlan) : StitchTree -> Prop :=
| plan_here tree type fieldPlan :
    (type, fieldPlan) ∈ fieldPlans tree ->
    plan ∈ subschemaPlans fieldPlan ->
    PlanIn plan tree
| plan_deeper tree type fieldPlan key nested :
    (type, fieldPlan) ∈ fieldPlans tree ->
    (key, nested) ∈ stitchTrees fieldPlan ->
    PlanIn plan nested ->
    PlanIn plan tree.

(** *** The heap of response objects *)

Abbreviation loc := nat.

Inductive PathKey : Type :=
| KeyStr (s : string)
| KeyIdx (i : nat).

Definition Path : Type := list PathKey.

Inductive JVal : Type :=
| JUndefined
| JNull
| JBool (b : bool)
| JNum (n : Z)
| JStr (s : string)
| JRef (l : loc).

#[global] Instance JVal_eq_dec : EqDecision JVal.
Proof. solve_decision. Defined.

Record HObj : Type := mkHObj {
  h_elems : option (list JVal);
  h_props : list (string * JVal)
}.

Abbreviation Heap := (list HObj).

(** A value freshly returned by an executor, with the address each of its
    objects received. *)
Inductive LVal : Type :=
| LNull
| LBool (b : bool)
| LNum (n : Z)
| LStr (s : string)
| LObj (l : loc) (elems : option (list LVal)) (props : list (string * LVal)).

Definition jval (v : LVal) : JVal :=
  match v with
  | LNull => JNull
  | LBool b => JBool b
  | LNum n => JNum n
  | LStr s => JStr s
  | LObj l _ _ => JRef l
  end.

(** Placing a result tree on the heap: children first, then the object. *)
Fixpoint alloc (v : Value) (h : Heap) {struct v} : LVal * Heap :=
  match v with
  | VNull => (LNull, h)
  | VBool b => (LBool b, h)
  | VNum n => (LNum n, h)
  | VStr s => (LStr s, h)
  | VObj elems props =>
      let '(lelems, h1) :=
        match elems with
        | None => (None, h)
        | Some es =>
            let '(les, h') :=
              (fix each (es : list Value) (h : Heap) : list LVal * Heap :=
                 match es with
                 | [] => ([], h)
                 | e :: rest =>
                     let '(le, h1) := alloc e h in
                     let '(lrest, h2) := each rest h1 in
                     (le :: lrest, h2)
                 end) es h in
            (Some les, h')
        end in
      let '(lprops, h2) :=
        (fix each (ps : list (string * Value)) (h : Heap)
           : list (string * LVal) * Heap :=
           match ps with
           | [] => ([], h)
           | (k, x) :: rest =>
               let '(lx, h1) := alloc x h in
               let '(lrest, h2) := each rest h1 in
               ((k, lx) :: lrest, h2)
           end) props h1 in
      (LObj (length h2) lelems lprops,
       h2 ++ [mkHObj (option_map (map jval) lelems)
                     (map (fun kv => (fst kv, jval (snd kv))) lprops)])
  end.

Fixpoint allocList (es : list Value) (h : Heap) : list LVal * Heap :=
  match es with
  | [] => ([], h)
  | e :: rest =>
      let '(le, h1) := alloc e h in
      let '(lrest, h2) := allocList rest h1 in
      (le :: lrest, h2)
  end.

Fixpoint allocProps (ps : list (string * Value)) (h : Heap)
    : list (string * LVal) * Heap :=
  match ps with
  | [] => ([], h)
  | (k, x) :: rest =>
      let '(lx, h1) := alloc x h in
      let '(lrest, h2) := allocProps rest h1 in
      ((k, lx) :: lrest, h2)
  end.

(** Reading a heap value back as a tree, to the given depth. *)
Fixpoint readback (depth : nat) (h : Heap) (v : JVal) : Value :=
  match v with
  | JUndefined | JNull => VNull
  | JBool b => VBool b
  | JNum n => VNum n
  | JStr s => VStr s
  | JRef l =>
      match depth with
      | O => VNull
      | S depth' =>
          match h !! l with
          | None => VNull
          | Some o =>
              VObj (option_map (map (readback depth' h)) (h_elems o))
                   (map (fun kv => (fst kv, readback depth' h (snd kv))) (h_props o))
          end
      end
  end.

(** [parent[parentKey]], for the keys a path can hold; [None] is the
    [undefined] key of an empty path. *)
Definition keyString (key : option PathKey) : string :=
  match key with
  | Some (KeyStr s) => s
  | Some (KeyIdx i) => pretty i
  | None => "undefined"
  end.

Definition getMember (o : HObj) (key : option PathKey) : JVal :=
  match key, h_elems o with
  | Some (KeyIdx i), Some elems => default JUndefined (elems !! i)
  | _, _ => default JUndefined (getProp (keyString key) (h_props o))
  end.

(** [parent[parentKey] = v]; writing past the end of an array leaves holes. *)
Definition setMember (o : HObj) (key : option PathKey) (v : JVal) : HObj :=
  match key, h_elems o with
  | Some (KeyIdx i), Some elems =>
      mkHObj
        (Some (if bool_decide (i < length elems) then <[i := v]> elems
               else elems ++ replicate (i - length elems) JUndefined ++ [v]))
        (h_props o)
  | _, _ => mkHObj (h_elems o) (setProp (keyString key) v (h_props o))
  end.

Definition readSlot (h : Heap) (parent : loc) (key : option PathKey) : JVal :=
  match h !! parent with
  | Some o => getMember o key
  | None => JUndefined
  end.

Definition writeSlot (h : Heap) (parent : loc) (key : option PathKey) (v : JVal) : Heap :=
  match h !! parent with
  | Some o => <[parent := setMember o key v]> h
  | None => h
  end.

(** [for (const [key, value] of Object.entries(result.data)) fields[key] = value] *)
Fixpoint assignAll (fields : list (string * JVal)) (entries : list (string * LVal))
    : list (string * JVal) :=
  match entries with
  | [] => fields
  | (key, value) :: rest => assignAll (setProp key (jval value) fields) rest
  end.

Definition assignInto (h : Heap) (fields : loc) (entries : list (string * LVal)) : Heap :=
  match h !! fields with
  | Some o => <[fields := mkHObj (h_elems o) (assignAll (h_props o) entries)]> h
  | None => h
  end.

(** *** Follow-up fetches *)

Record Stitch : Type := mkStitch {
  fromSubschema : Subschema;
  stitch_stitchTrees : option (list (string * StitchTree));
  initialResult : PromiseOrValue ExecutionResult
}.

Record FetchPlan : Type := mkFetchPlan {
  fetch_fieldNodes : list FieldNode;
  fetch_stitchTrees : option (list (string * StitchTree));
  fetch_parent : loc;
  fetch_target : loc;
  fetch_path : Path
}.

(** Modelled from the spec: [AccumulatorMap] of utilities/AccumulatorMap
    (not among the sources), a [Map] from a key to the array of the items
    added under it. *)
Definition AccumulatorMap : Type := list (Subschema * list FetchPlan).

Definition accAdd (key : Subschema) (item : FetchPlan) (m : AccumulatorMap)
    : AccumulatorMap :=
  match mapGet key m with
  | Some group => mapSet key (group ++ [item]) m
  | None => mapSet key [item] m
  end.

(** Every fetch of the map, with the subschema it is for. *)
Definition fetches (m : AccumulatorMap) : list (Subschema * FetchPlan) :=
  flat_map (fun entry => map (pair (fst entry)) (snd entry)) m.

(** The string a response value turns into when it is used as a property
    key, as in [mergedTypes[typeName]]. *)
Fixpoint toPropertyKey (v : LVal) : string :=
  match v with
  | LNull => "null"
  | LBool true => "true"
  | LBool false => "false"
  | LNum n => pretty n
  | LStr s => s
  | LObj _ None _ => "[object Object]"
  | LObj _ (Some elems) _ =>
      (fix join (es : list LVal) : string :=
         match es with
         | [] => ""
         | [e] => match e with LNull => "" | _ => toPropertyKey e end
         | e :: rest =>
             (match e with LNull => "" | _ => toPropertyKey e end
              +:+ "," +:+ join rest)%string
         end) elems
  end.

Fixpoint addSubschemaPlans (subFetchMap : AccumulatorMap)
    (plans : list (Subschema * SubschemaPlan)) (parent target : loc) (path : Path)
    : AccumulatorMap :=
  match plans with
  | [] => subFetchMap
  | (subschema, subschemaPlan) :: rest =>
      addSubschemaPlans
        (accAdd subschema
           (mkFetchPlan (fieldNodes subschemaPlan) (planStitchTrees subschemaPlan)
              parent target path)
           subFetchMap)
        rest parent target path
  end.

Section WalkBody.
Context (_collectSubFetches :
           AccumulatorMap -> loc -> LVal -> StitchTree -> Path -> Result AccumulatorMap).

(** [if (fields[key] !== undefined) this._collectSubFetches(subFetchMap,
    fields, fields[key], stitchTree, [...path, key])] *)
Fixpoint collectAtKey (subFetchMap : AccumulatorMap) (fieldsLoc : loc)
    (key : string) (stitchTree : StitchTree) (path : Path)
    (fieldsProps : list (string * LVal)) : Result AccumulatorMap :=
  match fieldsProps with
  | [] => Ok subFetchMap
  | (k, child) :: rest =>
      if String.eqb k key
      then _collectSubFetches subFetchMap fieldsLoc child stitchTree (path ++ [KeyStr key])
      else collectAtKey subFetchMap fieldsLoc key stitchTree path rest
  end.

Section Walk.
Context (fieldsLoc : loc) (fieldsProps : list (string * LVal)) (path : Path).

(** [_walkStitchTrees(subFetchMap, fields, stitchTrees, path)], [fields]
    being the object at [fieldsLoc] with properties [fieldsProps]. *)
Fixpoint walkStitchTreesWith (trees : list (string * StitchTree))
    (subFetchMap : AccumulatorMap) : Result AccumulatorMap :=
  match trees with
  | [] => Ok subFetchMap
  | (key, stitchTree) :: rest =>
      do subFetchMap' <-
         collectAtKey subFetchMap fieldsLoc key stitchTree path fieldsProps;
      walkStitchTreesWith rest subFetchMap'
  end.
End Walk.
End WalkBody.

Definition missingTypename : Exn :=
  InvariantViolation "Missing entry '__stitching__typename' in response.".
Definition expectedObjectType (typeName : string) : Exn :=
  InvariantViolation ("Expected Object type, received '" +:+ typeName +:+ "'.").
Definition missingFieldPlan (typeName : string) : Exn :=
  InvariantViolation ("Missing field plan for type '" +:+ typeName +:+ "'.").
Definition nullDereference : Exn :=
  TypeError "Cannot read properties of null (reading '__stitching__typename')".

Fixpoint _collectSubFetches (ss : SuperSchema) (subFetchMap : AccumulatorMap)
    (parent : loc) (fieldsOrList : LVal) (stitchTree : StitchTree) (path : Path)
    {struct fieldsOrList} : Result AccumulatorMap :=
  match fieldsOrList with
  | LObj l (Some elems) _ =>
      (fix each (es : list LVal) (i : nat) (m : AccumulatorMap)
         : Result AccumulatorMap :=
         match es with
         | [] => Ok m
         | e :: rest =>
             do m' <- _collectSubFetches ss m l e stitchTree (path ++ [KeyIdx i]);
             each rest (S i) m'
         end) elems 0 subFetchMap
  | LNull => Throw nullDereference
  | LBool _ | LNum _ | LStr _ => Throw missingTypename
  | LObj l None props =>
      match getProp "__stitching__typename" props with
      | None | Some LNull => Throw missingTypename
      | Some typeNameValue =>
          let typeName := toPropertyKey typeNameValue in
          let type := getType ss typeName in
          if isObjectType type then
            match type with
            | Some objectType =>
                match mapGet objectType (fieldPlans stitchTree) with
                | None => Throw (missingFieldPlan typeName)
                | Some fieldPlan =>
                    walkStitchTreesWith (_collectSubFetches ss) l props path
                      (stitchTrees fieldPlan)
                      (addSubschemaPlans subFetchMap (subschemaPlans fieldPlan)
                         parent l path)
                end
            | None => Throw (expectedObjectType typeName)
            end
          else Throw (expectedObjectType typeName)
      end
  end.

Definition _walkStitchTrees (ss : SuperSchema) (subFetchMap : AccumulatorMap)
    (fieldsLoc : loc) (fieldsProps : list (string * LVal))
    (stitchTrees : list (string * StitchTree)) (path : Path) : Result AccumulatorMap :=
  walkStitchTreesWith (_collectSubFetches ss) fieldsLoc fieldsProps path
    stitchTrees subFetchMap.

(** *** The composer *)

(** [_createDocument(selections)] *)
Definition _createDocument (selections : list SelectionNode) : DocumentNode :=
  mkDocument [OperationDefinition (mkOperation QUERY None None None selections)].

Record Composer : Type := mkComposer {
  heap : Heap;
  fields : loc;
  composerErrors : list GraphQLError;
  nulled : bool
}.

Definition newComposer : Composer := mkComposer [mkHObj None []] 0 [] false.

Record Response : Type := mkResponse {
  resp_data : option loc;
  resp_errors : option (list GraphQLError)
}.

Definition _buildResponse (this : Composer) : Response :=
  let fieldsOrNull := if nulled this then None else Some (fields this) in
  if negb (isEmpty (composerErrors this))
  then mkResponse fieldsOrNull (Some (composerErrors this))
  else mkResponse fieldsOrNull None.

(** One call of [_handleMaybeAsyncResult(parent, fields, stitch, path)]. *)
Record Task : Type := mkTask {
  t_parent : option loc;
  t_fields : loc;
  t_stitch : Stitch;
  t_path : Path
}.

Definition resultErrors (result : ExecutionResult) : list GraphQLError :=
  match errors result with Some es => es | None => [] end.

Section Handle.
Context (ss : SuperSchema).
Context (executor : Subschema -> DocumentNode -> option ObjMap ->
                    PromiseOrValue ExecutionResult).
Context (rawVariableValues : option ObjMap).

Definition subStitchTask (subschema : Subschema) (subFetch : FetchPlan) : Task :=
  mkTask (Some (fetch_parent subFetch)) (fetch_target subFetch)
    (mkStitch subschema (fetch_stitchTrees subFetch)
       (executor subschema
          (_createDocument (map fieldSelection (fetch_fieldNodes subFetch)))
          rawVariableValues))
    (fetch_path subFetch).

Definition subStitchTasks (subFetchMap : AccumulatorMap) : list Task :=
  flat_map (fun entry => map (subStitchTask (fst entry)) (snd entry)) subFetchMap.

(** [_handleResult(parent, fields, stitch, result, path)]: the composer
    afterwards and the calls of [_handleMaybeAsyncResult] it makes, in
    order. *)
Definition _handleResult (this : Composer) (parent : option loc) (fields : loc)
    (stitch : option Stitch) (result : ExecutionResult) (path : Path)
    : Result (Composer * list Task) :=
  let this1 :=
    mkComposer (heap this) (Composer.fields this)
      (composerErrors this ++ resultErrors result) (nulled this) in
  let parentKey := last path in
  let discard :=
    match parent with
    | Some p => bool_decide (readSlot (heap this1) p parentKey = JNull)
    | None => nulled this1
    end in
  if discard then Ok (this1, [])
  else
    match data result with
    | None =>
        match parentKey, parent with
        | None, _ =>
            Ok (mkComposer (heap this1) (Composer.fields this1)
                  (composerErrors this1) true, [])
        | Some _, Some p =>
            Ok (mkComposer (writeSlot (heap this1) p parentKey JNull)
                  (Composer.fields this1) (composerErrors this1) (nulled this1), [])
        | Some _, None => Ok (this1, [])
        end
    | Some entries =>
        match alloc (VObj None entries) (heap this1) with
        | (LObj dataLoc _ dataProps, h1) =>
            let this2 :=
              mkComposer (assignInto h1 fields dataProps) (Composer.fields this1)
                (composerErrors this1) (nulled this1) in
            match stitch with
            | Some (mkStitch _ (Some trees) _) =>
                do subFetchMap <- _walkStitchTrees ss [] dataLoc dataProps trees path;
                Ok (this2, subStitchTasks subFetchMap)
            | _ => Ok (this2, [])
            end
        | (_, _) => Ok (this1, [])
        end
    end.

(** What a promise hands to [_handleResult] once it settles. *)
Definition settled (s : Settlement ExecutionResult) : ExecutionResult :=
  match s with
  | Fulfilled resolved => resolved
  | Rejected errMessage =>
      mkResult None (Some [mkGraphQLError errMessage (Some errMessage)])
  end.

Definition eventualResult (t : Task) : ExecutionResult :=
  match initialResult (t_stitch t) with
  | Now r => r
  | Later s => settled s
  end.

(** ** [compose()] as a machine

    [calls]: the [_handleMaybeAsyncResult] calls still to be made by the
    code running now, in order.  [aggregated]: the promises handed to the
    promise aggregator.  A promise settles only when nothing is running. *)
Record Machine : Type := mkMachine {
  composer : Composer;
  calls : list Task;
  aggregated : list Task
}.

Inductive Event : Type :=
| Handled (t : Task) (result : ExecutionResult)
| Aggregated (t : Task).

Inductive step : Machine -> Event -> Machine -> Prop :=
| step_value c t rest agg r c' new :
    initialResult (t_stitch t) = Now r ->
    _handleResult c (t_parent t) (t_fields t) (Some (t_stitch t)) r (t_path t)
      = Ok (c', new) ->
    step (mkMachine c (t :: rest) agg) (Handled t r) (mkMachine c' (new ++ rest) agg)
| step_promise c t rest agg s :
    initialResult (t_stitch t) = Later s ->
    step (mkMachine c (t :: rest) agg) (Aggregated t) (mkMachine c rest (agg ++ [t]))
| step_settle c agg1 t agg2 s c' new :
    initialResult (t_stitch t) = Later s ->
    _handleResult c (t_parent t) (t_fields t) (Some (t_stitch t)) (settled s) (t_path t)
      = Ok (c', new) ->
    step (mkMachine c [] (agg1 ++ t :: agg2)) (Handled t (settled s))
         (mkMachine c' new (agg1 ++ agg2)).

Inductive steps : Machine -> list Event -> Machine -> Prop :=
| steps_refl m : steps m [] m
| steps_cons m ev m' evs m'' : step m ev m' -> steps m' evs m'' -> steps m (ev :: evs) m''.

Definition topLevelTask (stitch : Stitch) : Task := mkTask None 0 stitch [].

Definition initial (stitches : list Stitch) : Machine :=
  mkMachine newComposer (map topLevelTask stitches) [].

Definition finished (m : Machine) : Prop := calls m = [] /\ aggregated m = [].

(** [compose()] returns [response] along the run [evs]. *)
Definition composes (stitches : list Stitch) (evs : list Event) (response : Response)
    : Prop :=
  exists m, steps (initial stitches) evs m /\ finished m /\
            response = _buildResponse (composer m).

(** The run in which the promises settle in the order they were made. *)
Fixpoint run (fuel : nat) (m : Machine) : Result (list Event * Machine) :=
  match fuel with
  | O => Throw FuelExhausted
  | S fuel' =>
      match calls m, aggregated m with
      | [], [] => Ok ([], m)
      | t :: rest, agg =>
          match initialResult (t_stitch t) with
          | Now r =>
              do (c', new) <-
                 _handleResult (composer m) (t_parent t) (t_fields t)
                   (Some (t_stitch t)) r (t_path t);
              do (evs, m') <- run fuel' (mkMachine c' (new ++ rest) agg);
              Ok (Handled t r :: evs, m')
          | Later _ =>
              do (evs, m') <- run fuel' (mkMachine (composer m) rest (agg ++ [t]));
              Ok (Aggregated t :: evs, m')
          end
      | [], t :: agg =>
          match initialResult (t_stitch t) with
          | Later s =>
              do (c', new) <-
                 _handleResult (composer m) (t_parent t) (t_fields t)
                   (Some (t_stitch t)) (settled s) (t_path t);
              do (evs, m') <- run fuel' (mkMachine c' new agg);
              Ok (Handled t (settled s) :: evs, m')
          | Now _ => Throw (JsError "a value among the aggregated promises")
          end
      end
  end.
End Handle.

(** The errors a step of the machine hands to the composer. *)
Definition handledErrors (ev : Event) : list GraphQLError :=
  match ev with
  | Handled _ result => resultErrors result
  | Aggregated _ => []
  end.

(** ** What the statements about the heap and the fetch map are phrased with *)

(** [h''] holds what [h'] holds at the addresses from [n] on. *)
Definition agrees (n : nat) (h' h'' : Heap) : Prop :=
  forall l, n <= l -> l < length h' -> h'' !! l = h' !! l.

(** Placing [v] on a heap only extends the heap, and what was placed reads
    back as [v] for as long as the new addresses are left alone. *)
Definition Faithful (v : Value) : Prop :=
  forall h lv h',
    alloc v h = (lv, h') ->
    (exists ext, h' = h ++ ext) /\
    (forall h'' d, agrees (length h) h' h'' -> vdepth v <= d ->
                   readback d h'' (jval lv) = v).

(** A fetch that carries what a subschema plan of the tree says. *)
Definition Planned (p : Subschema * FetchPlan) (tree : StitchTree) : Prop :=
  exists subschemaPlan,
    PlanIn (fst p, subschemaPlan) tree /\
    fetch_fieldNodes (snd p) = fieldNodes subschemaPlan /\
    fetch_stitchTrees (snd p) = planStitchTrees subschemaPlan.

(** A collector keeps the fetches it is given and adds only planned ones. *)
Definition Collects
    (collect : AccumulatorMap -> loc -> LVal -> StitchTree -> Path -> Result AccumulatorMap)
    (child : LVal) : Prop :=
  forall m parent tree path m',
    collect m parent child tree path = Ok m' ->
    (forall p, p ∈ fetches m -> p ∈ fetches m') /\
    (forall p, p ∈ fetches m' -> p ∈ fetches m \/ Planned p tree).

End Composer.

(** ** buildExecutionContext (src/unnamed/part_003) *)

Module Context.

Record ExecutionArgs : Type := mkArgs {
  subschemas : list Subschema;
  document : DocumentNode;
  variableValues : option ObjMap;
  operationName : option string
}.

Record OperationContext : Type := mkOperationContext {
  superSchema : SuperSchema;
  oc_operation : OperationDefinitionNode;
  oc_fragments : list FragmentDefinitionNode;
  fragmentMap : list (string * FragmentDefinitionNode);
  oc_variableDefinitions : list VariableDefinitionNode
}.

Record ExecutionContext : Type := mkExecutionContext {
  operationContext : OperationContext;
  rawVariableValues : option ObjMap;
  coercedVariableValues : ObjMap
}.

Definition multipleOperationsMessage : string :=
  "Must provide operation name if query contains multiple operations.".
Definition unknownOperationMessage (operationName : string) : string :=
  "Unknown operation named " +:+ dquote +:+ operationName +:+ dquote +:+ ".".
Definition noOperationMessage : string := "Must provide an operation.".

(** The loop over [document.definitions]; [inl] is its early return. *)
Fixpoint scanDefinitions (operationName : option string)
    (definitions : list DefinitionNode)
    (operation : option OperationDefinitionNode)
    (fragments : list FragmentDefinitionNode)
    : list GraphQLError + (option OperationDefinitionNode * list FragmentDefinitionNode) :=
  match definitions with
  | [] => inr (operation, fragments)
  | definition :: rest =>
      match definition with
      | OperationDefinition op =>
          match operationName with
          | None =>
              match operation with
              | Some _ => inl [newGraphQLError multipleOperationsMessage]
              | None => scanDefinitions operationName rest (Some op) fragments
              end
          | Some wanted =>
              if bool_decide (op_name op = Some wanted)
              then scanDefinitions operationName rest (Some op) fragments
              else scanDefinitions operationName rest operation fragments
          end
      | FragmentDefinition fragment =>
          scanDefinitions operationName rest operation (fragments ++ [fragment])
      | TypeSystemDefinition _ =>
          scanDefinitions operationName rest operation fragments
      end
  end.

Definition operationsOf (defs : list DefinitionNode) : list OperationDefinitionNode :=
  omap (fun definition =>
          match definition with
          | OperationDefinition op => Some op
          | _ => None
          end) defs.

Definition operationDefinitions (document : DocumentNode) : list OperationDefinitionNode :=
  operationsOf (definitions document).

Section Build.
(** What the function calls outside the sources given: graphql-js's
    [assertValidSchema], the SuperSchema constructor with its
    [getVariableValues], and [applySkipIncludeDirectives]. *)
Context (assertValidSchema : Subschema -> Result unit).
Context (newSuperSchema : list Subschema -> Result SuperSchema).
Context (getVariableValues :
           SuperSchema -> list VariableDefinitionNode -> ObjMap -> nat ->
           list GraphQLError + ObjMap).
Context (skipIncludeOperation : OperationDefinitionNode -> ObjMap -> OperationDefinitionNode).
Context (skipIncludeFragment : FragmentDefinitionNode -> ObjMap -> FragmentDefinitionNode).

Fixpoint assertAll (subschemas : list Subschema) : Result unit :=
  match subschemas with
  | [] => Ok tt
  | subschema :: rest => do _ <- assertValidSchema subschema; assertAll rest
  end.

Definition buildExecutionContext (args : ExecutionArgs)
    : Result (list GraphQLError + ExecutionContext) :=
  do _ <- assertAll (subschemas args);
  do superSchema <- newSuperSchema (subschemas args);
  match scanDefinitions (operationName args) (definitions (document args)) None [] with
  | inl errors => Ok (inl errors)
  | inr (None, _) =>
      match operationName args with
      | Some name => Ok (inl [newGraphQLError (unknownOperationMessage name)])
      | None => Ok (inl [newGraphQLError noOperationMessage])
      end
  | inr (Some operation, fragments) =>
      let variableDefinitions :=
        match GraphQL.variableDefinitions operation with Some defs => defs | None => [] end in
      match getVariableValues superSchema variableDefinitions
              (match variableValues args with Some raw => raw | None => [] end) 50 with
      | inl errors => Ok (inl errors)
      | inr coerced =>
          let operation' := skipIncludeOperation operation coerced in
          let processed := map (fun fragment => skipIncludeFragment fragment coerced) fragments in
          let fragmentMap :=
            fold_left
              (fun acc pair => setProp (frag_name (fst pair)) (snd pair) acc)
              (zip fragments processed) [] in
          Ok (inr (mkExecutionContext
                     (mkOperationContext superSchema operation' processed fragmentMap
                        variableDefinitions)
                     (variableValues args) coerced))
      end
  end.
End Build.

End Context.

(** ** Consolidator (src/unnamed/part_004) *)

Module Consolidator.

Section Consolidator.
Context {T U : Type}.
(** The per-item processor; [None] is its [undefined]. *)
Context (_processor : T -> option U).

(** An async iterator: who it is and what it is still going to yield. *)
Definition AsyncIterator : Type := nat * list T.

Record Consolidator : Type := mkConsolidator {
_asyncIterators : list AsyncIterator;
_started : bool;
_stopped : bool;
_closed : bool;
_signal : bool;                 (* the promise behind _signal is resolved *)
pushed : list (nat * U);        (* every value handed to _push, with its source *)
returned : bool                 (* the executor has returned *)
}.

Definition holds (c : Consolidator) (id : nat) : bool :=
bool_decide (id ∈ map fst (_asyncIterators c)).

(** [Set.prototype.add]: an iterator already in the set is not added again. *)
Definition setAdd (it : AsyncIterator) (s : list AsyncIterator) : list AsyncIterator :=
if bool_decide (fst it ∈ map fst s) then s else s ++ [it].

Definition newConsolidator (asyncIterables : list AsyncIterator) : Consolidator :=
mkConsolidator (fold_left (fun s it => setAdd it s) asyncIterables [])
  false false false false [] false.

(** [close()] *)
Definition close (c : Consolidator) : Consolidator :=
mkConsolidator (_asyncIterators c) (_started c) (_stopped c) true
  (if _started c then true else _signal c) (pushed c) (returned c).

(** [add(value)] *)
Definition add (c : Consolidator) (value : AsyncIterator) : Consolidator :=
if _closed c then c
else
  mkConsolidator (setAdd value (_asyncIterators c)) (_started c) (_stopped c)
    (_closed c) (if _started c then true else _signal c) (pushed c) (returned c).

Definition remove (id : nat) (s : list AsyncIterator) : list AsyncIterator :=
filter (fun it => fst it ≠ id) s.

Definition advance (id : nat) (rest : list T) (s : list AsyncIterator) : list AsyncIterator :=
map (fun it => if bool_decide (fst it = id) then (id, rest) else it) s.

Definition push (id : nat) (v : T) (out : list (nat * U)) : list (nat * U) :=
match _processor v with
| Some processed => out ++ [(id, processed)]
| None => out
end.

Inductive Label : Type :=
| Start                     (* the consumer's first next() runs the executor *)
| Next (id : nat)           (* an iteration of a held iterator is processed *)
| Done (id : nat)           (* a held iterator reports done *)
| Abandon (id : nat)        (* its loop ends because the consolidator stopped *)
| Wake                      (* the executor wakes from awaiting _signal *)
| Return                    (* the executor sees _closed and returns *)
| Cancel                    (* the consumer ends the stream early *)
| Add (value : AsyncIterator)
| Close.

Inductive step : Consolidator -> Label -> Consolidator -> Prop :=
| step_start c :
  _started c = false ->
  step c Start
    (mkConsolidator (_asyncIterators c) true (_stopped c) (_closed c) (_signal c)
       (pushed c) (returned c))
| step_next c id v rest :
  _started c = true -> _stopped c = false ->
  (id, v :: rest) ∈ _asyncIterators c ->
  step c (Next id)
    (mkConsolidator (advance id rest (_asyncIterators c)) true false (_closed c)
       (_signal c) (push id v (pushed c)) (returned c))
| step_done c id :
  _started c = true -> _stopped c = false ->
  (id, []) ∈ _asyncIterators c ->
  step c (Done id)
    (mkConsolidator (remove id (_asyncIterators c)) true
       (_closed c && isEmpty (remove id (_asyncIterators c)))
       (_closed c) (_signal c) (pushed c) (returned c))
| step_abandon c id :
  _started c = true -> _stopped c = true ->
  id ∈ map fst (_asyncIterators c) ->
  step c (Abandon id)
    (mkConsolidator (remove id (_asyncIterators c)) true true (_closed c)
       (_signal c) (pushed c) (returned c))
| step_wake c :
  _started c = true -> _signal c = true ->
  step c Wake
    (mkConsolidator (_asyncIterators c) true (_stopped c) (_closed c) false
       (pushed c) (returned c))
| step_return c :
  _started c = true -> _asyncIterators c = [] -> _closed c = true ->
  returned c = false ->
  step c Return
    (mkConsolidator [] true true true (_signal c) (pushed c) true)
| step_cancel c :
  _started c = true ->
  step c Cancel
    (mkConsolidator (_asyncIterators c) true true (_closed c) (_signal c)
       (pushed c) (returned c))
| step_add c value : step c (Add value) (add c value)
| step_close c : step c Close (close c).

Inductive steps : Consolidator -> list Label -> Consolidator -> Prop :=
| steps_refl c : steps c [] c
| steps_cons c l c' ls c'' : step c l c' -> steps c' ls c'' -> steps c (l :: ls) c''.

(** The values pushed on behalf of one source, in order. *)
Definition fromSource (id : nat) (out : list (nat * U)) : list U :=
map snd (filter (fun p => fst p = id) out).

Definition processedAll (items : list T) : list U := omap _processor items.

(** In a run the consumer does not cancel, the consolidator stops only when
  it is closed and holds nothing; a source is held at most once. *)
Definition Settled (c : Consolidator) : Prop :=
NoDup (map fst (_asyncIterators c)) /\
(_stopped c = true -> _asyncIterators c = [] /\ _closed c = true).

(** Once the executor has returned, nothing is held any more. *)
Definition Returned (c : Consolidator) : Prop :=
returned c = true -> _asyncIterators c = [] /\ _closed c = true.
End Consolidator.

End Consolidator.

(** ** The rules as the specification words them, and the schemas of its scenarios *)

Module Spec.

(** The leaf rule in the specification's words: prefer [fromSubschema] if it
    is among the candidates, else a candidate that already has an entry in
    the plan, else the first candidate. *)
Definition preferredSubschema (candidates : SubschemaSet)
    (subschemaPlans : list (Subschema * Planner.SubschemaPlan))
    (fromSubschema : option Subschema) : Subschema :=
  match fromSubschema with
  | Some from =>
      if setHas candidates from then from
      else Planner._getSubschema candidates subschemaPlans
  | None => Planner._getSubschema candidates subschemaPlans
  end.

(** The outgoing document in the specification's words: the original
    operation with its selection set replaced, then every fragment. *)
Definition outgoingDocument (operation : OperationDefinitionNode)
    (fragments : list FragmentDefinitionNode) (selections : list SelectionNode)
    : DocumentNode :=
  mkDocument
    (OperationDefinition
       (mkOperation (GraphQL.operation operation) (op_name operation)
          (variableDefinitions operation) (op_directives operation) selections)
     :: map FragmentDefinition fragments).

(** Disjoint structural keys: wherever two maps share a key, both hold a
    plain object under it and those two objects are disjoint in turn.  Maps
    whose key sets are disjoint outright are the first case of it. *)
Fixpoint disjointValues (va vb : Value) {struct va} : bool :=
  match va, vb with
  | VObj None pa, VObj None pb =>
      (fix each (ps : list (string * Value)) : bool :=
         match ps with
         | [] => true
         | (k, x) :: rest =>
             match getProp k pb with
             | Some y => disjointValues x y
             | None => true
             end && each rest
         end) pa
  | _, _ => false
  end.

Definition disjointKeys (a b : ObjMap) : bool :=
  disjointValues (VObj None a) (VObj None b).

End Spec.

Module Scenario.

Definition tQuery : GraphQLType := mkType "Query" ObjectKind.
Definition tUser : GraphQLType := mkType "User" ObjectKind.
Definition tNode : GraphQLType := mkType "Node" InterfaceKind.
Definition tString : GraphQLType := mkType "String" ScalarKind.

Definition subschemaA : Subschema := 0.
Definition subschemaB : Subschema := 1.

(** Scenario 2 of the specification: [User.name] lives in A, [User.email]
    in B, [User.id] in both; [Query.user] is resolved by A. *)
Definition typeTable : list (string * GraphQLType) :=
  [("Query", tQuery); ("User", tUser); ("Node", tNode); ("String", tString)].

Definition superSchema : SuperSchema :=
  {| subschemaSetsByTypeAndField :=
       [("Query", [("__typename", mkSet subschemaA [subschemaB]);
                   ("user", mkSet subschemaA []);
                   ("node", mkSet subschemaA [])]);
        ("User", [("__typename", mkSet subschemaA [subschemaB]);
                  ("id", mkSet subschemaA [subschemaB]);
                  ("name", mkSet subschemaA []);
                  ("email", mkSet subschemaB [])]);
        ("Node", [("__typename", mkSet subschemaA []);
                  ("id", mkSet subschemaA [])])];
     mergedTypes := typeTable;
     mergedRootTypes := fun op => match op with QUERY => Some tQuery | _ => None end;
     getFieldDef := fun parentType fieldName =>
       if String.eqb (type_name parentType) "Query" then
         if String.eqb fieldName "user" then Some (mkFieldDef "user" (NamedRef tUser))
         else if String.eqb fieldName "node" then Some (mkFieldDef "node" (NamedRef tNode))
         else None
       else if String.eqb fieldName "__typename"
       then Some (mkFieldDef "__typename" (NonNullRef (NamedRef tString)))
       else Some (mkFieldDef fieldName (NamedRef tString));
     getPossibleTypes := fun abstractType =>
       if String.eqb (type_name abstractType) "Node" then [tUser] else [];
     schemaGetType := fun typeName => getProp typeName typeTable;
     schemaIsSubType := fun abstractType maybeSubType =>
       String.eqb (type_name abstractType) "Node"
       && String.eqb (type_name maybeSubType) "User" |}.

Definition leaf (fieldName : string) : SelectionNode := FieldSel None fieldName [] [] None.
Definition leafNode (fieldName : string) : FieldNode := mkFieldNode None fieldName [] [] None.

(** [{ user { name email } }] *)
Definition userSelections : list SelectionNode := [leaf "name"; leaf "email"].
Definition userQuery : list SelectionNode :=
  [FieldSel None "user" [] [] (Some userSelections)].

(** The same schema with an interface nobody implements. *)
Definition lonelySuperSchema : SuperSchema :=
  {| subschemaSetsByTypeAndField := subschemaSetsByTypeAndField superSchema;
     mergedTypes := typeTable;
     mergedRootTypes := mergedRootTypes superSchema;
     getFieldDef := getFieldDef superSchema;
     getPossibleTypes := fun _ => [];
     schemaGetType := schemaGetType superSchema;
     schemaIsSubType := fun _ _ => false |}.

(** The Composer's side of scenario 2: A answers [user] at once, B is asked
    for [email] on the object A returned. *)
Definition userTree : Composer.StitchTree :=
  Composer.mkStitchTree
    [(tUser,
      Composer.mkFieldPlan
        [(subschemaB, Composer.mkSubschemaPlan [leafNode "email"] None)] [])].

Definition userTrees : list (string * Composer.StitchTree) := [("user", userTree)].

Definition emailExecutor (subschema : Subschema) (document : DocumentNode)
    (variables : option ObjMap) : PromiseOrValue ExecutionResult :=
  Later (Fulfilled (mkResult (Some [("email", VStr "y")]) None)).

Definition userObject : ObjMap :=
  [("name", VStr "x"); ("__stitching__typename", VStr "User")].

Definition userStitch : Composer.Stitch :=
  Composer.mkStitch subschemaA (Some userTrees)
    (Now (mkResult (Some [("user", VMap userObject)]) None)).

(** A top-level fetch whose promise is rejected. *)
Definition failedStitch : Composer.Stitch :=
  Composer.mkStitch subschemaB None (Later (Rejected "boom")).

Definition failedRun : Result (list Composer.Event * Composer.Machine) :=
  Composer.run superSchema emailExecutor None 8 (Composer.initial [userStitch; failedStitch]).

Definition failedEvents : list Composer.Event :=
  match failedRun with Ok (evs, _) => evs | Throw _ => [] end.

Definition failedMachine : Composer.Machine :=
  match failedRun with
  | Ok (_, m) => m
  | Throw _ => Composer.initial []
  end.

(** Two top-level results that both answer [user], each with a part of it. *)
Definition nameResult : ExecutionResult :=
  mkResult (Some [("user", VMap [("name", VStr "x")])]) None.

Definition emailResult : ExecutionResult :=
  mkResult (Some [("user", VMap [("email", VStr "y")])]) None.

Definition handled (c : Composer.Composer) (result : ExecutionResult) : Composer.Composer :=
  match Composer._handleResult superSchema emailExecutor None c None 0 None result [] with
  | Ok (c', _) => c'
  | Throw _ => c
  end.

Definition afterName : Composer.Composer := handled Composer.newComposer nameResult.
Definition afterEmail : Composer.Composer := handled afterName emailResult.

(** What A answers for [user], handled on its own. *)
Definition userResult : ExecutionResult := mkResult (Some [("user", VMap userObject)]) None.

Definition afterUser : Composer.Composer :=
  match Composer._handleResult superSchema emailExecutor None Composer.newComposer None 0
          (Some userStitch) userResult [] with
  | Ok (c', _) => c'
  | Throw _ => Composer.newComposer
  end.

(** The follow-up it starts: B is asked for [email], for the object at
    address 1, found under [user] in the object at address 2. *)
Definition userFollowUp : Composer.Task :=
  Composer.mkTask (Some 2) 1
    (Composer.mkStitch subschemaB None
       (emailExecutor subschemaB (Composer._createDocument [leaf "email"]) None))
    [Composer.KeyStr "user"].

(** A named query with a variable, and a fragment beside it. *)
Definition getUser : OperationDefinitionNode :=
  mkOperation QUERY (Some "GetUser") (Some [("id", "ID")]) None userQuery.

Definition userFragment : FragmentDefinitionNode :=
  mkFragment "UserParts" "User" [] [leaf "name"].

(** Documents for [buildExecutionContext]. *)
Definition anonymousQuery (selections : list SelectionNode) : OperationDefinitionNode :=
  mkOperation QUERY None None None selections.

Definition twoOperations : DocumentNode :=
  mkDocument [OperationDefinition (anonymousQuery [leaf "a"]);
              OperationDefinition (anonymousQuery [leaf "b"])].

(** Sources for the consolidator: one held from the start, one offered later. *)
Definition firstSource : Consolidator.AsyncIterator (T:=nat) := (0, [1; 2]).
Definition lateSource : Consolidator.AsyncIterator (T:=nat) := (1, [3]).

Definition oneSource : Consolidator.Consolidator (T:=nat) (U:=nat) :=
  Consolidator.newConsolidator [firstSource].

End Scenario.
(** * More of the code: models *)

(** ** execute (src/stitch/execute.ts) and PlanResult (src/unnamed/part_005) *)

Module Execute.

(** [Object.assign(target, source)] *)
Definition objectAssign (target source : ObjMap) : ObjMap :=
  fold_left (fun acc entry => setProp (fst entry) (snd entry) acc) source target.

(** The object literal [mergeInitialResults] and [_return] build:
    [r_data = None] is [data: null]; [r_errors] and [r_hasNext] are [None]
    when the literal has no such entry. *)
Record Response : Type := mkResponse {
  r_data : option ObjMap;
  r_errors : option (list GraphQLError);
  r_hasNext : option bool
}.

Record MergeState : Type := mkMergeState {
  ms_data : ObjMap;
  ms_errors : list GraphQLError;
  ms_nullData : bool
}.

(** One round of the loop of [mergeInitialResults]; the body of
    [PlanResult._handleSingleResult] is the same. *)
Definition mergeStep (st : MergeState) (result : ExecutionResult) : MergeState :=
  let errors :=
    match errors result with
    | Some es => ms_errors st ++ es
    | None => ms_errors st
    end in
  if ms_nullData st then mkMergeState (ms_data st) errors true
  else
    match data result with
    | None => mkMergeState (ms_data st) errors true
    | Some entries => mkMergeState (objectAssign (ms_data st) entries) errors false
    end.

Definition respond (st : MergeState) (hasNext : bool) : Response :=
  let dataOrNull := if ms_nullData st then None else Some (ms_data st) in
  if hasNext then
    if Nat.ltb 0 (length (ms_errors st))
    then mkResponse dataOrNull (Some (ms_errors st)) (Some hasNext)
    else mkResponse dataOrNull None (Some hasNext)
  else
    if Nat.ltb 0 (length (ms_errors st))
    then mkResponse dataOrNull (Some (ms_errors st)) None
    else mkResponse dataOrNull None None.

Definition mergeInitialResults (results : list ExecutionResult) (hasNext : bool)
    : Response :=
  respond (fold_left mergeStep results (mkMergeState [] [] false)) hasNext.

Section MultiPart.
(** The stream of subsequent results of an incremental result. *)
Context {S : Type}.

Inductive PartResult : Type :=
| Single (result : ExecutionResult)
| MultiPart (initialResult : ExecutionResult) (subsequentResults : S).

Definition initialOf (result : PartResult) : ExecutionResult :=
  match result with
  | Single r => r
  | MultiPart initialResult _ => initialResult
  end.

Definition streamOf (result : PartResult) : option S :=
  match result with
  | Single _ => None
  | MultiPart _ subsequentResults => Some subsequentResults
  end.

(** [asyncIterators] stands for [mergeSubsequentResults(asyncIterators)]. *)
Inductive Outcome : Type :=
| Unchanged (result : PartResult)
| Merged (response : Response)
| MergedMultiPart (initialResult : Response) (asyncIterators : list S).

Definition handlePossibleMultiPartResults (results : list PartResult) : Outcome :=
  match results with
  | [result] => Unchanged result
  | _ =>
      let initialResults := map initialOf results in
      let asyncIterators := omap streamOf results in
      if Nat.eqb (length asyncIterators) 0
      then Merged (mergeInitialResults initialResults false)
      else MergedMultiPart (mergeInitialResults initialResults true) asyncIterators
  end.
End MultiPart.

(** [PlanResult]: what [execute()] accumulates as the results come in. *)
Section PlanResult.
Context {T : Type}.

Abbreviation Stream := (Consolidator.AsyncIterator (T:=T)).
Abbreviation Streams := (Consolidator.Consolidator (T:=T) (U:=T)).

Record PlanResult : Type := mkPlanResult {
  _state : MergeState;           (* _data, _errors, _nullData *)
  _consolidator : option Streams
}.

Definition newPlanResult : PlanResult := mkPlanResult (mkMergeState [] [] false) None.

Definition _handleSingleResult (this : PlanResult) (result : ExecutionResult) : PlanResult :=
  mkPlanResult (mergeStep (_state this) result) (_consolidator this).

Definition _handlePossibleMultiPartResult (this : PlanResult)
    (result : PartResult (S:=Stream)) : PlanResult :=
  match result with
  | MultiPart initialResult subsequentResults =>
      let this1 := _handleSingleResult this initialResult in
      mkPlanResult (_state this1)
        (Some match _consolidator this1 with
              | None => Consolidator.newConsolidator [subsequentResults]
              | Some consolidator => Consolidator.add consolidator subsequentResults
              end)
  | Single r => _handleSingleResult this r
  end.

Inductive Returned : Type :=
| Plain (response : Response)
| Incremental (initialResult : Response) (subsequentResults : Streams).

Definition _return (this : PlanResult) : Returned :=
  match _consolidator this with
  | Some consolidator =>
      Incremental (respond (_state this) true) (Consolidator.close consolidator)
  | None => Plain (respond (_state this) false)
  end.
End PlanResult.

(** The errors of all the results, in order. *)
Definition allErrors (results : list ExecutionResult) : list GraphQLError :=
  concat (map (fun result => match errors result with Some es => es | None => [] end)
            results).
End Execute.

(** ** Executor._getSubPlans (src/src/stitch/Executor.ts) *)

Module SubPlans.

(** The [Plan] of Plan.d.ts, as far as the executor reads it. *)
Inductive Plan : Type :=
| mkPlan (selectionMap : list (Subschema * list SelectionNode))
    (subPlans : list (string * Plan)).

Definition selectionMap (plan : Plan) : list (Subschema * list SelectionNode) :=
  match plan with mkPlan m _ => m end.

Definition subPlans (plan : Plan) : list (string * Plan) :=
  match plan with mkPlan _ s => s end.



End SubPlans.

(** ** The SuperSchema constructor's subschema sets (src/unnamed/part_007) *)

Module SuperSchemaSets.

(** A named type of a subschema's schema, with [Object.keys(type.getFields())]
    (empty for the kinds that have no fields). *)
Record SchemaType : Type := mkSchemaType {
  st_type : GraphQLType;
  st_fields : list string
}.

(** [schema.getTypeMap()] *)
Definition TypeMap : Type := list (string * SchemaType).

Definition Sets : Type := list (string * list (string * SubschemaSet)).

(** [set.add(subschema)] on the set found under a key, a fresh [new Set()]
    when there is none yet. *)
Definition setAdd (found : option SubschemaSet) (subschema : Subschema) : SubschemaSet :=
  match found with
  | None => mkSet subschema []
  | Some set =>
      if setHas set subschema then set
      else mkSet (firstSubschema set) (otherSubschemas set ++ [subschema])
  end.

Definition isUnionType (type : SchemaType) : bool :=
  match type_kind (st_type type) with UnionKind => true | _ => false end.

Definition _addToSubschemaSets (sets : Sets) (subschema : Subschema) (name : string)
    (type : SchemaType) : Sets :=
  let subschemaSetsByField :=
    match getProp name sets with
    | Some byField => byField
    | None => []
    end in
  let withTypename :=
    setProp "__typename"
      (setAdd (getProp "__typename" subschemaSetsByField) subschema)
      subschemaSetsByField in
  let withFields :=
    if isUnionType type then withTypename
    else
      fold_left
        (fun byField fieldName =>
           setProp fieldName (setAdd (getProp fieldName byField) subschema) byField)
        (st_fields type) withTypename in
  setProp name withFields sets.

(** The part of the loop of [_createMergedElements] that fills the sets. *)
Definition addTypes (sets : Sets) (subschema : Subschema) (typeMap : TypeMap) : Sets :=
  fold_left
    (fun acc entry =>
       if String.prefix "__" (fst entry) then acc
       else if isCompositeType (Some (st_type (snd entry)))
            then _addToSubschemaSets acc subschema (fst entry) (snd entry)
            else acc)
    typeMap sets.

Definition createSubschemaSets (subschemas : list (Subschema * TypeMap)) : Sets :=
  fold_left (fun acc entry => addTypes acc (fst entry) (snd entry)) subschemas [].

(** [subschemaSetsByTypeAndField[typeName][fieldName].has(subschema)], false
    when a lookup on the way gives [undefined]. *)
Definition inSets (sets : Sets) (typeName fieldName : string) (subschema : Subschema)
    : Prop :=
  exists byField set,
    getProp typeName sets = Some byField /\
    getProp fieldName byField = Some set /\
    subschema ∈ members set.

(** The subschema has the field: its schema has a composite type of that
    name, not an introspection type, and the field is [__typename] or one of
    the fields of the type (a union has none). *)
Definition provides (typeMap : TypeMap) (typeName fieldName : string) : Prop :=
  exists type,
    (typeName, type) ∈ typeMap /\
    String.prefix "__" typeName = false /\
    isCompositeType (Some (st_type type)) = true /\
    (fieldName = "__typename" \/
     (isUnionType type = false /\ fieldName ∈ st_fields type)).

(** [inSets] for the sets of one type. *)
Definition inFields (byField : list (string * SubschemaSet)) (fieldName : string)
    (subschema : Subschema) : Prop :=
  exists set, getProp fieldName byField = Some set /\ subschema ∈ members set.

(** The set under a field still has the first member it had. *)
Definition keepsFirst (byField byField' : list (string * SubschemaSet)) : Prop :=
  forall fieldName set,
    getProp fieldName byField = Some set ->
    exists set', getProp fieldName byField' = Some set' /\
                 firstSubschema set' = firstSubschema set.

Definition keepsFirstSets (sets sets' : Sets) : Prop :=
  forall typeName byField,
    getProp typeName sets = Some byField ->
    exists byField', getProp typeName sets' = Some byField' /\ keepsFirst byField byField'.
End SuperSchemaSets.

(** ** SuperSchema.splitSelectionSet (src/unnamed/part_007) *)

Module RootSplit.

(** [Map<Subschema, Array<SelectionNode>>], in insertion order. *)
Definition SelectionMap : Type := list (Subschema * list SelectionNode).

(** The loop [for (const subschema of subschemas)] that looks for a
    subschema with an entry in the map. *)
Fixpoint firstHeld (candidates : list Subschema) (map : SelectionMap)
    : option (Subschema * list SelectionNode) :=
  match candidates with
  | [] => None
  | subschema :: rest =>
      match mapGet subschema map with
      | Some selections => Some (subschema, selections)
      | None => firstHeld rest map
      end
  end.

Definition _addField (subschemaSetsByField : list (string * SubschemaSet))
    (field : FieldNode) (map : SelectionMap) : SelectionMap :=
  match getProp (name field) subschemaSetsByField with
  | None => map
  | Some subschemas =>
      match firstHeld (members subschemas) map with
      | Some (subschema, selections) =>
          mapSet subschema (selections ++ [fieldSelection field]) map
      | None => mapSet (firstSubschema subschemas) [fieldSelection field] map
      end
  end.

(** The loop of [_addInlineFragment] over the split of the fragment. *)
Fixpoint pushFragments (typeCondition : option string) (dirs : list Directive)
    (splitSelections : SelectionMap) (map : SelectionMap) : SelectionMap :=
  match splitSelections with
  | [] => map
  | (fragmentSubschema, fragmentSelections) :: rest =>
      let splitFragment := InlineFragmentSel typeCondition dirs fragmentSelections in
      pushFragments typeCondition dirs rest
        match mapGet fragmentSubschema map with
        | Some selections => mapSet fragmentSubschema (selections ++ [splitFragment]) map
        | None => mapSet fragmentSubschema [splitFragment] map
        end
  end.

Definition spreadNotInlined : Exn :=
  InvariantViolation "Fragment spreads should be inlined prior to selections being split!".

(** One round of the loop of [splitSelectionSet]. *)
Fixpoint splitSelection (subschemaSetsByField : list (string * SubschemaSet))
    (selection : SelectionNode) (map : SelectionMap) {struct selection}
    : Result SelectionMap :=
  match selection with
  | FieldSel a n args dirs sel =>
      Ok (_addField subschemaSetsByField (mkFieldNode a n args dirs sel) map)
  | InlineFragmentSel typeCondition dirs selections =>
      do splitSelections <-
         (fix each (sels : list SelectionNode) (acc : SelectionMap)
              {struct sels} : Result SelectionMap :=
            match sels with
            | [] => Ok acc
            | s :: rest =>
                do acc' <- splitSelection subschemaSetsByField s acc;
                each rest acc'
            end) selections [];
      Ok (pushFragments typeCondition dirs splitSelections map)
  | FragmentSpreadSel _ _ => Throw spreadNotInlined
  end.

Fixpoint splitAll (subschemaSetsByField : list (string * SubschemaSet))
    (selections : list SelectionNode) (map : SelectionMap) : Result SelectionMap :=
  match selections with
  | [] => Ok map
  | selection :: rest =>
      do map' <- splitSelection subschemaSetsByField selection map;
      splitAll subschemaSetsByField rest map'
  end.

Definition splitSelectionSet (subschemaSetsByField : option (list (string * SubschemaSet)))
    (selections : list SelectionNode) : Result SelectionMap :=
  match subschemaSetsByField with
  | None => Ok []
  | Some byField => splitAll byField selections []
  end.

(** The test of the loop of [_visitSelectionSet]:
    [selection.kind !== Kind.FIELD ||
     subschemaSetsByField[selection.name.value]?.has(subschema)]. *)
Definition isKept (subschemaSetsByField : list (string * SubschemaSet))
    (subschema : Subschema) (selection : SelectionNode) : bool :=
  match selection with
  | FieldSel _ n _ _ _ =>
      match getProp n subschemaSetsByField with
      | Some set => setHas set subschema
      | None => false
      end
  | _ => true
  end.

(** [_visitSelectionSet(node, subschema, typeInfo)], given what
    [typeInfo.getParentType()] answers; the result is the [selections] of
    the node returned. *)
Definition _visitSelectionSet (sets : list (string * list (string * SubschemaSet)))
    (selections : list SelectionNode) (subschema : Subschema)
    (maybeType : option TypeRef) : list SelectionNode :=
  match maybeType with
  | None => []
  | Some type =>
      match getProp (type_name (getNamedType type)) sets with
      | None => []
      | Some subschemaSetsByField =>
          List.filter (isKept subschemaSetsByField subschema) selections
      end
  end.

(** The fields a selection list asks of the type itself: those of its
    inline fragments count, the sub-selections of a field do not. *)
Fixpoint fieldsOf (selection : SelectionNode) : list FieldNode :=
  match selection with
  | FieldSel a n args dirs sel => [mkFieldNode a n args dirs sel]
  | InlineFragmentSel _ _ selections =>
      (fix each (sels : list SelectionNode) : list FieldNode :=
         match sels with
         | [] => []
         | s :: rest => fieldsOf s ++ each rest
         end) selections
  | FragmentSpreadSel _ _ => []
  end.

Definition fieldsOfAll (selections : list SelectionNode) : list FieldNode :=
  concat (map fieldsOf selections).

Definition allFields (map : SelectionMap) : list FieldNode :=
  concat (List.map (fun entry => fieldsOfAll (snd entry)) map).

Section Invariants.
Context (byField : list (string * SubschemaSet)).

(** Some subschema has the field. *)
Definition known (f : FieldNode) : Prop := is_Some (getProp (name f) byField).

Definition Routes (map : SelectionMap) : Prop :=
  forall subschema selections f,
    (subschema, selections) ∈ map -> f ∈ fieldsOfAll selections ->
    exists set, getProp (name f) byField = Some set /\ subschema ∈ members set.

(** One round of the loop keeps the invariants of the map. *)
Definition SplitsWell (selection : SelectionNode) : Prop :=
  forall map map',
    splitSelection byField selection map = Ok map' ->
    Routes map -> NoDup (List.map fst map) ->
    Routes map' /\ NoDup (List.map fst map') /\
    allFields map' ≡ₚ allFields map ++ filter known (fieldsOf selection).
End Invariants.
End RootSplit.

(** ** SuperSchema.getVariableValues (src/unnamed/part_007) *)

Module Variables.

Inductive TypeNode : Type :=
| NamedTypeNode (typeName : string)
| ListTypeNode (ofType : TypeNode)
| NonNullTypeNode (ofType : TypeNode).

Record VariableDefinition (ValueNode : Type) : Type := mkVariableDefinition {
  var_name : string;
  var_type : TypeNode;
  var_defaultValue : option ValueNode
}.
Arguments mkVariableDefinition {ValueNode} var_name var_type var_defaultValue.
Arguments var_name {ValueNode} v.
Arguments var_type {ValueNode} v.
Arguments var_defaultValue {ValueNode} v.

(** [_typeFromAST(typeNode)] *)
Fixpoint _typeFromAST (mergedTypes : list (string * GraphQLType)) (typeNode : TypeNode)
    : option TypeRef :=
  match typeNode with
  | ListTypeNode inner =>
      match _typeFromAST mergedTypes inner with
      | Some innerType => Some (ListRef innerType)
      | None => None
      end
  | NonNullTypeNode inner =>
      match _typeFromAST mergedTypes inner with
      | Some innerType => Some (NonNullRef innerType)
      | None => None
      end
  | NamedTypeNode typeName =>
      match getProp typeName mergedTypes with
      | Some type => Some (NamedRef type)
      | None => None
      end
  end.

Definition isNonNullType (type : TypeRef) : bool :=
  match type with NonNullRef _ => true | _ => false end.

Definition tooManyErrors : GraphQLError :=
  newGraphQLError
    "Too many errors processing variables, error limit reached. Execution aborted.".

(** The [onError] callback of [getVariableValues] on the [errors] array:
    [false] says that it has thrown. *)
Definition onError (maxErrors : option nat) (error : GraphQLError)
    (errors : list GraphQLError) : bool * list GraphQLError :=
  match maxErrors with
  | Some limit =>
      if Nat.leb limit (length errors) then (false, errors)
      else (true, errors ++ [error])
  | None => (true, errors ++ [error])
  end.

Section Coercion.
Context {ValueNode Report : Type}.
(** What the function takes from graphql-js and from the utilities:
    [isInputType] (of a type that is there: it is false of [undefined]),
    [print] of a type node, [inspect] of a type, [valueFromAST], and
    [coerceInputValue] with the reports it hands to its callback, in order,
    before it returns; the message of a report is put together from
    [inspect] and [printPathArray]. *)
Context (isInputType : TypeRef -> bool).
Context (print : TypeNode -> string).
Context (inspect : TypeRef -> string).
Context (valueFromAST : ValueNode -> TypeRef -> option Value).
Context (coerceInputValue : Value -> TypeRef -> list Report * option Value).
Context (invalidValueMessage : string -> Report -> string).
Context (mergedTypes : list (string * GraphQLType)).

Definition notAnInputType (varName varTypeStr : string) : GraphQLError :=
  newGraphQLError
    ("Variable " +:+ dquote +:+ "$" +:+ varName +:+ dquote
     +:+ " expected value of type " +:+ dquote +:+ varTypeStr +:+ dquote
     +:+ " which cannot be used as an input type.").

Definition notProvided (varName varTypeStr : string) : GraphQLError :=
  newGraphQLError
    ("Variable " +:+ dquote +:+ "$" +:+ varName +:+ dquote
     +:+ " of required type " +:+ dquote +:+ varTypeStr +:+ dquote
     +:+ " was not provided.").

Definition mustNotBeNull (varName varTypeStr : string) : GraphQLError :=
  newGraphQLError
    ("Variable " +:+ dquote +:+ "$" +:+ varName +:+ dquote
     +:+ " of non-null type " +:+ dquote +:+ varTypeStr +:+ dquote
     +:+ " must not be null.").

(** The callback handed to [coerceInputValue], called once per report. *)
Fixpoint reportAll (maxErrors : option nat) (varName : string) (reports : list Report)
    (errors : list GraphQLError) : bool * list GraphQLError :=
  match reports with
  | [] => (true, errors)
  | report :: rest =>
      match onError maxErrors (newGraphQLError (invalidValueMessage varName report))
              errors with
      | (true, errors') => reportAll maxErrors varName rest errors'
      | (false, errors') => (false, errors')
      end
  end.

(** What one round of the loop of [_coerceVariableValues] does: the
    [errors] array afterwards, whether the callback has thrown, and the
    coerced values ([None] is a value that is [undefined]). *)
Definition coerceOne (maxErrors : option nat) (varDefNode : VariableDefinition ValueNode)
    (inputs : ObjMap) (coercedValues : list (string * option Value))
    (errors : list GraphQLError)
    : bool * list (string * option Value) * list GraphQLError :=
  let varName := var_name varDefNode in
  let fail error :=
    let (returned, errors') := onError maxErrors error errors in
    (returned, coercedValues, errors') in
  match _typeFromAST mergedTypes (var_type varDefNode) with
  | None => fail (notAnInputType varName (print (var_type varDefNode)))
  | Some varType =>
      if negb (isInputType varType)
      then fail (notAnInputType varName (print (var_type varDefNode)))
      else
        match getProp varName inputs with
        | None =>
            match var_defaultValue varDefNode with
            | Some defaultValue =>
                (true, setProp varName (valueFromAST defaultValue varType) coercedValues,
                 errors)
            | None =>
                if isNonNullType varType
                then fail (notProvided varName (inspect varType))
                else (true, coercedValues, errors)
            end
        | Some value =>
            if match value with VNull => isNonNullType varType | _ => false end
            then fail (mustNotBeNull varName (inspect varType))
            else
              let (reports, coerced) := coerceInputValue value varType in
              let (returned, errors') := reportAll maxErrors varName reports errors in
              if returned then (true, setProp varName coerced coercedValues, errors')
              else (false, coercedValues, errors')
        end
  end.

Fixpoint _coerceVariableValues (maxErrors : option nat)
    (varDefNodes : list (VariableDefinition ValueNode)) (inputs : ObjMap)
    (coercedValues : list (string * option Value)) (errors : list GraphQLError)
    : bool * list (string * option Value) * list GraphQLError :=
  match varDefNodes with
  | [] => (true, coercedValues, errors)
  | varDefNode :: rest =>
      match coerceOne maxErrors varDefNode inputs coercedValues errors with
      | (true, coercedValues', errors') =>
          _coerceVariableValues maxErrors rest inputs coercedValues' errors'
      | thrown => thrown
      end
  end.

(** [getVariableValues(varDefNodes, inputs, { maxErrors })]: [inl] is
    [{ errors }], [inr] is [{ coerced }]. *)
Definition getVariableValues (varDefNodes : list (VariableDefinition ValueNode))
    (inputs : ObjMap) (maxErrors : option nat)
    : list GraphQLError + list (string * option Value) :=
  match _coerceVariableValues maxErrors varDefNodes inputs [] [] with
  | (true, coerced, errors) =>
      if Nat.eqb (length errors) 0 then inr coerced else inl errors
  | (false, _, errors) => inl (errors ++ [tooManyErrors])
  end.
End Coercion.
End Variables.

(** ** The FieldPlan class (src/src/stitch/FieldPlan.ts) *)

Module FieldPlanClass.

(** A constructed [FieldPlan], as far as its three results go. *)
Inductive FieldPlan : Type :=
| mkFieldPlan (ownSelections : list SelectionNode)
    (selectionMap : list (Subschema * list SelectionNode))
    (subFieldPlans : list (string * FieldPlan)).

Definition ownSelections (plan : FieldPlan) : list SelectionNode :=
  match plan with mkFieldPlan own _ _ => own end.
Definition selectionMap (plan : FieldPlan) : list (Subschema * list SelectionNode) :=
  match plan with mkFieldPlan _ m _ => m end.
Definition subFieldPlans (plan : FieldPlan) : list (string * FieldPlan) :=
  match plan with mkFieldPlan _ _ subs => subs end.

(** The two arrays one call of [_processSelections] fills. *)
Record Split : Type := mkSplit {
  own : list SelectionNode;
  selMap : list (Subschema * list SelectionNode)
}.

(** What the instance mutates while it is constructed. *)
Record State : Type := mkState {
  visitedFragments : list string;
  st_subFieldPlans : list (string * FieldPlan)
}.

(** The array [_getSubschemaAndSelections] hands back: [ownSelections]
    itself, or the array the selection map holds for the subschema. *)
Inductive Target : Type :=
| Own
| InMap (subschema : Subschema).

Definition push (target : Target) (selection : SelectionNode) (split : Split) : Split :=
  match target with
  | Own => mkSplit (own split ++ [selection]) (selMap split)
  | InMap subschema =>
      mkSplit (own split)
        (mapSet subschema
           (match mapGet subschema (selMap split) with
            | Some selections => selections
            | None => []
            end ++ [selection])
           (selMap split))
  end.

Definition _getSubschemaAndSelections (thisSubschema : option Subschema)
    (subschemas : SubschemaSet) (split : Split) : Subschema * Target * Split :=
  let fromMap :=
    match RootSplit.firstHeld (members subschemas) (selMap split) with
    | Some (subschema, _) => (subschema, InMap subschema, split)
    | None =>
        let subschema := firstSubschema subschemas in
        (subschema, InMap subschema,
         mkSplit (own split) (mapSet subschema [] (selMap split)))
    end in
  match thisSubschema with
  | Some subschema =>
      if setHas subschemas subschema then (subschema, Own, split) else fromMap
  | None => fromMap
  end.

(** Modelled from the spec: [AccumulatorMap.add] of utilities/AccumulatorMap
    (not among the sources): the item goes to the end of the array under the
    key, which is created when the key is new. *)
Definition accAdd (key : Subschema) (item : SelectionNode)
    (m : list (Subschema * list SelectionNode)) : list (Subschema * list SelectionNode) :=
  match mapGet key m with
  | Some group => mapSet key (group ++ [item]) m
  | None => mapSet key [item] m
  end.

(** graphql-js's meta fields, by the names and types it gives them. *)
Definition TypeNameMetaFieldDef : GraphQLField :=
  mkFieldDef "__typename" (NonNullRef (NamedRef (mkType "String" ScalarKind))).
Definition SchemaMetaFieldDef : GraphQLField :=
  mkFieldDef "__schema" (NonNullRef (NamedRef (mkType "__Schema" ObjectKind))).
Definition TypeMetaFieldDef : GraphQLField :=
  mkFieldDef "__type" (NamedRef (mkType "__Type" ObjectKind)).

Section Body.
Context (ss : SuperSchema).
Context (fragmentMap : list (string * FragmentDefinitionNode)).
(** [parentType.getFields()], [mergedSchema.getQueryType()], and [inspect]
    of the utilities, for the messages. *)
Context (getFields : GraphQLType -> list (string * GraphQLField)).
Context (queryType : option GraphQLType).
Context (inspect : option GraphQLType -> string).

Definition _getFieldDef (parentType : GraphQLType) (fieldName : string)
    : Result (option GraphQLField) :=
  if String.eqb fieldName "__typename" then Ok (Some TypeNameMetaFieldDef)
  else
    match type_kind parentType with
    | ObjectKind | InterfaceKind =>
        match getProp fieldName (getFields parentType) with
        | Some field => Ok (Some field)
        | None =>
            if bool_decide (Some parentType = queryType) then
              if String.eqb fieldName "__schema" then Ok (Some SchemaMetaFieldDef)
              else if String.eqb fieldName "__type" then Ok (Some TypeMetaFieldDef)
              else Ok None
            else Ok None
        end
    | _ =>
        Throw (InvariantViolation
                 ("Invalid parent type " +:+ inspect (Some parentType) +:+ "."))
    end.

Section Rounds.
(** [new FieldPlan(operationContext, parentType, selections, subschema)] and
    the recursive call of [_processSelections] on the same instance. *)
Context (newFieldPlan :
           GraphQLType -> list SelectionNode -> option Subschema -> Result FieldPlan).
Context (thisSubschema : option Subschema).
Context (_processSelections :
           State -> GraphQLType -> list SelectionNode -> Result (Split * State)).

Definition _addField (parentType : GraphQLType) (field : FieldNode)
    (split : Split) (st : State) : Result (Split * State) :=
  match getProp (type_name parentType) (subschemaSetsByTypeAndField ss) with
  | None => Throw (TypeError "Cannot read properties of undefined")
  | Some subschemaSetsByField =>
      match getProp (name field) subschemaSetsByField with
      | None => Ok (split, st)
      | Some subschemaSets =>
          let '(subschema, target, split1) :=
            _getSubschemaAndSelections thisSubschema subschemaSets split in
          match selectionSet field with
          | None => Ok (push target (fieldSelection field) split1, st)
          | Some selections =>
              do fieldDef <- _getFieldDef parentType (name field);
              match fieldDef with
              | None => Ok (split1, st)
              | Some def =>
                  do subFieldPlan <-
                     newFieldPlan (getNamedType (fieldDef_type def)) selections
                       (Some subschema);
                  let split2 :=
                    if negb (isEmpty (ownSelections subFieldPlan))
                    then push target
                           (fieldSelection
                              (withSelectionSet field (ownSelections subFieldPlan)))
                           split1
                    else split1 in
                  let st2 :=
                    if negb (isEmpty (selectionMap subFieldPlan))
                       || negb (isEmpty (subFieldPlans subFieldPlan))
                    then mkState (visitedFragments st)
                           (setProp (Planner.responseKey field) subFieldPlan
                              (st_subFieldPlans st))
                    else st in
                  Ok (split2, st2)
              end
          end
      end
  end.

(** The split fragment is built anew, with its kind and its selection set
    and nothing else. *)
Definition splitFragment (selections : list SelectionNode) : SelectionNode :=
  InlineFragmentSel None [] selections.

Definition _addFragment (parentType : GraphQLType) (selections : list SelectionNode)
    (split : Split) (st : State) : Result (Split * State) :=
  do (fragmentSplit, st1) <- _processSelections st parentType selections;
  let own1 :=
    if negb (isEmpty (own fragmentSplit))
    then own split ++ [splitFragment (own fragmentSplit)]
    else own split in
  let map1 :=
    fold_left
      (fun acc entry => accAdd (fst entry) (splitFragment (snd entry)) acc)
      (selMap fragmentSplit) (selMap split) in
  Ok (mkSplit own1 map1, st1).

Definition invalidTypeCondition (refinedType : option GraphQLType) : Exn :=
  InvariantViolation ("Invalid type condition " +:+ inspect refinedType).

(** One round of the loop of [_processSelections]. *)
Definition processSelection (parentType : GraphQLType) (selection : SelectionNode)
    (split : Split) (st : State) : Result (Split * State) :=
  match selection with
  | FieldSel a n args dirs sel =>
      _addField parentType (mkFieldNode a n args dirs sel) split st
  | InlineFragmentSel typeCondition _ selections =>
      let refinedType :=
        match typeCondition with
        | Some typeName => getType ss typeName
        | None => Some parentType
        end in
      match refinedType with
      | Some refined =>
          if isCompositeType refinedType
          then _addFragment refined selections split st
          else Throw (invalidTypeCondition refinedType)
      | None => Throw (invalidTypeCondition refinedType)
      end
  | FragmentSpreadSel fragmentName _ =>
      if bool_decide (fragmentName ∈ visitedFragments st) then Ok (split, st)
      else
        let st1 := mkState (visitedFragments st ++ [fragmentName]) (st_subFieldPlans st) in
        match getProp fragmentName fragmentMap with
        | None => Throw (TypeError "Cannot read properties of undefined")
        | Some fragment =>
            let refinedType := getType ss (frag_typeCondition fragment) in
            match refinedType with
            | Some refined =>
                if isCompositeType refinedType
                then _addFragment refined (frag_selections fragment) split st1
                else Throw (invalidTypeCondition refinedType)
            | None => Throw (invalidTypeCondition refinedType)
            end
        end
  end.

Fixpoint processAll (parentType : GraphQLType) (selections : list SelectionNode)
    (split : Split) (st : State) : Result (Split * State) :=
  match selections with
  | [] => Ok (split, st)
  | selection :: rest =>
      do (split1, st1) <- processSelection parentType selection split st;
      processAll parentType rest split1 st1
  end.
End Rounds.

(** The recursion of the class, bounded: a fragment may spread itself
    inside one of its fields, where a new instance has forgotten that it was
    visited. *)
Fixpoint _processSelections (fuel : nat) (thisSubschema : option Subschema) (st : State)
    (parentType : GraphQLType) (selections : list SelectionNode)
    : Result (Split * State) :=
  match fuel with
  | O => Throw FuelExhausted
  | S fuel' =>
      processAll
        (fun parentType' selections' subschema' =>
           do (split, st') <-
              _processSelections fuel' subschema' (mkState [] []) parentType' selections';
           Ok (mkFieldPlan (own split) (selMap split) (st_subFieldPlans st')))
        thisSubschema
        (_processSelections fuel' thisSubschema)
        parentType selections (mkSplit [] []) st
  end.

Definition newFieldPlan (fuel : nat) (parentType : GraphQLType)
    (selections : list SelectionNode) (subschema : option Subschema) : Result FieldPlan :=
  do (split, st) <- _processSelections fuel subschema (mkState [] []) parentType selections;
  Ok (mkFieldPlan (own split) (selMap split) (st_subFieldPlans st)).
End Body.
End FieldPlanClass.

(** ** Merged fields, input fields and enum values (src/unnamed/part_007) *)

Module MergedElements.
Section ByName.
(** An element of an original type (a field, an input field, an enum
    value) and the configuration the merged type gets for it
    ([_fieldToFieldConfig], [_inputFieldToInputFieldConfig],
    [_enumValueToEnumValueConfig]). *)
Context {Element Config : Type} (toConfig : Element -> Config).

(** The inner loop, over the named elements of one original type:
    [if (fields[fieldName]) { continue; } fields[fieldName] = ...]. *)
Definition mergeOne (merged : list (string * Config))
    (elements : list (string * Element)) : list (string * Config) :=
  fold_left
    (fun acc entry =>
       match getProp (fst entry) acc with
       | Some _ => acc
       | None => setProp (fst entry) (toConfig (snd entry)) acc
       end)
    elements merged.

(** [_getMergedFieldMap(originalTypes)], each type given by
    [Object.entries(type.getFields())]; [_getMergedInputFieldMap] and
    [_mergeEnumValueMaps] are the same loops over input fields and over enum
    values under their names.  What is stored is an object literal, so the
    test [fields[fieldName]] asks whether the name is there. *)
Definition _getMergedFieldMap (originalTypes : list (list (string * Element)))
    : list (string * Config) :=
  fold_left mergeOne originalTypes [].
End ByName.

End MergedElements.

(** ** Views used to state properties of the models above *)

(** An object keeps its keys, and an array stays an array and does not shrink. *)
Definition KeepsEntries (o o' : Composer.HObj) : Prop :=
  (forall key, key ∈ keys (Composer.h_props o) -> key ∈ keys (Composer.h_props o')) /\
  match Composer.h_elems o with
  | Some elems =>
      exists elems', Composer.h_elems o' = Some elems' /\ length elems <= length elems'
  | None => Composer.h_elems o' = None
  end.

(** Every object of [h] is still there in [h'], its entries kept. *)
Definition Extends (h h' : Composer.Heap) : Prop :=
  forall l o, h !! l = Some o -> exists o', h' !! l = Some o' /\ KeepsEntries o o'.

(** Whether [subschemaSet.has(subschema)] holds for the set of a leaf field,
    and whether the field is known but held by other subschemas only. *)
Definition ownedBy (byField : list (string * SubschemaSet)) (subschema : Subschema)
    (f : FieldNode) : bool :=
  match getProp (name f) byField with
  | Some subschemaSet => setHas subschemaSet subschema
  | None => false
  end.

Definition ownedElsewhere (byField : list (string * SubschemaSet)) (subschema : Subschema)
    (f : FieldNode) : bool :=
  match getProp (name f) byField with
  | Some subschemaSet => negb (setHas subschemaSet subschema)
  | None => false
  end.

(** A subschema can resolve a field of a type: it is in the set
    [subschemaSetsByTypeAndField] holds for the type and the field. *)
Definition Resolves (ss : SuperSchema) (parentType : GraphQLType) (subschema : Subschema)
    (fieldName : string) : Prop :=
  exists byField subschemas,
    getProp (type_name parentType) (subschemaSetsByTypeAndField ss) = Some byField /\
    getProp fieldName byField = Some subschemas /\
    setHas subschemas subschema = true.

(** A field plan all of whose subschema plans hold only fields that their
    subschema can resolve, the field plans of its stitch plans included. *)
Inductive WellRouted (ss : SuperSchema) : GraphQLType -> Planner.FieldPlan -> Prop :=
| wellRouted parentType subschemaPlans stitchPlans :
    (forall plan, plan ∈ subschemaPlans ->
       (forall f, f ∈ Planner.fieldNodes plan ->
          Resolves ss parentType (Planner.toSubschema plan) (name f)) /\
       (forall key stitchPlan type fieldPlan,
          (key, stitchPlan) ∈ Planner.planStitchPlans plan ->
          (type, fieldPlan) ∈ stitchPlan -> WellRouted ss type fieldPlan)) ->
    (forall key stitchPlan type fieldPlan,
       (key, stitchPlan) ∈ stitchPlans ->
       (type, fieldPlan) ∈ stitchPlan -> WellRouted ss type fieldPlan) ->
    WellRouted ss parentType (Planner.mkFieldPlan subschemaPlans stitchPlans).

(** The same of a field plan under construction. *)
Definition Routed (ss : SuperSchema) (parentType : GraphQLType)
    (fieldPlan : Planner.MutableFieldPlan) : Prop :=
  (forall subschema plan,
     (subschema, plan) ∈ Planner.m_subschemaPlans fieldPlan ->
     Planner.toSubschema plan = subschema /\
     (forall f, f ∈ Planner.fieldNodes plan -> Resolves ss parentType subschema (name f)) /\
     (forall key stitchPlan type nested,
        (key, stitchPlan) ∈ Planner.planStitchPlans plan ->
        (type, nested) ∈ stitchPlan -> WellRouted ss type nested)) /\
  (forall key stitchPlan type nested,
     (key, stitchPlan) ∈ Planner.m_stitchPlans fieldPlan ->
     (type, nested) ∈ stitchPlan -> WellRouted ss type nested).

Definition PlanOk (ss : SuperSchema) (parentType : GraphQLType) (subschema : Subschema)
    (plan : Planner.SubschemaPlan) : Prop :=
  Planner.toSubschema plan = subschema /\
  (forall f, f ∈ Planner.fieldNodes plan -> Resolves ss parentType subschema (name f)) /\
  (forall key stitchPlan type nested,
     (key, stitchPlan) ∈ Planner.planStitchPlans plan ->
     (type, nested) ∈ stitchPlan -> WellRouted ss type nested).

Definition GoodStitch (ss : SuperSchema) (stitchPlan : Planner.StitchPlan) : Prop :=
  forall type nested, (type, nested) ∈ stitchPlan -> WellRouted ss type nested.

Module ContextView.
(** The fragment definitions of a document, in document order. *)
Definition fragmentDefinitions (document : DocumentNode) : list FragmentDefinitionNode :=
  omap (fun definition =>
          match definition with
          | FragmentDefinition fragment => Some fragment
          | _ => None
          end) (definitions document).

(** The operation [buildExecutionContext] is asked for is in the document:
    without a name it is the only operation; with a name it is the last
    operation of that name. *)
Definition Selects (operationName : option string) (document : DocumentNode)
    (operation : OperationDefinitionNode) : Prop :=
  match operationName with
  | None => Context.operationDefinitions document = [operation]
  | Some wanted =>
      exists before after,
        Context.operationDefinitions document = before ++ operation :: after /\
        op_name operation = Some wanted /\
        forall op, op ∈ after -> op_name op <> Some wanted
  end.
End ContextView.

(** ** Views for the FieldPlan class *)
Module FieldPlanView.
Import FieldPlanClass.

(** A selection without fragment spreads whose inline fragments, at any
    depth, have neither a type condition nor directives. *)
Fixpoint bare (selection : SelectionNode) : bool :=
  match selection with
  | FieldSel _ _ _ _ None => true
  | FieldSel _ _ _ _ (Some selections) => forallb bare selections
  | InlineFragmentSel typeCondition dirs selections =>
      match typeCondition, dirs with
      | None, [] => forallb bare selections
      | _, _ => false
      end
  | FragmentSpreadSel _ _ => false
  end.

Definition bareSplit (split : Split) : Prop :=
  forallb bare (own split) = true /\
  forall subschema selections,
    (subschema, selections) ∈ selMap split -> forallb bare selections = true.

(** All the selections of a field plan and of its sub field plans are bare. *)
Inductive BarePlan : FieldPlan -> Prop :=
| barePlan ownSelections selectionMap subFieldPlans :
    forallb bare ownSelections = true ->
    (forall subschema selections,
       (subschema, selections) ∈ selectionMap -> forallb bare selections = true) ->
    (forall key plan, (key, plan) ∈ subFieldPlans -> BarePlan plan) ->
    BarePlan (mkFieldPlan ownSelections selectionMap subFieldPlans).

Definition bareState (st : State) : Prop :=
  forall key plan, (key, plan) ∈ st_subFieldPlans st -> BarePlan plan.

(** Every selection of the map is one of the given leaf fields, one that
    the subschema of the plan does not have, filed under a subschema that
    has it. *)
Definition filedElsewhere (byField : list (string * SubschemaSet)) (subschema : Subschema)
    (leaves : list FieldNode) (m : list (Subschema * list SelectionNode)) : Prop :=
  forall subschema' selections selection,
    (subschema', selections) ∈ m -> selection ∈ selections ->
    exists f,
      f ∈ leaves /\ selection = fieldSelection f /\
      ownedElsewhere byField subschema f = true /\
      exists set, getProp (name f) byField = Some set /\ subschema' ∈ members set.
End FieldPlanView.

(** ** More concrete cases *)

Module PlannerCases.
Definition userField : FieldNode :=
  mkFieldNode None "user" [] [] (Some Scenario.userSelections).

Definition userPlan : Planner.FieldPlan :=
  Planner.mkFieldPlan
    [Planner.mkSubschemaPlan Scenario.subschemaA None
       [mkFieldNode None "user" [] []
          (Some [Scenario.leaf "name"; Planner.stitchingTypenameField])]
       [("user",
         [(Scenario.tUser,
           Planner.mkFieldPlan
             [Planner.mkSubschemaPlan Scenario.subschemaB (Some Scenario.subschemaA)
                [Scenario.leafNode "email"] []]
             [])])]]
    [].
End PlannerCases.

Module ComposerCases.
(** Scenario 2 once A has answered: B's answer for [email] is still to come. *)
Definition pendingMachine : Composer.Machine :=
  Composer.mkMachine Scenario.afterUser [Scenario.userFollowUp] [].

Definition pendingRun : Result (list Composer.Event * Composer.Machine) :=
  Composer.run Scenario.superSchema Scenario.emailExecutor None 8 pendingMachine.

Definition pendingEvents : list Composer.Event :=
  match pendingRun with Ok (evs, _) => evs | Throw _ => [] end.

Definition settledMachine : Composer.Machine :=
  match pendingRun with
  | Ok (_, m) => m
  | Throw _ => pendingMachine
  end.

(** A list of two users, as it lies in the heap. *)
Definition userProps : list (string * Composer.LVal) :=
  [("name", Composer.LStr "x"); ("__stitching__typename", Composer.LStr "User")].

Definition userList : Composer.LVal :=
  Composer.LObj 2 (Some [Composer.LObj 0 None userProps; Composer.LObj 1 None userProps]) [].

Definition listFetches : Composer.AccumulatorMap :=
  match Composer._collectSubFetches Scenario.superSchema [] 3 userList Scenario.userTree
          [Composer.KeyStr "users"] with
  | Ok m => m
  | Throw _ => []
  end.
End ComposerCases.

Module ContextCases.
Definition acceptAll (subschema : Subschema) : Result unit := Ok tt.
Definition oneSuperSchema (subschemas : list Subschema) : Result SuperSchema :=
  Ok Scenario.superSchema.
Definition noVariables (ss : SuperSchema) (defs : list VariableDefinitionNode)
    (raw : ObjMap) (maxErrors : nat) : list GraphQLError + ObjMap := inr [].
Definition keepOperation (op : OperationDefinitionNode) (coerced : ObjMap) := op.
Definition keepFragment (fragment : FragmentDefinitionNode) (coerced : ObjMap) := fragment.

Definition namedQuery (opName : string) (selections : list SelectionNode)
    : OperationDefinitionNode :=
  mkOperation QUERY (Some opName) None None selections.

(** Two operations called [GetUser], another one between them, a schema
    definition, and two fragments of the same name. *)
Definition crowded : DocumentNode :=
  mkDocument [OperationDefinition (namedQuery "GetUser" [Scenario.leaf "a"]);
              FragmentDefinition (mkFragment "Parts" "User" [] [Scenario.leaf "name"]);
              TypeSystemDefinition "schema { query: Query }";
              OperationDefinition (namedQuery "Other" [Scenario.leaf "b"]);
              OperationDefinition (namedQuery "GetUser" [Scenario.leaf "c"]);
              FragmentDefinition (mkFragment "Parts" "User" [] [Scenario.leaf "email"])].

Definition crowdedArgs : Context.ExecutionArgs :=
  Context.mkArgs [Scenario.subschemaA] crowded None (Some "GetUser").

Definition crowdedContext : Context.ExecutionContext :=
  Context.mkExecutionContext
    (Context.mkOperationContext Scenario.superSchema
       (namedQuery "GetUser" [Scenario.leaf "c"])
       [mkFragment "Parts" "User" [] [Scenario.leaf "name"];
        mkFragment "Parts" "User" [] [Scenario.leaf "email"]]
       [("Parts", mkFragment "Parts" "User" [] [Scenario.leaf "email"])]
       [])
    None [].
End ContextCases.

Module ConsolidatorCases.
(** The consolidator of one source once its first item has been processed,
    and once the consumer has cancelled after that. *)
Definition afterFirstItem : Consolidator.Consolidator (T:=nat) (U:=nat) :=
  Consolidator.mkConsolidator [(0, [2])] true false false false [(0, 1)] false.


End ConsolidatorCases.

Module ExecuteCases.
Definition boom : GraphQLError := mkGraphQLError "boom" None.
Definition late : GraphQLError := mkGraphQLError "late" None.

Definition threeResults : list ExecutionResult :=
  [mkResult (Some [("user", VMap [("name", VStr "x")])]) None;
   mkResult None (Some [boom]);
   mkResult (Some [("posts", VArr [])]) (Some [late])].

Definition twoAnswers : list ExecutionResult :=
  [mkResult (Some [("user", VMap [("name", VStr "x")]); ("a", VNum 1)]) None;
   mkResult (Some [("user", VMap [("email", VStr "y")])]) None].

Definition twoParts : list (Execute.PartResult (S:=Consolidator.AsyncIterator (T:=nat))) :=
  [Execute.Single (mkResult (Some [("a", VNum 1)]) None);
   Execute.MultiPart (mkResult (Some [("b", VNum 2)]) None) (7, [1; 2])].
End ExecuteCases.

Module SubPlansCases.
Definition emailPlan : SubPlans.Plan :=
  SubPlans.mkPlan [(Scenario.subschemaB, [Scenario.leaf "email"])] [].
Definition userPlan : SubPlans.Plan :=
  SubPlans.mkPlan [(Scenario.subschemaB, [Scenario.leaf "age"])] [("friends", emailPlan)].
Definition rootPlan : SubPlans.Plan :=
  SubPlans.mkPlan [(Scenario.subschemaA, Scenario.userQuery)] [("users", userPlan)].
End SubPlansCases.

Module SetsCases.
Definition userType (fields : list string) : SuperSchemaSets.SchemaType :=
  SuperSchemaSets.mkSchemaType Scenario.tUser fields.

Definition schemaA : SuperSchemaSets.TypeMap :=
  [("User", userType ["id"; "name"]);
   ("String", SuperSchemaSets.mkSchemaType Scenario.tString []);
   ("__Type", SuperSchemaSets.mkSchemaType (mkType "__Type" ObjectKind) ["name"])].

Definition schemaB : SuperSchemaSets.TypeMap :=
  [("User", userType ["id"; "email"])].

Definition twoSchemas : list (Subschema * SuperSchemaSets.TypeMap) :=
  [(Scenario.subschemaA, schemaA); (Scenario.subschemaB, schemaB)].
End SetsCases.

Module RootSplitCases.
Definition rootSets : list (string * SubschemaSet) :=
  [("user", mkSet Scenario.subschemaA []);
   ("posts", mkSet Scenario.subschemaB []);
   ("version", mkSet Scenario.subschemaA [Scenario.subschemaB])].

(** [{ posts  ... { version  user { name } }  nope }] *)
Definition rootSelections : list SelectionNode :=
  [Scenario.leaf "posts";
   InlineFragmentSel None [] [Scenario.leaf "version"; FieldSel None "user" [] []
                                                          (Some Scenario.userSelections)];
   Scenario.leaf "nope"].

Definition rootSplit : RootSplit.SelectionMap :=
  match RootSplit.splitSelectionSet (Some rootSets) rootSelections with
  | Ok map => map
  | Throw _ => []
  end.
End RootSplitCases.

Module FieldPlanCases.
(** [{ ... on User { name email } }] asked of [Node], below subschema A. *)
Definition nodeSelections : list SelectionNode :=
  [InlineFragmentSel (Some "User") [("include", [("if", "$full")])]
     [Scenario.leaf "name"; Scenario.leaf "email"]].

Definition noFields (type : GraphQLType) : list (string * GraphQLField) := [].
Definition typeName (type : option GraphQLType) : string :=
  match type with Some t => type_name t | None => "undefined" end.

Definition nodePlan : FieldPlanClass.FieldPlan :=
  FieldPlanClass.mkFieldPlan
    [InlineFragmentSel None [] [Scenario.leaf "name"]]
    [(Scenario.subschemaB, [InlineFragmentSel None [] [Scenario.leaf "email"]])]
    [].
End FieldPlanCases.


(** * Properties *)

(** ** Association lists *)

Lemma getProp_setProp_eq {A} k (v : A) o : getProp k (setProp k v o) = Some v.
Proof.
  induction o as [|[k0 v0] o IH]; simpl.
  - by rewrite String.eqb_refl.
  - destruct (String.eqb k0 k) eqn:E; simpl; rewrite E; [done|apply IH].
Qed.

Lemma getProp_setProp_ne {A} k k' (v : A) o :
  k <> k' -> getProp k' (setProp k v o) = getProp k' o.
Proof.
  intros Hne. induction o as [|[k0 v0] o IH]; simpl.
  - by destruct (String.eqb_spec k k').
  - destruct (String.eqb_spec k0 k) as [->|Hk]; simpl.
    + by destruct (String.eqb_spec k k').
    + destruct (String.eqb k0 k'); [done|apply IH].
Qed.

Lemma mapGet_mapSet_eq {K V} `{EqDecision K} (k : K) (v : V) m :
  mapGet k (mapSet k v m) = Some v.
Proof.
  induction m as [|[k0 v0] m IH]; simpl.
  - by rewrite decide_True.
  - destruct (decide (k0 = k)) as [->|Hne]; simpl.
    + by rewrite decide_True.
    + by rewrite decide_False.
Qed.

Lemma mapGet_mapSet_ne {K V} `{EqDecision K} (k k' : K) (v : V) m :
  k <> k' -> mapGet k' (mapSet k v m) = mapGet k' m.
Proof.
  intros Hne. induction m as [|[k0 v0] m IH]; simpl.
  - by rewrite decide_False.
  - destruct (decide (k0 = k)) as [->|Hk]; simpl.
    + by rewrite !decide_False.
    + destruct (decide (k0 = k')); [done|apply IH].
Qed.

(** ** Planner: which subschema receives a leaf field *)

Section PlannerChoice.
Import Planner.

Lemma firstWithPlan_spec candidates subschemaPlans :
  match firstWithPlan candidates subschemaPlans with
  | Some (subschema, subschemaPlan) =>
      exists before after,
        candidates = before ++ subschema :: after /\
        mapGet subschema subschemaPlans = Some subschemaPlan /\
        Forall (fun s => mapGet s subschemaPlans = None) before
  | None => Forall (fun s => mapGet s subschemaPlans = None) candidates
  end.
Proof.
  induction candidates as [|s rest IH]; simpl; [constructor|].
  destruct (mapGet s subschemaPlans) as [sp|] eqn:E.
  - exists [], rest. by repeat split.
  - destruct (firstWithPlan rest subschemaPlans) as [[s' sp']|].
    + destruct IH as (before & after & -> & Hget & Hnone).
      exists (s :: before), after. repeat split; [done|by constructor].
    + by constructor.
Qed.

(** What [_getSubschemaAndPlan] answers, whatever [fromSubschema] is. *)
Lemma getSubschemaAndPlan_subschema subschemas subschemaPlans fromSubschema :
  (_getSubschemaAndPlan subschemas subschemaPlans fromSubschema).1.1
  = _getSubschema subschemas subschemaPlans.
Proof.
  unfold _getSubschemaAndPlan, _getSubschema.
  by destruct (firstWithPlan _ _) as [[s sp]|].
Qed.

(** The rule of [_getSubschema]: the first candidate, in the order of the
    set, that has an entry in the plan; the first candidate if none has. *)
Lemma getSubschema_rule subschemas subschemaPlans :
  let chosen := _getSubschema subschemas subschemaPlans in
  (exists before after,
      members subschemas = before ++ chosen :: after /\
      is_Some (mapGet chosen subschemaPlans) /\
      Forall (fun s => mapGet s subschemaPlans = None) before)
  \/ (Forall (fun s => mapGet s subschemaPlans = None) (members subschemas) /\
      chosen = firstSubschema subschemas).
Proof.
  unfold _getSubschema.
  pose proof (firstWithPlan_spec (members subschemas) subschemaPlans) as H.
  destruct (firstWithPlan _ _) as [[s sp]|].
  - left. destruct H as (before & after & Hm & Hget & Hnone).
    exists before, after. by rewrite Hget.
  - by right.
Qed.

Lemma getSubschema_member subschemas subschemaPlans :
  _getSubschema subschemas subschemaPlans ∈ members subschemas.
Proof.
  destruct (getSubschema_rule subschemas subschemaPlans)
    as [(before & after & Hm & _)|[_ ->]].
  - rewrite Hm. apply elem_of_app. right. left.
  - left.
Qed.
End PlannerChoice.

(** C3 (as amended). For a leaf field whose candidate set is found,
    [_addFieldToFieldPlan] appends the field to the plan of the subschema
    [_getSubschema] picks: the first candidate, in set order, that already
    has a SubschemaPlan entry, else the first candidate.  [fromSubschema]
    takes no part in the choice: it is only stored in a SubschemaPlan created
    for the occasion.  Every other subschema's entry is left as it was.  The
    rule coincides with the specification's when [fromSubschema] is absent
    or not among the candidates. *)
Theorem leaf_field_goes_to_first_planned_candidate
    (fuel : nat) (ss : SuperSchema) (fieldPlan : Planner.MutableFieldPlan)
    (fromSubschema : option Subschema) (parentType : GraphQLType) (field : FieldNode)
    (subschemaSetsByField : list (string * SubschemaSet)) (subschemas : SubschemaSet) :
  getProp (type_name parentType) (subschemaSetsByTypeAndField ss)
    = Some subschemaSetsByField ->
  getProp (name field) subschemaSetsByField = Some subschemas ->
  selectionSet field = None ->
  let chosen := Planner._getSubschema subschemas (Planner.m_subschemaPlans fieldPlan) in
  let before :=
    match mapGet chosen (Planner.m_subschemaPlans fieldPlan) with
    | Some subschemaPlan => subschemaPlan
    | None => Planner.newSubschemaPlan chosen fromSubschema
    end in
  exists fieldPlan',
    Planner._addFieldToFieldPlan (S fuel) ss fieldPlan fromSubschema parentType field
      = Ok fieldPlan' /\
    mapGet chosen (Planner.m_subschemaPlans fieldPlan')
      = Some (Planner.appendFieldNode before field) /\
    (forall other, other <> chosen ->
       mapGet other (Planner.m_subschemaPlans fieldPlan')
       = mapGet other (Planner.m_subschemaPlans fieldPlan)) /\
    Planner.m_stitchPlans fieldPlan' = Planner.m_stitchPlans fieldPlan /\
    chosen ∈ members subschemas /\
    ((exists earlier later,
         members subschemas = earlier ++ chosen :: later /\
         is_Some (mapGet chosen (Planner.m_subschemaPlans fieldPlan)) /\
         Forall (fun s => mapGet s (Planner.m_subschemaPlans fieldPlan) = None) earlier)
     \/ (Forall (fun s => mapGet s (Planner.m_subschemaPlans fieldPlan) = None)
           (members subschemas) /\
         chosen = firstSubschema subschemas)) /\
    ((forall from, fromSubschema = Some from -> from ∉ members subschemas) ->
     chosen = Spec.preferredSubschema subschemas (Planner.m_subschemaPlans fieldPlan)
                fromSubschema).
Proof.
  intros Hsets Hcands Hleaf chosen before.
  simpl. unfold Planner.addFieldToFieldPlanWith.
  rewrite Hsets, Hcands, Hleaf.
  pose proof (getSubschemaAndPlan_subschema subschemas
                (Planner.m_subschemaPlans fieldPlan) fromSubschema) as Hsub.
  unfold Planner._getSubschemaAndPlan, Planner._getSubschema in *.
  fold chosen in Hsub.
  pose proof (firstWithPlan_spec (members subschemas)
                (Planner.m_subschemaPlans fieldPlan)) as Hspec.
  pose proof (getSubschema_rule subschemas (Planner.m_subschemaPlans fieldPlan)) as Hrule.
  pose proof (getSubschema_member subschemas (Planner.m_subschemaPlans fieldPlan)) as Hmem.
  assert (Hagree : (forall from, fromSubschema = Some from -> from ∉ members subschemas) ->
            chosen = Spec.preferredSubschema subschemas
                       (Planner.m_subschemaPlans fieldPlan) fromSubschema).
  { intros Hfrom. unfold Spec.preferredSubschema.
    destruct fromSubschema as [from|]; [|done].
    unfold setHas. rewrite bool_decide_eq_false_2; [done|]. by apply Hfrom. }
  subst before. unfold chosen, Planner._getSubschema in *.
  destruct (Planner.firstWithPlan (members subschemas) (Planner.m_subschemaPlans fieldPlan))
    as [[s sp]|] eqn:Efirst.
  - destruct Hspec as (earlier & later & Hm & Hget & Hnone).
    eexists. split; [reflexivity|]. simpl. rewrite Hget.
    split; [apply mapGet_mapSet_eq|].
    split; [intros other Hne; by apply mapGet_mapSet_ne|].
    rewrite Hget in Hrule. by split; [|split; [|split]].
  - assert (Hnone : mapGet (firstSubschema subschemas)
                      (Planner.m_subschemaPlans fieldPlan) = None).
    { by apply Forall_cons in Hspec as [H _]. }
    eexists. split; [reflexivity|]. simpl. rewrite Hnone.
    split; [apply mapGet_mapSet_eq|].
    split.
    { intros other Hne. rewrite !mapGet_mapSet_ne by done. done. }
    rewrite Hnone in Hrule. by split; [|split; [|split]].
Qed.

Lemma leaf_field_goes_to_first_planned_candidate_witness :
  exists fieldPlan',
    Planner._addFieldToFieldPlan 1 Scenario.superSchema Planner.emptyMutableFieldPlan
      (Some Scenario.subschemaB) Scenario.tUser (Scenario.leafNode "id") = Ok fieldPlan' /\
    mapGet Scenario.subschemaA (Planner.m_subschemaPlans fieldPlan')
      = Some (Planner.mkSubschemaPlan Scenario.subschemaA (Some Scenario.subschemaB)
                [Scenario.leafNode "id"] []).
Proof.
  destruct (leaf_field_goes_to_first_planned_candidate 0 Scenario.superSchema
              Planner.emptyMutableFieldPlan (Some Scenario.subschemaB) Scenario.tUser
              (Scenario.leafNode "id") _ _ eq_refl eq_refl eq_refl)
    as (fieldPlan' & Hrun & Hchosen & _).
  exists fieldPlan'. split; [exact Hrun|exact Hchosen].
Defined.

(** C3 as the specification states it fails: [User.id] can be resolved by A
    and by B, the parent object came from B and the plan is still empty; the
    field goes to A, the first candidate, where the stated rule names B. *)
Lemma leaf_field_not_sent_to_fromSubschema :
  Planner._addFieldToFieldPlan 1 Scenario.superSchema Planner.emptyMutableFieldPlan
    (Some Scenario.subschemaB) Scenario.tUser (Scenario.leafNode "id")
  = Ok (Planner.mkMutableFieldPlan
          [(Scenario.subschemaA,
            Planner.mkSubschemaPlan Scenario.subschemaA (Some Scenario.subschemaB)
              [Scenario.leafNode "id"] [])]
          [])
  /\ Spec.preferredSubschema (mkSet Scenario.subschemaA [Scenario.subschemaB]) []
       (Some Scenario.subschemaB) = Scenario.subschemaB
  /\ Scenario.subschemaA <> Scenario.subschemaB.
Proof. split; [reflexivity|]. split; [reflexivity|discriminate]. Qed.

(** ** Planner: the selection split and the stitching typename *)

(** C4 (as amended). A selection split made with [fromSubschema] undefined
    and ending with [otherSelections] non-empty has [__typename] aliased as
    [__stitching__typename] appended to [ownSelections]: the synthetic field
    is their last element, after everything the subschema resolves itself.
    When [fromSubschema] is defined, or [otherSelections] is empty, the two
    lists are exactly what processing the selections produced. *)
Theorem createSelectionSplit_appends_stitching_typename
    (ss : SuperSchema) (parentType : GraphQLType) (selections : list SelectionNode)
    (subschema : Subschema) (fromSubschema : option Subschema)
    (selectionSplit : Planner.SelectionSplit) :
  Planner._createSelectionSplit ss parentType selections subschema fromSubschema
    = Ok selectionSplit ->
  exists processed,
    Planner._processSelectionsForSelectionSplit ss subschema fromSubschema
      (Planner.mkSplit [] []) parentType selections = Ok processed /\
    Planner.otherSelections selectionSplit = Planner.otherSelections processed /\
    (fromSubschema = None -> Planner.otherSelections selectionSplit <> [] ->
       Planner.ownSelections selectionSplit
         = Planner.ownSelections processed ++ [Planner.stitchingTypenameField] /\
       last (Planner.ownSelections selectionSplit) = Some Planner.stitchingTypenameField) /\
    (is_Some fromSubschema \/ Planner.otherSelections selectionSplit = [] ->
       Planner.ownSelections selectionSplit = Planner.ownSelections processed).
Proof.
  unfold Planner._createSelectionSplit, Planner.createSelectionSplitWith, emptyArray.
  destruct (Planner._processSelectionsForSelectionSplit _ _ _ _ _ _)
    as [processed|e]; [|discriminate].
  intros Hsplit. exists processed. split; [done|].
  destruct fromSubschema as [from|]; simpl in Hsplit.
  - injection Hsplit as <-. split; [done|]. split; [done|done].
  - destruct (Planner.otherSelections processed) as [|o others] eqn:Eother;
      simpl in Hsplit; injection Hsplit as <-; simpl.
    + rewrite Eother. split; [done|]. split; [done|done].
    + split; [done|]. split.
      * intros _ _. split; [done|]. unfold appendToArray. apply last_snoc.
      * intros [[x Hx]|Hnil]; discriminate.
Qed.

Lemma createSelectionSplit_appends_stitching_typename_witness :
  exists selectionSplit,
    Planner._createSelectionSplit Scenario.superSchema Scenario.tUser
      Scenario.userSelections Scenario.subschemaA None = Ok selectionSplit /\
    last (Planner.ownSelections selectionSplit) = Some Planner.stitchingTypenameField.
Proof.
  eexists. split; [reflexivity|].
  destruct (createSelectionSplit_appends_stitching_typename Scenario.superSchema
              Scenario.tUser Scenario.userSelections Scenario.subschemaA None _ eq_refl)
    as (processed & _ & _ & Hthen & _).
  apply Hthen; [reflexivity|discriminate].
Defined.

(** C4 as the specification states it fails: splitting [{ name email }] of
    [User] for subschema A at top level leaves [name] first and the
    synthetic field last. *)
Lemma stitching_typename_is_not_first :
  Planner._createSelectionSplit Scenario.superSchema Scenario.tUser
    Scenario.userSelections Scenario.subschemaA None
  = Ok (Planner.mkSplit [Scenario.leaf "name"; Planner.stitchingTypenameField]
                        [Scenario.leaf "email"])
  /\ head [Scenario.leaf "name"; Planner.stitchingTypenameField]
     <> Some Planner.stitchingTypenameField.
Proof. split; [reflexivity|discriminate]. Qed.

(** ** Planner: the stitch plan over the possible runtime types *)

Section StitchPlan.
Import Planner.
Context (ss : SuperSchema).
Context (addField : MutableFieldPlan -> option Subschema -> GraphQLType -> FieldNode ->
                    Result MutableFieldPlan).

Lemma stitchPlanLoop_spec possibleTypes otherSelections subschema acc stitchPlan :
  stitchPlanLoop ss addField possibleTypes otherSelections subschema acc = Ok stitchPlan ->
  forall type,
    (type ∈ possibleTypes ->
     exists fieldNodes fieldPlan,
       _collectSubFields ss type otherSelections = Ok fieldNodes /\
       createSupplementalFieldPlanWith addField type fieldNodes subschema = Ok fieldPlan /\
       mapGet type stitchPlan
       = if isNonEmptyPlan fieldPlan then Some fieldPlan else mapGet type acc) /\
    (type ∉ possibleTypes -> mapGet type stitchPlan = mapGet type acc).
Proof.
  revert acc. induction possibleTypes as [|t rest IH]; intros acc; simpl.
  - intros [= <-] type. split; [by intros ?%elem_of_nil|done].
  - destruct (_collectSubFields ss t otherSelections) as [fns|] eqn:Efns; [|done].
    destruct (createSupplementalFieldPlanWith addField t fns subschema)
      as [fp|] eqn:Efp; [|done].
    intros Hloop type. specialize (IH _ Hloop type) as [IHin IHout].
    assert (Hacc : type <> t ->
              mapGet type (if isNonEmptyPlan fp then mapSet t fp acc else acc)
              = mapGet type acc).
    { intros Hne. destruct (isNonEmptyPlan fp); [|done].
      by apply mapGet_mapSet_ne. }
    split.
    + intros Hin. destruct (decide (type ∈ rest)) as [Hrest|Hrest].
      * destruct (IHin Hrest) as (fns' & fp' & Hfns' & Hfp' & Hget).
        exists fns', fp'. split; [done|]. split; [done|].
        rewrite Hget. destruct (isNonEmptyPlan fp') eqn:Ene; [done|].
        destruct (decide (type = t)) as [->|Hne]; [|by apply Hacc].
        rewrite Efns in Hfns'. injection Hfns' as <-.
        rewrite Efp in Hfp'. injection Hfp' as <-. by rewrite Ene.
      * apply elem_of_cons in Hin as [->|Hin]; [|done].
        exists fns, fp. split; [done|]. split; [done|].
        rewrite (IHout Hrest). destruct (isNonEmptyPlan fp); [|done].
        apply mapGet_mapSet_eq.
    + intros Hout. apply not_elem_of_cons in Hout as [Hne Hout].
      rewrite (IHout Hout). by apply Hacc.
Qed.

Lemma stitchPlanLoop_keys possibleTypes otherSelections subschema acc stitchPlan :
  stitchPlanLoop ss addField possibleTypes otherSelections subschema acc = Ok stitchPlan ->
  forall type, type ∈ map fst stitchPlan -> type ∈ possibleTypes \/ type ∈ map fst acc.
Proof.
  revert acc. induction possibleTypes as [|t rest IH]; intros acc; simpl.
  - intros [= <-] type Hin. by right.
  - destruct (_collectSubFields ss t otherSelections) as [fns|]; [|done].
    destruct (createSupplementalFieldPlanWith addField t fns subschema) as [fp|]; [|done].
    intros Hloop type Hin. destruct (IH _ Hloop type Hin) as [Hrest|Hacc].
    + left. by right.
    + destruct (isNonEmptyPlan fp); [|by right].
      clear -Hacc. induction acc as [|[k v] acc IHacc]; simpl in *.
      * apply list_elem_of_singleton in Hacc as ->. left. left.
      * destruct (decide (k = t)) as [->|Hne]; simpl in Hacc.
        -- apply elem_of_cons in Hacc as [->|Hacc]; [left; left|right; by right].
        -- apply elem_of_cons in Hacc as [->|Hacc]; [right; left|].
           destruct (IHacc Hacc) as [Hl|Hr]; [by left|right; by right].
Qed.
End StitchPlan.

Lemma mapGet_None_nil {K V} `{EqDecision K} (m : list (K * V)) :
  (forall k, mapGet k m = None) -> m = [].
Proof.
  destruct m as [|[k v] m]; [done|]. intros H. specialize (H k). simpl in H.
  by rewrite decide_True in H.
Qed.

(** ** Planner: the depth of selections and the fuel of the recursion *)

Section Depth.
Import Planner.

Lemma SelectionNode_nested_ind (P : SelectionNode -> Prop) :
(forall a n args dirs, P (FieldSel a n args dirs None)) ->
(forall a n args dirs sels, Forall P sels -> P (FieldSel a n args dirs (Some sels))) ->
(forall tc dirs sels, Forall P sels -> P (InlineFragmentSel tc dirs sels)) ->
(forall n dirs, P (FragmentSpreadSel n dirs)) ->
forall s, P s.
Proof.
intros Hleaf Hfield Hfrag Hspread.
fix IH 1. intros [a n args dirs [sels|]|tc dirs sels|n dirs].
- apply Hfield. induction sels as [|s sels IHsels]; constructor; [apply IH|exact IHsels].
- apply Hleaf.
- apply Hfrag. induction sels as [|s sels IHsels]; constructor; [apply IH|exact IHsels].
- apply Hspread.
Qed.

Lemma selectionDepth_field a n args dirs sels :
selectionDepth (FieldSel a n args dirs (Some sels)) = S (selectionsDepth sels).
Proof. reflexivity. Qed.

Lemma selectionDepth_fragment tc dirs sels :
selectionDepth (InlineFragmentSel tc dirs sels) = selectionsDepth sels.
Proof. reflexivity. Qed.

Lemma selectionsDepth_app sels sels' :
selectionsDepth (sels ++ sels') = Nat.max (selectionsDepth sels) (selectionsDepth sels').
Proof.
unfold selectionsDepth. induction sels as [|s sels IH]; simpl; [done|]. rewrite IH. lia.
Qed.

Lemma selectionsDepth_Forall sels d :
selectionsDepth sels <= d <-> Forall (fun s => selectionDepth s <= d) sels.
Proof.
unfold selectionsDepth. induction sels as [|s sels IH]; simpl.
- split; [constructor|lia].
- rewrite Forall_cons, <- IH. lia.
Qed.

Lemma fieldDepth_withSelectionSet field sels :
fieldDepth (withSelectionSet field sels) = S (selectionsDepth sels).
Proof. reflexivity. Qed.

Lemma collectSelection_depth ss runtimeType d selection :
forall acc acc',
  selectionDepth selection <= d -> Shallow d acc ->
  collectSelection ss runtimeType selection acc = Ok acc' -> Shallow d acc'.
Proof.
induction selection as [a n args dirs|a n args dirs sels IH|tc dirs sels IH|n dirs]
  using SelectionNode_nested_ind; intros acc acc' Hd Hacc Hcollect.
- injection Hcollect as <-. unfold appendToArray. apply Forall_app. split; [done|].
  by constructor.
- injection Hcollect as <-. unfold appendToArray. apply Forall_app. split; [done|].
  by constructor.
- rewrite selectionDepth_fragment in Hd. simpl in Hcollect.
  destruct (negb (_doesFragmentConditionMatch ss tc runtimeType)); [by injection Hcollect as <-|].
  apply selectionsDepth_Forall in Hd.
  revert acc Hacc Hcollect. induction sels as [|s sels IHsels]; intros acc Hacc Hcollect.
  + by injection Hcollect as <-.
  + apply Forall_cons in IH as [IHs IH]. apply Forall_cons in Hd as [Hs Hd].
    destruct (collectSelection ss runtimeType s acc) as [acc1|e] eqn:E; [|done].
    simpl in Hcollect. eapply (IHsels IH Hd acc1); [by eapply IHs|done].
- done.
Qed.

Lemma collectSubFieldsImpl_depth ss runtimeType d selections :
forall acc acc',
  selectionsDepth selections <= d -> Shallow d acc ->
  _collectSubFieldsImpl ss runtimeType selections acc = Ok acc' -> Shallow d acc'.
Proof.
induction selections as [|s sels IH]; intros acc acc' Hd Hacc Hcollect; simpl in Hcollect.
- by injection Hcollect as <-.
- apply selectionsDepth_Forall in Hd. apply Forall_cons in Hd as [Hs Hd].
  destruct (collectSelection ss runtimeType s acc) as [acc1|e] eqn:E; [|done].
  simpl in Hcollect. apply (IH acc1); [by apply selectionsDepth_Forall| |done].
  by eapply collectSelection_depth.
Qed.

Lemma collectSubFields_depth ss runtimeType selections fieldNodes :
_collectSubFields ss runtimeType selections = Ok fieldNodes ->
Shallow (selectionsDepth selections) fieldNodes.
Proof.
intros Hcollect. eapply collectSubFieldsImpl_depth; [done| |exact Hcollect]. constructor.
Qed.

Lemma selectionsDepth_append sels s d :
selectionsDepth sels <= d -> selectionDepth s <= d ->
selectionsDepth (appendToArray sels s) <= d.
Proof.
intros Hsels Hs. unfold appendToArray. rewrite selectionsDepth_app. simpl. lia.
Qed.

Lemma ShallowSplit_empty d : ShallowSplit d (mkSplit emptyArray emptyArray).
Proof. split; simpl; lia. Qed.

Section SplitDepth.
Context (ss : SuperSchema) (subschema : Subschema) (fromSubschema : option Subschema).
Context (process : SelectionSplit -> GraphQLType -> list SelectionNode -> Result SelectionSplit).

Lemma createSelectionSplitWith_depth parentType sels selectionSplit :
KeepsShallow process sels ->
createSelectionSplitWith fromSubschema process parentType sels = Ok selectionSplit ->
ShallowSplit (selectionsDepth sels) selectionSplit.
Proof.
intros Hprocess Hsplit. unfold createSelectionSplitWith in Hsplit.
destruct (process (mkSplit emptyArray emptyArray) parentType sels) as [processed|e] eqn:E;
  [|done].
simpl in Hsplit.
assert (Hprocessed : ShallowSplit (selectionsDepth sels) processed).
{ apply (Hprocess _ _ _ _ (le_n _) (ShallowSplit_empty _) E). }
destruct (bool_decide (fromSubschema = None) && negb (isEmpty (otherSelections processed)));
  injection Hsplit as <-; [|done].
destruct Hprocessed as [Hown Hother]. split; [|done]. simpl.
apply selectionsDepth_append; [done|]. simpl. lia.
Qed.

Lemma addFieldToSelectionSplitWith_depth d acc parentType field acc' :
(forall sels, selectionSet field = Some sels -> KeepsShallow process sels) ->
fieldDepth field <= d -> ShallowSplit d acc ->
addFieldToSelectionSplitWith ss subschema fromSubschema process acc parentType field
  = Ok acc' ->
ShallowSplit d acc'.
Proof.
intros Hprocess Hd [Hown Hother] Hadd. unfold addFieldToSelectionSplitWith in Hadd.
destruct (getProp (type_name parentType) (subschemaSetsByTypeAndField ss)) as [byField|];
  [|done].
destruct (getProp (name field) byField) as [subschemaSet|]; [|by injection Hadd as <-].
destruct field as [a n args dirs [sels|]]; simpl in *.
- destruct (getFieldDef ss parentType n) as [fieldDef|]; [|by injection Hadd as <-].
  destruct (createSelectionSplitWith fromSubschema process
              (getNamedType (fieldDef_type fieldDef)) sels) as [sub|e] eqn:E; [|done].
  simpl in Hadd. injection Hadd as <-.
  destruct (createSelectionSplitWith_depth _ _ _ (Hprocess sels eq_refl) E) as [Hsubown Hsubother].
  change (fieldDepth (mkFieldNode a n args dirs (Some sels))) with (S (selectionsDepth sels)) in Hd.
  split; simpl.
  + destruct (negb (isEmpty (ownSelections sub))); [|done].
    apply selectionsDepth_append; [done|].
    change (S (selectionsDepth (ownSelections sub)) <= d). lia.
  + destruct (negb (isEmpty (otherSelections sub))); [|done].
    apply selectionsDepth_append; [done|].
    change (S (selectionsDepth (otherSelections sub)) <= d). lia.
- destruct (setHas subschemaSet subschema); injection Hadd as <-; split; simpl;
    try done; by apply selectionsDepth_append.
Qed.

Lemma addFragmentToSelectionSplitWith_depth d acc parentType typeCondition dirs sels acc' :
KeepsShallow process sels ->
selectionsDepth sels <= d -> ShallowSplit d acc ->
addFragmentToSelectionSplitWith process acc parentType typeCondition dirs sels = Ok acc' ->
ShallowSplit d acc'.
Proof.
intros Hprocess Hd [Hown Hother] Hadd. unfold addFragmentToSelectionSplitWith in Hadd.
destruct (process (mkSplit emptyArray emptyArray) parentType sels) as [sub|e] eqn:E; [|done].
simpl in Hadd. injection Hadd as <-.
destruct (Hprocess _ _ _ _ Hd (ShallowSplit_empty _) E) as [Hsubown Hsubother].
split; simpl.
- destruct (negb (isEmpty (ownSelections sub))); [|done].
  by apply selectionsDepth_append.
- destruct (negb (isEmpty (otherSelections sub))); [|done].
  by apply selectionsDepth_append.
Qed.
End SplitDepth.

Lemma process_keeps_shallow
  (step : SelectionSplit -> GraphQLType -> SelectionNode -> Result SelectionSplit)
  (process : SelectionSplit -> GraphQLType -> list SelectionNode -> Result SelectionSplit)
  sels :
(forall acc parentType, process acc parentType [] = Ok acc) ->
(forall acc parentType s rest,
   process acc parentType (s :: rest)
   = match step acc parentType s with
     | Ok acc' => process acc' parentType rest
     | Throw e => Throw e
     end) ->
Forall (fun s => forall d acc parentType acc',
          selectionDepth s <= d -> ShallowSplit d acc ->
          step acc parentType s = Ok acc' -> ShallowSplit d acc') sels ->
KeepsShallow process sels.
Proof.
intros Hnil Hcons Hall d acc parentType acc' Hd Hacc Hprocess.
apply selectionsDepth_Forall in Hd.
revert acc Hacc Hprocess. induction sels as [|s sels IH]; intros acc Hacc Hprocess.
- rewrite Hnil in Hprocess. by injection Hprocess as <-.
- rewrite Hcons in Hprocess. apply Forall_cons in Hall as [Hs Hall].
  apply Forall_cons in Hd as [Hds Hd].
  destruct (step acc parentType s) as [acc1|e] eqn:E; [|done].
  apply (IH Hall Hd acc1); [by eapply Hs|done].
Qed.

Lemma splitSelection_depth ss subschema fromSubschema selection :
forall d acc parentType acc',
  selectionDepth selection <= d -> ShallowSplit d acc ->
  splitSelection ss subschema fromSubschema acc parentType selection = Ok acc' ->
  ShallowSplit d acc'.
Proof.
induction selection as [a n args dirs|a n args dirs sels IH|tc dirs sels IH|n dirs]
  using SelectionNode_nested_ind; intros d acc parentType acc' Hd Hacc Hsplit.
- simpl in Hsplit.
  refine (addFieldToSelectionSplitWith_depth ss subschema fromSubschema _ d acc parentType
            (mkFieldNode a n args dirs None) acc' _ Hd Hacc Hsplit).
  intros sels [=].
- simpl in Hsplit.
  refine (addFieldToSelectionSplitWith_depth ss subschema fromSubschema _ d acc parentType
            (mkFieldNode a n args dirs (Some sels)) acc' _ Hd Hacc Hsplit).
  intros sels' [= <-]. by apply (process_keeps_shallow (splitSelection ss subschema fromSubschema)).
- simpl in Hsplit.
  destruct (match tc with Some typeName => getType ss typeName | None => Some parentType end)
    as [refined|] eqn:Erefined; [|done].
  destruct (isCompositeType _); [|done].
  refine (addFragmentToSelectionSplitWith_depth _ d acc refined tc dirs sels acc' _ Hd Hacc
            Hsplit).
  by apply (process_keeps_shallow (splitSelection ss subschema fromSubschema)).
- done.
Qed.

Lemma processSelections_keeps_shallow ss subschema fromSubschema sels :
KeepsShallow (_processSelectionsForSelectionSplit ss subschema fromSubschema) sels.
Proof.
apply (process_keeps_shallow (splitSelection ss subschema fromSubschema)); [done|done|].
apply Forall_forall. intros s _. apply splitSelection_depth.
Qed.

Lemma createSelectionSplit_depth ss parentType selections subschema fromSubschema split :
_createSelectionSplit ss parentType selections subschema fromSubschema = Ok split ->
ShallowSplit (selectionsDepth selections) split.
Proof.
intros Hsplit. eapply createSelectionSplitWith_depth; [|exact Hsplit].
apply processSelections_keeps_shallow.
Qed.

(** *** Enough fuel *)

Lemma Settles_Ok {A} (a : A) : Settles (Ok a).
Proof. done. Qed.

Lemma Settles_bind {A B} (r : Result A) (k : A -> Result B) :
Settles r -> (forall a, r = Ok a -> Settles (k a)) ->
Settles (match r with Ok a => k a | Throw e => Throw e end).
Proof.
intros Hr Hk. destruct r as [a|e]; [by apply Hk|].
intros [= ->]. by apply Hr.
Qed.

Lemma collectSelection_settles ss runtimeType selection :
forall acc, Settles (collectSelection ss runtimeType selection acc).
Proof.
induction selection as [a n args dirs|a n args dirs sels IH|tc dirs sels IH|n dirs]
  using SelectionNode_nested_ind; intros acc; try done.
simpl. destruct (negb (_doesFragmentConditionMatch ss tc runtimeType)); [done|].
revert acc. induction sels as [|s sels IHsels]; intros acc; [done|].
apply Forall_cons in IH as [IHs IH].
apply Settles_bind; [apply IHs|]. intros acc1 _. by apply IHsels.
Qed.

Lemma collectSubFieldsImpl_settles ss runtimeType selections :
forall acc, Settles (_collectSubFieldsImpl ss runtimeType selections acc).
Proof.
induction selections as [|s sels IH]; intros acc; [done|]. simpl.
apply Settles_bind; [apply collectSelection_settles|]. intros acc1 _. apply IH.
Qed.

Section SplitSettles.
Context (ss : SuperSchema) (subschema : Subschema) (fromSubschema : option Subschema).
Context (process : SelectionSplit -> GraphQLType -> list SelectionNode -> Result SelectionSplit).

Lemma createSelectionSplitWith_settles parentType sels :
(forall acc parentType, Settles (process acc parentType sels)) ->
Settles (createSelectionSplitWith fromSubschema process parentType sels).
Proof.
intros Hprocess. unfold createSelectionSplitWith.
apply Settles_bind; [apply Hprocess|]. intros processed _.
by destruct (bool_decide (fromSubschema = None) && negb (isEmpty (otherSelections processed))).
Qed.

Lemma addFieldToSelectionSplitWith_settles acc parentType field :
(forall sels, selectionSet field = Some sels ->
   forall acc parentType, Settles (process acc parentType sels)) ->
Settles (addFieldToSelectionSplitWith ss subschema fromSubschema process acc parentType field).
Proof.
intros Hprocess. unfold addFieldToSelectionSplitWith.
destruct (getProp (type_name parentType) (subschemaSetsByTypeAndField ss)) as [byField|];
  [|done].
destruct (getProp (name field) byField) as [subschemaSet|]; [|done].
destruct (selectionSet field) as [sels|] eqn:Esels.
- destruct (getFieldDef ss parentType (name field)) as [fieldDef|]; [|done].
  apply Settles_bind; [by apply createSelectionSplitWith_settles, Hprocess|]. done.
- by destruct (setHas subschemaSet subschema).
Qed.

Lemma addFragmentToSelectionSplitWith_settles acc parentType typeCondition dirs sels :
(forall acc parentType, Settles (process acc parentType sels)) ->
Settles (addFragmentToSelectionSplitWith process acc parentType typeCondition dirs sels).
Proof.
intros Hprocess. unfold addFragmentToSelectionSplitWith.
apply Settles_bind; [apply Hprocess|]. done.
Qed.
End SplitSettles.

Lemma process_settles
  (step : SelectionSplit -> GraphQLType -> SelectionNode -> Result SelectionSplit)
  (process : SelectionSplit -> GraphQLType -> list SelectionNode -> Result SelectionSplit)
  sels :
(forall acc parentType, process acc parentType [] = Ok acc) ->
(forall acc parentType s rest,
   process acc parentType (s :: rest)
   = match step acc parentType s with
     | Ok acc' => process acc' parentType rest
     | Throw e => Throw e
     end) ->
Forall (fun s => forall acc parentType, Settles (step acc parentType s)) sels ->
forall acc parentType, Settles (process acc parentType sels).
Proof.
intros Hnil Hcons Hall acc parentType. revert acc.
induction sels as [|s sels IH]; intros acc.
- by rewrite Hnil.
- rewrite Hcons. apply Forall_cons in Hall as [Hs Hall].
  apply Settles_bind; [apply Hs|]. intros acc1 _. by apply IH.
Qed.

Lemma splitSelection_settles ss subschema fromSubschema selection :
forall acc parentType,
  Settles (splitSelection ss subschema fromSubschema acc parentType selection).
Proof.
induction selection as [a n args dirs|a n args dirs sels IH|tc dirs sels IH|n dirs]
  using SelectionNode_nested_ind; intros acc parentType.
- simpl. apply addFieldToSelectionSplitWith_settles. intros sels [=].
- simpl. apply addFieldToSelectionSplitWith_settles. intros sels' [= <-].
  by apply (process_settles (splitSelection ss subschema fromSubschema)).
- simpl.
  destruct (match tc with Some typeName => getType ss typeName | None => Some parentType end)
    as [refined|] eqn:Erefined; [|done].
  destruct (isCompositeType _); [|done].
  apply addFragmentToSelectionSplitWith_settles.
  by apply (process_settles (splitSelection ss subschema fromSubschema)).
- done.
Qed.

Lemma createSelectionSplit_settles ss parentType selections subschema fromSubschema :
Settles (_createSelectionSplit ss parentType selections subschema fromSubschema).
Proof.
apply createSelectionSplitWith_settles.
apply (process_settles (splitSelection ss subschema fromSubschema)); [done|done|].
apply Forall_forall. intros s _. apply splitSelection_settles.
Qed.

Section FieldPlanSettles.
Context (ss : SuperSchema).
Context (rec : MutableFieldPlan -> option Subschema -> GraphQLType -> FieldNode ->
               Result MutableFieldPlan).

Lemma addFieldsWith_settles d fieldNodes :
SettlesUpTo rec d -> Shallow d fieldNodes ->
forall fieldPlan fromSubschema parentType,
  Settles (addFieldsWith rec fieldPlan fromSubschema parentType fieldNodes).
Proof.
intros Hrec Hshallow. induction Hshallow as [|f fs Hf Hfs IH]; intros fieldPlan from parentType;
  [done|].
simpl. apply Settles_bind; [by apply Hrec|]. intros fieldPlan' _. apply IH.
Qed.

Lemma createFieldPlanWith_settles d parentType fieldNodes :
SettlesUpTo rec d -> Shallow d fieldNodes ->
Settles (createFieldPlanWith rec parentType fieldNodes).
Proof.
intros Hrec Hshallow. unfold createFieldPlanWith.
apply Settles_bind; [by eapply addFieldsWith_settles|]. done.
Qed.

Lemma createSupplementalFieldPlanWith_settles d parentType fieldNodes fromSubschema :
SettlesUpTo rec d -> Shallow d fieldNodes ->
Settles (createSupplementalFieldPlanWith rec parentType fieldNodes fromSubschema).
Proof.
intros Hrec Hshallow. unfold createSupplementalFieldPlanWith.
apply Settles_bind; [by eapply addFieldsWith_settles|]. done.
Qed.

Lemma stitchPlanLoop_settles d possibleTypes otherSelections subschema :
SettlesUpTo rec d -> selectionsDepth otherSelections <= d ->
forall stitchPlan,
  Settles (stitchPlanLoop ss rec possibleTypes otherSelections subschema stitchPlan).
Proof.
intros Hrec Hd. induction possibleTypes as [|type rest IH]; intros stitchPlan; [done|].
simpl. apply Settles_bind; [apply collectSubFieldsImpl_settles|]. intros fieldNodes Hcollect.
apply Settles_bind; [|intros fieldPlan _; apply IH].
apply (createSupplementalFieldPlanWith_settles d); [done|].
eapply Forall_impl; [exact (collectSubFields_depth _ _ _ _ Hcollect)|].
intros f Hf. simpl in Hf. lia.
Qed.

Lemma createStitchPlanWith_settles d parentType otherSelections subschema :
SettlesUpTo rec d -> selectionsDepth otherSelections <= d ->
Settles (createStitchPlanWith ss rec parentType otherSelections subschema).
Proof. intros Hrec Hd. by apply (stitchPlanLoop_settles d). Qed.

Lemma addFieldToFieldPlanWith_settles fieldPlan fromSubschema parentType field :
(forall sels, selectionSet field = Some sels -> SettlesUpTo rec (selectionsDepth sels)) ->
Settles (addFieldToFieldPlanWith ss rec fieldPlan fromSubschema parentType field).
Proof.
intros Hrec. unfold addFieldToFieldPlanWith.
destruct (getProp (type_name parentType) (subschemaSetsByTypeAndField ss)) as [byField|];
  [|done].
destruct (getProp (name field) byField) as [subschemas|]; [|done].
destruct (selectionSet field) as [sels|] eqn:Esels.
- destruct (getFieldDef ss parentType (name field)) as [fieldDef|]; [|done].
  apply Settles_bind; [apply createSelectionSplit_settles|]. intros split Hsplit.
  apply createSelectionSplit_depth in Hsplit as [_ Hother].
  apply Settles_bind;
    [apply (createStitchPlanWith_settles (selectionsDepth sels)); [by apply Hrec|done]|].
  intros stitchPlan _.
  repeat match goal with
         | |- Settles (if ?b then _ else _) => destruct b
         | |- Settles (let (_, _) := ?p in _) => destruct p
         end; done.
- by destruct (_getSubschemaAndPlan subschemas (m_subschemaPlans fieldPlan) fromSubschema)
    as [[? ?] ?].
Qed.
End FieldPlanSettles.

Lemma addFieldToFieldPlan_settles ss fuel :
forall fieldPlan fromSubschema parentType field,
  fieldDepth field < fuel ->
  Settles (_addFieldToFieldPlan fuel ss fieldPlan fromSubschema parentType field).
Proof.
induction fuel as [|fuel IH]; intros fieldPlan from parentType field Hd; [lia|].
simpl. apply addFieldToFieldPlanWith_settles. intros sels Hsels f from' parentType' f' Hf'.
apply IH. destruct field as [a n args dirs sel]. simpl in Hsels. subst sel.
change (S (selectionsDepth sels) < S fuel) in Hd. lia.
Qed.

Section FieldPlanAgrees.
Context (ss : SuperSchema).
Context (rec rec' : MutableFieldPlan -> option Subschema -> GraphQLType -> FieldNode ->
                    Result MutableFieldPlan).

Lemma addFieldsWith_agree d fieldNodes :
AgreeUpTo rec rec' d -> Shallow d fieldNodes ->
forall fieldPlan fromSubschema parentType,
  addFieldsWith rec fieldPlan fromSubschema parentType fieldNodes
  = addFieldsWith rec' fieldPlan fromSubschema parentType fieldNodes.
Proof.
intros Hrec Hshallow. induction Hshallow as [|f fs Hf Hfs IH]; intros fieldPlan from parentType;
  [done|].
simpl. rewrite (Hrec _ _ _ _ Hf).
destruct (rec' fieldPlan from parentType f) as [fieldPlan'|e]; [apply IH|done].
Qed.

Lemma createSupplementalFieldPlanWith_agree d parentType fieldNodes fromSubschema :
AgreeUpTo rec rec' d -> Shallow d fieldNodes ->
createSupplementalFieldPlanWith rec parentType fieldNodes fromSubschema
= createSupplementalFieldPlanWith rec' parentType fieldNodes fromSubschema.
Proof.
intros Hrec Hshallow. unfold createSupplementalFieldPlanWith.
by rewrite (addFieldsWith_agree d).
Qed.

Lemma stitchPlanLoop_agree d possibleTypes otherSelections subschema :
AgreeUpTo rec rec' d -> selectionsDepth otherSelections <= d ->
forall stitchPlan,
  stitchPlanLoop ss rec possibleTypes otherSelections subschema stitchPlan
  = stitchPlanLoop ss rec' possibleTypes otherSelections subschema stitchPlan.
Proof.
intros Hrec Hd. induction possibleTypes as [|type rest IH]; intros stitchPlan; [done|].
simpl. destruct (_collectSubFields ss type otherSelections) as [fieldNodes|e] eqn:Hcollect;
  [|done].
simpl. rewrite (createSupplementalFieldPlanWith_agree d); [|done|].
- destruct (createSupplementalFieldPlanWith rec' type fieldNodes subschema); [apply IH|done].
- eapply Forall_impl; [exact (collectSubFields_depth _ _ _ _ Hcollect)|].
  intros f Hf. simpl in Hf. lia.
Qed.

Lemma addFieldToFieldPlanWith_agree fieldPlan fromSubschema parentType field :
(forall sels, selectionSet field = Some sels -> AgreeUpTo rec rec' (selectionsDepth sels)) ->
addFieldToFieldPlanWith ss rec fieldPlan fromSubschema parentType field
= addFieldToFieldPlanWith ss rec' fieldPlan fromSubschema parentType field.
Proof.
intros Hrec. unfold addFieldToFieldPlanWith.
destruct (getProp (type_name parentType) (subschemaSetsByTypeAndField ss)) as [byField|];
  [|done].
destruct (getProp (name field) byField) as [subschemas|]; [|done].
destruct (selectionSet field) as [sels|] eqn:Esels; [|done].
destruct (getFieldDef ss parentType (name field)) as [fieldDef|]; [|done].
destruct (_createSelectionSplit ss (getNamedType (fieldDef_type fieldDef)) sels
            (_getSubschema subschemas (m_subschemaPlans fieldPlan)) fromSubschema)
  as [split|e] eqn:Hsplit; [|done].
apply createSelectionSplit_depth in Hsplit as [_ Hother].
simpl. unfold createStitchPlanWith.
by rewrite (stitchPlanLoop_agree (selectionsDepth sels)); [|apply Hrec|].
Qed.
End FieldPlanAgrees.

Lemma addFieldToFieldPlan_fuel ss fuel fuel' :
forall fieldPlan fromSubschema parentType field,
  fieldDepth field < fuel -> fieldDepth field < fuel' ->
  _addFieldToFieldPlan fuel ss fieldPlan fromSubschema parentType field
  = _addFieldToFieldPlan fuel' ss fieldPlan fromSubschema parentType field.
Proof.
revert fuel'. induction fuel as [|fuel IH]; intros [|fuel'] fieldPlan from parentType field Hd Hd';
  try lia.
simpl. apply addFieldToFieldPlanWith_agree. intros sels Hsels f from' parentType' f' Hf'.
destruct field as [a n args dirs sel]. simpl in Hsels. subst sel.
change (S (selectionsDepth sels) < S fuel) in Hd.
change (S (selectionsDepth sels) < S fuel') in Hd'.
apply IH; lia.
Qed.

(** With fuel beyond the depth of the selections, [_createStitchPlan] runs to
  its end, and to the same end whatever the fuel. *)
Lemma createStitchPlan_settles ss fuel parentType otherSelections subschema :
selectionsDepth otherSelections < fuel ->
Settles (_createStitchPlan fuel ss parentType otherSelections subschema).
Proof.
intros Hd. apply (createStitchPlanWith_settles ss _ (selectionsDepth otherSelections));
  [|done].
intros fieldPlan from parentType' field Hf. apply addFieldToFieldPlan_settles. lia.
Qed.

Lemma createStitchPlan_fuel ss fuel fuel' parentType otherSelections subschema :
selectionsDepth otherSelections < fuel -> selectionsDepth otherSelections < fuel' ->
_createStitchPlan fuel ss parentType otherSelections subschema
= _createStitchPlan fuel' ss parentType otherSelections subschema.
Proof.
intros Hd Hd'. apply (stitchPlanLoop_agree ss _ _ (selectionsDepth otherSelections)); [|done].
intros fieldPlan from parentType' field Hf. apply addFieldToFieldPlan_fuel; lia.
Qed.
End Depth.

Lemma stitchPlansFor_append plans stitches subschema subschemaPlan field other :
  (match mapGet subschema plans with
   | Some existing => Planner.planStitchPlans existing
   | None => []
   end) = Planner.planStitchPlans subschemaPlan ->
  Planner.stitchPlansFor other
    (Planner.mkMutableFieldPlan
       (mapSet subschema (Planner.appendFieldNode subschemaPlan field) plans) stitches)
  = Planner.stitchPlansFor other (Planner.mkMutableFieldPlan plans stitches).
Proof.
  intros Hsame. unfold Planner.stitchPlansFor. simpl.
  destruct (decide (subschema = other)) as [->|Hne].
  - rewrite mapGet_mapSet_eq. simpl. by rewrite <- Hsame.
  - by rewrite mapGet_mapSet_ne.
Qed.

(** C6. [_createStitchPlan] goes over exactly the possible runtime types of
    the parent type: the type itself when it is concrete, [getPossibleTypes]
    of it when it is abstract.  Each of them is looked at once its
    supplemental field plan is built, and is a key of the stitch plan if and
    only if that plan has a subschema plan or a stitch plan; nothing else is
    a key.  When no possible type has a non-empty plan (in particular when an
    abstract type has none at all) the stitch plan is empty, and
    [_addFieldToFieldPlan] then records no stitch plan for the field, on the
    field plan or on any subschema plan, so nothing is there to be fetched.
    The recursion always comes to its end: with fuel beyond the depth of the
    selections the outcome is not an exhausted fuel and is the same whatever
    the fuel, and with no possible type it is the empty stitch plan. *)
Theorem createStitchPlan_over_possible_types :
  (forall (fuel : nat) (ss : SuperSchema) (parentType : GraphQLType)
          (otherSelections : list SelectionNode) (subschema : Subschema)
          (stitchPlan : Planner.StitchPlan),
     Planner._createStitchPlan fuel ss parentType otherSelections subschema
       = Ok stitchPlan ->
     let possibleTypes :=
       if isAbstractType (Some parentType) then getPossibleTypes ss parentType
       else [parentType] in
     (forall type, type ∈ possibleTypes ->
        exists fieldNodes fieldPlan,
          Planner._collectSubFields ss type otherSelections = Ok fieldNodes /\
          Planner._createSupplementalFieldPlanImpl fuel ss type fieldNodes subschema
            = Ok fieldPlan /\
          mapGet type stitchPlan
          = if negb (isEmpty (Planner.subschemaPlans fieldPlan))
               || negb (isEmpty (Planner.stitchPlans fieldPlan))
            then Some fieldPlan else None) /\
     (forall type, type ∈ map fst stitchPlan -> type ∈ possibleTypes) /\
     ((forall type fieldPlan, type ∈ possibleTypes ->
         mapGet type stitchPlan = Some fieldPlan -> False) ->
      stitchPlan = []) /\
     (possibleTypes = [] -> stitchPlan = []))
  /\
  (forall (fuel : nat) (ss : SuperSchema) (fieldPlan fieldPlan' : Planner.MutableFieldPlan)
          (fromSubschema : option Subschema) (parentType : GraphQLType) (field : FieldNode)
          (subschemaSetsByField : list (string * SubschemaSet)) (subschemas : SubschemaSet)
          (selections : list SelectionNode) (fieldDef : GraphQLField)
          (selectionSplit : Planner.SelectionSplit),
     getProp (type_name parentType) (subschemaSetsByTypeAndField ss)
       = Some subschemaSetsByField ->
     getProp (name field) subschemaSetsByField = Some subschemas ->
     selectionSet field = Some selections ->
     getFieldDef ss parentType (name field) = Some fieldDef ->
     Planner._createSelectionSplit ss (getNamedType (fieldDef_type fieldDef)) selections
       (Planner._getSubschema subschemas (Planner.m_subschemaPlans fieldPlan))
       fromSubschema = Ok selectionSplit ->
     Planner._createStitchPlan fuel ss (getNamedType (fieldDef_type fieldDef))
       (Planner.otherSelections selectionSplit)
       (Planner._getSubschema subschemas (Planner.m_subschemaPlans fieldPlan)) = Ok [] ->
     Planner._addFieldToFieldPlan (S fuel) ss fieldPlan fromSubschema parentType field
       = Ok fieldPlan' ->
     Planner.m_stitchPlans fieldPlan' = Planner.m_stitchPlans fieldPlan /\
     forall subschema,
       Planner.stitchPlansFor subschema fieldPlan' = Planner.stitchPlansFor subschema fieldPlan)
  /\
  (forall (fuel fuel' : nat) (ss : SuperSchema) (parentType : GraphQLType)
          (otherSelections : list SelectionNode) (subschema : Subschema),
     selectionsDepth otherSelections < fuel ->
     Planner._createStitchPlan fuel ss parentType otherSelections subschema
       <> Throw FuelExhausted /\
     (selectionsDepth otherSelections < fuel' ->
      Planner._createStitchPlan fuel ss parentType otherSelections subschema
      = Planner._createStitchPlan fuel' ss parentType otherSelections subschema) /\
     ((if isAbstractType (Some parentType) then getPossibleTypes ss parentType
       else [parentType]) = [] ->
      Planner._createStitchPlan fuel ss parentType otherSelections subschema = Ok [])).
Proof.
  split; [|split].
  - intros fuel ss parentType otherSelections subschema stitchPlan Hplan possibleTypes.
    unfold Planner._createStitchPlan, Planner.createStitchPlanWith in Hplan.
    change (Planner.possibleTypesOf ss parentType) with possibleTypes in Hplan.
    pose proof (stitchPlanLoop_spec _ _ _ _ _ _ _ Hplan) as Hspec.
    pose proof (stitchPlanLoop_keys _ _ _ _ _ _ _ Hplan) as Hkeys.
    assert (Hnone : (forall type fieldPlan, type ∈ possibleTypes ->
                       mapGet type stitchPlan = Some fieldPlan -> False) ->
                    stitchPlan = []).
    { intros Hempty. apply mapGet_None_nil. intros type.
      destruct (decide (type ∈ possibleTypes)) as [Hin|Hout].
      - destruct (mapGet type stitchPlan) as [fp|] eqn:E; [|done].
        exfalso. by eapply Hempty.
      - by rewrite (proj2 (Hspec type) Hout). }
    split; [|split; [|split]].
    + intros type Hin. destruct (proj1 (Hspec type) Hin) as (fns & fp & H1 & H2 & H3).
      exists fns, fp. by repeat split.
    + intros type Hin. destruct (Hkeys type Hin) as [H|H]; [done|].
      by apply elem_of_nil in H.
    + exact Hnone.
    + intros Hnil. apply Hnone. intros type fp Hin. rewrite Hnil in Hin.
      by apply elem_of_nil in Hin.
  - intros fuel ss fieldPlan fieldPlan' fromSubschema parentType field
           subschemaSetsByField subschemas selections fieldDef selectionSplit
           Hsets Hcands Hsel Hdef Hsplit Hstitch.
    simpl. unfold Planner.addFieldToFieldPlanWith.
    rewrite Hsets, Hcands, Hsel, Hdef, Hsplit.
    unfold Planner._createStitchPlan in Hstitch. rewrite Hstitch. simpl.
    destruct fieldPlan as [plans stitches]. simpl in *.
    destruct (isEmpty (Planner.ownSelections selectionSplit)); simpl.
    + intros [= <-]. done.
    + unfold Planner._getSubschemaPlan.
      destruct (mapGet _ plans) as [existing|] eqn:Eget; intros [= <-]; simpl.
      * split; [done|]. intros other. apply stitchPlansFor_append. by rewrite Eget.
      * split; [done|]. intros other.
        rewrite <- (stitchPlansFor_append plans stitches
                      (Planner._getSubschema subschemas plans)
                      (Planner.newSubschemaPlan
                         (Planner._getSubschema subschemas plans) fromSubschema)
                      (withSelectionSet field (Planner.ownSelections selectionSplit))
                      other) by (by rewrite Eget).
        unfold Planner.stitchPlansFor. simpl.
        destruct (decide (Planner._getSubschema subschemas plans = other)) as [->|Hne].
        -- by rewrite !mapGet_mapSet_eq.
        -- rewrite !mapGet_mapSet_ne by done. done.
  - intros fuel fuel' ss parentType otherSelections subschema Hfuel.
    split; [by apply createStitchPlan_settles|]. split.
    + intros Hfuel'. by apply createStitchPlan_fuel.
    + intros Hnone. unfold Planner._createStitchPlan, Planner.createStitchPlanWith,
        Planner.possibleTypesOf. by rewrite Hnone.
Qed.

Lemma createStitchPlan_over_possible_types_witness :
  Planner._createStitchPlan 1 Scenario.superSchema Scenario.tNode
    [InlineFragmentSel (Some "User") [] [Scenario.leaf "email"]] Scenario.subschemaA
  = Ok [(Scenario.tUser,
         Planner.mkFieldPlan
           [Planner.mkSubschemaPlan Scenario.subschemaB (Some Scenario.subschemaA)
              [Scenario.leafNode "email"] []] [])]
  /\ Planner._createStitchPlan 1 Scenario.lonelySuperSchema Scenario.tNode
       [InlineFragmentSel (Some "User") [] [Scenario.leaf "email"]] Scenario.subschemaA
     = Ok [].
Proof.
  split; [reflexivity|].
  destruct (Planner._createStitchPlan 1 Scenario.lonelySuperSchema Scenario.tNode
              [InlineFragmentSel (Some "User") [] [Scenario.leaf "email"]]
              Scenario.subschemaA) as [stitchPlan|e] eqn:E; [|discriminate E].
  f_equal.
  exact (proj2 (proj2 (proj2 (proj1 createStitchPlan_over_possible_types
                                1 Scenario.lonelySuperSchema Scenario.tNode _ _ _ E)))
           eq_refl).
Defined.

(** ** Executor: deep merge *)

Section DeepMerge.
Import Executor Spec.





Lemma getProp_None_keys {A} k (o : list (string * A)) :
getProp k o = None <-> k ∉ keys o.
Proof.
induction o as [|[k0 v0] o IH]; simpl.
- split; [intros _; apply not_elem_of_nil|done].
- destruct (String.eqb_spec k0 k) as [->|Hne].
  + split; [done|]. intros H. exfalso. apply H. left.
  + rewrite IH. rewrite not_elem_of_cons. split; [by split|by intros [_ ?]].
Qed.






Lemma keys_setProp {A} k (v : A) o :
keys (setProp k v o) = match getProp k o with Some _ => keys o | None => keys o ++ [k] end.
Proof.
induction o as [|[k0 v0] o IH]; simpl; [done|].
destruct (String.eqb_spec k0 k) as [->|Hk]; simpl; [done|].
rewrite IH. by destruct (getProp k o).
Qed.

Lemma NoDup_keys_setProp {A} k (v : A) o : NoDup (keys o) -> NoDup (keys (setProp k v o)).
Proof.
intros H. rewrite keys_setProp. destruct (getProp k o) eqn:E; [done|].
apply NoDup_app. split; [done|]. split.
- intros x Hx Hx'. apply list_elem_of_singleton in Hx' as ->.
  by apply getProp_None_keys in E.
- apply NoDup_singleton.
Qed.










Lemma disjointKeys_cons k x a b :
disjointKeys ((k, x) :: a) b =
match getProp k b with Some y => disjointValues x y | None => true end && disjointKeys a b.
Proof. reflexivity. Qed.




Lemma disjointKeys_snoc_l a c k v :
disjointKeys (c ++ [(k, v)]) a = true -> disjointKeys c a = true.
Proof.
induction c as [|[k0 x] c IH]; [done|].
simpl. rewrite !disjointKeys_cons. intros [H1 H2]%andb_true_iff.
apply andb_true_iff. split; [done|by apply IH].
Qed.








(** Maps whose top-level key sets are disjoint have disjoint structural keys. *)
Lemma disjointKeys_of_disjoint_key_sets a b :
(forall k, k ∈ keys a -> k ∉ keys b) -> disjointKeys a b = true.
Proof.
induction a as [|[k x] a IH]; [done|].
intros H. rewrite disjointKeys_cons. apply andb_true_iff. split.
- assert (Hk : getProp k b = None).
  { apply getProp_None_keys. apply H. left. }
  by rewrite Hk.
- apply IH. intros k' Hk'. apply H. by right.
Qed.


End DeepMerge.


(** ** Composer: results placed on the heap *)

Section Alloc.
Import Composer.

Lemma Value_nested_ind (P : Value -> Prop) :
P VNull -> (forall b, P (VBool b)) -> (forall n, P (VNum n)) -> (forall s, P (VStr s)) ->
(forall elems props,
   match elems with Some es => Forall P es | None => True end ->
   Forall (fun kv => P (snd kv)) props ->
   P (VObj elems props)) ->
forall v, P v.
Proof.
intros Hnull Hbool Hnum Hstr Hobj. fix IH 1.
intros [|b|n|s|elems props]; [done|done|done|done|].
apply Hobj.
- destruct elems as [es|]; [|exact I].
  induction es as [|e es IHes]; constructor; [apply IH|exact IHes].
- induction props as [|[k x] props IHprops]; constructor; [apply IH|exact IHprops].
Qed.

Lemma vdepth_obj elems props :
vdepth (VObj elems props)
= S (Nat.max (match elems with Some es => listDepth es | None => 0 end)
             (propsDepth props)).
Proof.
simpl. f_equal. f_equal.
induction props as [|[k x] ps IH]; simpl; [done|by rewrite IH].
Qed.

Lemma alloc_obj elems props h :
alloc (VObj elems props) h =
let '(lelems, h1) :=
  match elems with
  | None => (None, h)
  | Some es => let '(les, h') := allocList es h in (Some les, h')
  end in
let '(lprops, h2) := allocProps props h1 in
(LObj (length h2) lelems lprops,
 h2 ++ [mkHObj (option_map (map jval) lelems)
               (map (fun kv => (fst kv, jval (snd kv))) lprops)]).
Proof.
assert (Hlist : forall es h0,
  (fix each (es : list Value) (h : Heap) : list LVal * Heap :=
     match es with
     | [] => ([], h)
     | e :: rest =>
         let '(le, h1) := alloc e h in
         let '(lrest, h2) := each rest h1 in (le :: lrest, h2)
     end) es h0 = allocList es h0).
{ induction es as [|e es IH]; intros h0; simpl; [done|].
  destruct (alloc e h0) as [le h1]. by rewrite IH. }
assert (Hprops : forall ps h0,
  (fix each (ps : list (string * Value)) (h : Heap) : list (string * LVal) * Heap :=
     match ps with
     | [] => ([], h)
     | (k, x) :: rest =>
         let '(lx, h1) := alloc x h in
         let '(lrest, h2) := each rest h1 in ((k, lx) :: lrest, h2)
     end) ps h0 = allocProps ps h0).
{ induction ps as [|[k x] ps IH]; intros h0; simpl; [done|].
  destruct (alloc x h0) as [lx h1]. by rewrite IH. }
simpl. destruct elems as [es|].
- rewrite Hlist. destruct (allocList es h) as [les h']. by rewrite Hprops.
- by rewrite Hprops.
Qed.

Lemma agrees_within n n' h1 ext h'' :
agrees n (h1 ++ ext) h'' -> n <= n' -> agrees n' h1 h''.
Proof.
intros Hag Hle l Hl Hlt. rewrite Hag.
- by apply lookup_app_l.
- lia.
- rewrite length_app. lia.
Qed.

Lemma allocList_faithful es h les h' :
Forall Faithful es -> allocList es h = (les, h') ->
(exists ext, h' = h ++ ext) /\
(forall h'' d, agrees (length h) h' h'' -> listDepth es <= d ->
               map (readback d h'') (map jval les) = es).
Proof.
intros Hes. revert h les h'.
induction Hes as [|e es He _ IH]; intros h les h'; simpl.
- intros [= <- <-]. split; [exists []; by rewrite app_nil_r|done].
- destruct (alloc e h) as [le h1] eqn:Ee.
  destruct (allocList es h1) as [lrest h2] eqn:Erest.
  intros [= <- <-].
  destruct (He _ _ _ Ee) as [[ext1 ->] Hread1].
  destruct (IH _ _ _ Erest) as [[ext2 ->] Hread2].
  split; [exists (ext1 ++ ext2); by rewrite app_assoc|].
  intros h'' d Hag Hd. unfold listDepth in *. simpl in *. f_equal.
  + apply Hread1; [|lia]. eapply agrees_within; [exact Hag|lia].
  + apply Hread2; [|lia]. intros l Hl Hlt. apply Hag; [|done].
    rewrite length_app in Hl. lia.
Qed.

Lemma allocProps_faithful ps h lps h' :
Forall (fun kv => Faithful (snd kv)) ps -> allocProps ps h = (lps, h') ->
(exists ext, h' = h ++ ext) /\
map fst lps = map fst ps /\
(forall h'' d, agrees (length h) h' h'' -> propsDepth ps <= d ->
   map (fun kv => (fst kv, readback d h'' (snd kv)))
       (map (fun kv => (fst kv, jval (snd kv))) lps) = ps).
Proof.
intros Hps. revert h lps h'.
induction Hps as [|[k x] ps Hx _ IH]; intros h lps h'; simpl.
- intros [= <- <-]. split; [exists []; by rewrite app_nil_r|done].
- destruct (alloc x h) as [lx h1] eqn:Ex.
  destruct (allocProps ps h1) as [lrest h2] eqn:Erest.
  intros [= <- <-].
  destruct (Hx _ _ _ Ex) as [[ext1 ->] Hread1].
  destruct (IH _ _ _ Erest) as ([ext2 ->] & Hkeys & Hread2).
  split; [exists (ext1 ++ ext2); by rewrite app_assoc|].
  split; [simpl; by rewrite Hkeys|].
  intros h'' d Hag Hd. unfold propsDepth in *. simpl in *. f_equal.
  + f_equal. apply Hread1; [|lia]. eapply agrees_within; [exact Hag|lia].
  + apply Hread2; [|lia]. intros l Hl Hlt. apply Hag; [|done].
    rewrite length_app in Hl. lia.
Qed.

Lemma alloc_faithful v : Faithful v.
Proof.
induction v as [|b|n|s|elems props IHelems IHprops] using Value_nested_ind;
  intros h lv h'; try (intros [= <- <-]; split;
                         [exists []; by rewrite app_nil_r|by intros ? []]).
rewrite alloc_obj.
destruct (match elems with
          | Some es => let '(les, h0) := allocList es h in (Some les, h0)
          | None => (None, h)
          end) as [lelems h1] eqn:Eelems.
destruct (allocProps props h1) as [lprops h2] eqn:Eprops.
intros [= <- <-].
assert (Helems : (exists ext, h1 = h ++ ext) /\
          forall h'' d, agrees (length h) h1 h'' ->
            match elems with Some es => listDepth es | None => 0 end <= d ->
            option_map (map (readback d h'')) (option_map (map jval) lelems) = elems).
{ destruct elems as [es|].
  - destruct (allocList es h) as [les h0] eqn:Elist. injection Eelems as <- <-.
    destruct (allocList_faithful _ _ _ _ IHelems Elist) as [Hext Hread].
    split; [done|]. intros h'' d Hag Hd. simpl. f_equal. by apply Hread.
  - injection Eelems as <- <-. split; [exists []; by rewrite app_nil_r|done]. }
destruct Helems as [[ext1 ->] Hreadelems].
destruct (allocProps_faithful _ _ _ _ IHprops Eprops) as ([ext2 ->] & Hkeys & Hreadprops).
split; [exists (ext1 ++ ext2 ++ [mkHObj (option_map (map jval) lelems)
                                   (map (fun kv => (fst kv, jval (snd kv))) lprops)]);
        by rewrite !app_assoc|].
intros h'' d Hag Hd. rewrite vdepth_obj in Hd.
destruct d as [|d]; [lia|]. simpl.
rewrite Hag; [|rewrite !length_app; lia|rewrite !length_app; simpl; lia].
rewrite lookup_app_r by done. rewrite Nat.sub_diag. simpl.
f_equal.
- apply Hreadelems; [|lia].
  apply (agrees_within (length h) (length h) (h ++ ext1)
           (ext2 ++ [mkHObj (option_map (map jval) lelems)
                        (map (fun kv => (fst kv, jval (snd kv))) lprops)]) h''); [|lia].
  by rewrite app_assoc.
- apply Hreadprops; [|lia]. intros l Hl Hlt. rewrite Hag.
  + by rewrite lookup_app_l.
  + rewrite length_app in Hl. lia.
  + rewrite length_app. lia.
Qed.
End Alloc.

(** ** Composer: errors, the nulled flag and the response *)

#[global] Arguments Composer.alloc : simpl never.
#[global] Arguments Composer._walkStitchTrees : simpl never.

Section ComposerRun.
Import Composer.
Context (ss : SuperSchema).
Context (executor : Subschema -> DocumentNode -> option ObjMap ->
                    PromiseOrValue ExecutionResult).
Context (rawVariableValues : option ObjMap).

Local Abbreviation handle := (_handleResult ss executor rawVariableValues).
Local Abbreviation step := (step ss executor rawVariableValues).
Local Abbreviation steps := (steps ss executor rawVariableValues).

(** Every call appends the result's errors before anything else, never
    clears the flag and never moves the root. *)
Lemma handleResult_errors c parent target stitch result path c' new :
  handle c parent target stitch result path = Ok (c', new) ->
  composerErrors c' = composerErrors c ++ resultErrors result /\
  (nulled c = true -> nulled c' = true) /\
  fields c' = fields c.
Proof.
  unfold _handleResult. simpl.
  destruct (match parent with
            | Some p => bool_decide (readSlot (heap c) p (last path) = JNull)
            | None => nulled c
            end); [by intros [= <- <-]|].
  destruct (data result) as [entries|].
  - destruct (alloc (VObj None entries) (heap c)) as [[|b|n|s|dataLoc elems dataProps] h1];
      try by intros [= <- <-].
    destruct stitch as [[from [trees|] initial]|]; try by intros [= <- <-].
    destruct (_walkStitchTrees ss [] dataLoc dataProps trees path); [|done].
    by intros [= <- <-].
  - destruct (last path); [destruct parent|]; by intros [= <- <-].
Qed.

(** A result without data, handled for a top-level fetch. *)
Lemma handleResult_root_null c target stitch result :
  data result = None ->
  handle c None target stitch result []
  = Ok (mkComposer (heap c) (fields c) (composerErrors c ++ resultErrors result) true, []).
Proof.
  intros Hdata. unfold _handleResult. simpl. rewrite Hdata.
  destruct (nulled c) eqn:E; [|done].
  destruct c as [h f es n]. simpl in *. by subst n.
Qed.

Lemma step_errors m ev m' :
  step m ev m' ->
  composerErrors (composer m') = composerErrors (composer m) ++ handledErrors ev /\
  (nulled (composer m) = true -> nulled (composer m') = true).
Proof.
  destruct 1 as [c t rest agg r c' new Hnow Hhandle
                |c t rest agg s Hlater
                |c agg1 t agg2 s c' new Hlater Hhandle]; simpl.
  - by destruct (handleResult_errors _ _ _ _ _ _ _ _ Hhandle) as (? & ? & _).
  - by rewrite app_nil_r.
  - by destruct (handleResult_errors _ _ _ _ _ _ _ _ Hhandle) as (? & ? & _).
Qed.

Lemma steps_errors m evs m' :
  steps m evs m' ->
  composerErrors (composer m')
  = composerErrors (composer m) ++ flat_map handledErrors evs /\
  (nulled (composer m) = true -> nulled (composer m') = true).
Proof.
  induction 1 as [m|m ev m' evs m'' Hstep _ [IHe IHn]]; simpl.
  - by rewrite app_nil_r.
  - destruct (step_errors _ _ _ Hstep) as [He Hn].
    rewrite IHe, He, <- app_assoc. split; [done|auto].
Qed.

Lemma step_root_null m t result m' :
  step m (Handled t result) m' ->
  t_parent t = None -> t_path t = [] -> data result = None ->
  nulled (composer m') = true.
Proof.
  inversion 1 as [c t0 rest agg r c' new Hnow Hhandle
                 |
                 |c agg1 t0 agg2 s c' new Hlater Hhandle]; subst; simpl;
    intros Hparent Hpath Hdata; rewrite Hparent, Hpath in Hhandle;
    rewrite handleResult_root_null in Hhandle by done;
    by injection Hhandle as <- <-.
Qed.

Lemma steps_root_null m evs m' t result :
  steps m evs m' -> Handled t result ∈ evs ->
  t_parent t = None -> t_path t = [] -> data result = None ->
  nulled (composer m') = true.
Proof.
  induction 1 as [m|m ev m' evs m'' Hstep Hsteps IH]; intros Hin Hparent Hpath Hdata.
  - by apply elem_of_nil in Hin.
  - apply elem_of_cons in Hin as [<-|Hin]; [|by apply IH].
    apply (steps_errors _ _ _ Hsteps). by eapply step_root_null.
Qed.

(** A call that is waiting, or a promise in flight, is there until it is
    handled, with the result it settles to. *)
Lemma step_keeps m ev m' t :
  step m ev m' -> t ∈ calls m ++ aggregated m ->
  t ∈ calls m' ++ aggregated m' \/ ev = Handled t (eventualResult t).
Proof.
  destruct 1 as [c t0 rest agg r c' new Hnow Hhandle
                |c t0 rest agg s Hlater
                |c agg1 t0 agg2 s c' new Hlater Hhandle]; simpl; intros Hin.
  - apply elem_of_cons in Hin as [->|Hin].
    + right. unfold eventualResult. by rewrite Hnow.
    + left. rewrite <- app_assoc. apply elem_of_app. by right.
  - left. apply elem_of_cons in Hin as [->|Hin].
    + rewrite app_assoc. apply elem_of_app. right. left.
    + apply elem_of_app in Hin as [Hin|Hin].
      * apply elem_of_app. by left.
      * rewrite app_assoc. apply elem_of_app. left. apply elem_of_app. by right.
  - apply elem_of_app in Hin as [Hin|Hin].
    + left. apply elem_of_app. right. apply elem_of_app. by left.
    + apply elem_of_cons in Hin as [->|Hin].
      * right. unfold eventualResult. by rewrite Hlater.
      * left. apply elem_of_app. right. apply elem_of_app. by right.
Qed.

Lemma steps_keeps m evs m' t :
  steps m evs m' -> t ∈ calls m ++ aggregated m ->
  t ∈ calls m' ++ aggregated m' \/ Handled t (eventualResult t) ∈ evs.
Proof.
  induction 1 as [m|m ev m' evs m'' Hstep _ IH]; intros Hin; [by left|].
  destruct (step_keeps _ _ _ _ Hstep Hin) as [Hin'| ->].
  - destruct (IH Hin') as [H|H]; [by left|right; by right].
  - right. left.
Qed.

Lemma composes_handles_every_stitch stitches evs response stitch :
  composes ss executor rawVariableValues stitches evs response ->
  stitch ∈ stitches ->
  Handled (topLevelTask stitch) (eventualResult (topLevelTask stitch)) ∈ evs.
Proof.
  intros (m & Hsteps & [Hcalls Hagg] & _) Hin.
  destruct (steps_keeps _ _ _ (topLevelTask stitch) Hsteps) as [H|H]; [| |done].
  - simpl. rewrite app_nil_r. by apply list_elem_of_fmap_2.
  - rewrite Hcalls, Hagg in H. by apply elem_of_nil in H.
Qed.

(** The run that settles promises in the order they were made is one of
    the runs of the machine. *)
Lemma run_steps fuel m evs m' :
  run ss executor rawVariableValues fuel m = Ok (evs, m') ->
  steps m evs m' /\ finished m'.
Proof.
  revert m evs m'. induction fuel as [|fuel IH]; intros [c cs agg] evs m'; [done|].
  simpl. destruct cs as [|t rest].
  - destruct agg as [|t agg].
    + intros [= <- <-]. split; [constructor|done].
    + destruct (initialResult (t_stitch t)) as [r|s] eqn:Einit; [done|].
      destruct (handle c (t_parent t) (t_fields t) (Some (t_stitch t)) (settled s)
                  (t_path t)) as [[c' new]|] eqn:Ehandle; [|done].
      destruct (run ss executor rawVariableValues fuel (mkMachine c' new agg))
        as [[evs' m'']|] eqn:Erun; [|done].
      intros [= <- <-]. destruct (IH _ _ _ Erun) as [Hsteps Hfin].
      split; [|done]. econstructor; [|exact Hsteps].
      by apply (step_settle ss executor rawVariableValues c [] t agg s c' new).
  - destruct (initialResult (t_stitch t)) as [r|s] eqn:Einit.
    + destruct (handle c (t_parent t) (t_fields t) (Some (t_stitch t)) r (t_path t))
        as [[c' new]|] eqn:Ehandle; [|done].
      destruct (run ss executor rawVariableValues fuel (mkMachine c' (new ++ rest) agg))
        as [[evs' m'']|] eqn:Erun; [|done].
      intros [= <- <-]. destruct (IH _ _ _ Erun) as [Hsteps Hfin].
      split; [|done]. econstructor; [|exact Hsteps]. by constructor.
    + destruct (run ss executor rawVariableValues fuel (mkMachine c rest (agg ++ [t])))
        as [[evs' m'']|] eqn:Erun; [|done].
      intros [= <- <-]. destruct (IH _ _ _ Erun) as [Hsteps Hfin].
      split; [|done]. econstructor; [|exact Hsteps]. by econstructor.
Qed.
End ComposerRun.

(** C2. A result without data ([null] or [undefined]) handled for a
    top-level fetch (no parent, empty path) has its errors appended, sets the
    [nulled] flag, merges nothing and starts nothing.  Whatever else the
    composer handles, and in whatever order its promises settle, the
    response [compose()] returns then has [data: null], and its errors are
    the errors of every result handled, in the order they were handled
    (the [errors] entry being left out only when there is none): the errors
    of a result are appended before anything else is looked at. *)
Theorem root_null_result_nulls_the_response
    (ss : SuperSchema)
    (executor : Subschema -> DocumentNode -> option ObjMap -> PromiseOrValue ExecutionResult)
    (rawVariableValues : option ObjMap) :
  (forall (c : Composer.Composer) (target : Composer.loc)
          (stitch : option Composer.Stitch) (result : ExecutionResult),
     data result = None ->
     Composer._handleResult ss executor rawVariableValues c None target stitch result []
     = Ok (Composer.mkComposer (Composer.heap c) (Composer.fields c)
             (Composer.composerErrors c ++ Composer.resultErrors result) true, []))
  /\
  (forall (stitches : list Composer.Stitch) (evs : list Composer.Event)
          (response : Composer.Response),
     Composer.composes ss executor rawVariableValues stitches evs response ->
     let allErrors := flat_map Composer.handledErrors evs in
     Composer.resp_errors response = (if isEmpty allErrors then None else Some allErrors) /\
     (forall stitch, stitch ∈ stitches ->
        Composer.Handled (Composer.topLevelTask stitch)
          (Composer.eventualResult (Composer.topLevelTask stitch)) ∈ evs) /\
     ((exists stitch, stitch ∈ stitches /\
         data (Composer.eventualResult (Composer.topLevelTask stitch)) = None) ->
      Composer.resp_data response = None)).
Proof.
  split; [intros; by apply handleResult_root_null|].
  intros stitches evs response Hcomposes allErrors.
  pose proof Hcomposes as (m & Hsteps & Hfin & ->).
  destruct (steps_errors _ _ _ _ _ _ Hsteps) as [Herrors _].
  simpl in Herrors. fold allErrors in Herrors.
  split; [|split].
  1: clearbody allErrors.
  - unfold Composer._buildResponse. rewrite Herrors. by destruct allErrors.
  - intros stitch Hin. exact (composes_handles_every_stitch _ _ _ _ _ _ _ Hcomposes Hin).
  - intros (stitch & Hin & Hnull).
    assert (Hnulled : Composer.nulled (Composer.composer m) = true).
    { apply (steps_root_null _ _ _ _ _ _ (Composer.topLevelTask stitch)
               (Composer.eventualResult (Composer.topLevelTask stitch)) Hsteps);
        [|reflexivity|reflexivity|exact Hnull].
      exact (composes_handles_every_stitch _ _ _ _ _ _ _ Hcomposes Hin). }
    unfold Composer._buildResponse. rewrite Hnulled.
    by destruct (negb _).
Qed.

(** The run of scenario 2 with a second top-level fetch whose promise is
    rejected: the response has no data and carries the error. *)
Lemma root_null_result_nulls_the_response_witness :
  Composer.composes Scenario.superSchema Scenario.emailExecutor None
    [Scenario.userStitch; Scenario.failedStitch] Scenario.failedEvents
    (Composer._buildResponse (Composer.composer Scenario.failedMachine)) /\
  Composer.resp_data (Composer._buildResponse (Composer.composer Scenario.failedMachine))
  = None /\
  Composer.resp_errors (Composer._buildResponse (Composer.composer Scenario.failedMachine))
  = Some [mkGraphQLError "boom" (Some "boom")].
Proof.
  assert (Hrun : Composer.composes Scenario.superSchema Scenario.emailExecutor None
            [Scenario.userStitch; Scenario.failedStitch] Scenario.failedEvents
            (Composer._buildResponse (Composer.composer Scenario.failedMachine))).
  { exists Scenario.failedMachine. split; [|split; [|reflexivity]].
    - apply (run_steps Scenario.superSchema Scenario.emailExecutor None 8).
      vm_compute. reflexivity.
    - split; vm_compute; reflexivity. }
  split; [exact Hrun|].
  destruct (proj2 (root_null_result_nulls_the_response Scenario.superSchema
                     Scenario.emailExecutor None) _ _ _ Hrun) as (Herrors & _ & Hnull).
  split.
  - apply Hnull. exists Scenario.failedStitch. split; [|reflexivity].
    right. left.
  - rewrite Herrors. vm_compute. reflexivity.
Defined.

(** ** Composer: collecting the follow-up fetches *)

Section Collect.
Import Composer.

Lemma LVal_nested_ind (P : LVal -> Prop) :
P LNull -> (forall b, P (LBool b)) -> (forall n, P (LNum n)) -> (forall s, P (LStr s)) ->
(forall l elems props,
   match elems with Some es => Forall P es | None => True end ->
   Forall (fun kv => P (snd kv)) props ->
   P (LObj l elems props)) ->
forall v, P v.
Proof.
intros Hnull Hbool Hnum Hstr Hobj. fix IH 1.
intros [|b|n|s|l elems props]; [done|done|done|done|].
apply Hobj.
- destruct elems as [es|]; [|exact I].
  induction es as [|e es IHes]; constructor; [apply IH|exact IHes].
- induction props as [|[k x] props IHprops]; constructor; [apply IH|exact IHprops].
Qed.

Lemma mapGet_elem_of {K V} `{EqDecision K} (k : K) (v : V) m :
mapGet k m = Some v -> (k, v) ∈ m.
Proof.
induction m as [|[k0 v0] m IH]; simpl; [done|].
destruct (decide (k0 = k)) as [->|Hne].
- intros [= ->]. left.
- intros H. right. by apply IH.
Qed.

Lemma fetches_mapSet_present s f group m p :
mapGet s m = Some group ->
p ∈ fetches (mapSet s (group ++ [f]) m) <-> p = (s, f) \/ p ∈ fetches m.
Proof.
induction m as [|[k g] m IH]; simpl; [done|].
destruct (decide (k = s)) as [->|Hne].
- intros [= ->]. unfold fetches. simpl.
  rewrite !elem_of_app, map_app, elem_of_app. simpl.
  rewrite list_elem_of_singleton. tauto.
- intros Hget. unfold fetches in *. simpl.
  rewrite !elem_of_app, (IH Hget). tauto.
Qed.

Lemma fetches_mapSet_absent s f m p :
mapGet s m = None ->
p ∈ fetches (mapSet s [f] m) <-> p = (s, f) \/ p ∈ fetches m.
Proof.
induction m as [|[k g] m IH]; simpl.
- intros _. unfold fetches. simpl. rewrite list_elem_of_singleton.
  split; [by left|]. intros [H|H]; [done|]. by apply elem_of_nil in H.
- destruct (decide (k = s)) as [->|Hne]; [done|].
  intros Hget. unfold fetches in *. simpl.
  rewrite !elem_of_app, (IH Hget). tauto.
Qed.

Lemma fetches_accAdd s f m p :
p ∈ fetches (accAdd s f m) <-> p = (s, f) \/ p ∈ fetches m.
Proof.
unfold accAdd. destruct (mapGet s m) as [group|] eqn:E.
- by apply fetches_mapSet_present.
- by apply fetches_mapSet_absent.
Qed.

Lemma fetches_addSubschemaPlans m plans parent target path p :
p ∈ fetches (addSubschemaPlans m plans parent target path) <->
p ∈ fetches m \/
exists subschema subschemaPlan,
  (subschema, subschemaPlan) ∈ plans /\
  p = (subschema,
       mkFetchPlan (fieldNodes subschemaPlan) (planStitchTrees subschemaPlan)
         parent target path).
Proof.
revert m. induction plans as [|[s sp] plans IH]; intros m; simpl.
- split; [by left|]. intros [H|(s & sp & H & _)]; [done|].
  by apply elem_of_nil in H.
- rewrite IH, fetches_accAdd. split.
  + intros [[->|H]|(s' & sp' & Hin & ->)].
    * right. exists s, sp. split; [left|done].
    * by left.
    * right. exists s', sp'. split; [by right|done].
  + intros [H|(s' & sp' & Hin & ->)].
    * left. by right.
    * apply elem_of_cons in Hin as [[= -> ->]|Hin].
      -- left. by left.
      -- right. by exists s', sp'.
Qed.

Lemma collectAtKey_collects collect fieldsLoc fieldsProps key tree path m m' :
  Forall (fun kv => Collects collect (snd kv)) fieldsProps ->
  collectAtKey collect m fieldsLoc key tree path fieldsProps = Ok m' ->
  (forall p, p ∈ fetches m -> p ∈ fetches m') /\
  (forall p, p ∈ fetches m' -> p ∈ fetches m \/ Planned p tree).
Proof.
  induction 1 as [|[k child] ps Hchild _ IHps]; simpl.
  - intros [= <-]. split; [done|by left].
  - destruct (String.eqb k key); [|exact IHps].
    intros Hc. exact (Hchild _ _ _ _ _ Hc).
Qed.

Lemma walk_collects collect fieldsLoc fieldsProps trees path m m' :
  Forall (fun kv => Collects collect (snd kv)) fieldsProps ->
  walkStitchTreesWith collect fieldsLoc fieldsProps path trees m = Ok m' ->
  (forall p, p ∈ fetches m -> p ∈ fetches m') /\
  (forall p, p ∈ fetches m' ->
     p ∈ fetches m \/ exists key tree, (key, tree) ∈ trees /\ Planned p tree).
Proof.
  intros Hprops. revert m. induction trees as [|[key tree] trees IH]; intros m; simpl.
  - intros [= <-]. split; [done|by left].
  - destruct (collectAtKey collect m fieldsLoc key tree path fieldsProps)
      as [m1|] eqn:E1; [|done].
    destruct (collectAtKey_collects _ _ _ _ _ _ _ _ Hprops E1) as [Hmono1 Hprov1].
    intros Hwalk. destruct (IH _ Hwalk) as [Hmono Hprov].
    split; [auto|].
    intros p Hp. destruct (Hprov p Hp) as [H1|(key' & tree' & Hin & Hpl)].
    + destruct (Hprov1 p H1) as [H|H]; [by left|].
      right. exists key, tree. split; [left|done].
    + right. exists key', tree'. split; [by right|done].
Qed.

Lemma collectSubFetches_collects ss v : Collects (_collectSubFetches ss) v.
Proof.
induction v as [|b|n|s|l elems props IHelems IHprops] using LVal_nested_ind;
  intros m parent tree path m'; simpl; try done.
destruct elems as [es|].
- clear IHprops.
  generalize 0. revert m.
  induction IHelems as [|e es He _ IHes]; intros m i.
  + intros [= <-]. split; [done|by left].
  + destruct (_collectSubFetches ss m l e tree (path ++ [KeyIdx i])) as [m1|] eqn:E1;
      [|done].
    intros Hrest. destruct (He _ _ _ _ _ E1) as [Hmono1 Hprov1].
    destruct (IHes _ _ Hrest) as [Hmono Hprov].
    split; [auto|]. intros p Hp.
    destruct (Hprov p Hp) as [H|H]; [|by right]. by apply Hprov1.
- clear IHelems.
  destruct (getProp "__stitching__typename" props) as [typeNameValue|]; [|done].
  destruct (isObjectType (getType ss (toPropertyKey typeNameValue))) eqn:Eobj;
    [|by destruct typeNameValue].
  destruct (getType ss (toPropertyKey typeNameValue)) as [objectType|];
    [|by destruct typeNameValue].
  destruct (mapGet objectType (fieldPlans tree)) as [fieldPlan|] eqn:Eplan;
    [|by destruct typeNameValue].
  intros Hwalk.
  assert (Hwalk' :
    walkStitchTreesWith (_collectSubFetches ss) l props path (stitchTrees fieldPlan)
      (addSubschemaPlans m (subschemaPlans fieldPlan) parent l path) = Ok m')
    by by destruct typeNameValue.
  clear Hwalk.
  destruct (walk_collects _ _ _ _ _ _ _ IHprops Hwalk') as [Hmono Hprov].
  apply mapGet_elem_of in Eplan.
  split.
  + intros p Hp. apply Hmono. apply fetches_addSubschemaPlans. by left.
  + intros p Hp. destruct (Hprov p Hp) as [H|(key & nested & Hin & sp & Hpl & Hf & Hs)].
    * apply fetches_addSubschemaPlans in H as [H|(s & sp & Hin & ->)]; [by left|].
      right. exists sp. split; [|done]. by eapply plan_here.
    * right. exists sp. split; [|done]. by eapply plan_deeper.
Qed.
End Collect.

(** A stitched value that is [null] cannot be read at all, and a list is
    gone through element by element. *)
Lemma collectSubFetches_null ss m parent tree path :
  Composer._collectSubFetches ss m parent Composer.LNull tree path
  = Throw Composer.nullDereference.
Proof. reflexivity. Qed.



(** ** Composer: what a result does to its target *)

Section Assign.
Import Composer.

Lemma assignAll_lookup fields entries key :
  NoDup (keys entries) ->
  getProp key (assignAll fields entries)
  = match getProp key entries with
    | Some value => Some (jval value)
    | None => getProp key fields
    end.
Proof.
  revert fields. induction entries as [|[k v] rest IH]; intros fields Hnd; simpl; [done|].
  simpl in Hnd. apply NoDup_cons in Hnd as [Hk Hnd]. rewrite (IH _ Hnd).
  destruct (String.eqb_spec k key) as [->|Hne].
  - apply getProp_None_keys in Hk. rewrite Hk. apply getProp_setProp_eq.
  - destruct (getProp key rest); [done|]. by apply getProp_setProp_ne.
Qed.

Lemma allocProps_lookup ps h lps h' key :
  allocProps ps h = (lps, h') ->
  keys lps = keys ps /\
  match getProp key ps with
  | Some v =>
      exists lv, getProp key lps = Some lv /\
        forall h'' d, agrees (length h) h' h'' -> vdepth v <= d ->
                      readback d h'' (jval lv) = v
  | None => getProp key lps = None
  end.
Proof.
  revert h lps h'. induction ps as [|[k x] ps IH]; intros h lps h'; simpl.
  - by intros [= <- <-].
  - destruct (alloc x h) as [lx h1] eqn:Ex.
    destruct (allocProps ps h1) as [lrest h2] eqn:Erest.
    intros [= <- <-]. destruct (IH _ _ _ Erest) as [Hkeys Hget].
    destruct (alloc_faithful x _ _ _ Ex) as [[ext1 ->] Hread].
    destruct (allocProps_faithful ps _ _ _
                (proj2 (Forall_forall _ _) (fun kv _ => alloc_faithful (snd kv))) Erest)
      as ([ext2 ->] & _ & _).
    split; [simpl; by rewrite Hkeys|]. simpl.
    destruct (String.eqb k key).
    + exists lx. split; [done|]. intros h'' d Hag Hd. apply Hread; [|done].
      eapply agrees_within; [exact Hag|lia].
    + destruct (getProp key ps) as [v|]; [|done].
      destruct Hget as (lv & Hlv & Hreadv). exists lv. split; [done|].
      intros h'' d Hag Hd. apply Hreadv; [|done]. intros l Hl Hlt. apply Hag; [|done].
      rewrite length_app in Hl. lia.
Qed.
End Assign.

(** C1 (as amended). When [result.data] is defined and the call is not
    discarded at its start, [_handleResult] assigns each entry of
    [result.data] to the target object: afterwards [fields[key]] is the
    incoming value, whatever was there before, object or not, and the
    entries [result.data] does not mention are as they were.  Nothing is
    merged per sub-key.  Data of two subschemas for one composite object
    still ends up together because a follow-up fetch has that object itself
    as its target. *)
Theorem handleResult_assigns_each_entry
    (ss : SuperSchema)
    (executor : Subschema -> DocumentNode -> option ObjMap -> PromiseOrValue ExecutionResult)
    (rawVariableValues : option ObjMap)
    (c c' : Composer.Composer) (parent : option Composer.loc) (target : Composer.loc)
    (stitch : option Composer.Stitch) (result : ExecutionResult) (path : Composer.Path)
    (entries : ObjMap) (tasks : list Composer.Task) :
  data result = Some entries ->
  NoDup (keys entries) ->
  target < length (Composer.heap c) ->
  match parent with
  | Some p => Composer.readSlot (Composer.heap c) p (last path) <> Composer.JNull
  | None => Composer.nulled c = false
  end ->
  Composer._handleResult ss executor rawVariableValues c parent target stitch result path
    = Ok (c', tasks) ->
  forall key,
    match getProp key entries with
    | Some value =>
        Composer.readback (vdepth value) (Composer.heap c')
          (Composer.readSlot (Composer.heap c') target (Some (Composer.KeyStr key)))
        = value
    | None =>
        Composer.readSlot (Composer.heap c') target (Some (Composer.KeyStr key))
        = Composer.readSlot (Composer.heap c) target (Some (Composer.KeyStr key))
    end.
Proof.
  intros Hdata Hnd Htarget Hlive Hhandle key.
  unfold Composer._handleResult in Hhandle. simpl in Hhandle.
  assert (Hpass : match parent with
                  | Some p => bool_decide (Composer.readSlot (Composer.heap c) p (last path)
                                           = Composer.JNull)
                  | None => Composer.nulled c
                  end = false).
  { destruct parent; [by apply bool_decide_eq_false_2|done]. }
  rewrite Hpass, Hdata in Hhandle. rewrite alloc_obj in Hhandle.
  destruct (Composer.allocProps entries (Composer.heap c)) as [lprops h2] eqn:Eprops.
  simpl in Hhandle.
  destruct (allocProps_lookup _ _ _ _ key Eprops) as [Hkeys Hget].
  destruct (allocProps_faithful entries _ _ _
              (proj2 (Forall_forall _ _) (fun kv _ => alloc_faithful (snd kv))) Eprops)
    as ([ext Hext] & _ & _).
  set (root := Composer.mkHObj None
                 (map (fun kv => (fst kv, Composer.jval (snd kv))) lprops)) in *.
  assert (Hheap : Composer.heap c'
                  = Composer.assignInto (h2 ++ [root]) target lprops).
  { destruct stitch as [[from [trees|] initial]|].
    - destruct (Composer._walkStitchTrees _ _ _ _ _ _); [|done].
      by injection Hhandle as <- <-.
    - by injection Hhandle as <- <-.
    - by injection Hhandle as <- <-. }
  destruct (lookup_lt_is_Some_2 _ _ Htarget) as [o Ho].
  assert (Ho2 : (h2 ++ [root]) !! target = Some o).
  { rewrite Hext, <- app_assoc. by rewrite lookup_app_l. }
  assert (Hslot : Composer.readSlot (Composer.heap c') target (Some (Composer.KeyStr key))
                  = default Composer.JUndefined
                      (getProp key (Composer.assignAll (Composer.h_props o) lprops))).
  { rewrite Hheap. unfold Composer.assignInto, Composer.readSlot. rewrite Ho2.
    rewrite list_lookup_insert_eq; [done|]. by eapply lookup_lt_Some. }
  rewrite Hslot, assignAll_lookup by (unfold keys in *; by rewrite Hkeys).
  destruct (getProp key entries) as [value|].
  - destruct Hget as (lv & -> & Hread). simpl. apply Hread; [|done].
    intros l Hl Hlt. rewrite Hheap. unfold Composer.assignInto. rewrite Ho2.
    rewrite list_lookup_insert_ne by lia. by rewrite lookup_app_l.
  - rewrite Hget. unfold Composer.readSlot. by rewrite Ho.
Qed.

(** A second result for [user] replaces the object the first one left. *)
Lemma handleResult_assigns_each_entry_witness :
  Composer.readback 1 (Composer.heap Scenario.afterEmail)
    (Composer.readSlot (Composer.heap Scenario.afterEmail) 0
       (Some (Composer.KeyStr "user")))
  = VMap [("email", VStr "y")].
Proof.
  refine (handleResult_assigns_each_entry Scenario.superSchema Scenario.emailExecutor None
            Scenario.afterName Scenario.afterEmail None 0 None Scenario.emailResult []
            [("user", VMap [("email", VStr "y")])] [] _ _ _ _ _ "user").
  - reflexivity.
  - apply NoDup_singleton.
  - vm_compute. lia.
  - reflexivity.
  - vm_compute. reflexivity.
Defined.

(** C1 as stated fails: after [{user: {name}}] and then [{user: {email}}]
    are handled for the root, [user] holds the second object alone, where a
    deep merge would hold both entries. *)
Lemma handleResult_overwrites_an_object_entry :
  Composer._handleResult Scenario.superSchema Scenario.emailExecutor None
    Composer.newComposer None 0 None Scenario.nameResult [] = Ok (Scenario.afterName, []) /\
  Composer._handleResult Scenario.superSchema Scenario.emailExecutor None
    Scenario.afterName None 0 None Scenario.emailResult [] = Ok (Scenario.afterEmail, []) /\
  Composer.readback 2 (Composer.heap Scenario.afterEmail)
    (Composer.JRef (Composer.fields Scenario.afterEmail))
  = VMap [("user", VMap [("email", VStr "y")])] /\
  Executor.deepMergeAll
    (Executor.deepMergeAll [] [("user", VMap [("name", VStr "x")])])
    [("user", VMap [("email", VStr "y")])]
  = [("user", VMap [("name", VStr "x"); ("email", VStr "y")])] /\
  Composer.readback 2 (Composer.heap Scenario.afterEmail)
    (Composer.JRef (Composer.fields Scenario.afterEmail))
  <> VMap
       (Executor.deepMergeAll
          (Executor.deepMergeAll [] [("user", VMap [("name", VStr "x")])])
          [("user", VMap [("email", VStr "y")])]).
Proof.
  split; [vm_compute; reflexivity|]. split; [vm_compute; reflexivity|].
  split; [vm_compute; reflexivity|]. split; [vm_compute; reflexivity|].
  vm_compute. discriminate.
Qed.

(** ** Composer: the documents of the follow-up fetches *)

Lemma elem_of_subStitchTasks executor rawVariableValues m t :
  t ∈ Composer.subStitchTasks executor rawVariableValues m ->
  exists subschema subFetch,
    (subschema, subFetch) ∈ Composer.fetches m /\
    t = Composer.subStitchTask executor rawVariableValues subschema subFetch.
Proof.
  unfold Composer.subStitchTasks, Composer.fetches.
  rewrite !list_elem_of_In. intros ((s & fs) & Hin & Ht)%in_flat_map.
  apply in_map_iff in Ht as (f & <- & Hf). exists s, f. split; [|done].
  apply list_elem_of_In, in_flat_map. exists (s, fs). split; [done|].
  apply in_map_iff. by exists f.
Qed.

(** C5 (as amended). Every document the Composer builds for a follow-up
    fetch is a single-operation document whose selection set is the field
    nodes of the subschema plan the fetch comes from; its one definition is
    an anonymous [query] operation without variable definitions or
    directives, and no fragment definition follows it.  The header of the
    original operation and the fragments of the original document are not
    part of it. *)
Theorem followup_document_is_an_anonymous_query
    (ss : SuperSchema)
    (executor : Subschema -> DocumentNode -> option ObjMap -> PromiseOrValue ExecutionResult)
    (rawVariableValues : option ObjMap) :
  (forall selections,
     Composer._createDocument selections
     = mkDocument [OperationDefinition (mkOperation QUERY None None None selections)]) /\
  (forall (c c' : Composer.Composer) (parent : option Composer.loc)
          (target : Composer.loc) (stitch : option Composer.Stitch)
          (result : ExecutionResult) (path : Composer.Path) (tasks : list Composer.Task),
     Composer._handleResult ss executor rawVariableValues c parent target stitch result path
       = Ok (c', tasks) ->
     forall t, t ∈ tasks ->
       exists subschema subschemaPlan trees key tree from initial,
         stitch = Some (Composer.mkStitch from (Some trees) initial) /\
         (key, tree) ∈ trees /\
         Composer.PlanIn (subschema, subschemaPlan) tree /\
         Composer.fromSubschema (Composer.t_stitch t) = subschema /\
         Composer.stitch_stitchTrees (Composer.t_stitch t)
           = Composer.planStitchTrees subschemaPlan /\
         Composer.initialResult (Composer.t_stitch t)
           = executor subschema
               (mkDocument
                  [OperationDefinition
                     (mkOperation QUERY None None None
                        (map fieldSelection (Composer.fieldNodes subschemaPlan)))])
               rawVariableValues).
Proof.
  split; [done|].
  intros c c' parent target stitch result path tasks Hhandle t Ht.
  unfold Composer._handleResult in Hhandle. simpl in Hhandle.
  destruct (match parent with
            | Some p => bool_decide (Composer.readSlot (Composer.heap c) p (last path)
                                     = Composer.JNull)
            | None => Composer.nulled c
            end).
  { injection Hhandle as <- <-. by apply elem_of_nil in Ht. }
  destruct (data result) as [entries|].
  - destruct (Composer.alloc (VObj None entries) (Composer.heap c))
      as [[|b|n|s|dataLoc elems dataProps] h1];
      try (injection Hhandle as <- <-; by apply elem_of_nil in Ht).
    destruct stitch as [[from [trees|] initial]|];
      try (injection Hhandle as <- <-; by apply elem_of_nil in Ht).
    destruct (Composer._walkStitchTrees ss [] dataLoc dataProps trees path)
      as [subFetchMap|] eqn:Ewalk; [|done].
    injection Hhandle as <- <-.
    apply elem_of_subStitchTasks in Ht as (subschema & subFetch & Hin & ->).
    unfold Composer._walkStitchTrees in Ewalk.
    assert (Hall : Forall (fun kv => Composer.Collects (Composer._collectSubFetches ss) (snd kv))
                     dataProps).
    { apply Forall_forall. intros kv _. apply collectSubFetches_collects. }
    destruct (proj2 (walk_collects _ _ _ _ _ _ _ Hall Ewalk) _ Hin)
      as [Habs|(key & tree & Hkey & subschemaPlan & Hplan & Hnodes & Htrees)].
    { by apply elem_of_nil in Habs. }
    exists subschema, subschemaPlan, trees, key, tree, from, initial.
    simpl in *. rewrite Hnodes, Htrees. by repeat split.
  - destruct (last path); [destruct parent|];
      injection Hhandle as <- <-; by apply elem_of_nil in Ht.
Qed.

(** The follow-up of scenario 2: B is sent an anonymous query for [email]. *)
Lemma followup_document_is_an_anonymous_query_witness :
  Composer._createDocument [Scenario.leaf "email"]
  = mkDocument
      [OperationDefinition (mkOperation QUERY None None None [Scenario.leaf "email"])] /\
  exists subschema subschemaPlan trees key tree from initial,
    Some Scenario.userStitch = Some (Composer.mkStitch from (Some trees) initial) /\
    (key, tree) ∈ trees /\
    Composer.PlanIn (subschema, subschemaPlan) tree /\
    Composer.fromSubschema (Composer.t_stitch Scenario.userFollowUp) = subschema /\
    Composer.stitch_stitchTrees (Composer.t_stitch Scenario.userFollowUp)
      = Composer.planStitchTrees subschemaPlan /\
    Composer.initialResult (Composer.t_stitch Scenario.userFollowUp)
      = Scenario.emailExecutor subschema
          (mkDocument
             [OperationDefinition
                (mkOperation QUERY None None None
                   (map fieldSelection (Composer.fieldNodes subschemaPlan)))])
          None.
Proof.
  pose proof (followup_document_is_an_anonymous_query Scenario.superSchema
                Scenario.emailExecutor None) as [Hdocument Htasks].
  split; [apply Hdocument|].
  apply (Htasks Composer.newComposer Scenario.afterUser None 0 (Some Scenario.userStitch)
           Scenario.userResult [] [Scenario.userFollowUp]).
  - vm_compute. reflexivity.
  - left.
Defined.

(** C5 as stated fails: for an original document with the named query
    [GetUser], its variable and a fragment, the document of a follow-up
    fetch has neither the name, nor the variable definitions, nor the
    fragment. *)
Lemma followup_document_drops_header_and_fragments :
  Composer._createDocument [Scenario.leaf "email"]
  <> Spec.outgoingDocument Scenario.getUser [Scenario.userFragment] [Scenario.leaf "email"] /\
  definitions (Composer._createDocument [Scenario.leaf "email"])
  = [OperationDefinition (mkOperation QUERY None None None [Scenario.leaf "email"])] /\
  definitions
    (Spec.outgoingDocument Scenario.getUser [Scenario.userFragment] [Scenario.leaf "email"])
  = [OperationDefinition
       (mkOperation QUERY (Some "GetUser") (Some [("id", "ID")]) None [Scenario.leaf "email"]);
     FragmentDefinition Scenario.userFragment].
Proof.
  split; [vm_compute; discriminate|]. split; reflexivity.
Qed.

(** ** buildExecutionContext: the operation it selects *)

Section Scan.
Import Context.

Lemma scan_second_operation defs found fragments :
operationsOf defs <> [] ->
scanDefinitions None defs (Some found) fragments
= inl [newGraphQLError multipleOperationsMessage].
Proof.
revert fragments. induction defs as [|[op|fragment|printed] defs IH]; intros fragments;
  simpl; [done|done|auto|auto].
Qed.

Lemma scan_several_operations defs fragments :
2 <= length (operationsOf defs) ->
scanDefinitions None defs None fragments
= inl [newGraphQLError multipleOperationsMessage].
Proof.
revert fragments. induction defs as [|[op|fragment|printed] defs IH]; intros fragments;
  simpl; [lia| |auto|auto].
intros Hlen. apply scan_second_operation.
destruct (operationsOf defs); [simpl in Hlen; lia|done].
Qed.

Lemma scan_no_operation defs fragments :
operationsOf defs = [] ->
exists fragments', scanDefinitions None defs None fragments = inr (None, fragments').
Proof.
revert fragments. induction defs as [|[op|fragment|printed] defs IH]; intros fragments;
  simpl; [by eexists|done|auto|auto].
Qed.

Lemma scan_unknown_operation wanted defs found fragments :
(forall op, op ∈ operationsOf defs -> op_name op <> Some wanted) ->
exists fragments',
  scanDefinitions (Some wanted) defs found fragments = inr (found, fragments').
Proof.
revert fragments. induction defs as [|[op|fragment|printed] defs IH]; intros fragments;
  simpl; [by eexists| |auto|auto].
intros Hnone. rewrite bool_decide_eq_false_2 by (apply Hnone; left).
apply IH. intros op' Hin. apply Hnone. by right.
Qed.
End Scan.

(** C8. Once the subschemas have passed the schema assertion and the
    super-schema is built, [buildExecutionContext] returns exactly one
    error, with the message "Must provide operation name if query contains
    multiple operations." when the document has more than one operation
    definition and no operation name is given; with the message "Unknown
    operation named", the name in double quotes and a full stop, when the
    name given matches no operation definition; and with the message "Must
    provide an operation." when no name is given and the document has no
    operation definition. *)
Theorem buildExecutionContext_operation_errors
    (assertValidSchema : Subschema -> Result unit)
    (newSuperSchema : list Subschema -> Result SuperSchema)
    (getVariableValues :
       SuperSchema -> list VariableDefinitionNode -> ObjMap -> nat ->
       list GraphQLError + ObjMap)
    (skipIncludeOperation : OperationDefinitionNode -> ObjMap -> OperationDefinitionNode)
    (skipIncludeFragment : FragmentDefinitionNode -> ObjMap -> FragmentDefinitionNode)
    (args : Context.ExecutionArgs) (superSchema : SuperSchema) :
  Context.assertAll assertValidSchema (Context.subschemas args) = Ok tt ->
  newSuperSchema (Context.subschemas args) = Ok superSchema ->
  let outcome :=
    Context.buildExecutionContext assertValidSchema newSuperSchema getVariableValues
      skipIncludeOperation skipIncludeFragment args in
  let operations := Context.operationDefinitions (Context.document args) in
  (Context.operationName args = None -> 2 <= length operations ->
   outcome = Ok (inl [mkGraphQLError
     "Must provide operation name if query contains multiple operations." None])) /\
  (forall name,
     Context.operationName args = Some name ->
     (forall op, op ∈ operations -> op_name op <> Some name) ->
     outcome = Ok (inl [mkGraphQLError
       ("Unknown operation named " +:+ dquote +:+ name +:+ dquote +:+ ".") None])) /\
  (Context.operationName args = None -> operations = [] ->
   outcome = Ok (inl [mkGraphQLError "Must provide an operation." None])).
Proof.
  intros Hvalid Hschema outcome operations.
  subst outcome. unfold Context.buildExecutionContext. rewrite Hvalid, Hschema.
  split; [|split].
  - intros Hname Hlen. rewrite Hname.
    by rewrite (scan_several_operations _ [] Hlen).
  - intros name Hname Hnone. rewrite Hname.
    by destruct (scan_unknown_operation name _ None [] Hnone) as [fragments' ->].
  - intros Hname Hnil. rewrite Hname.
    by destruct (scan_no_operation _ [] Hnil) as [fragments' ->].
Qed.

(** Two anonymous operations without a name; a name nothing matches; a
    document of fragments only. *)
Lemma buildExecutionContext_operation_errors_witness :
  Context.buildExecutionContext (fun _ => Ok tt) (fun _ => Ok Scenario.superSchema)
    (fun _ _ _ _ => inr []) (fun operation _ => operation) (fun fragment _ => fragment)
    (Context.mkArgs [Scenario.subschemaA; Scenario.subschemaB] Scenario.twoOperations
       None None)
  = Ok (inl [mkGraphQLError
       "Must provide operation name if query contains multiple operations." None]) /\
  Context.buildExecutionContext (fun _ => Ok tt) (fun _ => Ok Scenario.superSchema)
    (fun _ _ _ _ => inr []) (fun operation _ => operation) (fun fragment _ => fragment)
    (Context.mkArgs [Scenario.subschemaA; Scenario.subschemaB] Scenario.twoOperations
       None (Some "X"))
  = Ok (inl [mkGraphQLError ("Unknown operation named " +:+ dquote +:+ "X" +:+ dquote +:+ ".")
               None]) /\
  Context.buildExecutionContext (fun _ => Ok tt) (fun _ => Ok Scenario.superSchema)
    (fun _ _ _ _ => inr []) (fun operation _ => operation) (fun fragment _ => fragment)
    (Context.mkArgs [Scenario.subschemaA; Scenario.subschemaB]
       (mkDocument [FragmentDefinition Scenario.userFragment]) None None)
  = Ok (inl [mkGraphQLError "Must provide an operation." None]).
Proof.
  split; [|split].
  - apply (buildExecutionContext_operation_errors (fun _ => Ok tt)
             (fun _ => Ok Scenario.superSchema) (fun _ _ _ _ => inr [])
             (fun operation _ => operation) (fun fragment _ => fragment)
             (Context.mkArgs [Scenario.subschemaA; Scenario.subschemaB]
                Scenario.twoOperations None None) Scenario.superSchema);
      [reflexivity|reflexivity|reflexivity|simpl; lia].
  - apply (proj1 (proj2 (buildExecutionContext_operation_errors (fun _ => Ok tt)
             (fun _ => Ok Scenario.superSchema) (fun _ _ _ _ => inr [])
             (fun operation _ => operation) (fun fragment _ => fragment)
             (Context.mkArgs [Scenario.subschemaA; Scenario.subschemaB]
                Scenario.twoOperations None (Some "X")) Scenario.superSchema
             eq_refl eq_refl)) "X"); [reflexivity|].
    intros op Hop. vm_compute in Hop.
    apply elem_of_cons in Hop as [->|Hop]; [done|].
    apply elem_of_cons in Hop as [->|Hop]; [done|].
    by apply elem_of_nil in Hop.
  - apply (proj2 (proj2 (buildExecutionContext_operation_errors (fun _ => Ok tt)
             (fun _ => Ok Scenario.superSchema) (fun _ _ _ _ => inr [])
             (fun operation _ => operation) (fun fragment _ => fragment)
             (Context.mkArgs [Scenario.subschemaA; Scenario.subschemaB]
                (mkDocument [FragmentDefinition Scenario.userFragment]) None None)
             Scenario.superSchema eq_refl eq_refl))); reflexivity.
Defined.

(** ** Consolidator: [add] and [close] *)

Section ConsolidatorFacts.
Import Consolidator.
Context {T U : Type} (processor : T -> option U).

Local Abbreviation Cons := (@Consolidator.Consolidator T U).
Local Abbreviation step := (@Consolidator.step T U processor).
Local Abbreviation steps := (@Consolidator.steps T U processor).

Lemma holds_false (c : Cons) id :
holds c id = false <-> id ∉ map fst (_asyncIterators c).
Proof. unfold holds. by rewrite bool_decide_eq_false. Qed.

Lemma elem_of_remove id (it : AsyncIterator (T:=T)) s :
it ∈ remove id s <-> it ∈ s /\ fst it <> id.
Proof. unfold remove. by rewrite list_elem_of_filter, (comm and). Qed.

Lemma ids_remove id id' (s : list (AsyncIterator (T:=T))) :
id' ∈ map fst (remove id s) <-> id' ∈ map fst s /\ id' <> id.
Proof.
rewrite !list_elem_of_fmap. split.
- intros (it & -> & Hin%elem_of_remove). split; [exists it; tauto|tauto].
- intros [(it & -> & Hin) Hne]. exists it. split; [done|]. by apply elem_of_remove.
Qed.

Lemma ids_advance id rest (s : list (AsyncIterator (T:=T))) :
map fst (advance id rest s) = map fst s.
Proof.
unfold advance. induction s as [|[i items] s IH]; simpl; [done|].
rewrite IH. by destruct (bool_decide (i = id)) eqn:E; [apply bool_decide_eq_true in E as ->|].
Qed.

Lemma ids_setAdd (it : AsyncIterator (T:=T)) s id :
id ∈ map fst (setAdd it s) <-> id ∈ map fst s \/ id = fst it.
Proof.
unfold setAdd. destruct (bool_decide (fst it ∈ map fst s)) eqn:E.
- apply bool_decide_eq_true in E. split; [by left|]. by intros [?| ->].
- rewrite map_app, elem_of_app. simpl. by rewrite list_elem_of_singleton.
Qed.

Lemma fromSource_push id id' v (out : list (nat * U)) :
fromSource id (push processor id' v out)
= fromSource id out
  ++ (if bool_decide (id' = id)
      then match processor v with Some p => [p] | None => [] end
      else []).
Proof.
unfold push, fromSource. destruct (processor v) as [p|].
- rewrite filter_app, map_app. f_equal. rewrite filter_cons, filter_nil. simpl.
  destruct (decide (id' = id)) as [->|Hne].
  + by rewrite bool_decide_eq_true_2.
  + by rewrite bool_decide_eq_false_2.
- destruct (bool_decide (id' = id)); by rewrite app_nil_r.
Qed.

(** A source that is not held, and cannot be added any more, stays out and
  contributes nothing. *)
Lemma step_keeps_out c l c' id :
step c l c' ->
holds c id = false ->
(_closed c = true \/ forall value, l = Add value -> fst value <> id) ->
holds c' id = false /\
fromSource id (pushed c') = fromSource id (pushed c) /\
(_closed c = true -> _closed c' = true).
Proof.
intros Hstep Hout%holds_false Hnoadd.
destruct Hstep as [c Hs|c i v rest Hs Hst Hin|c i Hs Hst Hin|c i Hs Hst Hin
                  |c Hs Hsig|c Hs Hempty Hcl Hret|c Hs|c value|c]; simpl.
- by rewrite holds_false.
- rewrite holds_false. simpl. rewrite ids_advance. split; [done|]. split; [|done].
  rewrite fromSource_push. rewrite bool_decide_eq_false_2; [by rewrite app_nil_r|].
  intros ->. apply Hout. apply list_elem_of_fmap. by exists (id, v :: rest).
- rewrite holds_false. simpl. split; [|done]. rewrite ids_remove. tauto.
- rewrite holds_false. simpl. split; [|done]. rewrite ids_remove. tauto.
- by rewrite holds_false.
- rewrite holds_false. simpl. split; [apply not_elem_of_nil|done].
- by rewrite holds_false.
- unfold add. destruct (_closed c) eqn:Hcl; [by rewrite holds_false|].
  rewrite holds_false. simpl. split; [|done]. rewrite ids_setAdd.
  destruct Hnoadd as [?|Hnoadd]; [done|].
  intros [?|Heq]; [done|]. by apply (Hnoadd value).
- by rewrite holds_false.
Qed.

Lemma steps_keep_out c ls c' id :
steps c ls c' ->
holds c id = false ->
(_closed c = true \/ forall value, Add value ∈ ls -> fst value <> id) ->
holds c' id = false /\ fromSource id (pushed c') = fromSource id (pushed c).
Proof.
induction 1 as [c|c l c1 ls c' Hstep _ IH]; intros Hout Hnoadd; [done|].
destruct (step_keeps_out _ _ _ id Hstep Hout) as (Hout1 & Hsame & Hclosed).
{ destruct Hnoadd as [?|Hnoadd]; [by left|right]. intros value ->. apply Hnoadd. left. }
destruct IH as [Hout' Hsame']; [done| |].
{ destruct Hnoadd as [?|Hnoadd]; [left; auto|right].
  intros value Hin. apply Hnoadd. by right. }
split; [done|]. by rewrite Hsame'.
Qed.

Lemma NoDup_ids_remove id (s : list (AsyncIterator (T:=T))) :
NoDup (map fst s) -> NoDup (map fst (remove id s)).
Proof.
unfold remove. induction s as [|[i items] s IH]; simpl; [done|].
intros [Hi Hs]%NoDup_cons. rewrite filter_cons. simpl.
destruct (decide (i <> id)); [|by apply IH].
simpl. apply NoDup_cons. split; [|by apply IH].
intros Hin. apply Hi. change (filter _ s) with (remove id s) in Hin.
by apply ids_remove in Hin as [? _].
Qed.

Lemma step_settled c l c' :
step c l c' -> l <> Cancel -> Settled c -> Settled c'.
Proof.
intros Hstep Hl [Hnd Hstop].
destruct Hstep as [c Hs|c i v rest Hs Hst Hin|c i Hs Hst Hin|c i Hs Hst Hin
                  |c Hs Hsig|c Hs Hempty Hcl Hret|c Hs|c value|c];
  unfold Settled; simpl.
- done.
- rewrite ids_advance. split; [done|done].
- split; [by apply NoDup_ids_remove|].
  intros [Hcl Hempty]%andb_true_iff. split; [|done].
  by destruct (remove i (_asyncIterators c)).
- destruct (Hstop Hst) as [Hempty _]. rewrite Hempty in Hin. by apply elem_of_nil in Hin.
- done.
- split; [constructor|done].
- done.
- unfold add. destruct (_closed c) eqn:Hcl;
    [split; [done|intros Hst; destruct (Hstop Hst); by split]|]. simpl. split.
  + unfold setAdd. destruct (bool_decide (fst value ∈ map fst (_asyncIterators c))) eqn:E;
      [done|]. apply bool_decide_eq_false in E.
    rewrite map_app. apply NoDup_app. split; [done|]. split; [|apply NoDup_singleton].
    intros x Hx Hx'. simpl in Hx'. apply list_elem_of_singleton in Hx' as ->. done.
  + intros Hst. destruct (Hstop Hst) as [_ ?]. congruence.
- split; [done|]. intros Hst. by destruct (Hstop Hst) as [-> _].
Qed.

Lemma unique_items (s : list (AsyncIterator (T:=T))) id items items' :
  NoDup (map fst s) -> (id, items) ∈ s -> (id, items') ∈ s -> items = items'.
Proof.
  induction s as [|[i its] s IH]; simpl; [by intros _ ?%elem_of_nil|].
  intros [Hi Hs]%NoDup_cons H1 H2.
  apply elem_of_cons in H1 as [E1|H1]; apply elem_of_cons in H2 as [E2|H2].
  - congruence.
  - exfalso. apply Hi. apply list_elem_of_fmap. exists (id, items').
    split; [simpl; congruence|done].
  - exfalso. apply Hi. apply list_elem_of_fmap. exists (id, items).
    split; [simpl; congruence|done].
  - by apply IH.
Qed.

Lemma advance_other id id' rest items (s : list (AsyncIterator (T:=T))) :
id' <> id -> (id, items) ∈ s -> (id, items) ∈ advance id' rest s.
Proof.
intros Hne Hin. unfold advance. apply list_elem_of_fmap. exists (id, items).
split; [|done]. simpl. by rewrite bool_decide_eq_false_2.
Qed.

Lemma advance_same id rest items (s : list (AsyncIterator (T:=T))) :
(id, items) ∈ s -> (id, rest) ∈ advance id rest s.
Proof.
intros Hin. unfold advance. apply list_elem_of_fmap. exists (id, items).
split; [|done]. simpl. by rewrite bool_decide_eq_true_2.
Qed.

Lemma setAdd_keeps (it it' : AsyncIterator (T:=T)) s : it ∈ s -> it ∈ setAdd it' s.
Proof.
intros Hin. unfold setAdd. destruct (bool_decide _); [done|].
apply elem_of_app. by left.
Qed.

Lemma step_closed c l c' : step c l c' -> _closed c = true -> _closed c' = true.
Proof.
intros Hstep Hcl. destruct Hstep; simpl; try done.
unfold add. by rewrite Hcl.
Qed.

(** A held source that has left the set by the end of a run the consumer
  did not cancel has had every one of its items processed and pushed. *)
Lemma steps_consume c ls c' id items :
steps c ls c' ->
Settled c -> Cancel ∉ ls ->
(_closed c = true \/ forall value, Add value ∈ ls -> fst value <> id) ->
(id, items) ∈ _asyncIterators c ->
holds c' id = false ->
fromSource id (pushed c') = fromSource id (pushed c) ++ processedAll processor items.
Proof.
intros Hsteps. revert items.
induction Hsteps as [c|c l c1 ls c' Hstep Hsteps IH]; intros items Hinv Hcancel Hnoadd Hin Hout.
{ apply holds_false in Hout. exfalso. apply Hout. apply list_elem_of_fmap.
  by exists (id, items). }
assert (Hl : l <> Cancel) by (intros ->; apply Hcancel; left).
assert (Hcancel' : Cancel ∉ ls) by (intros ?; apply Hcancel; by right).
assert (Hnoadd' : _closed c1 = true \/ forall value, Add value ∈ ls -> fst value <> id).
{ destruct Hnoadd as [Hcl|Hnoadd]; [left; by apply (step_closed _ _ _ Hstep)|right].
  intros value ?. apply Hnoadd. by right. }
pose proof (step_settled _ _ _ Hstep Hl Hinv) as Hinv1.
destruct Hinv as [Hnd Hstop].
specialize (fun items => IH items Hinv1 Hcancel' Hnoadd').
destruct Hstep as [c Hs|c i v rest Hs Hst Hiv|c i Hs Hst Hiv|c i Hs Hst Hiv
                  |c Hs Hsig|c Hs Hempty Hcl Hret|c Hs|c value|c]; simpl in *.
- by apply IH.
- destruct (decide (i = id)) as [->|Hne].
  + rewrite (unique_items _ _ _ _ Hnd Hin Hiv).
    rewrite (IH rest (advance_same _ _ _ _ Hiv) Hout).
    rewrite fromSource_push, bool_decide_eq_true_2 by done.
    rewrite <- app_assoc. f_equal. unfold processedAll. simpl.
    by destruct (processor v).
  + rewrite (IH items (advance_other _ _ _ _ _ Hne Hin) Hout).
    rewrite fromSource_push, bool_decide_eq_false_2 by done.
    by rewrite app_nil_r.
- destruct (decide (i = id)) as [->|Hne].
  + rewrite (unique_items _ _ _ _ Hnd Hin Hiv).
    destruct (steps_keep_out _ _ _ id Hsteps) as [_ Hsame].
    * apply holds_false. simpl. rewrite ids_remove. tauto.
    * destruct Hnoadd' as [Hcl|Hnoadd']; [by left|by right].
    * rewrite Hsame. simpl. unfold processedAll. simpl. by rewrite app_nil_r.
  + apply IH; [|done]. apply elem_of_remove. split; [done|]. simpl. congruence.
- destruct (Hstop Hst) as [Hempty _]. rewrite Hempty in Hin. by apply elem_of_nil in Hin.
- by apply IH.
- rewrite Hempty in Hin. by apply elem_of_nil in Hin.
- done.
- assert (Hp : pushed (add c value) = pushed c)
    by (unfold add; by destruct (_closed c)).
  rewrite <- Hp. apply IH; [|done]. unfold add. destruct (_closed c); [done|]. simpl.
  by apply setAdd_keeps.
- by apply (IH items).
Qed.

Lemma step_returned c l c' : step c l c' -> Returned c -> Returned c'.
Proof.
intros Hstep Hret. unfold Returned in *.
destruct Hstep as [c Hs|c i v rest Hs Hst Hin|c i Hs Hst Hin|c i Hs Hst Hin
                  |c Hs Hsig|c Hs Hempty Hcl Hr|c Hs|c value|c]; simpl; try done.
- intros Hr. destruct (Hret Hr) as [Hempty ?]. by rewrite Hempty.
- intros Hr. destruct (Hret Hr) as [Hempty ?]. by rewrite Hempty.
- intros Hr. destruct (Hret Hr) as [Hempty ?]. by rewrite Hempty.
- unfold add. destruct (_closed c) eqn:Hcl.
  + intros Hr. rewrite Hcl. by destruct (Hret Hr).
  + simpl. intros Hr. destruct (Hret Hr) as [_ ?]. congruence.
- intros Hr. by destruct (Hret Hr) as [-> _].
Qed.

Lemma steps_returned c ls c' : steps c ls c' -> Returned c -> Returned c'.
Proof.
induction 1 as [c|c l c1 ls c' Hstep _ IH]; [done|].
intros Hret. apply IH. by apply (step_returned _ _ _ Hstep).
Qed.

Lemma remove_fresh id (s : list (AsyncIterator (T:=T))) :
id ∉ map fst s -> remove id s = s.
Proof.
unfold remove. induction s as [|[i items] s IH]; simpl; [done|].
intros Hout. rewrite filter_cons. simpl.
destruct (decide (i <> id)) as [_|Heq].
- f_equal. apply IH. intros Hin. apply Hout. by right.
- exfalso. apply Heq. intros ->. apply Hout. left.
Qed.

Lemma advance_fresh id rest (s : list (AsyncIterator (T:=T))) :
id ∉ map fst s -> advance id rest s = s.
Proof.
unfold advance. induction s as [|[i items] s IH]; simpl; [done|].
intros Hout. rewrite bool_decide_eq_false_2.
- f_equal. apply IH. intros Hin. apply Hout. by right.
- intros ->. apply Hout. left.
Qed.

(** A closed, running consolidator can always finish: every held source is
  drained in turn and the executor returns. *)
Lemma drain (s : list (AsyncIterator (T:=T))) :
forall stopped sig out,
  NoDup (map fst s) -> (stopped = true -> s = []) ->
  exists ls c',
    steps (mkConsolidator s true stopped true sig out false) ls c' /\
    (Cancel ∉ ls) /\ returned c' = true.
Proof.
induction s as [|[id items] s IH]; intros stopped sig out Hnd Hstop.
- exists [Return]. eexists. split; [|split].
  + eapply steps_cons; [by apply step_return|apply steps_refl].
  + by intros ?%list_elem_of_singleton.
  + done.
- assert (Hst : stopped = false) by (destruct stopped; [by specialize (Hstop eq_refl)|done]).
  subst stopped. clear Hstop.
  simpl in Hnd. apply NoDup_cons in Hnd as [Hid Hnd].
  revert out. induction items as [|v rest IHitems]; intros out.
  + destruct (IH (isEmpty s) sig out Hnd) as (ls & c' & Hsteps & Hcancel & Hret).
    { by destruct s. }
    exists (Done id :: ls), c'. split; [|split; [|done]].
    * eapply steps_cons; [|exact Hsteps].
      pose proof (step_done processor (mkConsolidator ((id, []) :: s) true false true sig out false) id
                    eq_refl eq_refl) as Hdone.
      simpl in Hdone. unfold remove in Hdone. rewrite filter_cons in Hdone. simpl in Hdone.
      destruct (decide (id <> id)) as [Hne|_]; [done|].
      change (filter _ s) with (remove id s) in Hdone.
      rewrite (remove_fresh _ _ Hid) in Hdone. apply Hdone. left.
    * intros [?|?]%elem_of_cons; [done|by apply Hcancel].
  + destruct (IHitems (push processor id v out)) as (ls & c' & Hsteps & Hcancel & Hret).
    exists (Next id :: ls), c'. split; [|split; [|done]].
    * eapply steps_cons; [|exact Hsteps].
      pose proof (step_next processor (mkConsolidator ((id, v :: rest) :: s) true false true sig out false)
                    id v rest eq_refl eq_refl) as Hnext.
      simpl in Hnext. rewrite bool_decide_eq_true_2 in Hnext by done.
      change (map _ s) with (advance id rest s) in Hnext.
      rewrite (advance_fresh _ _ _ Hid) in Hnext. apply Hnext. left.
    * intros [?|?]%elem_of_cons; [done|by apply Hcancel].
Qed.

Lemma drain_closed (c : Cons) :
Settled c -> _closed c = true -> returned c = false ->
exists ls c', steps c ls c' /\ (Cancel ∉ ls) /\ returned c' = true.
Proof.
intros [Hnd Hstop] Hcl Hret.
destruct c as [s started stopped closed sig out ret]. simpl in *. subst closed ret.
destruct (drain s stopped sig out Hnd) as (ls & c' & Hsteps & Hcancel & Hr).
{ intros Hst. by destruct (Hstop Hst). }
destruct started.
- by exists ls, c'.
- exists (Start :: ls), c'. split; [|split; [|done]].
  + eapply steps_cons; [|exact Hsteps].
    by apply (step_start processor (mkConsolidator s false stopped true sig out false)).
  + intros [?|?]%elem_of_cons; [done|by apply Hcancel].
Qed.
End ConsolidatorFacts.

(** C10. [add] on a closed consolidator changes nothing: the sequence does not
  enter [_asyncIterators] and, whatever happens afterwards, nothing of it is
  pushed. A sequence added while the consolidator is still open is held, and
  in every run that ends with the executor returned (the consumer not having
  cancelled) all of its items have been processed and pushed, in order.
  [close] sets [_closed] and, when the executor has started, resolves
  [_signal]; it touches nothing else. The executor can return exactly when
  the consolidator is closed and holds no source, and from a closed
  consolidator such a run always exists. *)
Theorem add_after_close_is_a_no_op {T U : Type} (processor : T -> option U)
  (c : Consolidator.Consolidator (T:=T) (U:=U))
  (value : Consolidator.AsyncIterator (T:=T)) :
  Consolidator.Settled c ->
  Consolidator.returned c = false ->
  Consolidator.holds c (fst value) = false ->
  Consolidator.close c
  = Consolidator.mkConsolidator (Consolidator._asyncIterators c)
      (Consolidator._started c) (Consolidator._stopped c) true
      (Consolidator._started c || Consolidator._signal c)
      (Consolidator.pushed c) (Consolidator.returned c) /\
  Consolidator.add (Consolidator.close c) value = Consolidator.close c /\
  (forall ls c',
     Consolidator.steps processor (Consolidator.add (Consolidator.close c) value) ls c' ->
     Consolidator.holds c' (fst value) = false /\
     Consolidator.fromSource (fst value) (Consolidator.pushed c')
     = Consolidator.fromSource (fst value) (Consolidator.pushed c)) /\
  (Consolidator._closed c = false ->
     value ∈ Consolidator._asyncIterators (Consolidator.add c value) /\
     forall ls c',
       Consolidator.steps processor (Consolidator.close (Consolidator.add c value)) ls c' ->
       Consolidator.Cancel ∉ ls ->
       Consolidator.returned c' = true ->
       Consolidator.fromSource (fst value) (Consolidator.pushed c')
       = Consolidator.fromSource (fst value) (Consolidator.pushed c)
         ++ Consolidator.processedAll processor (snd value)) /\
  (forall c1,
     Consolidator._started c1 = true -> Consolidator.returned c1 = false ->
     (exists c2, Consolidator.step processor c1 Consolidator.Return c2)
     <-> Consolidator._closed c1 = true /\ Consolidator._asyncIterators c1 = []) /\
  (exists ls c',
     Consolidator.steps processor (Consolidator.close c) ls c' /\
     (Consolidator.Cancel ∉ ls) /\ Consolidator.returned c' = true).
Proof.
intros Hinv Hret Hout.
assert (Hclose : Consolidator.Settled (Consolidator.close c)).
{ apply (step_settled processor c Consolidator.Close); [constructor|done|done]. }
split; [|split; [|split; [|split; [|split]]]].
- unfold Consolidator.close. by destruct (Consolidator._started c).
- done.
- intros ls c' Hsteps. change (Consolidator.add (Consolidator.close c) value)
    with (Consolidator.close c) in Hsteps.
  destruct (steps_keep_out processor _ _ _ (fst value) Hsteps) as [Hout' Hsame];
    [done|by left|].
  by split.
- intros Hopen. destruct value as [id items]. simpl in *.
  assert (Hin : (id, items) ∈ Consolidator._asyncIterators (Consolidator.add c (id, items))).
  { unfold Consolidator.add. rewrite Hopen. simpl. unfold Consolidator.setAdd. simpl.
    apply holds_false in Hout. rewrite bool_decide_eq_false_2 by done.
    apply elem_of_app. right. left. }
  split; [done|]. intros ls c' Hsteps Hcancel Hdone.
  assert (Hadd : Consolidator.Settled (Consolidator.add c (id, items))).
  { apply (step_settled processor c (Consolidator.Add (id, items))); [constructor|done|done]. }
  assert (Hheld : Consolidator.holds c' id = false).
  { apply holds_false. destruct (steps_returned processor _ _ _ Hsteps) as [-> _]; [|done|].
    - unfold Consolidator.Returned. simpl. unfold Consolidator.add. rewrite Hopen. simpl.
      congruence.
    - apply not_elem_of_nil. }
  assert (Hboth : Consolidator.Settled (Consolidator.close (Consolidator.add c (id, items)))).
  { apply (step_settled processor (Consolidator.add c (id, items)) Consolidator.Close);
      [constructor|done|done]. }
  rewrite (steps_consume processor _ _ _ id items Hsteps Hboth Hcancel (or_introl eq_refl)
             Hin Hheld).
  simpl. unfold Consolidator.add. by rewrite Hopen.
- intros c1 Hs Hr. split.
  + intros [c2 Hstep]. by inversion Hstep.
  + intros [Hcl Hempty]. eexists. by apply Consolidator.step_return.
- by apply drain_closed.
Qed.

(** One source held from the start, a second one offered before and after
    [close]. *)
Lemma add_after_close_is_a_no_op_witness :
  Consolidator.add (Consolidator.close Scenario.oneSource) Scenario.lateSource
  = Consolidator.close Scenario.oneSource /\
  Scenario.lateSource
  ∈ Consolidator._asyncIterators (Consolidator.add Scenario.oneSource Scenario.lateSource) /\
  exists ls c',
    Consolidator.steps Some (Consolidator.close Scenario.oneSource) ls c' /\
    (Consolidator.Cancel ∉ ls) /\ Consolidator.returned c' = true.
Proof.
  destruct (add_after_close_is_a_no_op Some Scenario.oneSource Scenario.lateSource)
    as (_ & Hnoop & _ & Hopen & _ & Hends).
  - split; [|done]. vm_compute. apply NoDup_singleton.
  - reflexivity.
  - reflexivity.
  - split; [exact Hnoop|]. split; [|exact Hends]. by apply Hopen.
Defined.
(** ** The merge loop of the Executor, key by key *)

Section MergeLoop.
Import Executor.




End MergeLoop.





Section MergeTwice.
Import Executor.





End MergeTwice.





(** ** The Composer: slots, the heap along a run, and the walk *)



Section Slots.
Import Composer.

Lemma getMember_setMember o key v : getMember (setMember o key v) key = v.
Proof.
unfold getMember, setMember.
destruct key as [[s|i]|]; simpl; try by rewrite getProp_setProp_eq.
destruct (h_elems o) as [elems|] eqn:E; simpl; [|by rewrite getProp_setProp_eq].
destruct (bool_decide (i < length elems)) eqn:Hi.
- apply bool_decide_eq_true in Hi. by rewrite list_lookup_insert_eq.
- apply bool_decide_eq_false in Hi. rewrite lookup_app_r by lia.
  rewrite lookup_app_r by (rewrite length_replicate; lia).
  rewrite length_replicate. by replace (i - length elems - (i - length elems)) with 0 by lia.
Qed.

Lemma readSlot_writeSlot h parent key v :
parent < length h -> readSlot (writeSlot h parent key v) parent key = v.
Proof.
intros Hlt. unfold readSlot, writeSlot.
destruct (lookup_lt_is_Some_2 _ _ Hlt) as [o Ho]. rewrite Ho.
rewrite list_lookup_insert_eq by done. apply getMember_setMember.
Qed.
End Slots.

(** X5. A follow-up result without data leaves [null] in the slot of its
    parent that the path ends in (whether or not something was there), adds
    its errors and starts nothing; every later result for that parent and
    path is then dropped but for its errors: nothing is written and nothing
    is started. *)
Theorem null_result_silences_its_slot
    (ss : SuperSchema)
    (executor : Subschema -> DocumentNode -> option ObjMap -> PromiseOrValue ExecutionResult)
    (rawVariableValues : option ObjMap)
    (c : Composer.Composer) (parent target : Composer.loc)
    (stitch : option Composer.Stitch) (result : ExecutionResult)
    (path : Composer.Path) (key : Composer.PathKey) :
  last path = Some key ->
  parent < length (Composer.heap c) ->
  data result = None ->
  exists c1,
    Composer._handleResult ss executor rawVariableValues c (Some parent) target stitch
      result path = Ok (c1, []) /\
    Composer.composerErrors c1 = Composer.composerErrors c ++ Composer.resultErrors result /\
    Composer.readSlot (Composer.heap c1) parent (Some key) = Composer.JNull /\
    forall target' stitch' result',
      Composer._handleResult ss executor rawVariableValues c1 (Some parent) target' stitch'
        result' path
      = Ok (Composer.mkComposer (Composer.heap c1) (Composer.fields c1)
              (Composer.composerErrors c1 ++ Composer.resultErrors result')
              (Composer.nulled c1), []).
Proof.
  intros Hlast Hparent Hdata.
  assert (Hlater : forall c1,
            Composer.readSlot (Composer.heap c1) parent (Some key) = Composer.JNull ->
            forall target' stitch' result',
              Composer._handleResult ss executor rawVariableValues c1 (Some parent) target'
                stitch' result' path
              = Ok (Composer.mkComposer (Composer.heap c1) (Composer.fields c1)
                      (Composer.composerErrors c1 ++ Composer.resultErrors result')
                      (Composer.nulled c1), [])).
  { intros c1 Hnull target' stitch' result'. unfold Composer._handleResult. simpl.
    rewrite Hlast, Hnull. by rewrite bool_decide_eq_true_2. }
  destruct (bool_decide (Composer.readSlot (Composer.heap c) parent (Some key)
                         = Composer.JNull)) eqn:Hslot.
  - exists (Composer.mkComposer (Composer.heap c) (Composer.fields c)
              (Composer.composerErrors c ++ Composer.resultErrors result)
              (Composer.nulled c)).
    split; [unfold Composer._handleResult; simpl; by rewrite Hlast, Hslot|].
    apply bool_decide_eq_true in Hslot.
    split; [done|]. split; [done|]. by apply Hlater.
  - exists (Composer.mkComposer
              (Composer.writeSlot (Composer.heap c) parent (Some key) Composer.JNull)
              (Composer.fields c)
              (Composer.composerErrors c ++ Composer.resultErrors result)
              (Composer.nulled c)).
    split; [unfold Composer._handleResult; simpl; by rewrite Hlast, Hslot, Hdata|].
    split; [done|].
    assert (Hnull : Composer.readSlot
                      (Composer.writeSlot (Composer.heap c) parent (Some key) Composer.JNull)
                      parent (Some key) = Composer.JNull)
      by by apply readSlot_writeSlot.
    split; [exact Hnull|]. by apply Hlater.
Qed.

Lemma null_result_silences_its_slot_witness :
  exists c1,
    Composer._handleResult Scenario.superSchema Scenario.emailExecutor None
      Scenario.afterUser (Some 2) 1 None (mkResult None None) [Composer.KeyStr "user"]
    = Ok (c1, []) /\
    Composer.readSlot (Composer.heap c1) 2 (Some (Composer.KeyStr "user")) = Composer.JNull /\
    Composer._handleResult Scenario.superSchema Scenario.emailExecutor None
      c1 (Some 2) 1 None (mkResult (Some [("email", VStr "y")]) None)
      [Composer.KeyStr "user"]
    = Ok (Composer.mkComposer (Composer.heap c1) (Composer.fields c1)
            (Composer.composerErrors c1 ++ []) (Composer.nulled c1), []).
Proof.
  destruct (null_result_silences_its_slot Scenario.superSchema Scenario.emailExecutor None
              Scenario.afterUser 2 1 None (mkResult None None) [Composer.KeyStr "user"]
              (Composer.KeyStr "user"))
    as (c1 & Hhandled & _ & Hnull & Hlater).
  - reflexivity.
  - vm_compute. lia.
  - reflexivity.
  - exists c1. split; [exact Hhandled|]. split; [exact Hnull|].
    apply (Hlater 1 None (mkResult (Some [("email", VStr "y")]) None)).
Defined.

Section HeapGrows.
Import Composer.
Context (ss : SuperSchema).
Context (executor : Subschema -> DocumentNode -> option ObjMap ->
                    PromiseOrValue ExecutionResult).
Context (rawVariableValues : option ObjMap).

Lemma KeepsEntries_refl o : KeepsEntries o o.
Proof. split; [done|]. destruct (h_elems o) as [elems|]; [by exists elems|done]. Qed.

Lemma KeepsEntries_trans o1 o2 o3 :
KeepsEntries o1 o2 -> KeepsEntries o2 o3 -> KeepsEntries o1 o3.
Proof.
intros [Hk12 He12] [Hk23 He23]. split; [auto|].
destruct (h_elems o1) as [e1|].
- destruct He12 as (e2 & He2 & Hl12). rewrite He2 in He23.
  destruct He23 as (e3 & He3 & Hl23). exists e3. split; [done|lia].
- by rewrite He12 in He23.
Qed.

Lemma Extends_refl h : Extends h h.
Proof. intros l o Ho. exists o. split; [done|apply KeepsEntries_refl]. Qed.

Lemma Extends_trans h1 h2 h3 : Extends h1 h2 -> Extends h2 h3 -> Extends h1 h3.
Proof.
intros H12 H23 l o1 Ho1. destruct (H12 _ _ Ho1) as (o2 & Ho2 & Hk12).
destruct (H23 _ _ Ho2) as (o3 & Ho3 & Hk23). exists o3. split; [done|].
by eapply KeepsEntries_trans.
Qed.

Lemma Extends_app h ext : Extends h (h ++ ext).
Proof.
intros l o Ho. exists o. split; [|apply KeepsEntries_refl].
rewrite lookup_app_l; [done|]. by eapply lookup_lt_Some.
Qed.

Lemma Extends_insert h l o o' :
h !! l = Some o -> KeepsEntries o o' -> Extends h (<[l := o']> h).
Proof.
intros Ho Hkeeps l0 o0 Ho0. destruct (decide (l0 = l)) as [->|Hne].
- exists o'. rewrite list_lookup_insert_eq by (by eapply lookup_lt_Some).
  split; [done|]. congruence.
- exists o0. rewrite list_lookup_insert_ne by done. split; [done|apply KeepsEntries_refl].
Qed.

Lemma keys_setProp_keeps {A} k (v : A) o key : key ∈ keys o -> key ∈ keys (setProp k v o).
Proof.
intros Hin. rewrite keys_setProp. destruct (getProp k o); [done|].
apply elem_of_app. by left.
Qed.

Lemma keys_assignAll_keeps fields entries key :
key ∈ keys fields -> key ∈ keys (assignAll fields entries).
Proof.
revert fields. induction entries as [|[k v] rest IH]; intros fields Hin; simpl; [done|].
apply IH. by apply keys_setProp_keeps.
Qed.

Lemma KeepsEntries_setMember o key v : KeepsEntries o (setMember o key v).
Proof.
unfold setMember.
assert (Hprops : KeepsEntries o (mkHObj (h_elems o) (setProp (keyString key) v (h_props o)))).
{ split; simpl; [intros k; apply keys_setProp_keeps|].
  destruct (h_elems o) as [elems|]; [by exists elems|done]. }
destruct key as [[s|i]|]; try exact Hprops.
destruct (h_elems o) as [elems|] eqn:E; [|by rewrite <- E in Hprops |- *].
split; simpl; [done|]. rewrite E. eexists. split; [done|].
destruct (bool_decide (i < length elems)).
- by rewrite length_insert.
- rewrite length_app. lia.
Qed.

Lemma Extends_writeSlot h parent key v : Extends h (writeSlot h parent key v).
Proof.
unfold writeSlot. destruct (h !! parent) as [o|] eqn:Ho; [|apply Extends_refl].
eapply Extends_insert; [done|apply KeepsEntries_setMember].
Qed.

Lemma Extends_assignInto h target entries : Extends h (assignInto h target entries).
Proof.
unfold assignInto. destruct (h !! target) as [o|] eqn:Ho; [|apply Extends_refl].
eapply Extends_insert; [done|]. split; simpl.
- intros k. apply keys_assignAll_keeps.
- destruct (h_elems o) as [elems|]; [by exists elems|done].
Qed.

Lemma handleResult_extends c parent target stitch result path c' new :
_handleResult ss executor rawVariableValues c parent target stitch result path
  = Ok (c', new) ->
Extends (heap c) (heap c').
Proof.
unfold _handleResult. simpl.
destruct (match parent with
          | Some p => bool_decide (readSlot (heap c) p (last path) = JNull)
          | None => nulled c
          end); [intros [= <- <-]; apply Extends_refl|].
destruct (data result) as [entries|].
- destruct (alloc (VObj None entries) (heap c)) as [lv h1] eqn:Ealloc.
  destruct (alloc_faithful _ _ _ _ Ealloc) as [[ext ->] _].
  assert (Hgrown : forall dataProps,
            Extends (heap c) (assignInto (heap c ++ ext) target dataProps)).
  { intros dataProps. eapply Extends_trans; [apply Extends_app|apply Extends_assignInto]. }
  destruct lv as [|b|n|s|dataLoc elems dataProps];
    try (intros [= <- <-]; apply Extends_refl).
  destruct stitch as [[from [trees|] initial]|]; try (intros [= <- <-]; apply Hgrown).
  destruct (_walkStitchTrees ss [] dataLoc dataProps trees path); [|done].
  intros [= <- <-]. apply Hgrown.
- destruct (last path); [destruct parent|]; intros [= <- <-]; simpl;
    try apply Extends_refl. apply Extends_writeSlot.
Qed.

Lemma step_extends m ev m' :
step ss executor rawVariableValues m ev m' ->
Extends (heap (composer m)) (heap (composer m')).
Proof.
intros Hstep.
destruct Hstep as [c t rest agg r c' new _ Hhandle|c t rest agg s _
                  |c agg1 t agg2 s c' new _ Hhandle]; simpl.
- by eapply handleResult_extends.
- apply Extends_refl.
- by eapply handleResult_extends.
Qed.

Lemma steps_extend m evs m' :
steps ss executor rawVariableValues m evs m' ->
Extends (heap (composer m)) (heap (composer m')).
Proof.
induction 1 as [m|m ev m1 evs m' Hstep _ IH]; [apply Extends_refl|].
eapply Extends_trans; [by eapply step_extends|exact IH].
Qed.
End HeapGrows.

(** X6. [compose()] never takes an entry away: along any run, and whatever
    the subschemas answer, an object of the response keeps every key it has
    (its value may be replaced, by [null] too), and a list stays a list of
    at least the same length.  What a subschema was asked for the sake of
    stitching, [__stitching__typename], is therefore still in the response
    at the end. *)
Theorem compose_never_removes_an_entry
    (ss : SuperSchema)
    (executor : Subschema -> DocumentNode -> option ObjMap -> PromiseOrValue ExecutionResult)
    (rawVariableValues : option ObjMap)
    (m m' : Composer.Machine) (evs : list Composer.Event)
    (l : Composer.loc) (o : Composer.HObj) :
  Composer.steps ss executor rawVariableValues m evs m' ->
  Composer.heap (Composer.composer m) !! l = Some o ->
  exists o',
    Composer.heap (Composer.composer m') !! l = Some o' /\
    (forall key, key ∈ keys (Composer.h_props o) -> key ∈ keys (Composer.h_props o')) /\
    match Composer.h_elems o with
    | Some elems =>
        exists elems', Composer.h_elems o' = Some elems' /\ length elems <= length elems'
    | None => Composer.h_elems o' = None
    end.
Proof. intros Hsteps Ho. exact (steps_extend _ _ _ _ _ _ Hsteps l o Ho). Qed.

Lemma compose_never_removes_an_entry_witness :
  exists o',
    Composer.heap (Composer.composer ComposerCases.settledMachine) !! 1 = Some o' /\
    "__stitching__typename" ∈ keys (Composer.h_props o').
Proof.
  destruct (compose_never_removes_an_entry Scenario.superSchema Scenario.emailExecutor None
              ComposerCases.pendingMachine ComposerCases.settledMachine
              ComposerCases.pendingEvents 1
              (Composer.mkHObj None
                 [("name", Composer.JStr "x");
                  ("__stitching__typename", Composer.JStr "User")]))
    as (o' & Hlookup & Hkeys & _).
  - apply (run_steps Scenario.superSchema Scenario.emailExecutor None 8).
    vm_compute. reflexivity.
  - reflexivity.
  - exists o'. split; [exact Hlookup|]. apply Hkeys. right. left.
Defined.

Section Walk.
Import Composer.





End Walk.





Section Lists.
Import Composer.

Lemma collectSubFetches_object_enqueues ss m parent l props tree path m'
  typeNameValue type fieldPlan subschema subschemaPlan :
_collectSubFetches ss m parent (LObj l None props) tree path = Ok m' ->
getProp "__stitching__typename" props = Some typeNameValue ->
getType ss (toPropertyKey typeNameValue) = Some type ->
mapGet type (fieldPlans tree) = Some fieldPlan ->
(subschema, subschemaPlan) ∈ subschemaPlans fieldPlan ->
(subschema,
 mkFetchPlan (fieldNodes subschemaPlan) (planStitchTrees subschemaPlan) parent l path)
∈ fetches m'.
Proof.
intros Hcollect Hentry Htype Hplan Hin. simpl in Hcollect.
rewrite Hentry, Htype in Hcollect.
destruct (isObjectType (Some type)); [|by destruct typeNameValue].
rewrite Hplan in Hcollect.
assert (Hwalk : walkStitchTreesWith (_collectSubFetches ss) l props path
                  (stitchTrees fieldPlan)
                  (addSubschemaPlans m (subschemaPlans fieldPlan) parent l path) = Ok m')
  by by destruct typeNameValue.
refine (proj1 (walk_collects _ _ _ _ _ _ _ _ Hwalk) _ _).
- apply Forall_forall. intros kv _. apply collectSubFetches_collects.
- apply fetches_addSubschemaPlans. right. by exists subschema, subschemaPlan.
Qed.

Lemma collectSubFetches_elements ss l tree path elems :
forall start m m',
  (fix each (es : list LVal) (i : nat) (m : AccumulatorMap) : Result AccumulatorMap :=
     match es with
     | [] => Ok m
     | e :: rest =>
         do m' <- _collectSubFetches ss m l e tree (path ++ [KeyIdx i]);
         each rest (S i) m'
     end) elems start m = Ok m' ->
  (forall p, p ∈ fetches m -> p ∈ fetches m') /\
  forall i e, elems !! i = Some e ->
    exists m1 m2,
      _collectSubFetches ss m1 l e tree (path ++ [KeyIdx (start + i)]) = Ok m2 /\
      forall p, p ∈ fetches m2 -> p ∈ fetches m'.
Proof.
induction elems as [|e0 elems IH]; intros start m m' Heach.
- injection Heach as <-. split; [done|]. intros i e Hi. by rewrite lookup_nil in Hi.
- destruct (_collectSubFetches ss m l e0 tree (path ++ [KeyIdx start])) as [m1|] eqn:E0;
    [|done].
  destruct (IH _ _ _ Heach) as [Hmono Hrest].
  pose proof (proj1 (collectSubFetches_collects ss e0 _ _ _ _ _ E0)) as Hmono0.
  split; [auto|]. intros [|i] e Hi.
  + injection Hi as <-. exists m, m1. rewrite Nat.add_0_r. by split.
  + destruct (Hrest i e Hi) as (ma & mb & Hcollect & Hinto).
    exists ma, mb. by replace (start + S i) with (S start + i) by lia.
Qed.
End Lists.

(** X9. For a list under a stitch key the follow-up fetches are collected
    element by element: when the collection succeeds, every element that is
    an object has, for each subschema plan of the field plan of its type, a
    fetch whose target is the element, whose parent is the list itself, and
    whose path ends in the element's index. *)
Theorem list_elements_are_fetched_by_index
    (ss : SuperSchema) (m m' : Composer.AccumulatorMap) (parent l : Composer.loc)
    (elems : list Composer.LVal) (props : list (string * Composer.LVal))
    (tree : Composer.StitchTree) (path : Composer.Path) :
  Composer._collectSubFetches ss m parent (Composer.LObj l (Some elems) props) tree path
    = Ok m' ->
  forall i li pi typeNameValue type fieldPlan subschema subschemaPlan,
    elems !! i = Some (Composer.LObj li None pi) ->
    getProp "__stitching__typename" pi = Some typeNameValue ->
    getType ss (Composer.toPropertyKey typeNameValue) = Some type ->
    mapGet type (Composer.fieldPlans tree) = Some fieldPlan ->
    (subschema, subschemaPlan) ∈ Composer.subschemaPlans fieldPlan ->
    (subschema,
     Composer.mkFetchPlan (Composer.fieldNodes subschemaPlan)
       (Composer.planStitchTrees subschemaPlan) l li (path ++ [Composer.KeyIdx i]))
    ∈ Composer.fetches m'.
Proof.
  intros Hcollect i li pi typeNameValue type fieldPlan subschema subschemaPlan
    Hi Hentry Htype Hplan Hin.
  simpl in Hcollect.
  destruct (collectSubFetches_elements _ _ _ _ _ _ _ _ Hcollect) as [_ Helems].
  destruct (Helems i _ Hi) as (m1 & m2 & Hone & Hinto).
  apply Hinto.
  exact (collectSubFetches_object_enqueues _ _ _ _ _ _ _ _ _ _ _ _ _
           Hone Hentry Htype Hplan Hin).
Qed.

Lemma list_elements_are_fetched_by_index_witness :
  (Scenario.subschemaB,
   Composer.mkFetchPlan [Scenario.leafNode "email"] None 2 1
     [Composer.KeyStr "users"; Composer.KeyIdx 1])
  ∈ Composer.fetches ComposerCases.listFetches.
Proof.
  apply (list_elements_are_fetched_by_index Scenario.superSchema [] ComposerCases.listFetches
           3 2 [Composer.LObj 0 None ComposerCases.userProps;
                Composer.LObj 1 None ComposerCases.userProps] []
           Scenario.userTree [Composer.KeyStr "users"] eq_refl
           1 1 ComposerCases.userProps (Composer.LStr "User") Scenario.tUser
           (Composer.mkFieldPlan
              [(Scenario.subschemaB,
                Composer.mkSubschemaPlan [Scenario.leafNode "email"] None)] [])
           Scenario.subschemaB (Composer.mkSubschemaPlan [Scenario.leafNode "email"] None)).
  - reflexivity.
  - reflexivity.
  - reflexivity.
  - reflexivity.
  - left.
Defined.

(** ** The Planner: collected fields, unknown fields, routing, leaf selections *)

Section Collecting.
Import Planner.

Lemma collectSelection_extends ss runtimeType selection :
forall acc acc',
  collectSelection ss runtimeType selection acc = Ok acc' ->
  exists new, acc' = acc ++ new /\
    forall other, collectSelection ss runtimeType selection other = Ok (other ++ new).
Proof.
induction selection as [a n args dirs|a n args dirs sels IH|tc dirs sels IH|n dirs]
  using SelectionNode_nested_ind; intros acc acc' Hcollect.
- injection Hcollect as <-. by eexists.
- injection Hcollect as <-. by eexists.
- simpl in Hcollect |- *.
  destruct (negb (_doesFragmentConditionMatch ss tc runtimeType)).
  { injection Hcollect as <-. exists []. split; [by rewrite app_nil_r|].
    intros other. by rewrite app_nil_r. }
  revert acc Hcollect. induction sels as [|s sels IHsels]; intros acc Hcollect.
  + injection Hcollect as <-. exists []. split; [by rewrite app_nil_r|].
    intros other. by rewrite app_nil_r.
  + apply Forall_cons in IH as [IHs IH].
    destruct (collectSelection ss runtimeType s acc) as [acc1|e] eqn:E; [|done].
    destruct (IHs _ _ E) as (new1 & -> & Hany1).
    destruct (IHsels IH _ Hcollect) as (new2 & -> & Hany2).
    exists (new1 ++ new2). split; [by rewrite app_assoc|].
    intros other. rewrite Hany1. rewrite Hany2. by rewrite app_assoc.
- done.
Qed.

Lemma collectSubFieldsImpl_extends ss runtimeType selections :
forall acc acc',
  _collectSubFieldsImpl ss runtimeType selections acc = Ok acc' ->
  exists new, acc' = acc ++ new /\
    forall other, _collectSubFieldsImpl ss runtimeType selections other = Ok (other ++ new).
Proof.
induction selections as [|s sels IH]; intros acc acc' Hcollect; simpl in *.
- injection Hcollect as <-. exists []. split; [by rewrite app_nil_r|].
  intros other. by rewrite app_nil_r.
- destruct (collectSelection ss runtimeType s acc) as [acc1|e] eqn:E; [|done].
  destruct (collectSelection_extends _ _ _ _ _ E) as (new1 & -> & Hany1).
  destruct (IH _ _ Hcollect) as (new2 & -> & Hany2).
  exists (new1 ++ new2). split; [by rewrite app_assoc|].
  intros other. rewrite Hany1. simpl. rewrite Hany2. by rewrite app_assoc.
Qed.

Lemma collectSubFieldsImpl_app ss runtimeType selections selections' acc :
_collectSubFieldsImpl ss runtimeType (selections ++ selections') acc
= match _collectSubFieldsImpl ss runtimeType selections acc with
  | Ok acc' => _collectSubFieldsImpl ss runtimeType selections' acc'
  | Throw e => Throw e
  end.
Proof.
revert acc. induction selections as [|s sels IH]; intros acc; simpl; [done|].
destruct (collectSelection ss runtimeType s acc); [apply IH|done].
Qed.

Lemma collectSubFieldsImpl_fields ss runtimeType fieldNodes acc :
_collectSubFieldsImpl ss runtimeType (map fieldSelection fieldNodes) acc
= Ok (acc ++ fieldNodes).
Proof.
revert acc. induction fieldNodes as [|[a n args dirs sel] fs IH]; intros acc; simpl.
- by rewrite app_nil_r.
- rewrite IH. unfold appendToArray. by rewrite <- app_assoc.
Qed.
End Collecting.

(** X10. [_collectSubFields] goes through the selections in document order
    and only ever appends: the fields of two selection lists one after the
    other are the fields of the first followed by the fields of the second,
    a list of plain fields is collected as it is, and an inline fragment
    without a type condition contributes what its selections contribute. *)
Theorem collectSubFields_keeps_document_order
    (ss : SuperSchema) (runtimeType : GraphQLType) :
  (forall selections selections' fieldNodes fieldNodes',
     Planner._collectSubFields ss runtimeType selections = Ok fieldNodes ->
     Planner._collectSubFields ss runtimeType selections' = Ok fieldNodes' ->
     Planner._collectSubFields ss runtimeType (selections ++ selections')
     = Ok (fieldNodes ++ fieldNodes')) /\
  (forall fieldNodes,
     Planner._collectSubFields ss runtimeType (map fieldSelection fieldNodes)
     = Ok fieldNodes) /\
  (forall directives selections,
     Planner._collectSubFields ss runtimeType [InlineFragmentSel None directives selections]
     = Planner._collectSubFields ss runtimeType selections).
Proof.
  split; [|split].
  - intros sels sels' fs fs' Hfirst Hsecond. unfold Planner._collectSubFields in *.
    rewrite collectSubFieldsImpl_app, Hfirst.
    destruct (collectSubFieldsImpl_extends _ _ _ _ _ Hsecond) as (new & Hnew & Hany).
    simpl in Hnew. subst new. apply Hany.
  - intros fs. unfold Planner._collectSubFields.
    by rewrite collectSubFieldsImpl_fields.
  - intros dirs sels. unfold Planner._collectSubFields. simpl.
    generalize (@emptyArray FieldNode). induction sels as [|s sels IH]; intros acc; [done|].
    simpl. destruct (Planner.collectSelection ss runtimeType s acc); [apply IH|done].
Qed.

(** [{ name }] followed by [{ email }], collected for [User]. *)
Lemma collectSubFields_keeps_document_order_witness :
  Planner._collectSubFields Scenario.superSchema Scenario.tUser
    ([Scenario.leaf "name"] ++ [Scenario.leaf "email"])
  = Ok ([Scenario.leafNode "name"] ++ [Scenario.leafNode "email"]).
Proof.
  apply (proj1 (collectSubFields_keeps_document_order Scenario.superSchema Scenario.tUser));
    reflexivity.
Defined.

Section UnknownFields.
Import Planner.

Lemma addFields_unknown fuel ss byField parentType fromSubschema fieldNodes :
getProp (type_name parentType) (subschemaSetsByTypeAndField ss) = Some byField ->
forall fieldPlan,
  addFieldsWith (_addFieldToFieldPlan (S fuel) ss) fieldPlan fromSubschema parentType fieldNodes
  = addFieldsWith (_addFieldToFieldPlan (S fuel) ss) fieldPlan fromSubschema parentType
      (filter (fun f => is_Some (getProp (name f) byField)) fieldNodes).
Proof.
intros Htype. induction fieldNodes as [|f fs IH]; intros fieldPlan; [done|].
rewrite filter_cons. destruct (decide (is_Some (getProp (name f) byField))) as [Hknown|Hunknown].
- simpl. destruct (addFieldToFieldPlanWith _ _ _ _ _ _); [apply IH|done].
- simpl. unfold addFieldToFieldPlanWith at 1. rewrite Htype.
  destruct (getProp (name f) byField) eqn:E; [exfalso; apply Hunknown; by eexists|].
  simpl. apply IH.
Qed.
End UnknownFields.

(** X11. The planner passes over a field the super-schema has no subschema
    for: when the parent type is known, the field plan (and the
    supplemental field plan) of a list of fields is the one of the list
    without such fields, and no error is raised for them. *)
Theorem planner_ignores_unknown_fields
    (fuel : nat) (ss : SuperSchema) (parentType : GraphQLType)
    (byField : list (string * SubschemaSet)) (fieldNodes : list FieldNode) :
  getProp (type_name parentType) (subschemaSetsByTypeAndField ss) = Some byField ->
  let known := filter (fun f => is_Some (getProp (name f) byField)) fieldNodes in
  Planner._createFieldPlanImpl (S fuel) ss parentType fieldNodes
  = Planner._createFieldPlanImpl (S fuel) ss parentType known /\
  forall fromSubschema,
    Planner._createSupplementalFieldPlanImpl (S fuel) ss parentType fieldNodes
      fromSubschema
    = Planner._createSupplementalFieldPlanImpl (S fuel) ss parentType known
        fromSubschema.
Proof.
  intros Htype known. split.
  - unfold Planner._createFieldPlanImpl, Planner.createFieldPlanWith.
    by rewrite (addFields_unknown fuel ss byField).
  - intros fromSubschema.
    unfold Planner._createSupplementalFieldPlanImpl,
      Planner.createSupplementalFieldPlanWith.
    by rewrite (addFields_unknown fuel ss byField).
Qed.

Lemma planner_ignores_unknown_fields_witness :
  Planner._createFieldPlanImpl 2 Scenario.superSchema Scenario.tQuery
    [Scenario.leafNode "nope"; PlannerCases.userField; Scenario.leafNode "missing"]
  = Planner._createFieldPlanImpl 2 Scenario.superSchema Scenario.tQuery [PlannerCases.userField].
Proof.
  exact (proj1 (planner_ignores_unknown_fields 1 Scenario.superSchema Scenario.tQuery _
                  [Scenario.leafNode "nope"; PlannerCases.userField; Scenario.leafNode "missing"]
                  eq_refl)).
Defined.

Section Routing.
Import Planner.
Context (ss : SuperSchema).

Lemma elem_of_setProp {A} k (v : A) o kv : kv ∈ setProp k v o -> kv = (k, v) \/ kv ∈ o.
Proof.
induction o as [|[k0 v0] o IH]; simpl.
- intros ->%list_elem_of_singleton. by left.
- destruct (String.eqb_spec k0 k) as [->|Hne].
  + intros [->|Hin]%elem_of_cons; [by left|right; by right].
  + intros [->|Hin]%elem_of_cons; [right; left|].
    destruct (IH Hin) as [?|?]; [by left|right; by right].
Qed.

Lemma elem_of_mapSet {K V} `{EqDecision K} (k : K) (v : V) m kv :
kv ∈ mapSet k v m -> kv = (k, v) \/ kv ∈ m.
Proof.
induction m as [|[k0 v0] m IH]; simpl.
- intros ->%list_elem_of_singleton. by left.
- destruct (decide (k0 = k)) as [->|Hne].
  + intros [->|Hin]%elem_of_cons; [by left|right; by right].
  + intros [->|Hin]%elem_of_cons; [right; left|].
    destruct (IH Hin) as [?|?]; [by left|right; by right].
Qed.

Lemma setHas_member subschemas subschema :
setHas subschemas subschema = true <-> subschema ∈ members subschemas.
Proof. unfold setHas. apply bool_decide_eq_true. Qed.

Lemma Routed_empty parentType : Routed ss parentType emptyMutableFieldPlan.
Proof. split; intros *; by intros ?%elem_of_nil. Qed.

Lemma Routed_snapshot parentType fieldPlan :
Routed ss parentType fieldPlan -> WellRouted ss parentType (snapshot fieldPlan).
Proof.
intros [Hplans Hstitches]. constructor; [|exact Hstitches].
intros plan (kv & -> & Hin)%list_elem_of_fmap. destruct kv as [subschema plan]. simpl.
destruct (Hplans _ _ Hin) as (<- & Hfields & Hnested). by split.
Qed.

Lemma Routed_mapSet parentType plans stitches subschema plan :
Routed ss parentType (mkMutableFieldPlan plans stitches) ->
PlanOk ss parentType subschema plan ->
Routed ss parentType (mkMutableFieldPlan (mapSet subschema plan plans) stitches).
Proof.
intros [Hplans Hstitches] Hplan. split; [|exact Hstitches]. simpl.
intros s p [[= -> ->]|Hin]%elem_of_mapSet; [exact Hplan|by apply Hplans].
Qed.

Lemma Routed_setStitch parentType plans stitches key stitchPlan :
Routed ss parentType (mkMutableFieldPlan plans stitches) ->
GoodStitch ss stitchPlan ->
Routed ss parentType (mkMutableFieldPlan plans (setProp key stitchPlan stitches)).
Proof.
intros [Hplans Hstitches] Hgood. split; [exact Hplans|]. simpl.
intros k sp type nested [[= -> ->]|Hin]%elem_of_setProp; [apply Hgood|by eapply Hstitches].
Qed.

Lemma PlanOk_new parentType subschema fromSubschema :
PlanOk ss parentType subschema (newSubschemaPlan subschema fromSubschema).
Proof. split; [done|]. split; intros *; by intros ?%elem_of_nil. Qed.

Lemma PlanOk_append parentType subschema plan field :
PlanOk ss parentType subschema plan -> Resolves ss parentType subschema (name field) ->
PlanOk ss parentType subschema (appendFieldNode plan field).
Proof.
intros (Hto & Hfields & Hnested) Hfield. destruct plan as [to from fns sts]. simpl in *.
split; [done|]. split; [|exact Hnested]. simpl. unfold appendToArray.
intros f [Hin| ->%list_elem_of_singleton]%elem_of_app; [by apply Hfields|done].
Qed.

Lemma PlanOk_setStitch parentType subschema plan key stitchPlan :
PlanOk ss parentType subschema plan -> GoodStitch ss stitchPlan ->
PlanOk ss parentType subschema (setStitchPlan plan key stitchPlan).
Proof.
intros (Hto & Hfields & Hnested) Hgood. destruct plan as [to from fns sts]. simpl in *.
split; [done|]. split; [exact Hfields|]. simpl.
intros k sp type nested [[= -> ->]|Hin]%elem_of_setProp; [apply Hgood|by eapply Hnested].
Qed.

Lemma getSubschemaAndPlan_ok parentType fieldName byField subschemas fieldPlan fromSubschema
  subschema plan plans' :
getProp (type_name parentType) (subschemaSetsByTypeAndField ss) = Some byField ->
getProp fieldName byField = Some subschemas ->
Routed ss parentType fieldPlan ->
_getSubschemaAndPlan subschemas (m_subschemaPlans fieldPlan) fromSubschema
  = (subschema, plan, plans') ->
Resolves ss parentType subschema fieldName /\
PlanOk ss parentType subschema plan /\
Routed ss parentType (mkMutableFieldPlan plans' (m_stitchPlans fieldPlan)).
Proof.
intros Htype Hfield Hrouted. unfold _getSubschemaAndPlan.
pose proof (firstWithPlan_spec (members subschemas) (m_subschemaPlans fieldPlan)) as Hfirst.
destruct (firstWithPlan (members subschemas) (m_subschemaPlans fieldPlan))
  as [[s sp]|].
- destruct Hfirst as (before & after & Hmembers & Hget & _). intros [= <- <- <-].
  split; [|split].
  + exists byField, subschemas. split; [done|]. split; [done|].
    apply setHas_member. rewrite Hmembers. apply elem_of_app. right. left.
  + by apply (proj1 Hrouted), mapGet_elem_of.
  + by destruct fieldPlan.
- intros [= <- <- <-]. split; [|split].
  + exists byField, subschemas. split; [done|]. split; [done|].
    apply setHas_member. left.
  + apply PlanOk_new.
  + destruct fieldPlan as [plans stitches]. apply Routed_mapSet; [done|apply PlanOk_new].
Qed.

Lemma getSubschema_resolves parentType fieldName byField subschemas plans :
getProp (type_name parentType) (subschemaSetsByTypeAndField ss) = Some byField ->
getProp fieldName byField = Some subschemas ->
Resolves ss parentType (_getSubschema subschemas plans) fieldName.
Proof.
intros Htype Hfield. exists byField, subschemas. split; [done|]. split; [done|].
apply setHas_member. apply getSubschema_member.
Qed.

Lemma getSubschemaPlan_ok parentType fieldPlan subschema fromSubschema plan plans' :
Routed ss parentType fieldPlan ->
_getSubschemaPlan subschema (m_subschemaPlans fieldPlan) fromSubschema = (plan, plans') ->
PlanOk ss parentType subschema plan /\
Routed ss parentType (mkMutableFieldPlan plans' (m_stitchPlans fieldPlan)).
Proof.
intros Hrouted. unfold _getSubschemaPlan.
destruct (mapGet subschema (m_subschemaPlans fieldPlan)) as [sp|] eqn:Hget.
- intros [= <- <-]. split; [by apply (proj1 Hrouted), mapGet_elem_of|by destruct fieldPlan].
- intros [= <- <-]. split; [apply PlanOk_new|].
  destruct fieldPlan as [plans stitches]. apply Routed_mapSet; [done|apply PlanOk_new].
Qed.

Section Body.
Context (rec : MutableFieldPlan -> option Subschema -> GraphQLType -> FieldNode ->
               Result MutableFieldPlan).
Hypothesis rec_routed :
  forall fieldPlan fromSubschema parentType field fieldPlan',
    rec fieldPlan fromSubschema parentType field = Ok fieldPlan' ->
    Routed ss parentType fieldPlan -> Routed ss parentType fieldPlan'.

Lemma addFieldsWith_routed parentType fromSubschema fieldNodes :
forall fieldPlan fieldPlan',
  addFieldsWith rec fieldPlan fromSubschema parentType fieldNodes = Ok fieldPlan' ->
  Routed ss parentType fieldPlan -> Routed ss parentType fieldPlan'.
Proof.
induction fieldNodes as [|f fs IH]; intros fieldPlan fieldPlan' Hadd Hrouted; simpl in Hadd.
- by injection Hadd as <-.
- destruct (rec fieldPlan fromSubschema parentType f) as [fieldPlan1|] eqn:E; [|done].
  eapply IH; [exact Hadd|]. by eapply rec_routed.
Qed.

Lemma createSupplementalFieldPlanWith_routed parentType fieldNodes fromSubschema fieldPlan :
createSupplementalFieldPlanWith rec parentType fieldNodes fromSubschema = Ok fieldPlan ->
WellRouted ss parentType fieldPlan.
Proof.
unfold createSupplementalFieldPlanWith.
destruct (addFieldsWith rec emptyMutableFieldPlan (Some fromSubschema) parentType fieldNodes)
  as [m|] eqn:E; [|done].
intros [= <-]. apply Routed_snapshot. eapply addFieldsWith_routed; [exact E|].
apply Routed_empty.
Qed.

Lemma createFieldPlanWith_routed parentType fieldNodes fieldPlan :
createFieldPlanWith rec parentType fieldNodes = Ok fieldPlan ->
WellRouted ss parentType fieldPlan.
Proof.
unfold createFieldPlanWith.
destruct (addFieldsWith rec emptyMutableFieldPlan None parentType fieldNodes)
  as [m|] eqn:E; [|done].
intros [= <-]. apply Routed_snapshot. eapply addFieldsWith_routed; [exact E|].
apply Routed_empty.
Qed.

Lemma stitchPlanLoop_good possibleTypes otherSelections subschema :
forall acc stitchPlan,
  stitchPlanLoop ss rec possibleTypes otherSelections subschema acc = Ok stitchPlan ->
  GoodStitch ss acc -> GoodStitch ss stitchPlan.
Proof.
induction possibleTypes as [|t rest IH]; intros acc stitchPlan Hloop Hacc; simpl in Hloop.
- by injection Hloop as <-.
- destruct (_collectSubFields ss t otherSelections) as [fns|]; [|done].
  destruct (createSupplementalFieldPlanWith rec t fns subschema) as [fp|] eqn:Efp; [|done].
  eapply IH; [exact Hloop|].
  destruct (isNonEmptyPlan fp); [|done].
  intros type nested [[= -> ->]|Hin]%elem_of_mapSet; [|by apply Hacc].
  by eapply createSupplementalFieldPlanWith_routed.
Qed.

Lemma addFieldToFieldPlanWith_routed fieldPlan fromSubschema parentType field fieldPlan' :
addFieldToFieldPlanWith ss rec fieldPlan fromSubschema parentType field = Ok fieldPlan' ->
Routed ss parentType fieldPlan -> Routed ss parentType fieldPlan'.
Proof.
intros Hadd Hrouted. unfold addFieldToFieldPlanWith in Hadd.
destruct (getProp (type_name parentType) (subschemaSetsByTypeAndField ss))
  as [byField|] eqn:Htype; [|done].
destruct (getProp (name field) byField) as [subschemas|] eqn:Hfield;
  [|by injection Hadd as <-].
destruct (selectionSet field) as [sels|] eqn:Esels.
- destruct (getFieldDef ss parentType (name field)) as [fieldDef|];
    [|by injection Hadd as <-].
  destruct (_createSelectionSplit _ _ _ _ _) as [split|]; [|done].
  simpl in Hadd.
  destruct (createStitchPlanWith ss rec _ _ _) as [stitchPlan|] eqn:Estitch; [|done].
  simpl in Hadd.
  assert (Hgood : GoodStitch ss stitchPlan).
  { eapply stitchPlanLoop_good; [exact Estitch|]. intros type nested Hin. by apply elem_of_nil in Hin. }
  pose proof (getSubschema_resolves parentType (name field) byField subschemas
                (m_subschemaPlans fieldPlan) Htype Hfield) as Hres.
  set (subschema := _getSubschema subschemas (m_subschemaPlans fieldPlan)) in *.
  destruct (negb (isEmpty (ownSelections split))).
  + destruct (_getSubschemaPlan subschema (m_subschemaPlans fieldPlan) fromSubschema)
      as [plan plans'] eqn:Eplan.
    destruct (getSubschemaPlan_ok _ _ _ _ _ _ Hrouted Eplan) as [Hplan Hrouted'].
    assert (Hplan' : PlanOk ss parentType subschema
                       (appendFieldNode plan (withSelectionSet field (ownSelections split))))
      by by apply PlanOk_append.
    destruct (negb (isEmpty stitchPlan)).
    * destruct (bool_decide (Some subschema = fromSubschema)); injection Hadd as <-.
      -- apply Routed_setStitch; [|done]. by apply Routed_mapSet.
      -- apply Routed_mapSet; [done|]. by apply PlanOk_setStitch.
    * injection Hadd as <-. by apply Routed_mapSet.
  + destruct (negb (isEmpty stitchPlan)); [|by injection Hadd as <-].
    destruct (bool_decide (Some subschema = fromSubschema)).
    * injection Hadd as <-. destruct fieldPlan as [plans stitches].
      by apply Routed_setStitch.
    * destruct (_getSubschemaAndPlan subschemas (m_subschemaPlans fieldPlan) fromSubschema)
        as [[subschema' plan] plans'] eqn:Eplan.
      destruct (getSubschemaAndPlan_ok _ _ _ _ _ _ _ _ _ Htype Hfield Hrouted Eplan)
        as (_ & Hplan & Hrouted').
      injection Hadd as <-. apply Routed_mapSet; [done|]. by apply PlanOk_setStitch.
- destruct (_getSubschemaAndPlan subschemas (m_subschemaPlans fieldPlan) fromSubschema)
    as [[subschema plan] plans'] eqn:Eplan.
  destruct (getSubschemaAndPlan_ok _ _ _ _ _ _ _ _ _ Htype Hfield Hrouted Eplan)
    as (Hres & Hplan & Hrouted').
  injection Hadd as <-. apply Routed_mapSet; [done|]. by apply PlanOk_append.
Qed.
End Body.

Lemma addFieldToFieldPlan_routed fuel :
forall fieldPlan fromSubschema parentType field fieldPlan',
  _addFieldToFieldPlan fuel ss fieldPlan fromSubschema parentType field = Ok fieldPlan' ->
  Routed ss parentType fieldPlan -> Routed ss parentType fieldPlan'.
Proof.
induction fuel as [|fuel IH]; intros fieldPlan from parentType field fieldPlan'; [done|].
simpl. by apply addFieldToFieldPlanWith_routed.
Qed.
End Routing.

(** X12. Every field a field plan sends to a subschema can be resolved there:
    in the plan [_createFieldPlan] (or [_createSupplementalFieldPlan])
    returns, each field node of each subschema plan names a field whose
    subschema set, for the plan's parent type, contains the plan's
    [toSubschema]; the same holds in every nested field plan of every stitch
    plan, for the possible type it is filed under. *)
Theorem field_plan_routes_fields_to_resolving_subschemas
    (fuel : nat) (ss : SuperSchema) (parentType : GraphQLType)
    (fieldNodes : list FieldNode) (fromSubschema : option Subschema)
    (fieldPlan : Planner.FieldPlan) :
  match fromSubschema with
  | None => Planner._createFieldPlanImpl fuel ss parentType fieldNodes
  | Some subschema =>
      Planner._createSupplementalFieldPlanImpl fuel ss parentType fieldNodes subschema
  end = Ok fieldPlan ->
  WellRouted ss parentType fieldPlan.
Proof.
  destruct fromSubschema as [subschema|]; intros Hplan.
  - eapply createSupplementalFieldPlanWith_routed; [|exact Hplan].
    apply addFieldToFieldPlan_routed.
  - eapply createFieldPlanWith_routed; [|exact Hplan].
    apply addFieldToFieldPlan_routed.
Qed.

Lemma field_plan_routes_fields_to_resolving_subschemas_witness :
  WellRouted Scenario.superSchema Scenario.tQuery PlannerCases.userPlan.
Proof.
  apply (field_plan_routes_fields_to_resolving_subschemas 2 Scenario.superSchema
           Scenario.tQuery [PlannerCases.userField] None).
  reflexivity.
Defined.

Section Partition.
Import Planner.
Context (ss : SuperSchema) (subschema : Subschema) (fromSubschema : option Subschema).

Lemma processSelections_cons acc parentType selection rest :
_processSelectionsForSelectionSplit ss subschema fromSubschema acc parentType
  (selection :: rest)
= do acc' <- splitSelection ss subschema fromSubschema acc parentType selection;
  _processSelectionsForSelectionSplit ss subschema fromSubschema acc' parentType rest.
Proof. reflexivity. Qed.

Lemma processSelections_leaves parentType byField leaves :
getProp (type_name parentType) (subschemaSetsByTypeAndField ss) = Some byField ->
(forall f, f ∈ leaves -> selectionSet f = None) ->
forall acc,
  _processSelectionsForSelectionSplit ss subschema fromSubschema acc parentType
    (map fieldSelection leaves)
  = Ok (mkSplit
          (ownSelections acc ++
           map fieldSelection (filter (fun f => ownedBy byField subschema f = true) leaves))
          (otherSelections acc ++
           map fieldSelection (filter (fun f => ownedElsewhere byField subschema f = true) leaves))).
Proof.
intros Htype. induction leaves as [|f fs IH]; intros Hleaves acc.
- simpl. rewrite !app_nil_r. by destruct acc.
- assert (Hf : selectionSet f = None) by (apply Hleaves; left).
  assert (Hsplit :
    splitSelection ss subschema fromSubschema acc parentType (fieldSelection f)
    = match getProp (name f) byField with
      | None => Ok acc
      | Some subschemaSet =>
          if setHas subschemaSet subschema
          then Ok (mkSplit (ownSelections acc ++ [fieldSelection f]) (otherSelections acc))
          else Ok (mkSplit (ownSelections acc) (otherSelections acc ++ [fieldSelection f]))
      end).
  { destruct f as [a n args dirs sel]. simpl in Hf. subst sel. simpl.
    unfold addFieldToSelectionSplitWith. rewrite Htype. simpl.
    destruct (getProp n byField); [|done]. done. }
  rewrite fmap_cons, processSelections_cons, !filter_cons.
  rewrite Hsplit. clear Hsplit.
  destruct (ownedBy byField subschema f) eqn:Ho;
    destruct (ownedElsewhere byField subschema f) eqn:He;
    unfold ownedBy in Ho; unfold ownedElsewhere in He;
    destruct (getProp (name f) byField) as [subschemaSet|]; try done;
    try (destruct (setHas subschemaSet subschema); try done);
    simpl; rewrite IH by (intros g Hg; apply Hleaves; by right); simpl;
    by rewrite <- ?app_assoc.
Qed.
End Partition.

(** X13. A selection set of leaf fields is partitioned in order: the fields
    the subschema can resolve are its own selections, the fields only other
    subschemas can resolve are the other selections, and fields no subschema
    knows are dropped.  At the top level ([fromSubschema] undefined) the
    [__stitching__typename] field is added after the own selections exactly
    when there is something left for other subschemas. *)
Theorem leaf_selections_are_partitioned
    (ss : SuperSchema) (parentType : GraphQLType) (byField : list (string * SubschemaSet))
    (subschema : Subschema) (fromSubschema : option Subschema)
    (leaves : list FieldNode) :
  getProp (type_name parentType) (subschemaSetsByTypeAndField ss) = Some byField ->
  (forall f, f ∈ leaves -> selectionSet f = None) ->
  let own := filter (fun f => ownedBy byField subschema f = true) leaves in
  let other := filter (fun f => ownedElsewhere byField subschema f = true) leaves in
  Planner._createSelectionSplit ss parentType (map fieldSelection leaves)
    subschema fromSubschema
  = Ok (Planner.mkSplit
          (map fieldSelection own ++
           if bool_decide (fromSubschema = None) && negb (isEmpty other)
           then [Planner.stitchingTypenameField] else [])
          (map fieldSelection other)).
Proof.
  intros Htype Hleaves own other.
  unfold Planner._createSelectionSplit, Planner.createSelectionSplitWith.
  rewrite (processSelections_leaves ss subschema fromSubschema parentType byField leaves
             Htype Hleaves).
  simpl. fold own other.
  assert (Hempty : isEmpty (map fieldSelection other) = isEmpty other) by by destruct other.
  rewrite Hempty.
  destruct (bool_decide (fromSubschema = None) && negb (isEmpty other)); simpl.
  - done.
  - by rewrite app_nil_r.
Qed.

Lemma leaf_selections_are_partitioned_witness :
  Planner._createSelectionSplit Scenario.superSchema Scenario.tUser
    (map fieldSelection
       [Scenario.leafNode "email"; Scenario.leafNode "name"; Scenario.leafNode "nope";
        Scenario.leafNode "id"])
    Scenario.subschemaA None
  = Ok (Planner.mkSplit
          [Scenario.leaf "name"; Scenario.leaf "id"; Planner.stitchingTypenameField]
          [Scenario.leaf "email"]).
Proof.
  refine (leaf_selections_are_partitioned Scenario.superSchema Scenario.tUser _
            Scenario.subschemaA None
            [Scenario.leafNode "email"; Scenario.leafNode "name"; Scenario.leafNode "nope";
             Scenario.leafNode "id"] eq_refl _).
  intros f Hf. repeat (apply elem_of_cons in Hf as [->|Hf]; [reflexivity|]).
  by apply elem_of_nil in Hf.
Defined.

(** ** buildExecutionContext: the operation chosen and the fragments *)



Section Scan.
Import Context ContextView.

Lemma scan_fragments operationName defs :
forall found fragments outcome,
  scanDefinitions operationName defs found fragments = inr outcome ->
  outcome.2 = fragments ++ fragmentDefinitions (mkDocument defs).
Proof.
unfold fragmentDefinitions. simpl.
induction defs as [|d defs IH]; intros found fragments outcome; simpl.
- intros [= <-]. by rewrite app_nil_r.
- destruct d as [op|fragment|printed]; simpl.
  + destruct operationName as [wanted|].
    * destruct (bool_decide (op_name op = Some wanted)); apply IH.
    * destruct found; [done|apply IH].
  + intros H. rewrite (IH _ _ _ H). by rewrite <- app_assoc.
  + apply IH.
Qed.

Lemma scan_named wanted defs :
forall found fragments,
  exists fragments',
    scanDefinitions (Some wanted) defs found fragments
    = inr (fold_left (fun acc op => if bool_decide (op_name op = Some wanted)
                                    then Some op else acc)
             (operationsOf defs) found, fragments').
Proof.
induction defs as [|d defs IH]; intros found fragments; simpl.
- by eexists.
- destruct d as [op|fragment|printed]; simpl; [|apply IH..].
  destruct (bool_decide (op_name op = Some wanted)); apply IH.
Qed.

Lemma fold_last_named wanted before operation after found :
op_name operation = Some wanted ->
(forall op, op ∈ after -> op_name op <> Some wanted) ->
fold_left (fun acc op => if bool_decide (op_name op = Some wanted) then Some op else acc)
  (before ++ operation :: after) found = Some operation.
Proof.
intros Hname Hafter. rewrite fold_left_app. simpl.
rewrite bool_decide_eq_true_2 by done.
induction after as [|op after IH]; [done|]. simpl.
rewrite bool_decide_eq_false_2 by (apply Hafter; left).
apply IH. intros op' Hin. apply Hafter. by right.
Qed.

Lemma scan_anonymous defs operation :
operationsOf defs = [operation] ->
forall fragments,
  exists fragments',
    scanDefinitions None defs None fragments = inr (Some operation, fragments').
Proof.
induction defs as [|d defs IH]; intros Hops fragments; [done|].
destruct d as [op|fragment|printed]; simpl in *; [|by apply IH..].
injection Hops as -> Hrest.
clear IH. revert fragments. induction defs as [|d defs IH]; intros fragments; simpl.
- by eexists.
- destruct d as [op'|fragment|printed]; simpl in *; [done|by apply IH..].
Qed.

Lemma scan_selects operationName document operation fragments :
Selects operationName document operation ->
exists fragments',
  scanDefinitions operationName (definitions document) None fragments
  = inr (Some operation, fragments').
Proof.
unfold Selects, operationDefinitions. destruct operationName as [wanted|].
- intros (before & after & Hops & Hname & Hafter).
  destruct (scan_named wanted (definitions document) None fragments) as [fragments' ->].
  exists fragments'. by rewrite Hops, (fold_last_named wanted before operation after).
- intros Hops. by apply scan_anonymous.
Qed.

Lemma fragmentMap_lookup {A} (key : A -> string) (f : A -> A) (fragments : list A) name :
forall acc,
  getProp name
    (fold_left (fun acc pair => setProp (key (fst pair)) (snd pair) acc)
       (zip fragments (map f fragments)) acc)
  = match last (filter (fun fragment => key fragment = name) fragments) with
    | Some fragment => Some (f fragment)
    | None => getProp name acc
    end.
Proof.
induction fragments as [|fragment fragments IH]; intros acc; [done|].
simpl. rewrite IH, filter_cons.
destruct (decide (key fragment = name)) as [->|Hne].
- destruct (filter _ fragments) as [|g gs] eqn:E.
  + simpl. apply getProp_setProp_eq.
  + change (last (fragment :: g :: gs)) with (last (g :: gs)).
    destruct (last (g :: gs)) eqn:El; [done|]. by apply last_None in El.
- destruct (last (filter _ fragments)); [done|].
  by apply getProp_setProp_ne.
Qed.
End Scan.

(** X14. When the operation asked for is in the document (the only operation
    when no name is given; with a name, the last operation of that name),
    [buildExecutionContext] coerces the variables of that operation, with
    [{}] for missing raw values and at most 50 errors, and returns the
    coercion errors if there are any; otherwise it returns a context with
    that operation after [applySkipIncludeDirectives], its variable
    definitions ([[]] when it has none), the raw values as given and the
    coerced ones. *)
Theorem buildExecutionContext_selects_the_operation
    (assertValidSchema : Subschema -> Result unit)
    (newSuperSchema : list Subschema -> Result SuperSchema)
    (getVariableValues :
       SuperSchema -> list VariableDefinitionNode -> ObjMap -> nat ->
       list GraphQLError + ObjMap)
    (skipIncludeOperation : OperationDefinitionNode -> ObjMap -> OperationDefinitionNode)
    (skipIncludeFragment : FragmentDefinitionNode -> ObjMap -> FragmentDefinitionNode)
    (args : Context.ExecutionArgs) (superSchema : SuperSchema)
    (operation : OperationDefinitionNode) :
  Context.assertAll assertValidSchema (Context.subschemas args) = Ok tt ->
  newSuperSchema (Context.subschemas args) = Ok superSchema ->
  ContextView.Selects (Context.operationName args) (Context.document args) operation ->
  let outcome :=
    Context.buildExecutionContext assertValidSchema newSuperSchema getVariableValues
      skipIncludeOperation skipIncludeFragment args in
  let variableDefinitions :=
    match variableDefinitions operation with Some defs => defs | None => [] end in
  match getVariableValues superSchema variableDefinitions
          (match Context.variableValues args with Some raw => raw | None => [] end) 50 with
  | inl errors => outcome = Ok (inl errors)
  | inr coerced =>
      exists context,
        outcome = Ok (inr context) /\
        Context.superSchema (Context.operationContext context) = superSchema /\
        Context.oc_operation (Context.operationContext context)
        = skipIncludeOperation operation coerced /\
        Context.oc_variableDefinitions (Context.operationContext context)
        = variableDefinitions /\
        Context.rawVariableValues context = Context.variableValues args /\
        Context.coercedVariableValues context = coerced
  end.
Proof.
  intros Hvalid Hschema Hselects outcome variableDefinitions.
  subst outcome. unfold Context.buildExecutionContext. rewrite Hvalid, Hschema. simpl.
  destruct (scan_selects _ _ _ [] Hselects) as [fragments ->].
  fold variableDefinitions.
  destruct (getVariableValues superSchema variableDefinitions _ 50) as [errors|coerced];
    [done|].
  eexists. split; [reflexivity|]. done.
Qed.

Lemma buildExecutionContext_selects_the_operation_witness :
  Context.buildExecutionContext ContextCases.acceptAll ContextCases.oneSuperSchema
    ContextCases.noVariables ContextCases.keepOperation ContextCases.keepFragment
    ContextCases.crowdedArgs
  = Ok (inr ContextCases.crowdedContext).
Proof.
  destruct (buildExecutionContext_selects_the_operation ContextCases.acceptAll
              ContextCases.oneSuperSchema ContextCases.noVariables
              ContextCases.keepOperation ContextCases.keepFragment
              ContextCases.crowdedArgs Scenario.superSchema
              (ContextCases.namedQuery "GetUser" [Scenario.leaf "c"]))
    as (context & Houtcome & _).
  - reflexivity.
  - reflexivity.
  - exists [ContextCases.namedQuery "GetUser" [Scenario.leaf "a"];
            ContextCases.namedQuery "Other" [Scenario.leaf "b"]], [].
    split; [reflexivity|]. split; [reflexivity|].
    intros op Hin. by apply elem_of_nil in Hin.
  - reflexivity.
Defined.

(** X15. In the context [buildExecutionContext] returns, the fragments are
    the fragment definitions of the document, in document order, each after
    [applySkipIncludeDirectives]; definitions that are neither operations
    nor fragments leave no trace.  The fragment map gives, for a name, the
    last fragment of that name (processed), and nothing for a name no
    fragment has. *)
Theorem buildExecutionContext_keeps_fragments_in_order
    (assertValidSchema : Subschema -> Result unit)
    (newSuperSchema : list Subschema -> Result SuperSchema)
    (getVariableValues :
       SuperSchema -> list VariableDefinitionNode -> ObjMap -> nat ->
       list GraphQLError + ObjMap)
    (skipIncludeOperation : OperationDefinitionNode -> ObjMap -> OperationDefinitionNode)
    (skipIncludeFragment : FragmentDefinitionNode -> ObjMap -> FragmentDefinitionNode)
    (args : Context.ExecutionArgs) (context : Context.ExecutionContext) :
  Context.buildExecutionContext assertValidSchema newSuperSchema getVariableValues
    skipIncludeOperation skipIncludeFragment args = Ok (inr context) ->
  let processed fragment :=
    skipIncludeFragment fragment (Context.coercedVariableValues context) in
  let fragments := ContextView.fragmentDefinitions (Context.document args) in
  Context.oc_fragments (Context.operationContext context) = map processed fragments /\
  forall name,
    getProp name (Context.fragmentMap (Context.operationContext context))
    = option_map processed (last (filter (fun fragment => frag_name fragment = name) fragments)).
Proof.
  intros Hbuild processed fragments. unfold Context.buildExecutionContext in Hbuild.
  destruct (Context.assertAll assertValidSchema (Context.subschemas args)); [|done].
  destruct (newSuperSchema (Context.subschemas args)) as [superSchema|]; [|done].
  simpl in Hbuild.
  destruct (Context.scanDefinitions _ _ None []) as [errors|[found scanned]] eqn:Escan;
    [done|].
  pose proof (scan_fragments _ _ _ _ _ Escan) as Hscanned. simpl in Hscanned.
  destruct (Context.document args) as [defs]. simpl in *.
  destruct found as [operation|]; [|by destruct (Context.operationName args)].
  destruct (getVariableValues _ _ _ 50) as [errors|coerced]; [done|].
  injection Hbuild as <-. simpl in *. subst processed fragments scanned. simpl.
  split; [done|]. intros name.
  rewrite (fragmentMap_lookup frag_name (fun fragment => skipIncludeFragment fragment coerced)).
  by destruct (last _).
Qed.

Lemma buildExecutionContext_keeps_fragments_in_order_witness :
  getProp "Parts"
    (Context.fragmentMap (Context.operationContext ContextCases.crowdedContext))
  = Some (mkFragment "Parts" "User" [] [Scenario.leaf "email"]).
Proof.
  exact (proj2 (buildExecutionContext_keeps_fragments_in_order ContextCases.acceptAll
                  ContextCases.oneSuperSchema ContextCases.noVariables
                  ContextCases.keepOperation ContextCases.keepFragment
                  ContextCases.crowdedArgs ContextCases.crowdedContext eq_refl) "Parts").
Defined.

(** ** The Consolidator: after a stop, and the order of a source *)



Section ConsolidatorOrder.
Import Consolidator.
Context {T U : Type} (processor : T -> option U).

Local Abbreviation Cons := (@Consolidator.Consolidator T U).
Local Abbreviation step := (@Consolidator.step T U processor).
Local Abbreviation steps := (@Consolidator.steps T U processor).



Lemma step_nodup (c : Cons) l c' :
step c l c' -> NoDup (map fst (_asyncIterators c)) -> NoDup (map fst (_asyncIterators c')).
Proof.
intros Hstep Hnd. destruct Hstep as [c Hs|c i v rest Hs Hst Hin|c i Hs Hst Hin|c i Hs Hst Hin
                  |c Hs Hsig|c Hs Hempty Hcl Hret|c Hs|c value|c]; simpl; try done.
- by rewrite ids_advance.
- by apply NoDup_ids_remove.
- by apply NoDup_ids_remove.
- constructor.
- unfold add. destruct (_closed c); [done|]. simpl.
  unfold setAdd. destruct (bool_decide (fst value ∈ map fst (_asyncIterators c))) eqn:E;
    [done|]. apply bool_decide_eq_false in E.
  rewrite map_app. apply NoDup_app. split; [done|]. split; [|apply NoDup_singleton].
  intros x Hx Hx'. simpl in Hx'. apply list_elem_of_singleton in Hx' as ->. done.
Qed.

Lemma steps_in_order (c : Cons) ls c' id :
steps c ls c' ->
forall items,
  NoDup (map fst (_asyncIterators c)) ->
  (id, items) ∈ _asyncIterators c ->
  (forall value, Add value ∈ ls -> fst value <> id) ->
  exists consumed rest,
    items = consumed ++ rest /\
    fromSource id (pushed c') = fromSource id (pushed c) ++ processedAll processor consumed /\
    (holds c' id = true -> (id, rest) ∈ _asyncIterators c').
Proof.
induction 1 as [c|c l c1 ls c' Hstep Hsteps IH]; intros items Hnd Hin Hnoadd.
{ exists [], items. split; [done|]. split; [|done]. unfold processedAll. simpl.
  by rewrite app_nil_r. }
pose proof (step_nodup _ _ _ Hstep Hnd) as Hnd1.
assert (Hnoadd' : forall value, Add value ∈ ls -> fst value <> id)
  by (intros value ?; apply Hnoadd; by right).
specialize (fun items => IH items Hnd1).
assert (Hgone : holds c1 id = false -> pushed c1 = pushed c ->
          exists consumed rest,
            items = consumed ++ rest /\
            fromSource id (pushed c') = fromSource id (pushed c)
                                        ++ processedAll processor consumed /\
            (holds c' id = true -> (id, rest) ∈ _asyncIterators c')).
{ intros Hout Hsame.
  destruct (steps_keep_out processor _ _ _ id Hsteps Hout) as [Hout' Hsame'];
    [by right|].
  exists [], items. split; [done|]. split.
  - rewrite Hsame', Hsame. unfold processedAll. simpl. by rewrite app_nil_r.
  - by rewrite Hout'. }
destruct Hstep as [c Hs|c i v rest Hs Hst Hiv|c i Hs Hst Hiv|c i Hs Hst Hiv
                  |c Hs Hsig|c Hs Hempty Hcl Hret|c Hs|c value|c]; simpl in *.
- by apply IH.
- destruct (decide (i = id)) as [->|Hne].
  + rewrite (unique_items _ _ _ _ Hnd Hin Hiv).
    destruct (IH rest (advance_same _ _ _ _ Hiv) Hnoadd')
      as (consumed & rest' & -> & Hpushed & Hheld).
    exists (v :: consumed), rest'. split; [done|]. split; [|done].
    rewrite Hpushed, fromSource_push, bool_decide_eq_true_2 by done.
    rewrite <- app_assoc. f_equal. unfold processedAll. simpl.
    by destruct (processor v).
  + destruct (IH items (advance_other _ _ _ _ _ Hne Hin) Hnoadd')
      as (consumed & rest' & -> & Hpushed & Hheld).
    exists consumed, rest'. split; [done|]. split; [|done].
    rewrite Hpushed, fromSource_push, bool_decide_eq_false_2 by done.
    by rewrite app_nil_r.
- destruct (decide (i = id)) as [->|Hne].
  + apply Hgone; [|done]. apply holds_false. simpl. rewrite ids_remove. tauto.
  + apply IH; [|done]. apply elem_of_remove. split; [done|]. simpl. congruence.
- destruct (decide (i = id)) as [->|Hne].
  + apply Hgone; [|done]. apply holds_false. simpl. rewrite ids_remove. tauto.
  + apply IH; [|done]. apply elem_of_remove. split; [done|]. simpl. congruence.
- by apply IH.
- rewrite Hempty in Hin. by apply elem_of_nil in Hin.
- by apply IH.
- assert (Hp : pushed (add c value) = pushed c)
    by (unfold add; by destruct (_closed c)).
  rewrite <- Hp. apply IH; [|done]. unfold add. destruct (_closed c); [done|]. simpl.
  by apply setAdd_keeps.
- by apply (IH items).
Qed.
End ConsolidatorOrder.



(** X17. Along any run, whatever the interleaving with other sources, the
    values pushed on behalf of a held source are the processed items of a
    prefix of what the source yields, in its order, without the items the
    processor maps to [undefined]; while the source is held, what it has
    left to yield is the rest.  (No other sequence is added under the
    identity of the source during the run.) *)
Theorem source_items_are_pushed_in_order {T U : Type} (processor : T -> option U)
    (c c' : Consolidator.Consolidator (T:=T) (U:=U)) (ls : list Consolidator.Label)
    (id : nat) (items : list T) :
  Consolidator.steps processor c ls c' ->
  NoDup (map fst (Consolidator._asyncIterators c)) ->
  (id, items) ∈ Consolidator._asyncIterators c ->
  (forall value, Consolidator.Add value ∈ ls -> fst value <> id) ->
  exists consumed rest,
    items = consumed ++ rest /\
    Consolidator.fromSource id (Consolidator.pushed c')
    = Consolidator.fromSource id (Consolidator.pushed c)
      ++ Consolidator.processedAll processor consumed /\
    (Consolidator.holds c' id = true ->
     (id, rest) ∈ Consolidator._asyncIterators c').
Proof.
  intros Hsteps Hnd Hin Hnoadd. by apply (steps_in_order processor c ls c').
Qed.

Lemma source_items_are_pushed_in_order_witness :
  exists consumed rest,
    [1; 2] = consumed ++ rest /\
    Consolidator.fromSource 0 (Consolidator.pushed ConsolidatorCases.afterFirstItem)
    = Consolidator.fromSource 0 (Consolidator.pushed Scenario.oneSource)
      ++ Consolidator.processedAll Some consumed /\
    (Consolidator.holds ConsolidatorCases.afterFirstItem 0 = true ->
     (0, rest) ∈ Consolidator._asyncIterators ConsolidatorCases.afterFirstItem).
Proof.
  apply (source_items_are_pushed_in_order Some Scenario.oneSource
           ConsolidatorCases.afterFirstItem
           [Consolidator.Start; Consolidator.Next 0] 0 [1; 2]).
  - eapply Consolidator.steps_cons;
      [apply (Consolidator.step_start Some Scenario.oneSource); reflexivity|].
    eapply Consolidator.steps_cons; [|apply Consolidator.steps_refl].
    exact (Consolidator.step_next Some
             (Consolidator.mkConsolidator [(0, [1; 2])] true false false false [] false)
             0 1 [2] eq_refl eq_refl (list_elem_of_here _ _)).
  - vm_compute. apply NoDup_singleton.
  - left.
  - intros value Hin. repeat (apply elem_of_cons in Hin as [Heq|Hin]; [discriminate|]).
    by apply elem_of_nil in Hin.
Defined.

(** ** Merging the initial results *)





Section Merge.
Import Execute.

Lemma mergeStep_errors st result :
ms_errors (mergeStep st result)
= ms_errors st ++ match errors result with Some es => es | None => [] end.
Proof.
unfold mergeStep. destruct (errors result); simpl;
  destruct (ms_nullData st); simpl; try destruct (data result); simpl;
  by rewrite ?app_nil_r.
Qed.

Lemma fold_errors results :
forall st,
  ms_errors (fold_left mergeStep results st) = ms_errors st ++ Execute.allErrors results.
Proof.
induction results as [|r rs IH]; intros st; simpl.
- unfold Execute.allErrors. simpl. by rewrite app_nil_r.
- rewrite IH, mergeStep_errors. unfold Execute.allErrors. simpl. by rewrite <- app_assoc.
Qed.

Lemma fold_nulled results :
forall st, ms_nullData st = true ->
  ms_nullData (fold_left mergeStep results st) = true /\
  ms_data (fold_left mergeStep results st) = ms_data st.
Proof.
induction results as [|r rs IH]; intros st Hnull; [done|]. simpl.
assert (Hstep : ms_nullData (mergeStep st r) = true /\ ms_data (mergeStep st r) = ms_data st)
  by (unfold mergeStep; by rewrite Hnull).
destruct Hstep as [Hn Hd]. destruct (IH _ Hn) as [Hn' Hd']. split; [done|congruence].
Qed.

Lemma fold_nullData results :
forall st, ms_nullData st = false ->
  ms_nullData (fold_left mergeStep results st) = true
  <-> exists result, result ∈ results /\ data result = None.
Proof.
induction results as [|r rs IH]; intros st Hlive; simpl.
- rewrite Hlive. split; [done|]. intros (r & Hin & _). by apply elem_of_nil in Hin.
- destruct (data r) as [entries|] eqn:Hdata.
  + rewrite IH by (unfold mergeStep; by rewrite Hlive, Hdata). split.
    * intros (x & Hin & Hx). exists x. split; [by right|done].
    * intros (x & [->|Hin]%elem_of_cons & Hx); [congruence|]. by exists x.
  + destruct (fold_nulled rs (mergeStep st r)) as [-> _].
    { unfold mergeStep. by rewrite Hlive, Hdata. }
    split; [|done]. intros _. exists r. split; [left|done].
Qed.

Lemma getProp_objectAssign target source key :
NoDup (keys source) ->
getProp key (objectAssign target source)
= match getProp key source with
  | Some v => Some v
  | None => getProp key target
  end.
Proof.
unfold objectAssign. revert target.
induction source as [|[k v] source IH]; intros target Hnd; [done|].
apply NoDup_cons in Hnd as [Hk Hnd]. simpl. rewrite IH by done.
destruct (String.eqb k key) eqn:E.
- apply String.eqb_eq in E as ->.
  rewrite (proj2 (getProp_None_keys key source)) by done.
  apply getProp_setProp_eq.
- destruct (getProp key source); [done|].
  apply getProp_setProp_ne. intros ->. by rewrite String.eqb_refl in E.
Qed.

Lemma fold_lookup results key :
Forall (fun result => exists entries, data result = Some entries /\ NoDup (keys entries))
  results ->
forall st, ms_nullData st = false ->
  getProp key (ms_data (fold_left mergeStep results st))
  = match last (omap (fun result => data result ≫= getProp key) results) with
    | Some v => Some v
    | None => getProp key (ms_data st)
    end.
Proof.
induction 1 as [|r rs (entries & Hdata & Hnd) _ IH]; intros st Hlive; [done|].
assert (Hlist : omap (fun result => data result ≫= getProp key) (r :: rs)
                = match getProp key entries with
                  | Some v => v :: omap (fun result => data result ≫= getProp key) rs
                  | None => omap (fun result => data result ≫= getProp key) rs
                  end).
{ simpl. by rewrite Hdata. }
rewrite Hlist. clear Hlist.
change (fold_left mergeStep (r :: rs) st) with (fold_left mergeStep rs (mergeStep st r)).
rewrite IH by (unfold mergeStep; by rewrite Hlive, Hdata).
assert (Hstep : ms_data (mergeStep st r) = objectAssign (ms_data st) entries)
  by (unfold mergeStep; by rewrite Hlive, Hdata).
rewrite Hstep, getProp_objectAssign by done.
generalize (omap (fun result => data result ≫= getProp key) rs). intros tail.
destruct (getProp key entries) as [v|] eqn:Hv; [|done].
destruct tail as [|w ws]; [done|].
change (last (v :: w :: ws)) with (last (w :: ws)).
destruct (last (w :: ws)) eqn:El; [done|]. by apply last_None in El.
Qed.
End Merge.

(** X18. [mergeInitialResults] returns the errors of all the results, in the
    order of the results and also of those that come after a result without
    data, and no [errors] entry when there is none; its [data] is [null]
    exactly when some result has no data; [hasNext] is there only when it is
    asked for. *)
Theorem mergeInitialResults_errors_and_null
    (results : list ExecutionResult) (hasNext : bool) :
  let response := Execute.mergeInitialResults results hasNext in
  Execute.r_errors response
  = (if bool_decide (Execute.allErrors results = []) then None else Some (Execute.allErrors results)) /\
  (Execute.r_data response = None <->
   exists result, result ∈ results /\ data result = None) /\
  Execute.r_hasNext response = (if hasNext then Some true else None).
Proof.
  intros response. subst response. unfold Execute.mergeInitialResults, Execute.respond.
  pose proof (fold_errors results (Execute.mkMergeState [] [] false)) as Herrors.
  pose proof (fold_nullData results (Execute.mkMergeState [] [] false) eq_refl) as Hnull.
  simpl in Herrors.
  destruct (fold_left Execute.mergeStep results _) as [d es n]. simpl in *. subst es.
  assert (Hlen : Nat.ltb 0 (length (Execute.allErrors results)) = negb (bool_decide (Execute.allErrors results = []))).
  { by destruct (Execute.allErrors results). }
  rewrite Hlen.
  rewrite <- Hnull.
  destruct hasNext; destruct (bool_decide (Execute.allErrors results = [])); simpl;
    (split; [done|]; split; [|done]); by destruct n.
Qed.

(** X19. When every result has data, the merged data holds, under each key,
    the value of the last result that has the key: a later result replaces
    what an earlier one gave for the same key as a whole, it is not merged
    into it. *)
Theorem mergeInitialResults_last_result_wins
    (results : list ExecutionResult) (hasNext : bool) :
  Forall (fun result => exists entries, data result = Some entries /\ NoDup (keys entries))
    results ->
  exists merged,
    Execute.r_data (Execute.mergeInitialResults results hasNext) = Some merged /\
    forall key,
      getProp key merged
      = last (omap (fun result => data result ≫= getProp key) results).
Proof.
  intros Hall. unfold Execute.mergeInitialResults, Execute.respond.
  pose proof (fold_nullData results (Execute.mkMergeState [] [] false) eq_refl) as Hnull.
  pose proof (fun key => fold_lookup results key Hall (Execute.mkMergeState [] [] false)
                eq_refl) as Hlookup.
  destruct (fold_left Execute.mergeStep results _) as [d es n]. simpl in *.
  assert (Hn : n = false).
  { destruct n; [|done]. destruct (proj1 Hnull eq_refl) as (r & Hin & Hr).
    rewrite Forall_forall in Hall. destruct (Hall r Hin) as (entries & Hdata & _).
    congruence. }
  subst n. exists d. split.
  - by destruct hasNext, (Nat.ltb 0 (length es)).
  - intros key. rewrite Hlookup. by destruct (last _).
Qed.

Lemma mergeInitialResults_last_result_wins_witness :
  exists merged,
    Execute.r_data (Execute.mergeInitialResults ExecuteCases.twoAnswers false)
    = Some merged /\
    getProp "user" merged = Some (VMap [("email", VStr "y")]).
Proof.
  destruct (mergeInitialResults_last_result_wins ExecuteCases.twoAnswers false)
    as (merged & Hdata & Hlookup).
  - repeat constructor; eexists; (split; [reflexivity|]);
      apply (bool_decide_unpack _); reflexivity.
  - exists merged. split; [exact Hdata|]. by rewrite Hlookup.
Defined.

Section Plan.
Import Execute.
Context {T : Type}.

Lemma handled_state (results : list (PartResult (S:=Consolidator.AsyncIterator (T:=T)))) :
forall this,
  _state (fold_left _handlePossibleMultiPartResult results this)
  = fold_left mergeStep (map initialOf results) (_state this).
Proof.
induction results as [|r rs IH]; intros this; [done|]. simpl. rewrite IH.
by destruct r.
Qed.

Lemma handled_consolidator
  (results : list (PartResult (S:=Consolidator.AsyncIterator (T:=T)))) :
forall this,
  match _consolidator this with
  | Some c => Consolidator._closed c = false /\ Consolidator._started c = false
  | None => True
  end ->
  match _consolidator (fold_left _handlePossibleMultiPartResult results this) with
  | Some c' =>
      Consolidator._closed c' = false /\ Consolidator._started c' = false /\
      (omap streamOf results <> [] \/ _consolidator this <> None) /\
      forall id,
        id ∈ map fst (Consolidator._asyncIterators c') <->
        id ∈ map fst (omap streamOf results) \/
        match _consolidator this with
        | Some c => id ∈ map fst (Consolidator._asyncIterators c)
        | None => False
        end
  | None => omap streamOf results = [] /\ _consolidator this = None
  end.
Proof.
induction results as [|r rs IH]; intros this Hopen.
- simpl. destruct (_consolidator this) as [c|]; [|done].
  destruct Hopen. split; [done|]. split; [done|]. split; [by right|].
  intros id. split; [by right|].
  intros [Hin|?]; [by apply elem_of_nil in Hin|done].
- simpl. destruct r as [r|initial stream].
  + specialize (IH (_handleSingleResult this r)). simpl in IH. by apply IH.
  + assert (Hstreams : forall id,
              id ∈ map fst (omap streamOf (MultiPart initial stream :: rs))
              <-> id = fst stream \/ id ∈ map fst (omap streamOf rs)).
    { intros id. change (omap streamOf (MultiPart initial stream :: rs))
        with (stream :: omap streamOf rs). simpl. apply elem_of_cons. }
    set (this1 := _handlePossibleMultiPartResult this (MultiPart initial stream)).
    specialize (IH this1). simpl in IH.
    destruct (_consolidator this) as [c|] eqn:Hc.
    * destruct Hopen as [Hcl Hst].
      assert (Hadd : Consolidator.add c stream
                     = Consolidator.mkConsolidator
                         (Consolidator.setAdd stream (Consolidator._asyncIterators c))
                         false (Consolidator._stopped c) false (Consolidator._signal c)
                         (Consolidator.pushed c) (Consolidator.returned c))
        by (unfold Consolidator.add; by rewrite Hcl, Hst).
      rewrite Hadd in IH. simpl in IH. specialize (IH (conj eq_refl eq_refl)).
      destruct (_consolidator (fold_left _ rs this1)) as [c'|]; [|by destruct IH].
      destruct IH as (Hcl' & Hst' & _ & Hids). split; [done|]. split; [done|].
      split; [by left|].
      intros id. rewrite Hids, ids_setAdd, Hstreams. tauto.
    * specialize (IH (conj eq_refl eq_refl)).
      destruct (_consolidator (fold_left _ rs this1)) as [c'|]; [|by destruct IH].
      destruct IH as (Hcl' & Hst' & _ & Hids). split; [done|]. split; [done|].
      split; [by left|].
      intros id. rewrite Hids, Hstreams.
      change (Consolidator._asyncIterators (Consolidator.newConsolidator [stream]))
        with [stream]. simpl. rewrite list_elem_of_singleton. tauto.
Qed.
End Plan.

Section Returned.
Import Execute.
Context {T : Type}.

Lemma planResult_returned
  (results : list (PartResult (S:=Consolidator.AsyncIterator (T:=T)))) :
match _return (fold_left _handlePossibleMultiPartResult results newPlanResult) with
| Plain response =>
    omap streamOf results = [] /\
    response = mergeInitialResults (map initialOf results) false
| Incremental initialResult subsequentResults =>
    omap streamOf results <> [] /\
    initialResult = mergeInitialResults (map initialOf results) true /\
    Consolidator._closed subsequentResults = true /\
    forall id, Consolidator.holds subsequentResults id = true
               <-> id ∈ map fst (omap streamOf results)
end.
Proof.
unfold _return.
pose proof (handled_state results newPlanResult) as Hstate.
pose proof (handled_consolidator results newPlanResult I) as Hcons.
simpl in Hstate, Hcons.
destruct (fold_left _handlePossibleMultiPartResult results newPlanResult)
  as [st [c|]]; simpl in *.
- destruct Hcons as (Hcl & Hst & Hsome & Hids). subst st.
  split; [by destruct Hsome|]. split; [done|]. split; [done|].
  intros id. unfold Consolidator.holds. simpl. rewrite bool_decide_eq_true, Hids. tauto.
- destruct Hcons as [Hnone _]. by subst st.
Qed.
End Returned.

(** X20. [PlanResult], which takes the results one at a time as they come in,
    returns what [mergeInitialResults] makes of the list of their initial
    results in that order: without [hasNext] when none of them is
    incremental, and otherwise with [hasNext: true] and with a consolidator
    that is closed and holds the stream of every incremental result. *)
Theorem planResult_returns_the_merged_results {T : Type}
    (results : list (Execute.PartResult (S:=Consolidator.AsyncIterator (T:=T)))) :
  let initialResults := map Execute.initialOf results in
  let streams := omap Execute.streamOf results in
  match Execute._return
          (fold_left Execute._handlePossibleMultiPartResult results Execute.newPlanResult)
  with
  | Execute.Plain response =>
      streams = [] /\ response = Execute.mergeInitialResults initialResults false
  | Execute.Incremental initialResult subsequentResults =>
      streams <> [] /\
      initialResult = Execute.mergeInitialResults initialResults true /\
      Consolidator._closed subsequentResults = true /\
      forall id, Consolidator.holds subsequentResults id = true <-> id ∈ map fst streams
  end.
Proof. intros initialResults streams. apply planResult_returned. Qed.

Lemma planResult_returns_the_merged_results_witness :
  exists consolidator,
    Execute._return
      (fold_left Execute._handlePossibleMultiPartResult ExecuteCases.twoParts
         Execute.newPlanResult)
    = Execute.Incremental
        (Execute.mkResponse (Some [("a", VNum 1); ("b", VNum 2)]) None (Some true))
        consolidator /\
    Consolidator._closed consolidator = true.
Proof.
  pose proof (planResult_returns_the_merged_results ExecuteCases.twoParts) as Hmerged.
  simpl in Hmerged. destruct Hmerged as (_ & Hinitial & Hclosed & _).
  eexists. split; [reflexivity|exact Hclosed].
Defined.

(** X21. The two ways of putting results together agree, except on a single
    result: for a list of results that is not a single one,
    [handlePossibleMultiPartResults] and a [PlanResult] that has handled the
    list give the same response, incremental in both or in neither, and the
    consolidator of the one holds the streams the other merges.  A single
    result is handed back untouched by the first and rebuilt by the second. *)
Theorem handlePossibleMultiPartResults_agrees_with_planResult {T : Type}
    (results : list (Execute.PartResult (S:=Consolidator.AsyncIterator (T:=T)))) :
  length results <> 1 ->
  match Execute.handlePossibleMultiPartResults results,
        Execute._return
          (fold_left Execute._handlePossibleMultiPartResult results Execute.newPlanResult)
  with
  | Execute.Merged response, Execute.Plain response' => response = response'
  | Execute.MergedMultiPart initialResult asyncIterators,
    Execute.Incremental initialResult' subsequentResults =>
      initialResult = initialResult' /\
      forall id, Consolidator.holds subsequentResults id = true
                 <-> id ∈ map fst asyncIterators
  | _, _ => False
  end.
Proof.
  intros Hlen. pose proof (planResult_returned results) as Hreturned.
  assert (Hhandle : Execute.handlePossibleMultiPartResults results
            = if Nat.eqb (length (omap Execute.streamOf results)) 0
              then Execute.Merged
                     (Execute.mergeInitialResults (map Execute.initialOf results) false)
              else Execute.MergedMultiPart
                     (Execute.mergeInitialResults (map Execute.initialOf results) true)
                     (omap Execute.streamOf results)).
  { destruct results as [|r [|r' rest]]; [done|done|done]. }
  rewrite Hhandle.
  destruct (Execute._return _) as [response|initialResult subsequentResults].
  - destruct Hreturned as [Hnone ->].
    assert (Hzero : Nat.eqb (length (omap Execute.streamOf results)) 0 = true)
      by by rewrite Hnone.
    by rewrite Hzero.
  - destruct Hreturned as (Hsome & -> & _ & Hids).
    destruct (Nat.eqb (length (omap Execute.streamOf results)) 0) eqn:Hnone.
    + apply Nat.eqb_eq in Hnone. by apply nil_length_inv in Hnone.
    + split; [reflexivity|exact Hids].
Qed.

Lemma handlePossibleMultiPartResults_agrees_with_planResult_witness :
  exists consolidator,
    Execute._return
      (fold_left Execute._handlePossibleMultiPartResult ExecuteCases.twoParts
         Execute.newPlanResult)
    = Execute.Incremental
        (Execute.mergeInitialResults (map Execute.initialOf ExecuteCases.twoParts) true)
        consolidator /\
    (Consolidator.holds consolidator 7 = true <-> 7 ∈ [7]).
Proof.
  pose proof (handlePossibleMultiPartResults_agrees_with_planResult ExecuteCases.twoParts)
    as Hagree.
  simpl in Hagree. destruct Hagree as [Hinitial Hids]; [lia|].
  eexists. split; [reflexivity|]. apply (Hids 7).
Defined.

(** ** The sub-plans along a path *)





Section SubPlansFacts.
Import SubPlans.


End SubPlansFacts.


(** ** What the subschema sets hold *)





Section SetsFacts.
Import SuperSchemaSets.

Lemma members_setAdd found subschema s :
s ∈ members (setAdd found subschema)
<-> s = subschema \/ exists set, found = Some set /\ s ∈ members set.
Proof.
unfold setAdd. destruct found as [set|].
- unfold setHas. destruct (bool_decide (subschema ∈ members set)) eqn:E.
  + apply bool_decide_eq_true in E. split.
    * intros Hin. right. by exists set.
    * intros [->|(set' & [= <-] & Hin)]; done.
  + unfold members. simpl. rewrite !elem_of_cons, elem_of_app, list_elem_of_singleton.
    split.
    * intros [->|[Hin| ->]]; [right; exists set; split; [done|left]| |by left].
      right. exists set. split; [done|]. by right.
    * intros [->|(set' & [= <-] & [->|Hin]%elem_of_cons)]; tauto.
- unfold members. simpl. rewrite list_elem_of_singleton. split; [by left|].
  by intros [->|(set & ? & _)].
Qed.

Lemma inFields_setProp byField key found subschema fieldName s :
found = getProp key byField ->
inFields (setProp key (setAdd found subschema) byField) fieldName s
<-> inFields byField fieldName s \/ (fieldName = key /\ s = subschema).
Proof.
intros ->. unfold inFields. destruct (decide (fieldName = key)) as [->|Hne].
- rewrite getProp_setProp_eq. split.
  + intros (set & [= <-] & Hin). apply members_setAdd in Hin as [->|(set & Hset & Hin)].
    * by right.
    * left. by exists set.
  + intros [(set & Hset & Hin)|[_ ->]].
    * eexists. split; [done|]. apply members_setAdd. right. by exists set.
    * eexists. split; [done|]. apply members_setAdd. by left.
- rewrite getProp_setProp_ne by done. split; [by left|]. by intros [?|[? _]].
Qed.

Lemma inFields_fold fieldNames subschema fieldName s :
forall byField,
  inFields
    (fold_left
       (fun byField fieldName =>
          setProp fieldName (setAdd (getProp fieldName byField) subschema) byField)
       fieldNames byField) fieldName s
  <-> inFields byField fieldName s \/ (fieldName ∈ fieldNames /\ s = subschema).
Proof.
induction fieldNames as [|f fs IH]; intros byField; simpl.
- rewrite elem_of_nil. tauto.
- rewrite IH, inFields_setProp by done. rewrite elem_of_cons. tauto.
Qed.

Lemma inSets_add sets subschema name type typeName fieldName s :
inSets (_addToSubschemaSets sets subschema name type) typeName fieldName s
<-> inSets sets typeName fieldName s \/
    (typeName = name /\ s = subschema /\
     (fieldName = "__typename" \/ (isUnionType type = false /\ fieldName ∈ st_fields type))).
Proof.
unfold _addToSubschemaSets.
set (byField0 := match getProp name sets with Some byField => byField | None => [] end).
assert (Hold : forall f x, inFields byField0 f x <-> inSets sets name f x).
{ intros f x. unfold inFields, inSets, byField0. destruct (getProp name sets) as [b|].
  - split.
    + intros (set & ? & ?). by exists b, set.
    + intros (b' & set & [= <-] & ? & ?). by exists set.
  - split; [by intros (set & ? & _)|by intros (b' & set & ? & _)]. }
unfold inSets at 1. destruct (decide (typeName = name)) as [->|Hne].
- rewrite getProp_setProp_eq.
  transitivity (inFields
    (if isUnionType type
     then setProp "__typename" (setAdd (getProp "__typename" byField0) subschema) byField0
     else fold_left
            (fun byField fieldName =>
               setProp fieldName (setAdd (getProp fieldName byField) subschema) byField)
            (st_fields type)
            (setProp "__typename" (setAdd (getProp "__typename" byField0) subschema)
               byField0)) fieldName s).
  { unfold inFields. split.
    - intros (b & set & [= <-] & ? & ?). by exists set.
    - intros (set & ? & ?). by eexists _, set. }
  destruct (isUnionType type).
  + rewrite inFields_setProp, Hold by done. split.
    * intros [?|[-> ->]]; [by left|]. right. split; [done|]. split; [done|]. by left.
    * intros [?|(_ & -> & [->|[? _]])]; [by left|by right|done].
  + rewrite inFields_fold, inFields_setProp, Hold by done. split.
    * intros [[?|[-> ->]]|[? ->]]; [by left| |].
      -- right. split; [done|]. split; [done|]. by left.
      -- right. split; [done|]. split; [done|]. by right.
    * intros [?|(_ & -> & [->|[_ ?]])]; [by left; left|by left; right|by right].
- rewrite getProp_setProp_ne by done. unfold inSets. split; [by left|].
  intros [?|[? _]]; done.
Qed.

Lemma addTypes_cons sets subschema name type typeMap :
addTypes sets subschema ((name, type) :: typeMap)
= addTypes
    (if String.prefix "__" name then sets
     else if isCompositeType (Some (st_type type))
          then _addToSubschemaSets sets subschema name type
          else sets)
    subschema typeMap.
Proof. reflexivity. Qed.

Lemma inSets_addTypes subschema typeMap typeName fieldName s :
forall sets,
  inSets (addTypes sets subschema typeMap) typeName fieldName s
  <-> inSets sets typeName fieldName s \/
      (s = subschema /\ provides typeMap typeName fieldName).
Proof.
induction typeMap as [|[name type] typeMap IH]; intros sets.
- split; [by left|]. intros [?|[_ (type & Hin & _)]]; [done|]. by apply elem_of_nil in Hin.
- rewrite addTypes_cons, IH. clear IH.
  assert (Hhere :
    (if String.prefix "__" name then False
     else if isCompositeType (Some (st_type type))
          then typeName = name /\
               (fieldName = "__typename" \/
                (isUnionType type = false /\ fieldName ∈ st_fields type))
          else False)
    <-> exists type', (typeName, type') = (name, type) /\
          String.prefix "__" typeName = false /\
          isCompositeType (Some (st_type type')) = true /\
          (fieldName = "__typename" \/
           (isUnionType type' = false /\ fieldName ∈ st_fields type'))).
  { split.
    - destruct (String.prefix "__" name) eqn:Hp; [done|].
      destruct (isCompositeType (Some (st_type type))) eqn:Hc; [|done].
      intros [-> Hf]. by exists type.
    - intros (type' & [= -> <-] & Hp & Hc & Hf). by rewrite Hp, Hc. }
  unfold provides. setoid_rewrite elem_of_cons.
  destruct (String.prefix "__" name) eqn:Hp.
  + split.
    * intros [?|[-> (t & Hin & ?)]]; [by left|]. right. split; [done|]. exists t. tauto.
    * intros [?|[-> (t & [Heq|Hin] & Hrest)]]; [by left| |].
      -- exfalso. apply Hhere. by exists t.
      -- right. split; [done|]. by exists t.
  + destruct (isCompositeType (Some (st_type type))) eqn:Hc.
    * rewrite inSets_add. split.
      -- intros [[?|(-> & -> & Hf)]|[-> (t & Hin & ?)]]; [by left| |].
         ++ right. split; [done|]. destruct (proj1 Hhere (conj eq_refl Hf)) as (t & ? & ?).
            exists t. tauto.
         ++ right. split; [done|]. exists t. tauto.
      -- intros [?|[-> (t & [Heq|Hin] & Hrest)]]; [by left; left| |].
         ++ left. right. destruct (proj2 Hhere (ex_intro _ t (conj Heq Hrest))) as [-> Hf].
            done.
         ++ right. split; [done|]. by exists t.
    * split.
      -- intros [?|[-> (t & Hin & ?)]]; [by left|]. right. split; [done|]. exists t. tauto.
      -- intros [?|[-> (t & [Heq|Hin] & Hrest)]]; [by left| |].
         ++ exfalso. apply Hhere. by exists t.
         ++ right. split; [done|]. by exists t.
Qed.

Lemma inSets_create subschemas typeName fieldName s :
forall sets,
  inSets (fold_left (fun acc entry => addTypes acc (fst entry) (snd entry)) subschemas sets)
    typeName fieldName s
  <-> inSets sets typeName fieldName s \/
      exists typeMap, (s, typeMap) ∈ subschemas /\ provides typeMap typeName fieldName.
Proof.
induction subschemas as [|[subschema typeMap] subschemas IH]; intros sets; simpl.
- split; [by left|]. intros [?|(tm & Hin & _)]; [done|]. by apply elem_of_nil in Hin.
- rewrite IH, inSets_addTypes. setoid_rewrite elem_of_cons. split.
  + intros [[?|[-> ?]]|(tm & ? & ?)]; [by left| |].
    * right. exists typeMap. split; [by left|done].
    * right. exists tm. split; [by right|done].
  + intros [?|(tm & [[= -> ->]|?] & ?)]; [by left; left|by left; right|].
    right. by exists tm.
Qed.
End SetsFacts.

(** X23. The sets [_createMergedElements] fills hold exactly the subschemas
    that have the field: once it has run over the subschemas, a subschema is
    in the set of a type and a field if and only if its schema has a
    composite type of that name, not one whose name starts with two
    underscores, and the field is [__typename] or, the type not being a
    union, one of the fields of the type.  (The constructor then adds its
    introspection subschema to the types whose names start with two
    underscores, and under [__schema] and [__type] of the query type.) *)
Theorem subschema_sets_hold_the_subschemas_that_have_the_field
    (subschemas : list (Subschema * SuperSchemaSets.TypeMap))
    (typeName fieldName : string) (subschema : Subschema) :
  SuperSchemaSets.inSets (SuperSchemaSets.createSubschemaSets subschemas)
    typeName fieldName subschema
  <-> exists typeMap,
        (subschema, typeMap) ∈ subschemas /\
        SuperSchemaSets.provides typeMap typeName fieldName.
Proof.
  unfold SuperSchemaSets.createSubschemaSets. rewrite inSets_create.
  split; [|by right]. intros [(byField & set & Hnone & _)|?]; done.
Qed.

Section SetsOrder.
Import SuperSchemaSets.

Lemma keepsFirst_refl byField : keepsFirst byField byField.
Proof. intros f set Hset. by exists set. Qed.

Lemma keepsFirst_trans b1 b2 b3 : keepsFirst b1 b2 -> keepsFirst b2 b3 -> keepsFirst b1 b3.
Proof.
intros H12 H23 f set Hset. destruct (H12 f set Hset) as (set2 & Hset2 & Hfirst2).
destruct (H23 f set2 Hset2) as (set3 & Hset3 & Hfirst3). exists set3.
split; [done|congruence].
Qed.

Lemma keepsFirst_setProp byField key subschema :
keepsFirst byField (setProp key (setAdd (getProp key byField) subschema) byField).
Proof.
intros f set Hset. destruct (decide (f = key)) as [->|Hne].
- rewrite getProp_setProp_eq, Hset. eexists. split; [done|].
  unfold setAdd. by destruct (setHas set subschema).
- rewrite getProp_setProp_ne by done. by exists set.
Qed.

Lemma keepsFirst_fold fieldNames subschema :
forall byField,
  keepsFirst byField
    (fold_left
       (fun byField fieldName =>
          setProp fieldName (setAdd (getProp fieldName byField) subschema) byField)
       fieldNames byField).
Proof.
induction fieldNames as [|f fs IH]; intros byField; [apply keepsFirst_refl|].
simpl. eapply keepsFirst_trans; [apply keepsFirst_setProp|apply IH].
Qed.

Lemma keepsFirstSets_refl sets : keepsFirstSets sets sets.
Proof. intros t b Hb. exists b. split; [done|apply keepsFirst_refl]. Qed.

Lemma keepsFirstSets_trans s1 s2 s3 :
keepsFirstSets s1 s2 -> keepsFirstSets s2 s3 -> keepsFirstSets s1 s3.
Proof.
intros H12 H23 t b Hb. destruct (H12 t b Hb) as (b2 & Hb2 & Hk2).
destruct (H23 t b2 Hb2) as (b3 & Hb3 & Hk3). exists b3. split; [done|].
by eapply keepsFirst_trans.
Qed.

Lemma keepsFirstSets_add sets subschema name type :
keepsFirstSets sets (_addToSubschemaSets sets subschema name type).
Proof.
intros t b Hb. unfold _addToSubschemaSets. destruct (decide (t = name)) as [->|Hne].
- rewrite getProp_setProp_eq, Hb. eexists. split; [done|].
  destruct (isUnionType type); [apply keepsFirst_setProp|].
  eapply keepsFirst_trans; [apply keepsFirst_setProp|apply keepsFirst_fold].
- rewrite getProp_setProp_ne by done. exists b. split; [done|apply keepsFirst_refl].
Qed.

Lemma keepsFirstSets_addTypes subschema typeMap :
forall sets, keepsFirstSets sets (addTypes sets subschema typeMap).
Proof.
induction typeMap as [|[name type] typeMap IH]; intros sets; [apply keepsFirstSets_refl|].
rewrite addTypes_cons. eapply keepsFirstSets_trans; [|apply IH].
destruct (String.prefix "__" name); [apply keepsFirstSets_refl|].
destruct (isCompositeType (Some (st_type type))); [|apply keepsFirstSets_refl].
apply keepsFirstSets_add.
Qed.

Lemma keepsFirstSets_create subschemas :
forall sets,
  keepsFirstSets sets
    (fold_left (fun acc entry => addTypes acc (fst entry) (snd entry)) subschemas sets).
Proof.
induction subschemas as [|[s tm] subschemas IH]; intros sets; [apply keepsFirstSets_refl|].
simpl. eapply keepsFirstSets_trans; [apply keepsFirstSets_addTypes|apply IH].
Qed.

Lemma createSubschemaSets_app before subschema typeMap after :
createSubschemaSets (before ++ (subschema, typeMap) :: after)
= fold_left (fun acc entry => addTypes acc (fst entry) (snd entry)) after
    (addTypes (createSubschemaSets before) subschema typeMap).
Proof. unfold createSubschemaSets. by rewrite fold_left_app. Qed.
End SetsOrder.

(** X24. Once [_createMergedElements] has run, the first member of the set
    of a type and a field, which is the subschema the planner falls back on,
    is the first of the subschemas given to the constructor that has the
    field. *)
Theorem first_of_a_subschema_set_is_the_first_that_has_the_field
    (before after : list (Subschema * SuperSchemaSets.TypeMap))
    (subschema : Subschema) (typeMap : SuperSchemaSets.TypeMap)
    (typeName fieldName : string) :
  SuperSchemaSets.provides typeMap typeName fieldName ->
  (forall s tm, (s, tm) ∈ before ->
     ~ SuperSchemaSets.provides tm typeName fieldName) ->
  exists byField set,
    getProp typeName
      (SuperSchemaSets.createSubschemaSets (before ++ (subschema, typeMap) :: after))
    = Some byField /\
    getProp fieldName byField = Some set /\
    firstSubschema set = subschema.
Proof.
  intros Hprovides Hbefore.
  rewrite createSubschemaSets_app.
  set (sets1 := SuperSchemaSets.addTypes (SuperSchemaSets.createSubschemaSets before)
                  subschema typeMap).
  assert (Hmembers : forall s, SuperSchemaSets.inSets sets1 typeName fieldName s
                               <-> s = subschema).
  { intros s. unfold sets1, SuperSchemaSets.createSubschemaSets.
    rewrite inSets_addTypes, inSets_create. split.
    - intros [[(b & set & Hnone & _)|(tm & Hin & Hp)]|[-> _]]; [done| |done].
      by destruct (Hbefore s tm Hin).
    - intros ->. by right. }
  destruct (proj2 (Hmembers subschema) eq_refl) as (byField1 & set1 & Hb1 & Hset1 & Hin1).
  assert (Hfirst : firstSubschema set1 = subschema).
  { apply Hmembers. exists byField1, set1. split; [done|]. split; [done|]. left. }
  destruct (keepsFirstSets_create after sets1 typeName byField1 Hb1)
    as (byField & Hb & Hkeeps).
  destruct (Hkeeps fieldName set1 Hset1) as (set & Hset & Hsame).
  exists byField, set. split; [done|]. split; [done|]. congruence.
Qed.

Lemma first_of_a_subschema_set_is_the_first_that_has_the_field_witness :
  exists byField set,
    getProp "User" (SuperSchemaSets.createSubschemaSets SetsCases.twoSchemas)
    = Some byField /\
    getProp "email" byField = Some set /\
    firstSubschema set = Scenario.subschemaB.
Proof.
  apply (first_of_a_subschema_set_is_the_first_that_has_the_field
           [(Scenario.subschemaA, SetsCases.schemaA)] [] Scenario.subschemaB
           SetsCases.schemaB "User" "email").
  - exists (SetsCases.userType ["id"; "email"]). split; [left|].
    split; [reflexivity|]. split; [reflexivity|]. right. split; [reflexivity|].
    right. left.
  - intros s tm Hin. apply list_elem_of_singleton in Hin. injection Hin as -> ->.
    intros (type & Htype & _ & _ & [Hname|[_ Hfield]]); [discriminate|].
    unfold SetsCases.schemaA in Htype.
    apply elem_of_cons in Htype as [Heq|Htype].
    { injection Heq as ->. by apply (bool_decide_pack _) in Hfield. }
    apply elem_of_cons in Htype as [Heq|Htype]; [discriminate|].
    apply elem_of_cons in Htype as [Heq|Htype]; [discriminate|].
    by apply elem_of_nil in Htype.
Defined.

(** ** The split of the root selection set and the pruning *)





Section RootSplitFacts.
Import RootSplit.
Context (byField : list (string * SubschemaSet)).

Lemma fieldsOf_fragment typeCondition dirs selections :
fieldsOf (InlineFragmentSel typeCondition dirs selections) = fieldsOfAll selections.
Proof.
unfold fieldsOfAll. simpl. induction selections as [|s rest IH]; [done|].
simpl. by rewrite IH.
Qed.

Lemma fieldsOfAll_app selections selections' :
fieldsOfAll (selections ++ selections') = fieldsOfAll selections ++ fieldsOfAll selections'.
Proof. unfold fieldsOfAll. by rewrite map_app, concat_app. Qed.

Lemma fieldsOfAll_singleton selection : fieldsOfAll [selection] = fieldsOf selection.
Proof. unfold fieldsOfAll. simpl. by rewrite app_nil_r. Qed.

Lemma firstHeld_Some candidates map subschema selections :
firstHeld candidates map = Some (subschema, selections) ->
subschema ∈ candidates /\ mapGet subschema map = Some selections.
Proof.
induction candidates as [|s rest IH]; [done|]. simpl.
destruct (mapGet s map) as [sels|] eqn:E.
- intros [= <- <-]. split; [left|done].
- intros H. destruct (IH H). split; [by right|done].
Qed.

Lemma firstHeld_None candidates map subschema :
firstHeld candidates map = None -> subschema ∈ candidates -> mapGet subschema map = None.
Proof.
induction candidates as [|s rest IH]; [by intros _ ?%elem_of_nil|]. simpl.
destruct (mapGet s map) as [sels|] eqn:E; [done|].
intros H [->|Hin]%elem_of_cons; [done|by apply IH].
Qed.

Lemma mapGet_None_keys (map : SelectionMap) subschema :
mapGet subschema map = None <-> subschema ∉ List.map fst map.
Proof.
induction map as [|[s sels] map IH]; simpl.
- split; [intros _; apply not_elem_of_nil|done].
- rewrite not_elem_of_cons. destruct (decide (s = subschema)) as [->|Hne].
  + split; [done|]. by intros [? _].
  + rewrite IH. split; [by split|by intros [_ ?]].
Qed.

Lemma keys_mapSet (map : SelectionMap) subschema selections :
List.map fst (mapSet subschema selections map)
= if bool_decide (subschema ∈ List.map fst map) then List.map fst map
  else List.map fst map ++ [subschema].
Proof.
induction map as [|[s sels] map IH]; simpl; [done|].
destruct (decide (s = subschema)) as [->|Hne]; simpl.
- rewrite bool_decide_eq_true_2; [done|left].
- rewrite IH. destruct (bool_decide (subschema ∈ List.map fst map)) eqn:E.
  + apply bool_decide_eq_true in E. rewrite bool_decide_eq_true_2; [done|by right].
  + apply bool_decide_eq_false in E. rewrite bool_decide_eq_false_2; [done|].
    rewrite not_elem_of_cons. split; [congruence|done].
Qed.

Lemma NoDup_keys_mapSet (map : SelectionMap) subschema selections :
NoDup (List.map fst map) -> NoDup (List.map fst (mapSet subschema selections map)).
Proof.
intros Hnd. rewrite keys_mapSet.
destruct (bool_decide (subschema ∈ List.map fst map)) eqn:E; [done|].
apply bool_decide_eq_false in E. apply NoDup_app. split; [done|].
split; [|apply NoDup_singleton]. intros x Hx ->%list_elem_of_singleton. done.
Qed.

Lemma allFields_mapSet_present (map : SelectionMap) subschema selections extra :
mapGet subschema map = Some selections ->
allFields (mapSet subschema (selections ++ extra) map) ≡ₚ allFields map ++ fieldsOfAll extra.
Proof.
unfold allFields. induction map as [|[s sels] map IH]; [done|]. simpl.
destruct (decide (s = subschema)) as [->|Hne].
- intros [= ->]. simpl. rewrite fieldsOfAll_app.
  rewrite <- !app_assoc. f_equiv. apply Permutation_app_comm.
- intros Hget. simpl. rewrite (IH Hget). by rewrite app_assoc.
Qed.

Lemma allFields_mapSet_absent (map : SelectionMap) subschema extra :
mapGet subschema map = None ->
allFields (mapSet subschema extra map) = allFields map ++ fieldsOfAll extra.
Proof.
unfold allFields. induction map as [|[s sels] map IH]; simpl.
- intros _. by rewrite app_nil_r.
- destruct (decide (s = subschema)) as [->|Hne]; [done|].
  intros Hget. simpl. rewrite (IH Hget). by rewrite app_assoc.
Qed.

Lemma Routes_mapSet map subschema selections :
Routes byField map ->
(forall f, f ∈ fieldsOfAll selections ->
   exists set, getProp (name f) byField = Some set /\ subschema ∈ members set) ->
Routes byField (mapSet subschema selections map).
Proof.
intros Hmap Hnew s sels f [[= -> ->]|Hin]%elem_of_mapSet Hf; [by apply Hnew|].
by eapply Hmap.
Qed.

Lemma addField_facts field map :
Routes byField map -> NoDup (List.map fst map) ->
Routes byField (_addField byField field map) /\
NoDup (List.map fst (_addField byField field map)) /\
allFields (_addField byField field map)
≡ₚ allFields map ++ filter (known byField) [field].
Proof.
intros Hroutes Hnd. rewrite filter_cons, filter_nil.
destruct (decide ((known byField) field)) as [[subschemas Hset]|Hunknown]; unfold _addField.
- rewrite Hset.
  assert (Hfield : fieldsOfAll [fieldSelection field] = [field]) by by destruct field.
  destruct (firstHeld (members subschemas) map) as [[s sels]|] eqn:Hheld.
  + apply firstHeld_Some in Hheld as [Hin Hget].
    split; [|split; [by apply NoDup_keys_mapSet|]].
    * apply Routes_mapSet; [done|]. intros f. rewrite fieldsOfAll_app, elem_of_app.
      intros [Hf|Hf]; [apply (Hroutes s sels f); [by apply mapGet_elem_of|done]|].
      rewrite Hfield in Hf. apply list_elem_of_singleton in Hf as ->. by exists subschemas.
    * by rewrite allFields_mapSet_present, Hfield.
  + split; [|split; [by apply NoDup_keys_mapSet|]].
    * apply Routes_mapSet; [done|]. intros f Hf.
      rewrite Hfield in Hf. apply list_elem_of_singleton in Hf as ->.
      exists subschemas. split; [done|left].
    * rewrite allFields_mapSet_absent, Hfield; [done|].
      eapply firstHeld_None; [done|left].
- destruct (getProp (name field) byField) as [subschemas|] eqn:Hset;
    [exfalso; apply Hunknown; by eexists|].
  by rewrite app_nil_r.
Qed.

Lemma pushFragments_facts typeCondition dirs splitSelections :
Routes byField splitSelections ->
forall map,
  Routes byField map -> NoDup (List.map fst map) ->
  Routes byField (pushFragments typeCondition dirs splitSelections map) /\
  NoDup (List.map fst (pushFragments typeCondition dirs splitSelections map)) /\
  allFields (pushFragments typeCondition dirs splitSelections map)
  ≡ₚ allFields map ++ allFields splitSelections.
Proof.
induction splitSelections as [|[s sels] rest IH]; intros Hsplit map Hroutes Hnd.
- simpl. by rewrite app_nil_r.
- assert (Hrest : Routes byField rest).
  { intros s' sels' f Hin Hf. apply (Hsplit s' sels' f); [by right|done]. }
  assert (Hhere : forall f, f ∈ fieldsOfAll sels ->
            exists set, getProp (name f) byField = Some set /\ s ∈ members set).
  { intros f Hf. apply (Hsplit s sels f); [left|done]. }
  assert (Hfragment : fieldsOfAll [InlineFragmentSel typeCondition dirs sels]
                      = fieldsOfAll sels).
  { by rewrite fieldsOfAll_singleton, fieldsOf_fragment. }
  simpl. destruct (mapGet s map) as [selections|] eqn:Hget.
  + destruct (IH Hrest (mapSet s (selections ++ [InlineFragmentSel typeCondition dirs sels])
                          map)) as (Hr & Hn & Hp).
    * apply Routes_mapSet; [done|]. intros f. rewrite fieldsOfAll_app, elem_of_app.
      intros [Hf|Hf]; [apply (Hroutes s selections f); [by apply mapGet_elem_of|done]|].
      apply Hhere. by rewrite <- Hfragment.
    * by apply NoDup_keys_mapSet.
    * split; [done|]. split; [done|]. rewrite Hp, allFields_mapSet_present by done.
      rewrite Hfragment. unfold allFields at 4. simpl. by rewrite <- app_assoc.
  + destruct (IH Hrest (mapSet s [InlineFragmentSel typeCondition dirs sels] map))
      as (Hr & Hn & Hp).
    * apply Routes_mapSet; [done|]. intros f Hf. apply Hhere. by rewrite <- Hfragment.
    * by apply NoDup_keys_mapSet.
    * split; [done|]. split; [done|]. rewrite Hp, allFields_mapSet_absent by done.
      rewrite Hfragment. unfold allFields at 4. simpl. by rewrite <- app_assoc.
Qed.

Lemma each_facts selections :
Forall (SplitsWell byField) selections ->
forall map map',
  splitAll byField selections map = Ok map' ->
  Routes byField map -> NoDup (List.map fst map) ->
  Routes byField map' /\ NoDup (List.map fst map') /\
  allFields map' ≡ₚ allFields map ++ filter (known byField) (fieldsOfAll selections).
Proof.
induction 1 as [|s rest Hs _ IH]; intros map map' Hsplit Hroutes Hnd; simpl in Hsplit.
- injection Hsplit as <-. unfold fieldsOfAll. simpl. by rewrite filter_nil, app_nil_r.
- destruct (splitSelection byField s map) as [map1|] eqn:E; [|done]. simpl in Hsplit.
  destruct (Hs _ _ E Hroutes Hnd) as (Hr1 & Hn1 & Hp1).
  destruct (IH _ _ Hsplit Hr1 Hn1) as (Hr & Hn & Hp).
  split; [done|]. split; [done|]. rewrite Hp, Hp1.
  unfold fieldsOfAll. simpl. rewrite filter_app. by rewrite <- app_assoc.
Qed.

Lemma splitSelection_each selections :
forall map,
  (fix each (sels : list SelectionNode) (acc : SelectionMap) {struct sels}
     : Result SelectionMap :=
     match sels with
     | [] => Ok acc
     | s :: rest => do acc' <- splitSelection byField s acc; each rest acc'
     end) selections map
  = splitAll byField selections map.
Proof.
induction selections as [|s rest IH]; intros map; [done|]. simpl.
destruct (splitSelection byField s map); [apply IH|done].
Qed.

Lemma splitSelection_facts selection : (SplitsWell byField) selection.
Proof.
induction selection as [a n args dirs|a n args dirs sels _|tc dirs sels IH|n dirs]
  using SelectionNode_nested_ind; intros map map' Hsplit Hroutes Hnd.
- simpl in Hsplit. injection Hsplit as <-. by apply addField_facts.
- simpl in Hsplit. injection Hsplit as <-. by apply addField_facts.
- rewrite fieldsOf_fragment.
  change (splitSelection byField (InlineFragmentSel tc dirs sels) map)
    with (do splitSelections <-
             (fix each (sels : list SelectionNode) (acc : SelectionMap) {struct sels}
                : Result SelectionMap :=
                match sels with
                | [] => Ok acc
                | s :: rest => do acc' <- splitSelection byField s acc; each rest acc'
                end) sels [];
          Ok (pushFragments tc dirs splitSelections map)) in Hsplit.
  rewrite splitSelection_each in Hsplit.
  destruct (splitAll byField sels []) as [split|] eqn:E; [|done]. simpl in Hsplit.
  injection Hsplit as <-.
  destruct (each_facts sels IH [] split E) as (Hr & _ & Hp).
  { intros s ss f Hin. by apply elem_of_nil in Hin. }
  { constructor. }
  destruct (pushFragments_facts tc dirs split Hr map Hroutes Hnd) as (Hr' & Hn' & Hp').
  split; [done|]. split; [done|]. by rewrite Hp', Hp.
- done.
Qed.
End RootSplitFacts.

(** X25. The split of a root selection set loses nothing and repeats
    nothing: when [splitSelectionSet] succeeds, the fields filed under the
    subschemas (those of the inline fragments included) are, taken together,
    the fields of the selection set that some subschema has, each one once;
    every subschema has one entry; and a field is filed under a subschema
    that is in the set of the field. *)
Theorem root_split_files_every_known_field_once
    (byField : list (string * SubschemaSet)) (selections : list SelectionNode)
    (map : RootSplit.SelectionMap) :
  RootSplit.splitSelectionSet (Some byField) selections = Ok map ->
  RootSplit.allFields map
  ≡ₚ filter (fun f => is_Some (getProp (name f) byField)) (RootSplit.fieldsOfAll selections) /\
  NoDup (List.map fst map) /\
  forall subschema filed f,
    (subschema, filed) ∈ map -> f ∈ RootSplit.fieldsOfAll filed ->
    exists set, getProp (name f) byField = Some set /\ subschema ∈ members set.
Proof.
  intros Hsplit. simpl in Hsplit.
  destruct (each_facts byField selections) with (map := @nil (Subschema * list SelectionNode))
                                               (map' := map)
    as (Hroutes & Hnd & Hperm).
  - apply Forall_forall. intros s _. apply splitSelection_facts.
  - done.
  - intros s ss f Hin. by apply elem_of_nil in Hin.
  - constructor.
  - split; [exact Hperm|]. split; [exact Hnd|exact Hroutes].
Qed.

Lemma root_split_files_every_known_field_once_witness :
  NoDup (List.map fst RootSplitCases.rootSplit) /\
  RootSplitCases.rootSplit
  = [(Scenario.subschemaB, [Scenario.leaf "posts"]);
     (Scenario.subschemaA,
      [InlineFragmentSel None []
         [Scenario.leaf "version";
          FieldSel None "user" [] [] (Some Scenario.userSelections)]])].
Proof.
  split; [|reflexivity].
  apply (root_split_files_every_known_field_once RootSplitCases.rootSets
           RootSplitCases.rootSelections RootSplitCases.rootSplit).
  reflexivity.
Defined.

Section Pruning.
Import RootSplit.

Lemma filter_keeps_all {A} (p : A -> bool) (l : list A) :
(forall x, x ∈ l -> p x = true) -> List.filter p l = l.
Proof.
induction l as [|x l IH]; intros Hall; [done|]. simpl.
rewrite (Hall x) by left. f_equal. apply IH. intros y Hy. apply Hall. by right.
Qed.

Lemma fieldsOfAll_field a n args dirs sel selections :
FieldSel a n args dirs sel ∈ selections ->
mkFieldNode a n args dirs sel ∈ fieldsOfAll selections.
Proof.
unfold fieldsOfAll. induction selections as [|s rest IH]; [by intros ?%elem_of_nil|].
intros [<-|Hin]%elem_of_cons; simpl; [left|].
apply elem_of_app. right. by apply IH.
Qed.
End Pruning.

(** X26. Pruning a document for a subschema takes nothing away from what
    the split has filed under that subschema, at the level of the root type:
    [_visitSelectionSet] returns those selections as they are. *)
Theorem pruning_keeps_what_the_split_filed
    (sets : list (string * list (string * SubschemaSet))) (rootType : TypeRef)
    (byField : list (string * SubschemaSet)) (selections : list SelectionNode)
    (map : RootSplit.SelectionMap) (subschema : Subschema) (filed : list SelectionNode) :
  getProp (type_name (getNamedType rootType)) sets = Some byField ->
  RootSplit.splitSelectionSet (Some byField) selections = Ok map ->
  (subschema, filed) ∈ map ->
  RootSplit._visitSelectionSet sets filed subschema (Some rootType) = filed.
Proof.
  intros Hsets Hsplit Hin. unfold RootSplit._visitSelectionSet. rewrite Hsets.
  simpl in Hsplit.
  destruct (each_facts byField selections) with (map := @nil (Subschema * list SelectionNode))
                                               (map' := map)
    as (Hroutes & _ & _).
  - apply Forall_forall. intros s _. apply splitSelection_facts.
  - done.
  - intros s ss f Hnil. by apply elem_of_nil in Hnil.
  - constructor.
  - apply filter_keeps_all. intros [a n args dirs sel|tc dirs sels|n dirs] Hx; [|done..].
    simpl. destruct (Hroutes subschema filed (mkFieldNode a n args dirs sel) Hin)
      as (set & Hset & Hmember); [by apply fieldsOfAll_field|].
    simpl in Hset. rewrite Hset. by apply bool_decide_eq_true.
Qed.

Lemma pruning_keeps_what_the_split_filed_witness :
  RootSplit._visitSelectionSet [("Query", RootSplitCases.rootSets)]
    [Scenario.leaf "posts"] Scenario.subschemaB (Some (NamedRef Scenario.tQuery))
  = [Scenario.leaf "posts"].
Proof.
  apply (pruning_keeps_what_the_split_filed [("Query", RootSplitCases.rootSets)]
           (NamedRef Scenario.tQuery) RootSplitCases.rootSets
           RootSplitCases.rootSelections RootSplitCases.rootSplit).
  - reflexivity.
  - reflexivity.
  - left.
Defined.

(** ** The error limit of getVariableValues *)



Section VariablesFacts.
Import Variables.
Context {ValueNode Report : Type}.
Context (isInputType : TypeRef -> bool).
Context (print : TypeNode -> string).
Context (inspect : TypeRef -> string).
Context (valueFromAST : ValueNode -> TypeRef -> option Value).
Context (coerceInputValue : Value -> TypeRef -> list Report * option Value).
Context (invalidValueMessage : string -> Report -> string).
Context (mergedTypes : list (string * GraphQLType)).

Local Abbreviation one :=
  (coerceOne isInputType print inspect valueFromAST coerceInputValue invalidValueMessage
     mergedTypes).
Local Abbreviation loop :=
  (_coerceVariableValues isInputType print inspect valueFromAST coerceInputValue
     invalidValueMessage mergedTypes).

Lemma onError_follows limit error errors :
length errors <= limit ->
fst (onError None error errors) = true /\
snd (onError None error errors) = errors ++ [error] /\
if Nat.leb (length (errors ++ [error])) limit
then onError (Some limit) error errors = (true, errors ++ [error])
else onError (Some limit) error errors = (false, take limit (errors ++ [error])).
Proof.
intros Hlen. split; [done|]. split; [done|]. unfold onError.
rewrite length_app. simpl.
destruct (Nat.leb (length errors + 1) limit) eqn:E.
- apply Nat.leb_le in E. rewrite (proj2 (Nat.leb_gt _ _)) by lia. done.
- apply Nat.leb_gt in E. assert (limit = length errors) as -> by lia.
  rewrite Nat.leb_refl. by rewrite take_app_length.
Qed.

Lemma reportAll_unlimited varName reports :
forall errors,
  reportAll invalidValueMessage None varName reports errors
  = (true, errors ++ map (fun report => newGraphQLError (invalidValueMessage varName report))
                       reports).
Proof.
induction reports as [|r rs IH]; intros errors; simpl; [by rewrite app_nil_r|].
rewrite IH. by rewrite <- app_assoc.
Qed.

Lemma reportAll_follows limit varName reports :
forall errors,
  length errors <= limit ->
  let all := errors ++ map (fun report => newGraphQLError (invalidValueMessage varName report))
                         reports in
  if Nat.leb (length all) limit
  then reportAll invalidValueMessage (Some limit) varName reports errors = (true, all)
  else reportAll invalidValueMessage (Some limit) varName reports errors
       = (false, take limit all).
Proof.
induction reports as [|r rs IH]; intros errors Hlen all; subst all; simpl.
- rewrite app_nil_r. by rewrite (proj2 (Nat.leb_le _ _)).
- destruct (Nat.leb limit (length errors)) eqn:E.
  + apply Nat.leb_le in E. assert (limit = length errors) as -> by lia.
    rewrite (proj2 (Nat.leb_gt _ _)) by (rewrite length_app; simpl; lia).
    by rewrite take_app_length.
  + apply Nat.leb_gt in E.
    specialize (IH (errors ++ [newGraphQLError (invalidValueMessage varName r)])).
    rewrite length_app in IH. simpl in IH. specialize (IH ltac:(lia)).
    rewrite <- app_assoc in IH. exact IH.
Qed.

Lemma one_follows limit varDefNode inputs coercedValues errors :
length errors <= limit ->
exists coercedValues' more,
  one None varDefNode inputs coercedValues errors = (true, coercedValues', errors ++ more) /\
  if Nat.leb (length (errors ++ more)) limit
  then one (Some limit) varDefNode inputs coercedValues errors
       = (true, coercedValues', errors ++ more)
  else exists left,
         one (Some limit) varDefNode inputs coercedValues errors
         = (false, left, take limit (errors ++ more)).
Proof.
intros Hlen.
assert (Hfail : forall error,
  exists coercedValues' more,
    (let (returned, errors') := onError None error errors in
     (returned, coercedValues, errors')) = (true, coercedValues', errors ++ more) /\
    if Nat.leb (length (errors ++ more)) limit
    then (let (returned, errors') := onError (Some limit) error errors in
          (returned, coercedValues, errors')) = (true, coercedValues', errors ++ more)
    else exists left,
           (let (returned, errors') := onError (Some limit) error errors in
            (returned, coercedValues, errors'))
           = (false, left, take limit (errors ++ more))).
{ intros error. exists coercedValues, [error]. split; [done|].
  destruct (onError_follows limit error errors Hlen) as (_ & _ & Hlimited).
  destruct (Nat.leb (length (errors ++ [error])) limit); rewrite Hlimited; [done|].
  by exists coercedValues. }
assert (Hsame : forall coercedValues',
  exists coercedValues'' more,
    (true, coercedValues', errors) = (true, coercedValues'', errors ++ more) /\
    if Nat.leb (length (errors ++ more)) limit
    then (true, coercedValues', errors) = (true, coercedValues'', errors ++ more)
    else exists left : list (string * option Value),
           (true, coercedValues', errors) = (false, left, take limit (errors ++ more))).
{ intros coercedValues'. exists coercedValues', []. rewrite app_nil_r. split; [done|].
  by rewrite (proj2 (Nat.leb_le _ _)). }
unfold coerceOne.
destruct (_typeFromAST mergedTypes (var_type varDefNode)) as [varType|]; [|apply Hfail].
destruct (negb (isInputType varType)); [apply Hfail|].
destruct (getProp (var_name varDefNode) inputs) as [value|].
- destruct (match value with VNull => isNonNullType varType | _ => false end);
    [apply Hfail|].
  destruct (coerceInputValue value varType) as [reports coerced].
  rewrite reportAll_unlimited.
  pose proof (reportAll_follows limit (var_name varDefNode) reports errors Hlen) as Hlimited.
  simpl in Hlimited. eexists _, _. split; [reflexivity|].
  destruct (Nat.leb (length (errors ++ _)) limit); rewrite Hlimited; [done|].
  by eexists.
- destruct (var_defaultValue varDefNode) as [defaultValue|]; [apply Hsame|].
  destruct (isNonNullType varType); [apply Hfail|apply Hsame].
Qed.

Lemma loop_follows limit inputs varDefNodes :
forall coercedValues errors,
  length errors <= limit ->
  exists coerced more,
    loop None varDefNodes inputs coercedValues errors = (true, coerced, errors ++ more) /\
    if Nat.leb (length (errors ++ more)) limit
    then loop (Some limit) varDefNodes inputs coercedValues errors
         = (true, coerced, errors ++ more)
    else exists left,
           loop (Some limit) varDefNodes inputs coercedValues errors
           = (false, left, take limit (errors ++ more)).
Proof.
induction varDefNodes as [|varDefNode rest IH]; intros coercedValues errors Hlen.
- exists coercedValues, []. rewrite app_nil_r. split; [done|].
  by rewrite (proj2 (Nat.leb_le _ _)).
- destruct (one_follows limit varDefNode inputs coercedValues errors Hlen)
    as (coercedValues1 & more1 & Hunlimited & Hlimited).
  simpl. rewrite Hunlimited.
  destruct (Nat.leb (length (errors ++ more1)) limit) eqn:Hfits.
  + rewrite Hlimited. apply Nat.leb_le in Hfits.
    destruct (IH coercedValues1 (errors ++ more1) Hfits)
      as (coerced & more & Hrest & Hrest').
    exists coerced, (more1 ++ more). rewrite app_assoc. by split.
  + destruct Hlimited as [left ->]. apply Nat.leb_gt in Hfits.
    assert (Hany : exists coerced more,
              loop None rest inputs coercedValues1 (errors ++ more1)
              = (true, coerced, (errors ++ more1) ++ more)).
    { destruct (IH coercedValues1 (take limit (errors ++ more1))) as (c & m & _ & _).
      - rewrite length_take. lia.
      - clear. revert coercedValues1 errors more1.
        induction rest as [|v rest IHrest]; intros cv errors more1.
        + exists cv, []. by rewrite app_nil_r.
        + simpl.
          destruct (one_follows (length (errors ++ more1)) v inputs cv (errors ++ more1))
            as (cv1 & m1 & -> & _); [done|].
          destruct (IHrest cv1 (errors ++ more1) m1) as (c' & m' & ->).
          exists c', (m1 ++ m'). by rewrite !app_assoc. }
    destruct Hany as (coerced & more & ->).
    exists coerced, (more1 ++ more). rewrite app_assoc. split; [done|].
    rewrite (proj2 (Nat.leb_gt _ _)) by (rewrite length_app; lia).
    exists left. f_equal. symmetry. apply take_app_le. lia.
Qed.
End VariablesFacts.

(** X27. The error limit of [getVariableValues] cuts the list of errors and
    changes nothing else: variables that are coerced without error give the
    same values with and without a limit; errors that fit in the limit are
    returned as they are; when there are more, the first [maxErrors] of them
    are returned, followed by the error "Too many errors processing
    variables, error limit reached. Execution aborted.". *)
Theorem getVariableValues_error_limit {ValueNode Report : Type}
    (isInputType : TypeRef -> bool) (print : Variables.TypeNode -> string)
    (inspect : TypeRef -> string) (valueFromAST : ValueNode -> TypeRef -> option Value)
    (coerceInputValue : Value -> TypeRef -> list Report * option Value)
    (invalidValueMessage : string -> Report -> string)
    (mergedTypes : list (string * GraphQLType))
    (varDefNodes : list (Variables.VariableDefinition ValueNode)) (inputs : ObjMap)
    (maxErrors : nat) :
  let variableValues :=
    Variables.getVariableValues isInputType print inspect valueFromAST coerceInputValue
      invalidValueMessage mergedTypes varDefNodes inputs in
  match variableValues None with
  | inr coerced => variableValues (Some maxErrors) = inr coerced
  | inl errors =>
      variableValues (Some maxErrors)
      = inl (if Nat.leb (length errors) maxErrors then errors
             else take maxErrors errors ++ [Variables.tooManyErrors])
  end.
Proof.
  intros variableValues. subst variableValues. unfold Variables.getVariableValues.
  destruct (loop_follows isInputType print inspect valueFromAST coerceInputValue
              invalidValueMessage mergedTypes maxErrors inputs varDefNodes [] [])
    as (coerced & errors & -> & Hlimited); [simpl; lia|].
  simpl in Hlimited.
  change ([] ++ errors) with errors.
  destruct (Nat.leb (length errors) maxErrors) eqn:Hfits.
  - rewrite Hlimited. destruct errors as [|e errors]; [done|].
    change (Nat.eqb (length (e :: errors)) 0) with false. cbv iota. by rewrite Hfits.
  - destruct Hlimited as [left ->]. destruct errors as [|e errors]; [done|].
    change (Nat.eqb (length (e :: errors)) 0) with false. cbv iota. by rewrite Hfits.
Qed.

(** ** The FieldPlan class: bare fragments, and the leaves a plan keeps *)







Section FieldPlanFacts.
Import FieldPlanClass FieldPlanView.
Context (ss : SuperSchema).
Context (fragmentMap : list (string * FragmentDefinitionNode)).
Context (getFields : GraphQLType -> list (string * GraphQLField)).
Context (queryType : option GraphQLType).
Context (inspect : option GraphQLType -> string).

Lemma forallb_app_true {A} (p : A -> bool) l l' :
forallb p l = true -> forallb p l' = true -> forallb p (l ++ l') = true.
Proof. intros Hl Hl'. rewrite forallb_app. by rewrite Hl, Hl'. Qed.

Lemma bareSplit_push target selection split :
bareSplit split -> bare selection = true -> bareSplit (push target selection split).
Proof.
intros [Hown Hmap] Hsel. destruct target as [|s]; simpl.
- split; [|done]. simpl. apply forallb_app_true; [done|]. simpl. by rewrite Hsel.
- split; [done|]. simpl. intros s' sels [[= -> ->]|Hin]%elem_of_mapSet; [|by eapply Hmap].
  apply forallb_app_true; [|simpl; by rewrite Hsel].
  destruct (mapGet s (selMap split)) as [selections|] eqn:Hget; [|done].
  eapply Hmap. by apply mapGet_elem_of.
Qed.

Lemma bareSplit_getSubschemaAndSelections thisSubschema subschemas split
  subschema target split1 :
_getSubschemaAndSelections thisSubschema subschemas split = (subschema, target, split1) ->
bareSplit split -> bareSplit split1.
Proof.
intros Hget [Hown Hmap]. unfold _getSubschemaAndSelections in Hget.
assert (Hfrom : forall r,
  match RootSplit.firstHeld (members subschemas) (selMap split) with
  | Some (subschema, _) => (subschema, InMap subschema, split)
  | None =>
      (firstSubschema subschemas, InMap (firstSubschema subschemas),
       mkSplit (own split) (mapSet (firstSubschema subschemas) [] (selMap split)))
  end = r -> bareSplit r.2).
{ intros r <-. destruct (RootSplit.firstHeld _ _) as [[s sels]|]; [done|].
  split; [done|]. simpl. intros s' sels [[= -> ->]|Hin]%elem_of_mapSet; [done|].
  by eapply Hmap. }
destruct thisSubschema as [s|].
- destruct (setHas subschemas s).
  + by injection Hget as <- <- <-.
  + apply (Hfrom _ Hget).
- apply (Hfrom _ Hget).
Qed.

Lemma bare_accAdd key selections m :
(forall subschema sels, (subschema, sels) ∈ m -> forallb bare sels = true) ->
forallb bare selections = true ->
forall subschema sels,
  (subschema, sels) ∈ accAdd key (splitFragment selections) m -> forallb bare sels = true.
Proof.
intros Hm Hsel s sels. unfold accAdd.
destruct (mapGet key m) as [group|] eqn:Hget.
- intros [[= -> ->]|Hin]%elem_of_mapSet; [|by eapply Hm].
  apply forallb_app_true; [eapply Hm; by apply mapGet_elem_of|]. simpl. by rewrite Hsel.
- intros [[= -> ->]|Hin]%elem_of_mapSet; [|by eapply Hm]. simpl. by rewrite Hsel.
Qed.

Section Rounds.
Context (newPlan : GraphQLType -> list SelectionNode -> option Subschema -> Result FieldPlan).
Context (thisSubschema : option Subschema).
Context (process : State -> GraphQLType -> list SelectionNode -> Result (Split * State)).
Hypothesis newPlan_bare :
  forall parentType selections subschema plan,
    newPlan parentType selections subschema = Ok plan -> BarePlan plan.
Hypothesis process_bare :
  forall st parentType selections split st',
    process st parentType selections = Ok (split, st') ->
    bareState st -> bareSplit split /\ bareState st'.

Lemma addField_bare parentType field split st split' st' :
_addField ss getFields queryType inspect newPlan thisSubschema parentType field split st
  = Ok (split', st') ->
bareSplit split -> bareState st -> bareSplit split' /\ bareState st'.
Proof.
intros Hadd Hsplit Hst. unfold _addField in Hadd.
destruct (getProp (type_name parentType) (subschemaSetsByTypeAndField ss))
  as [byField|]; [|done].
destruct (getProp (name field) byField) as [subschemas|];
  [|by injection Hadd as <- <-].
destruct (_getSubschemaAndSelections thisSubschema subschemas split)
  as [[subschema target] split1] eqn:Hget.
pose proof (bareSplit_getSubschemaAndSelections _ _ _ _ _ _ Hget Hsplit) as Hsplit1.
destruct (selectionSet field) as [selections|] eqn:Hsel.
- destruct (_getFieldDef getFields queryType inspect parentType (name field))
    as [[def|]|]; [| |done].
  + simpl in Hadd.
    destruct (newPlan (getNamedType (fieldDef_type def)) selections (Some subschema))
      as [subFieldPlan|] eqn:Hnew; [|done].
    simpl in Hadd. injection Hadd as <- <-.
    pose proof (newPlan_bare _ _ _ _ Hnew) as Hbare.
    destruct Hbare as [subOwn subMap subSubs HsubOwn HsubMap HsubSubs]. simpl.
    split.
    * destruct (negb (isEmpty subOwn)); [|done].
      apply bareSplit_push; [done|]. by destruct field.
    * destruct (negb (isEmpty subMap) || negb (isEmpty subSubs)); [|done].
      intros key plan [[= -> ->]|Hin]%elem_of_setProp; [by constructor|by eapply Hst].
  + simpl in Hadd. by injection Hadd as <- <-.
- injection Hadd as <- <-. split; [|done]. apply bareSplit_push; [done|].
  destruct field as [a n args dirs sel]. simpl in *. by subst sel.
Qed.

Lemma addFragment_bare parentType selections split st split' st' :
_addFragment process parentType selections split st = Ok (split', st') ->
bareSplit split -> bareState st -> bareSplit split' /\ bareState st'.
Proof.
intros Hadd [Hown Hmap] Hst. unfold _addFragment in Hadd.
destruct (process st parentType selections) as [[fragmentSplit st1]|] eqn:Hprocess;
  [|done].
simpl in Hadd. injection Hadd as <- <-.
destruct (process_bare _ _ _ _ _ Hprocess Hst) as [[HfragOwn HfragMap] Hst1].
split; [|done]. split; simpl.
- destruct (negb (isEmpty (own fragmentSplit))); [|done].
  apply forallb_app_true; [done|]. simpl. by rewrite HfragOwn.
- revert HfragMap. generalize (selMap fragmentSplit). intros fragmentMap' HfragMap.
  revert Hmap. generalize (selMap split).
  induction fragmentMap' as [|[s sels] rest IH]; intros m Hm; [done|].
  simpl. apply IH.
  + intros s' sels' Hin. apply (HfragMap s' sels'). by right.
  + apply bare_accAdd; [done|]. apply (HfragMap s sels). left.
Qed.

Lemma processSelection_bare parentType selection split st split' st' :
processSelection ss fragmentMap getFields queryType inspect newPlan thisSubschema process
  parentType selection split st = Ok (split', st') ->
bareSplit split -> bareState st -> bareSplit split' /\ bareState st'.
Proof.
intros Hprocess Hsplit Hst. destruct selection as [a n args dirs sel|tc dirs sels|n dirs];
  simpl in Hprocess.
- by eapply addField_bare.
- destruct (match tc with Some typeName => getType ss typeName | None => Some parentType end)
    as [refined|] eqn:Hrefined; [|done].
  destruct (isCompositeType (Some refined)); [|done]. by eapply addFragment_bare.
- destruct (bool_decide (n ∈ visitedFragments st)); [by injection Hprocess as <- <-|].
  destruct (getProp n fragmentMap) as [fragment|]; [|done].
  destruct (getType ss (frag_typeCondition fragment)) as [refined|]; [|done].
  destruct (isCompositeType (Some refined)); [|done].
  eapply addFragment_bare; [exact Hprocess|done|done].
Qed.

Lemma processAll_bare parentType selections :
forall split st split' st',
  processAll ss fragmentMap getFields queryType inspect newPlan thisSubschema process
    parentType selections split st = Ok (split', st') ->
  bareSplit split -> bareState st -> bareSplit split' /\ bareState st'.
Proof.
induction selections as [|s rest IH]; intros split st split' st' Hall Hsplit Hst;
  simpl in Hall.
- by injection Hall as <- <-.
- destruct (processSelection ss fragmentMap getFields queryType inspect newPlan
              thisSubschema process parentType s split st) as [[split1 st1]|] eqn:Hone;
    [|done].
  simpl in Hall. destruct (processSelection_bare _ _ _ _ _ _ Hone Hsplit Hst) as [H1 H2].
  by eapply IH.
Qed.
End Rounds.

Lemma processSelections_bare fuel :
forall thisSubschema st parentType selections split st',
  _processSelections ss fragmentMap getFields queryType inspect fuel thisSubschema st
    parentType selections = Ok (split, st') ->
  bareState st -> bareSplit split /\ bareState st'.
Proof.
induction fuel as [|fuel IH]; intros thisSubschema st parentType selections split st'
  Hprocess Hst; [done|].
simpl in Hprocess. eapply processAll_bare; [| |exact Hprocess| |exact Hst].
- intros parentType' selections' subschema' plan Hnew. cbv beta in Hnew.
  destruct (_processSelections ss fragmentMap getFields queryType inspect fuel subschema'
              (mkState [] []) parentType' selections') as [[split0 st0]|] eqn:Hsub; [|done].
  simpl in Hnew. injection Hnew as <-.
  destruct (IH _ _ _ _ _ _ Hsub) as [[Hown Hmap] Hsubs].
  { intros key plan Hin. by apply elem_of_nil in Hin. }
  by constructor.
- intros st1 parentType1 selections1 split1 st1' H1 Hst1. by eapply IH.
- split; [done|]. intros s sels Hin. by apply elem_of_nil in Hin.
Qed.
End FieldPlanFacts.

(** X28. The selections a [FieldPlan] hands out have lost every type
    condition: whatever the selection set it is constructed from, its own
    selections, those of its selection map and those of its sub field plans
    hold no fragment spread and no inline fragment with a type condition or
    a directive, at any depth; a fragment is passed on as a bare inline
    fragment around the selections it is split into. *)
Theorem field_plan_fragments_lose_their_type_condition
    (ss : SuperSchema) (fragmentMap : list (string * FragmentDefinitionNode))
    (getFields : GraphQLType -> list (string * GraphQLField))
    (queryType : option GraphQLType) (inspect : option GraphQLType -> string)
    (fuel : nat) (parentType : GraphQLType) (selections : list SelectionNode)
    (subschema : option Subschema) (plan : FieldPlanClass.FieldPlan) :
  FieldPlanClass.newFieldPlan ss fragmentMap getFields queryType inspect fuel parentType
    selections subschema = Ok plan ->
  FieldPlanView.BarePlan plan.
Proof.
  intros Hnew. unfold FieldPlanClass.newFieldPlan in Hnew.
  destruct (FieldPlanClass._processSelections ss fragmentMap getFields queryType inspect
              fuel subschema (FieldPlanClass.mkState [] []) parentType selections)
    as [[split st]|] eqn:Hprocess; [|done].
  simpl in Hnew. injection Hnew as <-.
  destruct (processSelections_bare ss fragmentMap getFields queryType inspect fuel
              _ _ _ _ _ _ Hprocess) as [[Hown Hmap] Hsubs].
  { intros key plan Hin. by apply elem_of_nil in Hin. }
  by constructor.
Qed.

Lemma field_plan_fragments_lose_their_type_condition_witness :
  FieldPlanClass.newFieldPlan Scenario.superSchema [] FieldPlanCases.noFields
    (Some Scenario.tQuery) FieldPlanCases.typeName 3 Scenario.tNode
    FieldPlanCases.nodeSelections (Some Scenario.subschemaA)
  = Ok FieldPlanCases.nodePlan /\
  FieldPlanView.BarePlan FieldPlanCases.nodePlan.
Proof.
  split; [reflexivity|].
  apply (field_plan_fragments_lose_their_type_condition Scenario.superSchema []
           FieldPlanCases.noFields (Some Scenario.tQuery) FieldPlanCases.typeName 3
           Scenario.tNode FieldPlanCases.nodeSelections (Some Scenario.subschemaA)).
  reflexivity.
Defined.

Section MapSetTwice.
Import FieldPlanView.

Lemma mapSet_mapSet_eq {K V} `{EqDecision K} (k : K) (v w : V) m :
mapSet k v (mapSet k w m) = mapSet k v m.
Proof.
induction m as [|[k' v'] m IH]; simpl.
- by rewrite decide_True.
- destruct (decide (k' = k)) as [->|Hne]; simpl.
  + by rewrite decide_True.
  + rewrite decide_False by done. by rewrite IH.
Qed.

Lemma filedElsewhere_mapSet_twice byField subschema leaves s sels m :
filedElsewhere byField subschema leaves (mapSet s sels m) ->
filedElsewhere byField subschema leaves (mapSet s sels (mapSet s [] m)).
Proof. by rewrite mapSet_mapSet_eq. Qed.
End MapSetTwice.

Section FieldPlanLeaves.
Import FieldPlanClass FieldPlanView.
Context (ss : SuperSchema).
Context (fragmentMap : list (string * FragmentDefinitionNode)).
Context (getFields : GraphQLType -> list (string * GraphQLField)).
Context (queryType : option GraphQLType).
Context (inspect : option GraphQLType -> string).
Context (newPlan : GraphQLType -> list SelectionNode -> option Subschema -> Result FieldPlan).
Context (process : State -> GraphQLType -> list SelectionNode -> Result (Split * State)).
Context (byField : list (string * SubschemaSet)) (subschema : Subschema).

Lemma processSelection_leaf parentType f split st :
getProp (type_name parentType) (subschemaSetsByTypeAndField ss) = Some byField ->
selectionSet f = None ->
processSelection ss fragmentMap getFields queryType inspect newPlan (Some subschema)
  process parentType (fieldSelection f) split st
= match getProp (name f) byField with
  | None => Ok (split, st)
  | Some set =>
      let '(_, target, split1) := _getSubschemaAndSelections (Some subschema) set split in
      Ok (push target (fieldSelection f) split1, st)
  end.
Proof.
intros Htype Hf. destruct f as [a n args dirs sel]. simpl in Hf. subst sel.
change (processSelection ss fragmentMap getFields queryType inspect newPlan (Some subschema)
          process parentType (fieldSelection (mkFieldNode a n args dirs None)) split st)
  with (_addField ss getFields queryType inspect newPlan (Some subschema) parentType
          (mkFieldNode a n args dirs None) split st).
unfold _addField. rewrite Htype. cbn [name selectionSet].
destruct (getProp n byField) as [set|]; [|done].
by destruct (_getSubschemaAndSelections (Some subschema) set split) as [[s target] split1].
Qed.

Lemma processAll_cons parentType selection rest split st :
processAll ss fragmentMap getFields queryType inspect newPlan (Some subschema) process
  parentType (selection :: rest) split st
= do (split1, st1) <-
     processSelection ss fragmentMap getFields queryType inspect newPlan (Some subschema)
       process parentType selection split st;
  processAll ss fragmentMap getFields queryType inspect newPlan (Some subschema) process
    parentType rest split1 st1.
Proof. reflexivity. Qed.

Lemma getSubschemaAndSelections_own set split :
setHas set subschema = true ->
_getSubschemaAndSelections (Some subschema) set split = (subschema, Own, split).
Proof. intros Hhas. unfold _getSubschemaAndSelections. by rewrite Hhas. Qed.

Lemma getSubschemaAndSelections_elsewhere set split :
setHas set subschema = false ->
_getSubschemaAndSelections (Some subschema) set split
= match RootSplit.firstHeld (members set) (selMap split) with
  | Some (subschema', _) => (subschema', InMap subschema', split)
  | None =>
      (firstSubschema set, InMap (firstSubschema set),
       mkSplit (own split) (mapSet (firstSubschema set) [] (selMap split)))
  end.
Proof. intros Hhas. unfold _getSubschemaAndSelections. by rewrite Hhas. Qed.

Lemma leaves_processAll parentType (leaves : list FieldNode) :
getProp (type_name parentType) (subschemaSetsByTypeAndField ss) = Some byField ->
(forall f, f ∈ leaves -> selectionSet f = None) ->
forall split st seen,
  filedElsewhere byField subschema seen (selMap split) ->
  exists split',
    processAll ss fragmentMap getFields queryType inspect newPlan (Some subschema) process
      parentType (map fieldSelection leaves) split st = Ok (split', st) /\
    own split' = own split
                 ++ map fieldSelection
                      (filter (fun f => ownedBy byField subschema f = true) leaves) /\
    filedElsewhere byField subschema (seen ++ leaves) (selMap split').
Proof.
intros Htype. induction leaves as [|f fs IH]; intros Hleaves split st seen Hmap.
- exists split. simpl. by rewrite !app_nil_r.
- assert (Hf : selectionSet f = None) by (apply Hleaves; left).
  assert (Hfs : forall g, g ∈ fs -> selectionSet g = None)
    by (intros g Hg; apply Hleaves; by right).
  assert (Hgrow : forall m, filedElsewhere byField subschema seen m ->
                            filedElsewhere byField subschema (seen ++ [f]) m).
  { intros m Hm s' sels sel Hin Hsel.
    destruct (Hm s' sels sel Hin Hsel) as (g & Hg & Hrest).
    exists g. split; [apply elem_of_app; by left|done]. }
  assert (Hone : exists split1,
    processSelection ss fragmentMap getFields queryType inspect newPlan (Some subschema)
      process parentType (fieldSelection f) split st = Ok (split1, st) /\
    own split1 = own split
                 ++ (if ownedBy byField subschema f then [fieldSelection f] else []) /\
    filedElsewhere byField subschema (seen ++ [f]) (selMap split1)).
  { rewrite (processSelection_leaf parentType f split st Htype Hf).
    unfold ownedBy.
    destruct (getProp (name f) byField) as [set|] eqn:Hset.
    - destruct (setHas set subschema) eqn:Hhas.
      + rewrite (getSubschemaAndSelections_own set split Hhas).
        eexists. split; [reflexivity|]. split; [done|]. by apply Hgrow.
      + rewrite (getSubschemaAndSelections_elsewhere set split Hhas).
        assert (Hnew : forall s' sels,
                  s' ∈ members set ->
                  (forall sel, sel ∈ sels ->
                     exists g, g ∈ seen ++ [f] /\
                               sel = fieldSelection g /\
                               ownedElsewhere byField subschema g = true /\
                               exists set', getProp (name g) byField = Some set' /\
                                            s' ∈ members set') ->
                  filedElsewhere byField subschema (seen ++ [f])
                    (mapSet s' sels (selMap split))).
        { intros s' sels Hs' Hsels s'' sels'' sel [[= -> ->]|Hin]%elem_of_mapSet Hsel.
          - by apply Hsels.
          - by eapply (Hgrow _ Hmap). }
        assert (Hthis : forall s', s' ∈ members set ->
                  exists g, g ∈ seen ++ [f] /\
                    fieldSelection f = fieldSelection g /\
                    ownedElsewhere byField subschema g = true /\
                    exists set', getProp (name g) byField = Some set' /\ s' ∈ members set').
        { intros s' Hs'. exists f. split; [apply elem_of_app; right; left|]. split; [done|].
          split; [unfold ownedElsewhere; by rewrite Hset, Hhas|]. by exists set. }
        destruct (RootSplit.firstHeld (members set) (selMap split)) as [[s' sels]|] eqn:Hheld.
        * apply firstHeld_Some in Hheld as [Hs' Hget].
          eexists. split; [reflexivity|]. split; [by rewrite app_nil_r|].
          unfold push. cbn [selMap own]. rewrite Hget. apply Hnew; [done|].
          intros sel [Hsel| ->%list_elem_of_singleton]%elem_of_app.
          -- destruct (Hmap s' sels sel (mapGet_elem_of _ _ _ Hget) Hsel)
               as (g & Hg & Hrest).
             exists g. split; [apply elem_of_app; by left|done].
          -- by apply Hthis.
        * eexists. split; [reflexivity|]. split; [by rewrite app_nil_r|].
          unfold push. cbn [selMap own]. rewrite mapGet_mapSet_eq.
          apply filedElsewhere_mapSet_twice. apply Hnew; [left|].
          intros sel ->%list_elem_of_singleton. apply Hthis. left.
    - eexists. split; [reflexivity|]. split; [by rewrite app_nil_r|]. by apply Hgrow. }
  destruct Hone as (split1 & Hstep & Hown1 & Hmap1).
  destruct (IH Hfs split1 st (seen ++ [f]) Hmap1) as (split' & Hrest & Hown' & Hmap').
  exists split'. split; [|split].
  + rewrite fmap_cons, processAll_cons, Hstep. exact Hrest.
  + rewrite Hown', Hown1, filter_cons.
    destruct (ownedBy byField subschema f) eqn:Ho.
    * rewrite decide_True by done. by rewrite <- app_assoc.
    * rewrite decide_False by (by intros ?). by rewrite app_nil_r.
  + by rewrite <- app_assoc in Hmap'.
Qed.
End FieldPlanLeaves.

(** X29. A field plan made for a subschema keeps for that subschema every
    leaf field it has: for a selection set of leaf fields, the plan's own
    selections are the fields whose set contains the plan's subschema, in
    order; the selection map holds only fields the subschema does not have,
    each under a subschema that has it; fields no subschema has are dropped,
    and there is no sub field plan. *)
Theorem field_plan_keeps_what_its_subschema_has
    (ss : SuperSchema) (fragmentMap : list (string * FragmentDefinitionNode))
    (getFields : GraphQLType -> list (string * GraphQLField))
    (queryType : option GraphQLType) (inspect : option GraphQLType -> string)
    (fuel : nat) (parentType : GraphQLType) (byField : list (string * SubschemaSet))
    (subschema : Subschema) (leaves : list FieldNode) :
  getProp (type_name parentType) (subschemaSetsByTypeAndField ss) = Some byField ->
  (forall f, f ∈ leaves -> selectionSet f = None) ->
  exists selectionMap,
    FieldPlanClass.newFieldPlan ss fragmentMap getFields queryType inspect (S fuel)
      parentType (map fieldSelection leaves) (Some subschema)
    = Ok (FieldPlanClass.mkFieldPlan
            (map fieldSelection
               (filter (fun f => ownedBy byField subschema f = true) leaves))
            selectionMap []) /\
    FieldPlanView.filedElsewhere byField subschema leaves selectionMap.
Proof.
  intros Htype Hleaves. unfold FieldPlanClass.newFieldPlan.
  set (newPlan := fun parentType' selections' subschema' =>
         do (split, st') <-
            FieldPlanClass._processSelections ss fragmentMap getFields queryType
              inspect fuel subschema' (FieldPlanClass.mkState [] []) parentType'
              selections';
         Ok (FieldPlanClass.mkFieldPlan (FieldPlanClass.own split)
               (FieldPlanClass.selMap split) (FieldPlanClass.st_subFieldPlans st'))).
  set (process := FieldPlanClass._processSelections ss fragmentMap getFields queryType
                    inspect fuel (Some subschema)).
  change (FieldPlanClass._processSelections ss fragmentMap getFields queryType inspect
            (S fuel) (Some subschema) (FieldPlanClass.mkState [] []) parentType
            (map fieldSelection leaves))
    with (FieldPlanClass.processAll ss fragmentMap getFields queryType inspect
            newPlan (Some subschema) process
            parentType (map fieldSelection leaves) (FieldPlanClass.mkSplit [] [])
            (FieldPlanClass.mkState [] [])).
  destruct (leaves_processAll ss fragmentMap getFields queryType inspect newPlan process
              byField subschema parentType leaves Htype Hleaves
              (FieldPlanClass.mkSplit [] []) (FieldPlanClass.mkState [] []) [])
    as (split' & -> & Hown & Hmap).
  { intros s sels sel Hin. by apply elem_of_nil in Hin. }
  exists (FieldPlanClass.selMap split'). simpl. rewrite Hown. by split.
Qed.

Lemma field_plan_keeps_what_its_subschema_has_witness :
  FieldPlanClass.newFieldPlan Scenario.superSchema [] FieldPlanCases.noFields
    (Some Scenario.tQuery) FieldPlanCases.typeName 1 Scenario.tUser
    (map fieldSelection
       [Scenario.leafNode "email"; Scenario.leafNode "name"; Scenario.leafNode "nope";
        Scenario.leafNode "id"])
    (Some Scenario.subschemaA)
  = Ok (FieldPlanClass.mkFieldPlan [Scenario.leaf "name"; Scenario.leaf "id"]
          [(Scenario.subschemaB, [Scenario.leaf "email"])] []).
Proof.
  destruct (field_plan_keeps_what_its_subschema_has Scenario.superSchema []
              FieldPlanCases.noFields (Some Scenario.tQuery) FieldPlanCases.typeName 0
              Scenario.tUser _ Scenario.subschemaA
              [Scenario.leafNode "email"; Scenario.leafNode "name";
               Scenario.leafNode "nope"; Scenario.leafNode "id"] eq_refl)
    as (selectionMap & Hplan & _).
  - intros f Hf. repeat (apply elem_of_cons in Hf as [->|Hf]; [reflexivity|]).
    by apply elem_of_nil in Hf.
  - reflexivity.
Defined.

(** ** The first definition wins *)



Section MergedFacts.
Import MergedElements.
Context {Element Config : Type} (toConfig : Element -> Config).

Lemma mergeOne_lookup elements name :
forall merged,
  getProp name (mergeOne toConfig merged elements)
  = match getProp name merged with
    | Some config => Some config
    | None => option_map toConfig (getProp name elements)
    end.
Proof.
unfold mergeOne. induction elements as [|[n e] elements IH]; intros merged; simpl.
- by destruct (getProp name merged).
- rewrite IH. destruct (String.eqb n name) eqn:E.
  + apply String.eqb_eq in E as ->.
    destruct (getProp name merged) as [config|] eqn:Hm; [by rewrite Hm|].
    by rewrite getProp_setProp_eq.
  + assert (Hne : name <> n) by (intros ->; by rewrite String.eqb_refl in E).
    destruct (getProp n merged); [done|]. by rewrite getProp_setProp_ne.
Qed.

Lemma merged_lookup originalTypes name :
forall merged,
  getProp name (fold_left (mergeOne toConfig) originalTypes merged)
  = match getProp name merged with
    | Some config => Some config
    | None => option_map toConfig (head (omap (getProp name) originalTypes))
    end.
Proof.
induction originalTypes as [|elements rest IH]; intros merged.
- simpl. by destruct (getProp name merged).
- change (fold_left (mergeOne toConfig) (elements :: rest) merged)
    with (fold_left (mergeOne toConfig) rest (mergeOne toConfig merged elements)).
  rewrite IH, mergeOne_lookup.
  assert (Hlist : omap (getProp name) (elements :: rest)
                  = match getProp name elements with
                    | Some e => e :: omap (getProp name) rest
                    | None => omap (getProp name) rest
                    end) by done.
  rewrite Hlist. destruct (getProp name merged); [done|].
  by destruct (getProp name elements).
Qed.

Lemma mergeOne_keys elements :
forall merged, NoDup (keys merged) -> NoDup (keys (mergeOne toConfig merged elements)).
Proof.
unfold mergeOne. induction elements as [|[n e] elements IH]; intros merged Hnd; [done|].
simpl. apply IH. destruct (getProp n merged); [done|]. by apply NoDup_keys_setProp.
Qed.

Lemma merged_keys originalTypes :
forall merged,
  NoDup (keys merged) -> NoDup (keys (fold_left (mergeOne toConfig) originalTypes merged)).
Proof.
induction originalTypes as [|elements rest IH]; intros merged Hnd; [done|].
simpl. apply IH. by apply mergeOne_keys.
Qed.
End MergedFacts.

(** X30. In a merged field map the first definition wins: a field has the
    configuration made from the first of the original types that has a
    field of that name, whatever later types say about it, and there is no
    field that none of them has; no name is there twice. *)
Theorem merged_field_map_takes_the_first_definition {Element Config : Type}
    (toConfig : Element -> Config) (originalTypes : list (list (string * Element)))
    (fieldName : string) :
  getProp fieldName (MergedElements._getMergedFieldMap toConfig originalTypes)
  = option_map toConfig (head (omap (getProp fieldName) originalTypes)) /\
  NoDup (keys (MergedElements._getMergedFieldMap toConfig originalTypes)).
Proof.
  unfold MergedElements._getMergedFieldMap. split.
  - by rewrite merged_lookup.
  - apply merged_keys. constructor.
Qed.

